(** * JVMTI object tagging and heap walking (jvmtiTagMap.cpp)

    A shallow embedding of the tag store ([JvmtiTagHashmap], [JvmtiTagMap]),
    of the callback wrappers and of the heap walker of
    [src/share/vm/prims/jvmtiTagMap.cpp], followed by the properties proved
    about them.  Pointers into entry chains are replaced by lists: a bucket
    is the list of the entries reached from its head by [next()]. *)

From Stdlib Require Import ZArith Lia.
From stdpp Require Import base tactics option numbers relations functions list list_numbers gmap.

Local Open Scope Z_scope.

(** ** Values *)

(** An [oop] is the address of an object; [NULL] is the address 0.  A tag
    is a [jlong]; tags are only stored and compared, never computed with. *)
Definition oop := Z.
Definition jlong := Z.
Definition NULL : oop := 0.

(** ** Collaborators

    What the file takes from the rest of the VM: the object model, two
    build or start-up constants, and the result of the floating-point
    product that gives the resize threshold. *)
Class Collaborators := {
  (** [_LP64]: addresses are shifted by 3 bits before hashing, else by 2. *)
  lp64 : bool;
  (** [(int)(_load_factor * _size)], a [float] product. *)
  load_threshold : Z -> Z;
  (** [JvmtiTagMap::max_free_entries], declared in jvmtiTagMap.hpp. *)
  max_free_entries : Z;
  (** [o->klass()]. *)
  klass : oop -> oop;
  (** [SystemDictionary::Class_klass()]. *)
  Class_klass : oop;
  (** [java_lang_Class::is_primitive(o)]. *)
  java_lang_Class_is_primitive : oop -> bool;
  (** [java_lang_Class::as_klassOop(o)]. *)
  java_lang_Class_as_klassOop : oop -> oop;
  (** [o->is_klass()]. *)
  is_klass : oop -> bool;
  (** [Klass::cast(k)->java_mirror()]. *)
  java_mirror : oop -> oop;
  (** [o->size() * wordSize]. *)
  obj_size_in_bytes : oop -> jlong
}.

(** ** JvmtiTagHashmapEntry *)

(** The tagged object and the tag; [_next] is the tail of the chain the
    entry sits in. *)
Record JvmtiTagHashmapEntry := mkEntry { _object : oop; _tag : jlong }.

#[global] Instance entry_eq_dec : EqDecision JvmtiTagHashmapEntry.
Proof. solve_decision. Defined.

Abbreviation chain := (list JvmtiTagHashmapEntry).

(** ** JvmtiTagHashmap *)

Module Hashmap.
Section Hashmap.
Context `{!Collaborators}.

(** [_load_factor] is a float and only enters through [load_threshold];
    [_trace_threshold] only drives trace output and is left out. *)
Record JvmtiTagHashmap := mkHashmap {
  _size : Z;
  _size_index : Z;
  _entry_count : Z;
  _resize_threshold : Z;
  _resizing_enabled : bool;
  _table : list chain
}.

Definition _sizes : list Z :=
  [4801; 76831; 307261; 614563; 1228891; 2457733; 4915219; 9830479;
   19660831; 39321619; 78643219; -1].

Definition sizes_at (i : Z) : Z := default (-1) (_sizes !! Z.to_nat i).

Definition init (size_index : Z) : JvmtiTagHashmap :=
  let initial_size := sizes_at size_index in
  {| _size := initial_size;
     _size_index := size_index;
     _entry_count := 0;
     _resize_threshold := load_threshold initial_size;
     _resizing_enabled := true;
     _table := replicate (Z.to_nat initial_size) [] |}.

(** [hash(oop key, int size)]: the address is truncated to
    [unsigned int], shifted and reduced modulo the size. *)
Definition hash (key : oop) (size : Z) : Z :=
  Z.shiftr (key mod 2 ^ 32) (if lp64 then 3 else 2) mod size.

Definition bucket (table : list chain) (pos : Z) : chain :=
  default [] (table !! Z.to_nat pos).

Definition set_bucket (table : list chain) (pos : Z) (c : chain) : list chain :=
  <[Z.to_nat pos := c]> table.

Definition set_table (t : list chain) (h : JvmtiTagHashmap) : JvmtiTagHashmap :=
  {| _size := _size h; _size_index := _size_index h;
     _entry_count := _entry_count h;
     _resize_threshold := _resize_threshold h;
     _resizing_enabled := _resizing_enabled h;
     _table := t |}.

Definition set_entry_count (n : Z) (h : JvmtiTagHashmap) : JvmtiTagHashmap :=
  {| _size := _size h; _size_index := _size_index h;
     _entry_count := n;
     _resize_threshold := _resize_threshold h;
     _resizing_enabled := _resizing_enabled h;
     _table := _table h |}.

Definition set_resizing_enabled (enable : bool) (h : JvmtiTagHashmap)
  : JvmtiTagHashmap :=
  {| _size := _size h; _size_index := _size_index h;
     _entry_count := _entry_count h;
     _resize_threshold := _resize_threshold h;
     _resizing_enabled := enable;
     _table := _table h |}.

(** The chain walk of [find]. *)
Fixpoint chain_find (key : oop) (c : chain) : option JvmtiTagHashmapEntry :=
  match c with
  | [] => None
  | entry :: next =>
      if decide (_object entry = key) then Some entry
      else chain_find key next
  end.

Definition find (h : JvmtiTagHashmap) (key : oop)
  : option JvmtiTagHashmapEntry :=
  chain_find key (bucket (_table h) (hash key (_size h))).

(** Linking an entry at the head of a bucket, as [add], [resize] and
    [do_weak_oops] do. *)
Definition link_front (entry : JvmtiTagHashmapEntry) (pos : Z)
    (table : list chain) : list chain :=
  match bucket table pos with
  | [] => set_bucket table pos [entry]
  | anchor :: rest => set_bucket table pos (entry :: anchor :: rest)
  end.

Definition rehash_chain (new_size : Z) (new_table : list chain) (c : chain)
  : list chain :=
  foldl (fun t entry => link_front entry (hash (_object entry) new_size) t)
        new_table c.

(** [resize()]; [malloc_ok] is whether [os::malloc] returned a table. *)
Definition resize (malloc_ok : bool) (h : JvmtiTagHashmap) : JvmtiTagHashmap :=
  let new_size_index := _size_index h + 1 in
  let new_size := sizes_at new_size_index in
  if new_size <? 0 then h
  else if negb malloc_ok then set_resizing_enabled false h
  else
    let new_table := replicate (Z.to_nat new_size) [] in
    {| _size := new_size;
       _size_index := new_size_index;
       _entry_count := _entry_count h;
       _resize_threshold := load_threshold new_size;
       _resizing_enabled := _resizing_enabled h;
       _table := foldl (rehash_chain new_size) new_table (_table h) |}.

(** [add(oop key, JvmtiTagHashmapEntry* entry)]. *)
Definition add (malloc_ok : bool) (key : oop) (entry : JvmtiTagHashmapEntry)
    (h : JvmtiTagHashmap) : JvmtiTagHashmap :=
  let h1 := set_table (link_front entry (hash key (_size h)) (_table h)) h in
  let h2 := set_entry_count (_entry_count h1 + 1) h1 in
  if (_resize_threshold h2 <? _entry_count h2) && _resizing_enabled h2
  then resize malloc_ok h2
  else h2.

(** The chain walk of [remove(oop key)]: the entry found, if any, and the
    chain without it. *)
Fixpoint chain_remove (key : oop) (c : chain)
  : option JvmtiTagHashmapEntry * chain :=
  match c with
  | [] => (None, [])
  | entry :: next =>
      if decide (key = _object entry) then (Some entry, next)
      else let '(r, next') := chain_remove key next in (r, entry :: next')
  end.

Definition remove (key : oop) (h : JvmtiTagHashmap)
  : option JvmtiTagHashmapEntry * JvmtiTagHashmap :=
  let pos := hash key (_size h) in
  match chain_remove key (bucket (_table h) pos) with
  | (None, _) => (None, h)
  | (Some entry, c) =>
      (Some entry,
       set_entry_count (_entry_count h - 1)
         (set_table (set_bucket (_table h) pos c) h))
  end.

(** [entry->set_tag(tag)] on the entry that [find(key)] returned. *)
Fixpoint chain_set_tag (key : oop) (tag : jlong) (c : chain) : chain :=
  match c with
  | [] => []
  | entry :: next =>
      if decide (_object entry = key) then mkEntry (_object entry) tag :: next
      else entry :: chain_set_tag key tag next
  end.

Definition entry_set_tag (key : oop) (tag : jlong) (h : JvmtiTagHashmap)
  : JvmtiTagHashmap :=
  let pos := hash key (_size h) in
  set_table
    (set_bucket (_table h) pos (chain_set_tag key tag (bucket (_table h) pos)))
    h.

(** [entry_iterate]: the entries in the order the closure sees them. *)
Definition entries (h : JvmtiTagHashmap) : chain := concat (_table h).

End Hashmap.
End Hashmap.

(** ** JvmtiTagMap *)

Module TagMap.
Import Hashmap.
Section TagMap.
Context `{!Collaborators}.

(** The hashmap and the free list of retired entries. *)
Record JvmtiTagMap := mkTagMap {
  _hashmap : JvmtiTagHashmap;
  _free_entries : chain;
  _free_entries_count : Z
}.

Definition set_hashmap (h : JvmtiTagHashmap) (tm : JvmtiTagMap) : JvmtiTagMap :=
  {| _hashmap := h;
     _free_entries := _free_entries tm;
     _free_entries_count := _free_entries_count tm |}.

(** [JvmtiTagMap::JvmtiTagMap]: [new JvmtiTagHashmap()], empty free list. *)
Definition new_tag_map : JvmtiTagMap :=
  {| _hashmap := init 0; _free_entries := []; _free_entries_count := 0 |}.

(** [create_entry]: a node off the free list when there is one, else a
    new node; either way initialised with [(ref, tag)]. *)
Definition create_entry (ref : oop) (tag : jlong) (tm : JvmtiTagMap)
  : JvmtiTagHashmapEntry * JvmtiTagMap :=
  match _free_entries tm with
  | [] => (mkEntry ref tag, tm)
  | entry :: next =>
      (mkEntry ref tag,
       {| _hashmap := _hashmap tm;
          _free_entries := next;
          _free_entries_count := _free_entries_count tm - 1 |})
  end.

(** [destroy_entry]: back on the free list, unless the list is full. *)
Definition destroy_entry (entry : JvmtiTagHashmapEntry) (tm : JvmtiTagMap)
  : JvmtiTagMap :=
  if max_free_entries <=? _free_entries_count tm then tm
  else {| _hashmap := _hashmap tm;
          _free_entries := entry :: _free_entries tm;
          _free_entries_count := _free_entries_count tm + 1 |}.

Definition is_empty (tm : JvmtiTagMap) : bool :=
  _entry_count (_hashmap tm) =? 0.

Definition tag_for (tm : JvmtiTagMap) (o : oop) : jlong :=
  match find (_hashmap tm) o with
  | None => 0
  | Some entry => _tag entry
  end.

Definition klassOop_if_java_lang_Class (o : oop) : oop :=
  if decide (klass o = Class_klass) then
    if negb (java_lang_Class_is_primitive o)
    then java_lang_Class_as_klassOop o
    else o
  else o.

(** [set_tag(jobject object, jlong tag)]; [o] is the resolved handle. *)
Definition set_tag (malloc_ok : bool) (o : oop) (tag : jlong)
    (tm : JvmtiTagMap) : JvmtiTagMap :=
  let o := klassOop_if_java_lang_Class o in
  let hashmap := _hashmap tm in
  match find hashmap o with
  | None =>
      if decide (tag <> 0) then
        let '(entry, tm1) := create_entry o tag tm in
        set_hashmap (add malloc_ok o entry (_hashmap tm1)) tm1
      else tm
  | Some entry =>
      if decide (tag = 0) then
        destroy_entry entry (set_hashmap (snd (remove o hashmap)) tm)
      else set_hashmap (entry_set_tag o tag hashmap) tm
  end.

Definition get_tag (tm : JvmtiTagMap) (o : oop) : jlong :=
  tag_for tm (klassOop_if_java_lang_Class o).

(** *** CallbackWrapper *)

Record CallbackWrapper := mkWrapper {
  _entry : option JvmtiTagHashmapEntry;
  _o : oop;
  _obj_size : jlong;
  _obj_tag : jlong;
  _klass : oop;
  _klass_tag : jlong
}.

(** The constructor. *)
Definition CallbackWrapper_new (tm : JvmtiTagMap) (o : oop) : CallbackWrapper :=
  let o' := klassOop_if_java_lang_Class o in
  let entry := find (_hashmap tm) o' in
  let k := if decide (o' = o) then klass o' else Class_klass in
  {| _entry := entry;
     _o := o';
     _obj_size := obj_size_in_bytes o';
     _obj_tag := match entry with None => 0 | Some e => _tag e end;
     _klass := k;
     _klass_tag := tag_for tm k |}.

(** What the callback does to the wrapper: it writes through [obj_tag_p()]. *)
Definition write_obj_tag (t : jlong) (w : CallbackWrapper) : CallbackWrapper :=
  {| _entry := _entry w; _o := _o w; _obj_size := _obj_size w;
     _obj_tag := t; _klass := _klass w; _klass_tag := _klass_tag w |}.

Definition post_callback_tag_update (malloc_ok : bool) (o : oop)
    (entry : option JvmtiTagHashmapEntry) (obj_tag : jlong)
    (tm : JvmtiTagMap) : JvmtiTagMap :=
  match entry with
  | None =>
      if decide (obj_tag <> 0) then
        let '(entry, tm1) := create_entry o obj_tag tm in
        set_hashmap (add malloc_ok o entry (_hashmap tm1)) tm1
      else tm
  | Some entry =>
      if decide (obj_tag = 0) then
        destroy_entry entry (set_hashmap (snd (remove o (_hashmap tm))) tm)
      else if decide (obj_tag <> _tag entry) then
        set_hashmap (entry_set_tag o obj_tag (_hashmap tm)) tm
      else tm
  end.

(** The destructor. *)
Definition CallbackWrapper_delete (malloc_ok : bool) (w : CallbackWrapper)
    (tm : JvmtiTagMap) : JvmtiTagMap :=
  post_callback_tag_update malloc_ok (_o w) (_entry w) (_obj_tag w) tm.

(** *** TwoOopCallbackWrapper *)

Record TwoOopCallbackWrapper := mkTwoOop {
  base : CallbackWrapper;
  _is_reference_to_self : bool;
  _referrer_entry : option JvmtiTagHashmapEntry;
  _referrer : oop;
  _referrer_obj_tag : jlong;
  _referrer_klass_tag : jlong
}.

(** In the self-reference branch the fields of the referrer are left
    uninitialised by the source; the model fills them with the object's. *)
Definition TwoOopCallbackWrapper_new (tm : JvmtiTagMap) (referrer o : oop)
  : TwoOopCallbackWrapper :=
  let w := CallbackWrapper_new tm o in
  if decide (referrer = o) then
    {| base := w; _is_reference_to_self := true;
       _referrer_entry := _entry w; _referrer := _o w;
       _referrer_obj_tag := _obj_tag w;
       _referrer_klass_tag := _klass_tag w |}
  else
    let r := klassOop_if_java_lang_Class referrer in
    let entry := find (_hashmap tm) r in
    let k := if decide (r = referrer) then klass r else Class_klass in
    {| base := w; _is_reference_to_self := false;
       _referrer_entry := entry; _referrer := r;
       _referrer_obj_tag := match entry with None => 0 | Some e => _tag e end;
       _referrer_klass_tag := tag_for tm k |}.

(** [*referrer_tag_p()]: the object's slot for a self reference. *)
Definition referrer_tag (w : TwoOopCallbackWrapper) : jlong :=
  if _is_reference_to_self w then _obj_tag (base w) else _referrer_obj_tag w.

(** The callback's writes through [obj_tag_p()] and [referrer_tag_p()];
    for a self reference both name the object's slot, which ends with
    [obj_tag]. *)
Definition write_tags (obj_tag ref_tag : jlong) (w : TwoOopCallbackWrapper)
  : TwoOopCallbackWrapper :=
  {| base := write_obj_tag obj_tag (base w);
     _is_reference_to_self := _is_reference_to_self w;
     _referrer_entry := _referrer_entry w; _referrer := _referrer w;
     _referrer_obj_tag :=
       if _is_reference_to_self w then _referrer_obj_tag w else ref_tag;
     _referrer_klass_tag := _referrer_klass_tag w |}.

(** The destructor: the referrer first, then the base class. *)
Definition TwoOopCallbackWrapper_delete (malloc_ok1 malloc_ok2 : bool)
    (w : TwoOopCallbackWrapper) (tm : JvmtiTagMap) : JvmtiTagMap :=
  let tm1 :=
    if negb (_is_reference_to_self w) then
      post_callback_tag_update malloc_ok1 (_referrer w) (_referrer_entry w)
        (_referrer_obj_tag w) tm
    else tm in
  CallbackWrapper_delete malloc_ok2 (base w) tm1.


(** *** do_weak_oops: the pass run by the collector *)

(** What the scan does with the entry it visits. *)
Inductive scan_action :=
| Freed                    (* dead referent: unlinked and destroyed *)
| Stays                    (* still hashes to the bucket it is in *)
| MovedNow (new_pos : Z)   (* linked at once into an earlier bucket *)
| Delayed (new_pos : Z).   (* put aside on [delayed_add] *)

(** The log of a pass: one [Visit] per iteration of the inner loop, with
    the bucket scanned and the entry as found, and one [Readd] per
    iteration of the final loop. The log is not state of the source. *)
Inductive scan_event :=
| Visit (pos : Z) (entry : JvmtiTagHashmapEntry) (a : scan_action)
| Readd (entry : JvmtiTagHashmapEntry) (pos : Z).

Record scan_state := mkScan {
  sc_tag_map : JvmtiTagMap;
  sc_delayed_add : chain;
  (** the tags handed to [JvmtiExport::post_object_free] *)
  sc_posted : list jlong;
  sc_log : list scan_event
}.

Definition sc_table (st : scan_state) : list chain :=
  _table (_hashmap (sc_tag_map st)).

Definition sc_set_table (t : list chain) (st : scan_state) : scan_state :=
  {| sc_tag_map := set_hashmap (set_table t (_hashmap (sc_tag_map st)))
                     (sc_tag_map st);
     sc_delayed_add := sc_delayed_add st;
     sc_posted := sc_posted st;
     sc_log := sc_log st |}.

Section do_weak_oops.
(** [is_alive->do_object_b(o)]; the address [f->do_oop] leaves in the
    entry; whether the environment has OBJECT_FREE enabled. *)
Variable is_alive : oop -> bool.
Variable f : oop -> oop.
Variable post_object_free : bool.

(** The dead entry: [hashmap->remove(prev, pos, entry)],
    [destroy_entry(entry)] and the event. *)
Definition scan_free (pos : Z) (entry : JvmtiTagHashmapEntry)
    (st : scan_state) : scan_state :=
  let tag := _tag entry in
  let tm := sc_tag_map st in
  let h := set_entry_count (_entry_count (_hashmap tm) - 1) (_hashmap tm) in
  {| sc_tag_map := destroy_entry entry (set_hashmap h tm);
     sc_delayed_add := sc_delayed_add st;
     sc_posted :=
       if post_object_free then sc_posted st ++ [tag] else sc_posted st;
     sc_log := sc_log st ++ [Visit pos entry Freed] |}.

Definition scan_log (ev : scan_event) (st : scan_state) : scan_state :=
  {| sc_tag_map := sc_tag_map st; sc_delayed_add := sc_delayed_add st;
     sc_posted := sc_posted st; sc_log := sc_log st ++ [ev] |}.

Definition scan_delay (entry : JvmtiTagHashmapEntry) (st : scan_state)
  : scan_state :=
  {| sc_tag_map := sc_tag_map st;
     sc_delayed_add := entry :: sc_delayed_add st;
     sc_posted := sc_posted st; sc_log := sc_log st |}.

(** The inner [while (entry != NULL)] loop over the chain of bucket
    [pos]. The result is the part of the chain left in the bucket ([prev]
    and what is linked before it) and the state; entries that leave
    the chain are unlinked from it by not being part of the result. *)
Fixpoint scan_chain (size pos : Z) (c : chain) (st : scan_state)
  : chain * scan_state :=
  match c with
  | [] => ([], st)
  | entry :: next =>
      if negb (is_alive (_object entry)) then
        scan_chain size pos next (scan_free pos entry st)
      else
        let new_oop := f (_object entry) in
        let moved := mkEntry new_oop (_tag entry) in
        let new_pos := hash new_oop size in
        if decide (new_pos <> pos) then
          if decide (new_pos < pos) then
            let t := sc_table st in
            let st1 :=
              sc_set_table (set_bucket t new_pos (moved :: bucket t new_pos)) st in
            scan_chain size pos next
              (scan_log (Visit pos entry (MovedNow new_pos)) st1)
          else
            scan_chain size pos next
              (scan_log (Visit pos entry (Delayed new_pos))
                 (scan_delay moved st))
        else
          let '(kept, st1) :=
            scan_chain size pos next (scan_log (Visit pos entry Stays) st) in
          (moved :: kept, st1)
  end.

(** One iteration of [for (int pos = 0; pos < size; ++pos)]. *)
Definition scan_bucket (size : Z) (st : scan_state) (pos : Z) : scan_state :=
  let '(kept, st1) := scan_chain size pos (bucket (sc_table st) pos) st in
  sc_set_table (set_bucket (sc_table st1) pos kept) st1.

(** The final loop: re-add the entries that were kept aside. *)
Fixpoint readd_delayed (size : Z) (delayed_add : chain) (st : scan_state)
  : scan_state :=
  match delayed_add with
  | [] => st
  | entry :: next =>
      let pos := hash (_object entry) size in
      let t := sc_table st in
      readd_delayed size next
        (scan_log (Readd entry pos)
           (sc_set_table (set_bucket t pos (entry :: bucket t pos)) st))
  end.

Definition scan_all (tm : JvmtiTagMap) : scan_state :=
  let size := _size (_hashmap tm) in
  foldl (scan_bucket size)
    {| sc_tag_map := tm; sc_delayed_add := []; sc_posted := [];
       sc_log := [] |}
    (seqZ 0 size).

Definition do_weak_oops_state (tm : JvmtiTagMap) : scan_state :=
  let tm1 := set_hashmap (set_resizing_enabled true (_hashmap tm)) tm in
  if _entry_count (_hashmap tm1) =? 0 then
    {| sc_tag_map := tm1; sc_delayed_add := []; sc_posted := [];
       sc_log := [] |}
  else
    let st := scan_all tm1 in
    readd_delayed (_size (_hashmap tm1)) (sc_delayed_add st)
      {| sc_tag_map := sc_tag_map st; sc_delayed_add := [];
         sc_posted := sc_posted st; sc_log := sc_log st |}.

(** [do_weak_oops]: the tag map it leaves and the events it posts. *)
Definition do_weak_oops (tm : JvmtiTagMap) : JvmtiTagMap * list jlong :=
  let st := do_weak_oops_state tm in (sc_tag_map st, sc_posted st).

End do_weak_oops.

End TagMap.
End TagMap.

(** ** TagObjectCollector and get_objects_with_tags *)

Module Collector.
Import Hashmap TagMap.
Section Collector.
Context `{!Collaborators}.

(** [(uint64_t)tag] and [(jlong)u]. *)
Definition to_uint64 (t : jlong) : Z := t mod 2 ^ 64.
Definition to_jlong (u : Z) : jlong := if u <? 2 ^ 63 then u else u - 2 ^ 64.

(** A [jobject] made by [JNIHandles::make_local] is written as the object
    it refers to. [_tags] holds the [_tag_count] requested tags. *)
Record TagObjectCollector := mkCollector {
  _tags : list jlong;
  _object_results : list oop;
  _tag_results : list Z
}.

Definition new_collector (tags : list jlong) : TagObjectCollector :=
  {| _tags := tags; _object_results := []; _tag_results := [] |}.

(** The body of the loop of [do_entry], for the requested tag [t]. *)
Definition do_entry_tag (entry : JvmtiTagHashmapEntry)
    (c : TagObjectCollector) (t : jlong) : TagObjectCollector :=
  if decide (t = _tag entry) then
    let o := _object entry in
    let o := if is_klass o then java_mirror o else o in
    {| _tags := _tags c;
       _object_results := _object_results c ++ [o];
       _tag_results := _tag_results c ++ [to_uint64 (_tag entry)] |}
  else c.

(** [do_entry]: [for (int i=0; i<_tag_count; i++)] over [_tags]. *)
Definition do_entry (c : TagObjectCollector) (entry : JvmtiTagHashmapEntry)
  : TagObjectCollector :=
  foldl (do_entry_tag entry) c (_tags c).

(** [JvmtiTagHashmap::entry_iterate] with the collector as its closure. *)
Definition entry_iterate (h : JvmtiTagHashmap) (c : TagObjectCollector)
  : TagObjectCollector :=
  foldl (fun c chain => foldl do_entry c chain) c (_table h).

(** *** The memory of the caller and of [JvmtiEnv::Allocate]

    [blocks] maps the address of an allocated block to its words; [cells]
    are the variables of the caller that the out-parameters point to. An
    address is a [Z], [NULL] is 0. *)
Inductive jvmtiError := JVMTI_ERROR_NONE | JVMTI_ERROR_OUT_OF_MEMORY.

Record memory := mkMemory {
  blocks : gmap Z (list Z);
  cells : gmap Z Z
}.

(** [_env->Allocate(n * sizeof(..), mem_ptr)]; [outcome] is the block
    [os::malloc] returns, if it returns one. *)
Definition Allocate (outcome : option Z) (n : nat) (mem_ptr : Z) (m : memory)
  : jvmtiError * memory :=
  match outcome with
  | Some a =>
      (JVMTI_ERROR_NONE,
       {| blocks := <[a := replicate n 0]> (blocks m);
          cells := <[mem_ptr := a]> (cells m) |})
  | None => (JVMTI_ERROR_OUT_OF_MEMORY, m)
  end.

(** [JvmtiEnv::Deallocate] is not in the source file and is taken as a
    parameter: what [_env->Deallocate(mem)] makes of the memory, for every
    address it may be handed. Nothing is assumed of it. *)
Class JvmtiEnv := {
  Deallocate : Z -> memory -> memory
}.

Context `{!JvmtiEnv}.

(** The copy loop: every element is stored through [ptr], into the block
    that the cell at [ptr] points to. *)
Definition store_all (ptr : Z) (vs : list Z) (m : memory) : memory :=
  match cells m !! ptr with
  | Some a => {| blocks := <[a := vs]> (blocks m); cells := cells m |}
  | None => m
  end.

Definition store_cell (ptr : Z) (v : Z) (m : memory) : memory :=
  {| blocks := blocks m; cells := <[ptr := v]> (cells m) |}.

(** [result(count_ptr, object_result_ptr, tag_result_ptr)]; [alloc1] and
    [alloc2] are the outcomes of the two calls of [Allocate]. *)
Definition result (alloc1 alloc2 : option Z)
    (count_ptr object_result_ptr tag_result_ptr : Z)
    (c : TagObjectCollector) (m : memory) : jvmtiError * memory :=
  let count := length (_object_results c) in
  let step1 :=
    if decide (object_result_ptr <> NULL) then
      match Allocate alloc1 count object_result_ptr m with
      | (JVMTI_ERROR_NONE, m1) =>
          inr (store_all object_result_ptr (_object_results c) m1)
      | (error, m1) => inl (error, m1)
      end
    else inr m in
  match step1 with
  | inl r => r
  | inr m1 =>
      let step2 :=
        if decide (tag_result_ptr <> NULL) then
          match Allocate alloc2 count tag_result_ptr m1 with
          | (JVMTI_ERROR_NONE, m2) =>
              inr (store_all tag_result_ptr (to_jlong <$> _tag_results c) m2)
          | (error, m2) =>
              inl (error,
                   if decide (object_result_ptr <> NULL)
                   then Deallocate object_result_ptr m2
                   else m2)
          end
        else inr m1 in
      match step2 with
      | inl r => r
      | inr m2 =>
          (JVMTI_ERROR_NONE, store_cell count_ptr (Z.of_nat count) m2)
      end
  end.

(** [get_objects_with_tags(tags, count, count_ptr, object_result_ptr,
    tag_result_ptr)]; [tags] is the array of [count] tags. *)
Definition get_objects_with_tags (alloc1 alloc2 : option Z) (tm : JvmtiTagMap)
    (tags : list jlong) (count_ptr object_result_ptr tag_result_ptr : Z)
    (m : memory) : jvmtiError * memory :=
  let collector := entry_iterate (_hashmap tm) (new_collector tags) in
  result alloc1 alloc2 count_ptr object_result_ptr tag_result_ptr collector m.

End Collector.
End Collector.

(** ** The heap walker *)

(** *** Kinds of references and roots (jvmti.h) *)

Inductive jvmtiHeapReferenceKind :=
| JVMTI_HEAP_REFERENCE_CLASS | JVMTI_HEAP_REFERENCE_FIELD
| JVMTI_HEAP_REFERENCE_ARRAY_ELEMENT | JVMTI_HEAP_REFERENCE_CLASS_LOADER
| JVMTI_HEAP_REFERENCE_SIGNERS | JVMTI_HEAP_REFERENCE_PROTECTION_DOMAIN
| JVMTI_HEAP_REFERENCE_INTERFACE | JVMTI_HEAP_REFERENCE_STATIC_FIELD
| JVMTI_HEAP_REFERENCE_CONSTANT_POOL | JVMTI_HEAP_REFERENCE_SUPERCLASS
| JVMTI_HEAP_REFERENCE_JNI_GLOBAL | JVMTI_HEAP_REFERENCE_SYSTEM_CLASS
| JVMTI_HEAP_REFERENCE_MONITOR | JVMTI_HEAP_REFERENCE_STACK_LOCAL
| JVMTI_HEAP_REFERENCE_JNI_LOCAL | JVMTI_HEAP_REFERENCE_THREAD
| JVMTI_HEAP_REFERENCE_OTHER.

Inductive jvmtiObjectReferenceKind :=
| JVMTI_REFERENCE_CLASS | JVMTI_REFERENCE_FIELD | JVMTI_REFERENCE_ARRAY_ELEMENT
| JVMTI_REFERENCE_CLASS_LOADER | JVMTI_REFERENCE_SIGNERS
| JVMTI_REFERENCE_PROTECTION_DOMAIN | JVMTI_REFERENCE_INTERFACE
| JVMTI_REFERENCE_STATIC_FIELD | JVMTI_REFERENCE_CONSTANT_POOL.

Inductive jvmtiHeapRootKind :=
| JVMTI_HEAP_ROOT_JNI_GLOBAL | JVMTI_HEAP_ROOT_SYSTEM_CLASS
| JVMTI_HEAP_ROOT_MONITOR | JVMTI_HEAP_ROOT_STACK_LOCAL
| JVMTI_HEAP_ROOT_JNI_LOCAL | JVMTI_HEAP_ROOT_THREAD | JVMTI_HEAP_ROOT_OTHER.

Inductive jvmtiIterationControl :=
| JVMTI_ITERATION_ABORT | JVMTI_ITERATION_CONTINUE | JVMTI_ITERATION_IGNORE.

#[global] Instance jvmtiHeapReferenceKind_eq_dec : EqDecision jvmtiHeapReferenceKind.
Proof. solve_decision. Defined.
#[global] Instance jvmtiIterationControl_eq_dec : EqDecision jvmtiIterationControl.
Proof. solve_decision. Defined.

(** The bits of the result of an advanced callback and of the heap filter. *)
Definition JVMTI_VISIT_OBJECTS : Z := 0x100.
Definition JVMTI_VISIT_ABORT : Z := 0x8000.
Definition JVMTI_HEAP_FILTER_TAGGED : Z := 0x4.
Definition JVMTI_HEAP_FILTER_UNTAGGED : Z := 0x8.
Definition JVMTI_HEAP_FILTER_CLASS_TAGGED : Z := 0x10.
Definition JVMTI_HEAP_FILTER_CLASS_UNTAGGED : Z := 0x20.

(** [jvmtiHeapReferenceInfo]: the index of a field, element or constant,
    or the description of a stack slot. *)
Inductive jvmtiHeapReferenceInfo :=
| info_index (index : Z)
| info_stack_local (thread_tag thread_id : jlong) (depth method location slot : Z).

(** The numbers of the reference kinds, and the mask of the kinds for
    which a [jvmtiHeapReferenceCallback] is given the reference info. *)
Definition kind_number (k : jvmtiHeapReferenceKind) : Z :=
  match k with
  | JVMTI_HEAP_REFERENCE_CLASS => 1
  | JVMTI_HEAP_REFERENCE_FIELD => 2
  | JVMTI_HEAP_REFERENCE_ARRAY_ELEMENT => 3
  | JVMTI_HEAP_REFERENCE_CLASS_LOADER => 4
  | JVMTI_HEAP_REFERENCE_SIGNERS => 5
  | JVMTI_HEAP_REFERENCE_PROTECTION_DOMAIN => 6
  | JVMTI_HEAP_REFERENCE_INTERFACE => 7
  | JVMTI_HEAP_REFERENCE_STATIC_FIELD => 8
  | JVMTI_HEAP_REFERENCE_CONSTANT_POOL => 9
  | JVMTI_HEAP_REFERENCE_SUPERCLASS => 10
  | JVMTI_HEAP_REFERENCE_JNI_GLOBAL => 21
  | JVMTI_HEAP_REFERENCE_SYSTEM_CLASS => 22
  | JVMTI_HEAP_REFERENCE_MONITOR => 23
  | JVMTI_HEAP_REFERENCE_STACK_LOCAL => 24
  | JVMTI_HEAP_REFERENCE_JNI_LOCAL => 25
  | JVMTI_HEAP_REFERENCE_THREAD => 26
  | JVMTI_HEAP_REFERENCE_OTHER => 27
  end.

Definition REF_INFO_MASK : Z :=
  Z.lor (Z.shiftl 1 (kind_number JVMTI_HEAP_REFERENCE_FIELD))
 (Z.lor (Z.shiftl 1 (kind_number JVMTI_HEAP_REFERENCE_STATIC_FIELD))
 (Z.lor (Z.shiftl 1 (kind_number JVMTI_HEAP_REFERENCE_ARRAY_ELEMENT))
 (Z.lor (Z.shiftl 1 (kind_number JVMTI_HEAP_REFERENCE_CONSTANT_POOL))
 (Z.lor (Z.shiftl 1 (kind_number JVMTI_HEAP_REFERENCE_STACK_LOCAL))
        (Z.shiftl 1 (kind_number JVMTI_HEAP_REFERENCE_JNI_LOCAL)))))).

(** [res & bit], as a condition. *)
Definition flag (res bit : Z) : bool := negb (Z.land res bit =? 0).

(** A field of a [ClassFieldMap]. *)
Record ClassFieldDescriptor := mkField {
  field_index : Z;
  field_type : Z;
  field_offset : Z
}.

(** An entry of a constant pool, by its tag. *)
Inductive constant :=
| constant_string (resolved_string : oop)
| constant_klass (resolved_klass : oop)
| constant_other.

(** What the frames of a thread give, in the order met: a local slot of
    a Java frame, or the JNI local handles reported for a native frame
    (and, with depth 0 and no method, for a thread without Java frame). *)
Inductive stack_item :=
| stack_local (depth method bci slot : Z) (o : oop)
| jni_locals (depth method : Z) (handles : list oop).

Record JavaThread := mkThread {
  threadObj : oop;
  is_exiting : bool;
  is_hidden_from_external_view : bool;
  stack_items : list stack_item
}.

(** *** The heap and the object model, as the walker consults them *)
Class HeapModel := {
  is_instance : oop -> bool;
  is_objArray : oop -> bool;
  is_typeArray : oop -> bool;
  is_array : oop -> bool;
  array_length : oop -> Z;
  (** [o->is_a(k)]. *)
  is_a : oop -> oop -> bool;
  (** [ServiceUtil::visible_oop] and [JNIHandles::deleted_handle()]. *)
  visible_oop : oop -> bool;
  deleted_handle : oop;
  (** Mark words: [mark->is_marked()], [mark->must_be_preserved(o)],
      [markOopDesc::prototype()->set_marked()], and the word that
      [o->init_mark()] stores. *)
  is_marked : Z -> bool;
  must_be_preserved : oop -> Z -> bool;
  marked_prototype : Z;
  init_mark_of : oop -> Z;
  UseBiasedLocking : bool;
  UseSharedSpaces : bool;
  (** The objects that [Universe::heap()->object_iterate],
      [ro_space()->object_iterate] and [rw_space()->object_iterate] hand
      to a closure. *)
  heap_objects : list oop;
  ro_space_objects : list oop;
  rw_space_objects : list oop;
  (** [BiasedLocking::preserve_marks] and [restore_marks]: what is saved,
      given the mark words, and the mark words after the restore. *)
  BiasedLocking_preserve_marks : (oop -> Z) -> list (oop * Z);
  BiasedLocking_restore_marks : list (oop * Z) -> (oop -> Z) -> (oop -> Z);
  (** The roots, in the order the VM hands them to the closures. *)
  jni_global_oops : list oop;
  system_dictionary_oops : list oop;
  monitor_oops : list oop;
  java_threads : list JavaThread;
  universe_oops : list oop;
  code_cache_oops : list oop;
  thread_id : oop -> jlong;
  (** Classes. *)
  klass_oop_is_instance : oop -> bool;
  is_linked : oop -> bool;
  java_super : oop -> oop;
  Object_klass : oop;
  class_loader : oop -> oop;
  protection_domain : oop -> oop;
  signers : oop -> oop;
  constants : oop -> list constant;
  local_interfaces : oop -> list oop;
  create_map_of_static_fields : oop -> list ClassFieldDescriptor;
  (** Instances: the field map, a reference field and a primitive field
      read at an offset, strings. *)
  create_map_of_instance_fields : oop -> list ClassFieldDescriptor;
  obj_field : oop -> Z -> oop;
  primitive_field : oop -> Z -> Z -> Z;
  String_klass : oop;
  string_chars : oop -> list Z;
  (** Arrays. *)
  systemObjArrayKlassObj : oop;
  obj_at : oop -> Z -> oop;
  element_type : oop -> Z;
  array_elements : oop -> list Z
}.

Module Walker.
Import Hashmap TagMap.

Section Walker.
Context `{!Collaborators} `{!HeapModel}.
Set Implicit Arguments.

(** The agent's data, reached by its callbacks through [user_data]. *)
Variable A : Type.

(** Whether the n-th allocation of a larger table succeeds. *)
Variable malloc_ok : nat -> bool.

(** *** ObjectMarker *)

Record ObjectMarker := mkMarker {
  mark_of : oop -> Z;
  _saved_oop_stack : list oop;
  _saved_mark_stack : list Z;
  biased_marks : list (oop * Z)
}.

Definition set_mark (o : oop) (m : Z) (mk : ObjectMarker) : ObjectMarker :=
  {| mark_of := <[o:=m]> (mark_of mk);
     _saved_oop_stack := _saved_oop_stack mk;
     _saved_mark_stack := _saved_mark_stack mk;
     biased_marks := biased_marks mk |}.

(** [ObjectMarker::init], from the mark words the heap has. *)
Definition ObjectMarker_init (marks : oop -> Z) : ObjectMarker :=
  {| mark_of := marks;
     _saved_oop_stack := [];
     _saved_mark_stack := [];
     biased_marks :=
       if UseBiasedLocking then BiasedLocking_preserve_marks marks else [] |}.

(** [ObjectMarker::mark]. *)
Definition mark (o : oop) (mk : ObjectMarker) : ObjectMarker :=
  let m := mark_of mk o in
  let mk1 :=
    if must_be_preserved o m then
      {| mark_of := mark_of mk;
         _saved_oop_stack := _saved_oop_stack mk ++ [o];
         _saved_mark_stack := _saved_mark_stack mk ++ [m];
         biased_marks := biased_marks mk |}
    else mk in
  set_mark o marked_prototype mk1.

(** [ObjectMarker::visited]. *)
Definition visited (mk : ObjectMarker) (o : oop) : bool :=
  is_marked (mark_of mk o).

(** [RestoreMarksClosure::do_object]. *)
Definition RestoreMarksClosure_do_object (marks : oop -> Z) (o : oop)
  : oop -> Z :=
  if decide (o <> NULL) then
    if is_marked (marks o) then <[o:=init_mark_of o]> marks else marks
  else marks.

Definition object_iterate (objects : list oop) (marks : oop -> Z) : oop -> Z :=
  foldl RestoreMarksClosure_do_object marks objects.

(** The loop of [done] over the saved headers. *)
Definition restore_saved (oops : list oop) (saved : list Z) (marks : oop -> Z)
  : oop -> Z :=
  foldl (fun marks i =>
           match oops !! i, saved !! i with
           | Some o, Some m => <[o:=m]> marks
           | _, _ => marks
           end)
        marks (seq 0 (length oops)).

(** [ObjectMarker::done]; the stacks are freed. *)
Definition ObjectMarker_done (mk : ObjectMarker) : ObjectMarker :=
  let marks1 := object_iterate heap_objects (mark_of mk) in
  let marks2 :=
    if UseSharedSpaces then object_iterate rw_space_objects marks1
    else marks1 in
  let marks3 :=
    restore_saved (_saved_oop_stack mk) (_saved_mark_stack mk) marks2 in
  let marks4 :=
    if UseBiasedLocking
    then BiasedLocking_restore_marks (biased_marks mk) marks3
    else marks3 in
  {| mark_of := marks4;
     _saved_oop_stack := [];
     _saved_mark_stack := [];
     biased_marks := [] |}.

(** *** JvmtiCachedClassFieldMap and ClassFieldMapCacheMark *)

Record FieldMapCache := mkCache {
  _class_list : option (list oop);
  jvmti_cached_class_field_map : oop -> option (list ClassFieldDescriptor);
  _is_active : bool
}.

Definition add_to_class_list (ik : oop) (c : FieldMapCache) : FieldMapCache :=
  {| _class_list := Some (default [] (_class_list c) ++ [ik]);
     jvmti_cached_class_field_map := jvmti_cached_class_field_map c;
     _is_active := _is_active c |}.

Definition set_jvmti_cached_class_field_map (ik : oop)
    (m : option (list ClassFieldDescriptor)) (c : FieldMapCache)
  : FieldMapCache :=
  {| _class_list := _class_list c;
     jvmti_cached_class_field_map := <[ik:=m]> (jvmti_cached_class_field_map c);
     _is_active := _is_active c |}.

Definition get_map_of_instance_fields (obj : oop) (c : FieldMapCache)
  : list ClassFieldDescriptor * FieldMapCache :=
  let ik := klass obj in
  match jvmti_cached_class_field_map c ik with
  | Some cached_map => (cached_map, c)
  | None =>
      let field_map := create_map_of_instance_fields obj in
      (field_map,
       add_to_class_list ik
         (set_jvmti_cached_class_field_map ik (Some field_map) c))
  end.

Definition clear_cache (c : FieldMapCache) : FieldMapCache :=
  match _class_list c with
  | Some class_list =>
      {| _class_list := None;
         jvmti_cached_class_field_map :=
           foldl (fun maps ik => <[ik:=None]> maps)
                 (jvmti_cached_class_field_map c) class_list;
         _is_active := _is_active c |}
  | None => c
  end.

Definition cached_field_map_count (c : FieldMapCache) : Z :=
  match _class_list c with
  | None => 0
  | Some class_list => Z.of_nat (length class_list)
  end.

Definition set_is_active (b : bool) (c : FieldMapCache) : FieldMapCache :=
  {| _class_list := _class_list c;
     jvmti_cached_class_field_map := jvmti_cached_class_field_map c;
     _is_active := b |}.

Definition ClassFieldMapCacheMark_new (c : FieldMapCache) : FieldMapCache :=
  set_is_active true c.

Definition ClassFieldMapCacheMark_delete (c : FieldMapCache) : FieldMapCache :=
  set_is_active false (clear_cache c).

(** *** The filters *)

Definition is_filtered_by_heap_filter (obj_tag klass_tag : jlong)
    (heap_filter : Z) : bool :=
  if (if decide (obj_tag <> 0)
      then flag heap_filter JVMTI_HEAP_FILTER_TAGGED
      else flag heap_filter JVMTI_HEAP_FILTER_UNTAGGED)
  then true
  else if decide (klass_tag <> 0)
       then flag heap_filter JVMTI_HEAP_FILTER_CLASS_TAGGED
       else flag heap_filter JVMTI_HEAP_FILTER_CLASS_UNTAGGED.

Definition is_filtered_by_klass_filter (obj : oop) (klass_filter : option oop)
  : bool :=
  match klass_filter with
  | Some k => bool_decide (klass obj <> k)
  | None => false
  end.

Definition is_primitive_field_type (type : Z) : bool :=
  bool_decide (type <> 76 /\ type <> 91).

(** *** The callbacks of the agent *)

(** A callback is given its arguments and the agent's data; it returns its
    result, what it leaves in the tag slots it was given, and the agent's
    data. *)
Definition jvmtiHeapRootCallback : Type :=
  jvmtiHeapRootKind -> jlong -> jlong -> jlong -> A
  -> jvmtiIterationControl * jlong * A.
Definition jvmtiStackReferenceCallback : Type :=
  jvmtiHeapRootKind -> jlong -> jlong -> jlong -> jlong -> Z -> Z -> Z -> A
  -> jvmtiIterationControl * jlong * A.
Definition jvmtiObjectReferenceCallback : Type :=
  jvmtiObjectReferenceKind -> jlong -> jlong -> jlong -> jlong -> Z -> A
  -> jvmtiIterationControl * jlong * A.
Definition jvmtiHeapReferenceCallback : Type :=
  jvmtiHeapReferenceKind -> option jvmtiHeapReferenceInfo -> jlong -> jlong
  -> jlong -> jlong -> option jlong -> Z -> A
  -> Z * jlong * jlong * A.
Definition jvmtiPrimitiveFieldCallback : Type :=
  jvmtiHeapReferenceKind -> jvmtiHeapReferenceInfo -> jlong -> jlong -> Z -> Z
  -> A -> Z * jlong * A.
Definition jvmtiArrayPrimitiveValueCallback : Type :=
  jlong -> jlong -> jlong -> Z -> Z -> list Z -> A -> Z * jlong * A.
Definition jvmtiStringPrimitiveValueCallback : Type :=
  jlong -> jlong -> jlong -> list Z -> Z -> A -> Z * jlong * A.

Record BasicHeapWalkContext := mkBasic {
  heap_root_callback : option jvmtiHeapRootCallback;
  stack_ref_callback : option jvmtiStackReferenceCallback;
  object_ref_callback : option jvmtiObjectReferenceCallback
}.

Record AdvancedHeapWalkContext := mkAdvanced {
  heap_filter : Z;
  klass_filter : option oop;
  heap_reference_callback : option jvmtiHeapReferenceCallback;
  primitive_field_callback : option jvmtiPrimitiveFieldCallback;
  array_primitive_value_callback : option jvmtiArrayPrimitiveValueCallback;
  string_primitive_value_callback : option jvmtiStringPrimitiveValueCallback
}.

(** [_heap_walk_type] with the context that is valid for it. *)
Inductive HeapWalkContext :=
| basic (context : BasicHeapWalkContext)
| advanced (context : AdvancedHeapWalkContext).

(** The record of a call of a callback: the object it is about, and the
    arguments the callback was given. *)
Inductive callback_call :=
| heap_root_call (root_kind : jvmtiHeapRootKind) (obj : oop)
    (class_tag size tag : jlong)
| stack_ref_call (root_kind : jvmtiHeapRootKind) (obj : oop)
    (class_tag size tag thread_tag : jlong) (depth method slot : Z)
| object_ref_call (ref_kind : jvmtiObjectReferenceKind) (referree : oop)
    (class_tag size tag referrer_tag : jlong) (index : Z)
| heap_reference_call (ref_kind : jvmtiHeapReferenceKind)
    (info : option jvmtiHeapReferenceInfo) (obj : oop)
    (class_tag referrer_class_tag size tag : jlong)
    (referrer_tag : option jlong) (length : Z)
| primitive_field_call (ref_kind : jvmtiHeapReferenceKind) (index : Z)
    (obj : oop) (class_tag tag : jlong) (value value_type : Z)
| array_primitive_value_call (obj : oop) (class_tag size tag : jlong)
    (length elem_type : Z) (elements : list Z)
| string_primitive_value_call (obj : oop) (class_tag size tag : jlong)
    (value : list Z) (length : Z).

(** *** CallbackInvoker *)

(** The statics of [CallbackInvoker] that change during a walk, with the
    referrer cache of the basic context, the number of tables allocated so
    far, and the calls made, the latest first. *)
Record CallbackInvoker := mkInvoker {
  _tag_map : JvmtiTagMap;
  _visit_stack : list oop;
  _last_referrer : oop;
  _last_referrer_tag : jlong;
  _user_data : A;
  mallocs : nat;
  calls : list callback_call
}.

Definition push (obj : oop) (iv : CallbackInvoker) : CallbackInvoker :=
  {| _tag_map := _tag_map iv;
     _visit_stack := obj :: _visit_stack iv;
     _last_referrer := _last_referrer iv;
     _last_referrer_tag := _last_referrer_tag iv;
     _user_data := _user_data iv;
     mallocs := mallocs iv;
     calls := calls iv |}.

Definition set_visit_stack (s : list oop) (iv : CallbackInvoker)
  : CallbackInvoker :=
  {| _tag_map := _tag_map iv;
     _visit_stack := s;
     _last_referrer := _last_referrer iv;
     _last_referrer_tag := _last_referrer_tag iv;
     _user_data := _user_data iv;
     mallocs := mallocs iv;
     calls := calls iv |}.

Definition set_last_referrer (referrer : oop) (tag : jlong)
    (iv : CallbackInvoker) : CallbackInvoker :=
  {| _tag_map := _tag_map iv;
     _visit_stack := _visit_stack iv;
     _last_referrer := referrer;
     _last_referrer_tag := tag;
     _user_data := _user_data iv;
     mallocs := mallocs iv;
     calls := calls iv |}.

(** The callback has run: its call is recorded and the agent's data is
    what it left. *)
Definition called (c : callback_call) (a : A) (iv : CallbackInvoker)
  : CallbackInvoker :=
  {| _tag_map := _tag_map iv;
     _visit_stack := _visit_stack iv;
     _last_referrer := _last_referrer iv;
     _last_referrer_tag := _last_referrer_tag iv;
     _user_data := a;
     mallocs := mallocs iv;
     calls := c :: calls iv |}.

(** A wrapper is destroyed: the tag map is updated, with [n] more
    allocations answered. *)
Definition committed (tm : JvmtiTagMap) (n : nat) (iv : CallbackInvoker)
  : CallbackInvoker :=
  {| _tag_map := tm;
     _visit_stack := _visit_stack iv;
     _last_referrer := _last_referrer iv;
     _last_referrer_tag := _last_referrer_tag iv;
     _user_data := _user_data iv;
     mallocs := (mallocs iv + n)%nat;
     calls := calls iv |}.

(** A function of the invoker: whether the walk continues, and the state. *)
Definition step : Type := CallbackInvoker -> bool * CallbackInvoker.

Definition skip : step := fun iv => (true, iv).

(** [if (!a) return false; b] *)
Definition and_then (a b : step) : step :=
  fun iv => let '(r, iv1) := a iv in if r then b iv1 else (false, iv1).

(** A loop whose body returns false from the function when it fails. *)
Fixpoint for_each {X : Type} (l : list X) (body : X -> step) : step :=
  match l with
  | [] => skip
  | x :: l => and_then (body x) (for_each l body)
  end.

(** The scope of a [CallbackWrapper] for [o]: the body gives its result
    and what the tag slot holds when the scope is left; the destructor
    runs then, on whatever path the body ended. *)
Definition with_CallbackWrapper (o : oop)
    (body : CallbackWrapper -> CallbackInvoker -> bool * jlong * CallbackInvoker)
  : step :=
  fun iv =>
    let wrapper := CallbackWrapper_new (_tag_map iv) o in
    let '(r, obj_tag, iv1) := body wrapper iv in
    (r, committed
          (CallbackWrapper_delete (malloc_ok (mallocs iv1))
             (write_obj_tag obj_tag wrapper) (_tag_map iv1))
          1 iv1).

(** The scope of a [TwoOopCallbackWrapper]; the body also gives what the
    referrer's tag slot holds at the end. *)
Definition with_TwoOopCallbackWrapper (referrer o : oop)
    (body : TwoOopCallbackWrapper -> CallbackInvoker
            -> bool * jlong * jlong * CallbackInvoker)
  : step :=
  fun iv =>
    let wrapper := TwoOopCallbackWrapper_new (_tag_map iv) referrer o in
    let '(r, obj_tag, ref_tag, iv1) := body wrapper iv in
    (r, committed
          (TwoOopCallbackWrapper_delete (malloc_ok (mallocs iv1))
             (malloc_ok (S (mallocs iv1)))
             (write_tags obj_tag ref_tag wrapper) (_tag_map iv1))
          2 iv1).

Definition check_for_visit (mk : ObjectMarker) (obj : oop) : step :=
  fun iv => (true, if visited mk obj then iv else push obj iv).

Definition invoke_basic_heap_root_callback (mk : ObjectMarker)
    (context : BasicHeapWalkContext) (root_kind : jvmtiHeapRootKind)
    (obj : oop) : step :=
  match heap_root_callback context with
  | None => check_for_visit mk obj
  | Some cb =>
      with_CallbackWrapper obj (fun wrapper iv =>
        let '(control, tag, a) :=
          cb root_kind (_klass_tag wrapper) (_obj_size wrapper)
             (_obj_tag wrapper) (_user_data iv) in
        let iv1 :=
          called (heap_root_call root_kind obj (_klass_tag wrapper)
                    (_obj_size wrapper) (_obj_tag wrapper)) a iv in
        let iv2 :=
          if bool_decide (control = JVMTI_ITERATION_CONTINUE)
             && bool_decide (object_ref_callback context <> None)
          then push obj iv1 else iv1 in
        (bool_decide (control <> JVMTI_ITERATION_ABORT), tag, iv2))
  end.

Definition invoke_basic_stack_ref_callback (mk : ObjectMarker)
    (context : BasicHeapWalkContext) (root_kind : jvmtiHeapRootKind)
    (thread_tag : jlong) (depth method slot : Z) (obj : oop) : step :=
  match stack_ref_callback context with
  | None => check_for_visit mk obj
  | Some cb =>
      with_CallbackWrapper obj (fun wrapper iv =>
        let '(control, tag, a) :=
          cb root_kind (_klass_tag wrapper) (_obj_size wrapper)
             (_obj_tag wrapper) thread_tag depth method slot (_user_data iv) in
        let iv1 :=
          called (stack_ref_call root_kind obj (_klass_tag wrapper)
                    (_obj_size wrapper) (_obj_tag wrapper) thread_tag depth
                    method slot) a iv in
        let iv2 :=
          if bool_decide (control = JVMTI_ITERATION_CONTINUE)
             && bool_decide (object_ref_callback context <> None)
          then push obj iv1 else iv1 in
        (bool_decide (control <> JVMTI_ITERATION_ABORT), tag, iv2))
  end.

(** The tag of the referrer that [invoke_basic_object_reference_callback]
    passes to the callback. *)
Definition basic_referrer_tag (referrer : oop) (iv : CallbackInvoker) : jlong :=
  if decide (referrer = _last_referrer iv) then _last_referrer_tag iv
  else tag_for (_tag_map iv) (klassOop_if_java_lang_Class referrer).

(** The callback is not null here: references are only reported when the
    walk follows them, that is when the callback was given. *)
Definition invoke_basic_object_reference_callback (mk : ObjectMarker)
    (context : BasicHeapWalkContext) (ref_kind : jvmtiObjectReferenceKind)
    (referrer referree : oop) (index : Z) : step :=
  fun iv =>
    let referrer_tag := basic_referrer_tag referrer iv in
    match object_ref_callback context with
    | None => (true, iv)
    | Some cb =>
        with_CallbackWrapper referree (fun wrapper iv =>
          let '(control, tag, a) :=
            cb ref_kind (_klass_tag wrapper) (_obj_size wrapper)
               (_obj_tag wrapper) referrer_tag index (_user_data iv) in
          let iv1 :=
            called (object_ref_call ref_kind referree (_klass_tag wrapper)
                      (_obj_size wrapper) (_obj_tag wrapper) referrer_tag
                      index) a iv in
          let iv2 :=
            set_last_referrer referrer
              (if decide (referrer = referree) then tag else referrer_tag)
              iv1 in
          let '(r, iv3) :=
            if decide (control = JVMTI_ITERATION_CONTINUE)
            then check_for_visit mk referree iv2
            else (bool_decide (control <> JVMTI_ITERATION_ABORT), iv2) in
          (r, tag, iv3)) iv
    end.

(** [obj->is_array() ? arrayOop(obj)->length() : -1] *)
Definition length_or_minus_one (obj : oop) : Z :=
  if is_array obj then array_length obj else -1.

(** The end of the advanced reference callbacks: the result is tested for
    the abort and the visit bits. *)
Definition after_advanced_callback (mk : ObjectMarker) (res : Z) (obj : oop)
  : step :=
  fun iv =>
    if flag res JVMTI_VISIT_ABORT then (false, iv)
    else if flag res JVMTI_VISIT_OBJECTS
         then (true, snd (check_for_visit mk obj iv))
         else (true, iv).

Definition invoke_advanced_heap_root_callback (mk : ObjectMarker)
    (context : AdvancedHeapWalkContext) (ref_kind : jvmtiHeapReferenceKind)
    (obj : oop) : step :=
  match heap_reference_callback context with
  | None => check_for_visit mk obj
  | Some cb =>
      if is_filtered_by_klass_filter obj (klass_filter context)
      then check_for_visit mk obj
      else
        with_CallbackWrapper obj (fun wrapper iv =>
          if is_filtered_by_heap_filter (_obj_tag wrapper)
               (_klass_tag wrapper) (heap_filter context)
          then
            let '(r, iv1) := check_for_visit mk obj iv in
            (r, _obj_tag wrapper, iv1)
          else
            let len := length_or_minus_one obj in
            let '(res, tag, _, a) :=
              cb ref_kind None (_klass_tag wrapper) 0 (_obj_size wrapper)
                 (_obj_tag wrapper) None len (_user_data iv) in
            let iv1 :=
              called (heap_reference_call ref_kind None obj
                        (_klass_tag wrapper) 0 (_obj_size wrapper)
                        (_obj_tag wrapper) None len) a iv in
            let '(r, iv2) := after_advanced_callback mk res obj iv1 in
            (r, tag, iv2))
  end.

Definition invoke_advanced_stack_ref_callback (mk : ObjectMarker)
    (context : AdvancedHeapWalkContext) (ref_kind : jvmtiHeapReferenceKind)
    (thread_tag tid : jlong) (depth method bci slot : Z) (obj : oop) : step :=
  match heap_reference_callback context with
  | None => check_for_visit mk obj
  | Some cb =>
      if is_filtered_by_klass_filter obj (klass_filter context)
      then check_for_visit mk obj
      else
        with_CallbackWrapper obj (fun wrapper iv =>
          if is_filtered_by_heap_filter (_obj_tag wrapper)
               (_klass_tag wrapper) (heap_filter context)
          then
            let '(r, iv1) := check_for_visit mk obj iv in
            (r, _obj_tag wrapper, iv1)
          else
            let reference_info :=
              info_stack_local thread_tag tid depth method bci slot in
            let len := length_or_minus_one obj in
            let '(res, tag, _, a) :=
              cb ref_kind (Some reference_info) (_klass_tag wrapper) 0
                 (_obj_size wrapper) (_obj_tag wrapper) None len
                 (_user_data iv) in
            let iv1 :=
              called (heap_reference_call ref_kind (Some reference_info) obj
                        (_klass_tag wrapper) 0 (_obj_size wrapper)
                        (_obj_tag wrapper) None len) a iv in
            let '(r, iv2) := after_advanced_callback mk res obj iv1 in
            (r, tag, iv2))
  end.

Definition invoke_advanced_object_reference_callback (mk : ObjectMarker)
    (context : AdvancedHeapWalkContext) (ref_kind : jvmtiHeapReferenceKind)
    (referrer obj : oop) (index : Z) : step :=
  match heap_reference_callback context with
  | None => check_for_visit mk obj
  | Some cb =>
      if is_filtered_by_klass_filter obj (klass_filter context)
      then check_for_visit mk obj
      else
        with_TwoOopCallbackWrapper referrer obj (fun wrapper iv =>
          if is_filtered_by_heap_filter (_obj_tag (base wrapper))
               (_klass_tag (base wrapper)) (heap_filter context)
          then
            let '(r, iv1) := check_for_visit mk obj iv in
            (r, _obj_tag (base wrapper), _referrer_obj_tag wrapper, iv1)
          else
            let reference_info :=
              if flag REF_INFO_MASK (Z.shiftl 1 (kind_number ref_kind))
              then Some (info_index index) else None in
            let len := length_or_minus_one obj in
            let '(res, tag, ref_tag, a) :=
              cb ref_kind reference_info (_klass_tag (base wrapper))
                 (_referrer_klass_tag wrapper) (_obj_size (base wrapper))
                 (_obj_tag (base wrapper)) (Some (referrer_tag wrapper)) len
                 (_user_data iv) in
            let iv1 :=
              called (heap_reference_call ref_kind reference_info obj
                        (_klass_tag (base wrapper))
                        (_referrer_klass_tag wrapper)
                        (_obj_size (base wrapper)) (_obj_tag (base wrapper))
                        (Some (referrer_tag wrapper)) len) a iv in
            let '(r, iv2) := after_advanced_callback mk res obj iv1 in
            (r, tag, ref_tag, iv2))
  end.

Definition toJvmtiHeapRootKind (kind : jvmtiHeapReferenceKind)
  : jvmtiHeapRootKind :=
  match kind with
  | JVMTI_HEAP_REFERENCE_JNI_GLOBAL => JVMTI_HEAP_ROOT_JNI_GLOBAL
  | JVMTI_HEAP_REFERENCE_SYSTEM_CLASS => JVMTI_HEAP_ROOT_SYSTEM_CLASS
  | JVMTI_HEAP_REFERENCE_MONITOR => JVMTI_HEAP_ROOT_MONITOR
  | JVMTI_HEAP_REFERENCE_STACK_LOCAL => JVMTI_HEAP_ROOT_STACK_LOCAL
  | JVMTI_HEAP_REFERENCE_JNI_LOCAL => JVMTI_HEAP_ROOT_JNI_LOCAL
  | JVMTI_HEAP_REFERENCE_THREAD => JVMTI_HEAP_ROOT_THREAD
  | JVMTI_HEAP_REFERENCE_OTHER => JVMTI_HEAP_ROOT_OTHER
  | _ => JVMTI_HEAP_ROOT_OTHER
  end.

Definition report_simple_root (mk : ObjectMarker) (ctx : HeapWalkContext)
    (kind : jvmtiHeapReferenceKind) (obj : oop) : step :=
  match ctx with
  | basic context =>
      invoke_basic_heap_root_callback mk context (toJvmtiHeapRootKind kind) obj
  | advanced context => invoke_advanced_heap_root_callback mk context kind obj
  end.

(** The primitive values are only reported in an advanced walk whose
    context has the callback. *)
Definition report_primitive_array_values (ctx : HeapWalkContext) (obj : oop)
  : step :=
  match ctx with
  | basic _ => skip
  | advanced context =>
      match array_primitive_value_callback context with
      | None => skip
      | Some cb =>
          if is_filtered_by_klass_filter obj (klass_filter context) then skip
          else
            with_CallbackWrapper obj (fun wrapper iv =>
              if is_filtered_by_heap_filter (_obj_tag wrapper)
                   (_klass_tag wrapper) (heap_filter context)
              then (true, _obj_tag wrapper, iv)
              else
                let '(res, tag, a) :=
                  cb (_klass_tag wrapper) (_obj_size wrapper)
                     (_obj_tag wrapper) (array_length obj) (element_type obj)
                     (array_elements obj) (_user_data iv) in
                (negb (flag res JVMTI_VISIT_ABORT), tag,
                 called (array_primitive_value_call obj (_klass_tag wrapper)
                           (_obj_size wrapper) (_obj_tag wrapper)
                           (array_length obj) (element_type obj)
                           (array_elements obj)) a iv))
      end
  end.

Definition report_string_value (ctx : HeapWalkContext) (str : oop) : step :=
  match ctx with
  | basic _ => skip
  | advanced context =>
      match string_primitive_value_callback context with
      | None => skip
      | Some cb =>
          if is_filtered_by_klass_filter str (klass_filter context) then skip
          else
            with_CallbackWrapper str (fun wrapper iv =>
              if is_filtered_by_heap_filter (_obj_tag wrapper)
                   (_klass_tag wrapper) (heap_filter context)
              then (true, _obj_tag wrapper, iv)
              else
                let value := string_chars str in
                let s_len := Z.of_nat (length value) in
                let '(res, tag, a) :=
                  cb (_klass_tag wrapper) (_obj_size wrapper)
                     (_obj_tag wrapper) value s_len (_user_data iv) in
                (negb (flag res JVMTI_VISIT_ABORT), tag,
                 called (string_primitive_value_call str (_klass_tag wrapper)
                           (_obj_size wrapper) (_obj_tag wrapper) value s_len)
                        a iv))
      end
  end.

(** [addr] is the object or class the field is read from, at [offset]. *)
Definition report_primitive_field (ctx : HeapWalkContext)
    (ref_kind : jvmtiHeapReferenceKind) (obj : oop) (index : Z)
    (addr : oop) (offset : Z) (type : Z) : step :=
  match ctx with
  | basic _ => skip
  | advanced context =>
      match primitive_field_callback context with
      | None => skip
      | Some cb =>
          if is_filtered_by_klass_filter obj (klass_filter context) then skip
          else
            with_CallbackWrapper obj (fun wrapper iv =>
              if is_filtered_by_heap_filter (_obj_tag wrapper)
                   (_klass_tag wrapper) (heap_filter context)
              then (true, _obj_tag wrapper, iv)
              else
                let value := primitive_field addr offset type in
                let '(res, tag, a) :=
                  cb ref_kind (info_index index) (_klass_tag wrapper)
                     (_obj_tag wrapper) value type (_user_data iv) in
                (negb (flag res JVMTI_VISIT_ABORT), tag,
                 called (primitive_field_call ref_kind index obj
                           (_klass_tag wrapper) (_obj_tag wrapper) value type)
                        a iv))
      end
  end.

Definition report_primitive_instance_field (ctx : HeapWalkContext)
    (obj : oop) (index : Z) (addr : oop) (offset type : Z) : step :=
  report_primitive_field ctx JVMTI_HEAP_REFERENCE_FIELD obj index addr offset
    type.

Definition report_primitive_static_field (ctx : HeapWalkContext)
    (obj : oop) (index : Z) (addr : oop) (offset type : Z) : step :=
  report_primitive_field ctx JVMTI_HEAP_REFERENCE_STATIC_FIELD obj index addr
    offset type.

Definition report_jni_local_root (mk : ObjectMarker) (ctx : HeapWalkContext)
    (thread_tag tid : jlong) (depth m : Z) (obj : oop) : step :=
  match ctx with
  | basic context =>
      invoke_basic_stack_ref_callback mk context JVMTI_HEAP_ROOT_JNI_LOCAL
        thread_tag depth m (-1) obj
  | advanced context =>
      invoke_advanced_stack_ref_callback mk context
        JVMTI_HEAP_REFERENCE_JNI_LOCAL thread_tag tid depth m (-1) (-1) obj
  end.

Definition report_stack_ref_root (mk : ObjectMarker) (ctx : HeapWalkContext)
    (thread_tag tid : jlong) (depth method bci slot : Z) (obj : oop) : step :=
  match ctx with
  | basic context =>
      invoke_basic_stack_ref_callback mk context JVMTI_HEAP_ROOT_STACK_LOCAL
        thread_tag depth method slot obj
  | advanced context =>
      invoke_advanced_stack_ref_callback mk context
        JVMTI_HEAP_REFERENCE_STACK_LOCAL thread_tag tid depth method bci slot
        obj
  end.

(** The functions that report a reference between two objects. *)
Inductive reference_report :=
| array_element_reference | class_reference | class_loader_reference
| signers_reference | protection_domain_reference | superclass_reference
| interface_reference | static_field_reference | field_reference
| constant_pool_reference.

(** The kind each of them gives to the basic callback (a superclass is
    reported as a class) and to the advanced one. *)
Definition basic_kind (r : reference_report) : jvmtiObjectReferenceKind :=
  match r with
  | array_element_reference => JVMTI_REFERENCE_ARRAY_ELEMENT
  | class_reference => JVMTI_REFERENCE_CLASS
  | class_loader_reference => JVMTI_REFERENCE_CLASS_LOADER
  | signers_reference => JVMTI_REFERENCE_SIGNERS
  | protection_domain_reference => JVMTI_REFERENCE_PROTECTION_DOMAIN
  | superclass_reference => JVMTI_REFERENCE_CLASS
  | interface_reference => JVMTI_REFERENCE_INTERFACE
  | static_field_reference => JVMTI_REFERENCE_STATIC_FIELD
  | field_reference => JVMTI_REFERENCE_FIELD
  | constant_pool_reference => JVMTI_REFERENCE_CONSTANT_POOL
  end.

Definition advanced_kind (r : reference_report) : jvmtiHeapReferenceKind :=
  match r with
  | array_element_reference => JVMTI_HEAP_REFERENCE_ARRAY_ELEMENT
  | class_reference => JVMTI_HEAP_REFERENCE_CLASS
  | class_loader_reference => JVMTI_HEAP_REFERENCE_CLASS_LOADER
  | signers_reference => JVMTI_HEAP_REFERENCE_SIGNERS
  | protection_domain_reference => JVMTI_HEAP_REFERENCE_PROTECTION_DOMAIN
  | superclass_reference => JVMTI_HEAP_REFERENCE_SUPERCLASS
  | interface_reference => JVMTI_HEAP_REFERENCE_INTERFACE
  | static_field_reference => JVMTI_HEAP_REFERENCE_STATIC_FIELD
  | field_reference => JVMTI_HEAP_REFERENCE_FIELD
  | constant_pool_reference => JVMTI_HEAP_REFERENCE_CONSTANT_POOL
  end.

(** [report_array_element_reference], [report_class_reference], ...: the
    ten functions differ by the kinds only. *)
Definition report_reference (mk : ObjectMarker) (ctx : HeapWalkContext)
    (r : reference_report) (referrer referree : oop) (index : Z) : step :=
  match ctx with
  | basic context =>
      invoke_basic_object_reference_callback mk context (basic_kind r)
        referrer referree index
  | advanced context =>
      invoke_advanced_object_reference_callback mk context (advanced_kind r)
        referrer referree index
  end.

(** *** The closures over the roots *)

(** [SimpleRootsClosure::do_oop]; the closure is its [_continue] flag,
    next to the state of the invoker. *)
Definition SimpleRootsClosure_do_oop (mk : ObjectMarker)
    (ctx : HeapWalkContext) (root_kind : jvmtiHeapReferenceKind)
    (blk : bool * CallbackInvoker) (o : oop) : bool * CallbackInvoker :=
  if negb (fst blk) then blk
  else if bool_decide (o = NULL \/ o = deleted_handle) then blk
  else
    let '(kind, o1) :=
      if is_klass o then (root_kind, java_mirror o)
      else if is_instance o
              && bool_decide (root_kind = JVMTI_HEAP_REFERENCE_SYSTEM_CLASS)
           then (JVMTI_HEAP_REFERENCE_OTHER, o)
           else (root_kind, o) in
    if negb (visible_oop o1) then blk
    else report_simple_root mk ctx kind o1 (snd blk).

(** [blk.set_kind(kind)] and the iteration of the closure over a group of
    roots; the result is [!blk.stopped()]. *)
Definition simple_roots (mk : ObjectMarker) (ctx : HeapWalkContext)
    (kind : jvmtiHeapReferenceKind) (roots : list oop) : step :=
  fun iv => foldl (SimpleRootsClosure_do_oop mk ctx kind) (true, iv) roots.

Definition JNILocalRootsClosure_do_oop (mk : ObjectMarker)
    (ctx : HeapWalkContext) (thread_tag tid : jlong) (depth method : Z)
    (blk : bool * CallbackInvoker) (o : oop) : bool * CallbackInvoker :=
  if negb (fst blk) then blk
  else if bool_decide (o = NULL \/ o = deleted_handle) then blk
  else if negb (visible_oop o) then blk
  else report_jni_local_root mk ctx thread_tag tid depth method o (snd blk).

(** [blk->set_context(...)] and the iteration over a block of handles. *)
Definition jni_local_roots (mk : ObjectMarker) (ctx : HeapWalkContext)
    (thread_tag tid : jlong) (depth method : Z) (handles : list oop) : step :=
  fun iv =>
    foldl (JNILocalRootsClosure_do_oop mk ctx thread_tag tid depth method)
          (true, iv) handles.

(** A step whose result is not looked at. *)
Definition unchecked (a : step) : step := fun iv => (true, snd (a iv)).

(** *** VM_HeapWalkOperation *)

Record VM_HeapWalkOperation := mkOperation {
  op_context : HeapWalkContext;
  _initial_object : oop;
  _following_object_refs : bool;
  _reporting_primitive_fields : bool;
  _reporting_primitive_array_values : bool;
  _reporting_string_values : bool
}.

(** The two constructors. *)
Definition VM_HeapWalkOperation_basic (initial_object : oop)
    (callbacks : BasicHeapWalkContext) : VM_HeapWalkOperation :=
  {| op_context := basic callbacks;
     _initial_object := initial_object;
     _following_object_refs :=
       bool_decide (object_ref_callback callbacks <> None);
     _reporting_primitive_fields := false;
     _reporting_primitive_array_values := false;
     _reporting_string_values := false |}.

Definition VM_HeapWalkOperation_advanced (initial_object : oop)
    (callbacks : AdvancedHeapWalkContext) : VM_HeapWalkOperation :=
  {| op_context := advanced callbacks;
     _initial_object := initial_object;
     _following_object_refs := true;
     _reporting_primitive_fields :=
       bool_decide (primitive_field_callback callbacks <> None);
     _reporting_primitive_array_values :=
       bool_decide (array_primitive_value_callback callbacks <> None);
     _reporting_string_values :=
       bool_decide (string_primitive_value_callback callbacks <> None) |}.

(** [CallbackInvoker::initialize_for_basic_heap_walk] and
    [initialize_for_advanced_heap_walk], with the empty visit stack and the
    empty referrer cache of a new context. *)
Definition CallbackInvoker_initialize (tag_map : JvmtiTagMap) (user_data : A)
  : CallbackInvoker :=
  {| _tag_map := tag_map;
     _visit_stack := [];
     _last_referrer := NULL;
     _last_referrer_tag := 0;
     _user_data := user_data;
     mallocs := 0%nat;
     calls := [] |}.

Definition iterate_over_array (op : VM_HeapWalkOperation) (mk : ObjectMarker)
    (o : oop) : step :=
  if decide (klass o = systemObjArrayKlassObj) then skip
  else
    let mirror := java_mirror (klass o) in
    and_then (report_reference mk (op_context op) class_reference o mirror (-1))
      (for_each (seqZ 0 (array_length o)) (fun index =>
         let elem := obj_at o index in
         if decide (elem = NULL) then skip
         else report_reference mk (op_context op) array_element_reference o
                elem index)).

Definition iterate_over_type_array (op : VM_HeapWalkOperation)
    (mk : ObjectMarker) (o : oop) : step :=
  let mirror := java_mirror (klass o) in
  and_then (report_reference mk (op_context op) class_reference o mirror (-1))
    (if _reporting_primitive_array_values op
     then report_primitive_array_values (op_context op) o
     else skip).

(** The entries of a constant pool from index 1 on, with their index. *)
Definition pool_entries (k : oop) : list (Z * constant) :=
  drop 1 (imap (fun i c => (Z.of_nat i, c)) (constants k)).

Definition iterate_over_class (op : VM_HeapWalkOperation) (mk : ObjectMarker)
    (k : oop) : step :=
  let report := report_reference mk (op_context op) in
  if klass_oop_is_instance k then
    if negb (is_linked k) then skip
    else
      let mirror := java_mirror k in
      and_then
        (if bool_decide (java_super k <> NULL /\ java_super k <> Object_klass)
         then report superclass_reference mirror (java_mirror (java_super k))
                (-1)
         else skip)
     (and_then
        (if decide (class_loader k <> NULL)
         then report class_loader_reference mirror (class_loader k) (-1)
         else skip)
     (and_then
        (if decide (protection_domain k <> NULL)
         then report protection_domain_reference mirror (protection_domain k)
                (-1)
         else skip)
     (and_then
        (if decide (signers k <> NULL)
         then report signers_reference mirror (signers k) (-1)
         else skip)
     (and_then
        (for_each (pool_entries k) (fun '(i, c) =>
           match c with
           | constant_string entry =>
               report constant_pool_reference mirror entry i
           | constant_klass resolved =>
               report constant_pool_reference mirror (java_mirror resolved) i
           | constant_other => skip
           end))
     (and_then
        (for_each (local_interfaces k) (fun interface =>
           let interf := java_mirror interface in
           if decide (interf = NULL) then skip
           else report interface_reference mirror interf (-1)))
        (for_each (create_map_of_static_fields k) (fun field =>
           let type := field_type field in
           if negb (is_primitive_field_type type) then
             let fld_o := obj_field k (field_offset field) in
             if decide (fld_o <> NULL)
             then report static_field_reference mirror fld_o
                    (field_index field)
             else skip
           else if _reporting_primitive_fields op
           then report_primitive_static_field (op_context op) mirror
                  (field_index field) k (field_offset field) type
           else skip)))))))
  else skip.

(** The loop of [iterate_over_object] over the fields, and the string
    value after it. *)
Definition iterate_over_fields (op : VM_HeapWalkOperation) (mk : ObjectMarker)
    (o : oop) (field_map : list ClassFieldDescriptor) : step :=
  and_then
    (for_each field_map (fun field =>
       let type := field_type field in
       if negb (is_primitive_field_type type) then
         let fld_o := obj_field o (field_offset field) in
         if decide (fld_o <> NULL) then
           let fld_o := if is_klass fld_o then java_mirror fld_o else fld_o in
           report_reference mk (op_context op) field_reference o fld_o
             (field_index field)
         else skip
       else if _reporting_primitive_fields op
       then report_primitive_instance_field (op_context op) o
              (field_index field) o (field_offset field) type
       else skip))
    (if _reporting_string_values op && bool_decide (klass o = String_klass)
     then report_string_value (op_context op) o
     else skip).

Definition iterate_over_object (op : VM_HeapWalkOperation) (mk : ObjectMarker)
    (o : oop) (c : FieldMapCache) (iv : CallbackInvoker)
  : bool * FieldMapCache * CallbackInvoker :=
  let '(r, iv1) :=
    report_reference mk (op_context op) class_reference o
      (java_mirror (klass o)) (-1) iv in
  if r then
    let '(field_map, c1) := get_map_of_instance_fields o c in
    let '(r2, iv2) := iterate_over_fields op mk o field_map iv1 in
    (r2, c1, iv2)
  else (false, c, iv1).

(** The threads whose roots are reported. *)
Definition reported_thread (thread : JavaThread) : bool :=
  bool_decide (threadObj thread <> NULL)
  && negb (is_exiting thread)
  && negb (is_hidden_from_external_view thread).

(** The result of the closure is not tested after the last two groups. *)
Definition collect_simple_roots (op : VM_HeapWalkOperation)
    (mk : ObjectMarker) : step :=
  let ctx := op_context op in
  and_then (simple_roots mk ctx JVMTI_HEAP_REFERENCE_JNI_GLOBAL jni_global_oops)
 (and_then (simple_roots mk ctx JVMTI_HEAP_REFERENCE_SYSTEM_CLASS
              system_dictionary_oops)
 (and_then (simple_roots mk ctx JVMTI_HEAP_REFERENCE_MONITOR monitor_oops)
 (and_then (for_each java_threads (fun thread =>
              if reported_thread thread
              then report_simple_root mk ctx JVMTI_HEAP_REFERENCE_THREAD
                     (threadObj thread)
              else skip))
 (and_then (unchecked (simple_roots mk ctx JVMTI_HEAP_REFERENCE_OTHER
                         universe_oops))
           (unchecked (simple_roots mk ctx JVMTI_HEAP_REFERENCE_OTHER
                         code_cache_oops)))))).

(** [collect_stack_roots(java_thread, blk)]: the tag of the thread is
    read once; the closure over the JNI locals is not asked whether it
    stopped. *)
Definition collect_stack_roots_of (op : VM_HeapWalkOperation)
    (mk : ObjectMarker) (java_thread : JavaThread) : step :=
  fun iv =>
    let ctx := op_context op in
    let thread_tag := tag_for (_tag_map iv) (threadObj java_thread) in
    let tid := thread_id (threadObj java_thread) in
    for_each (stack_items java_thread) (fun item =>
      match item with
      | stack_local depth method bci slot o =>
          if decide (o = NULL) then skip
          else report_stack_ref_root mk ctx thread_tag tid depth method bci
                 slot o
      | jni_locals depth method handles =>
          unchecked (jni_local_roots mk ctx thread_tag tid depth method
                       handles)
      end) iv.

Definition collect_stack_roots (op : VM_HeapWalkOperation)
    (mk : ObjectMarker) : step :=
  for_each java_threads (fun thread =>
    if reported_thread thread then collect_stack_roots_of op mk thread
    else skip).

(** The state of a walk. *)
Record heap_walk := mkWalk {
  marker : ObjectMarker;
  cache : FieldMapCache;
  invoker : CallbackInvoker
}.

Definition set_invoker (iv : CallbackInvoker) (st : heap_walk) : heap_walk :=
  {| marker := marker st; cache := cache st; invoker := iv |}.

(** What [visit] does with the object once it is marked. *)
Definition visit_marked (op : VM_HeapWalkOperation) (o : oop)
    (st : heap_walk) : bool * heap_walk :=
  let mk := marker st in
  let arrays o :=
    if is_objArray o then
      let '(r, iv) := iterate_over_array op mk o (invoker st) in
      (r, set_invoker iv st)
    else if is_typeArray o then
      let '(r, iv) := iterate_over_type_array op mk o (invoker st) in
      (r, set_invoker iv st)
    else (true, st) in
  if is_instance o then
    if decide (klass o = Class_klass) then
      let o := klassOop_if_java_lang_Class o in
      if is_klass o then
        let '(r, iv) := iterate_over_class op mk o (invoker st) in
        (r, set_invoker iv st)
      else arrays o
    else
      let '(r, c, iv) := iterate_over_object op mk o (cache st) (invoker st) in
      (r, {| marker := mk; cache := c; invoker := iv |})
  else arrays o.

Definition visit (op : VM_HeapWalkOperation) (o : oop) (st : heap_walk)
  : bool * heap_walk :=
  visit_marked op o
    {| marker := mark o (marker st); cache := cache st;
       invoker := invoker st |}.

(** How the loop over the visit stack ended; the last case is the one of
    a loop that was not run to its end. *)
Inductive walk_end := walk_completed | walk_aborted | walk_unfinished.

Fixpoint visit_loop (fuel : nat) (op : VM_HeapWalkOperation) (st : heap_walk)
  : walk_end * heap_walk :=
  match _visit_stack (invoker st) with
  | [] => (walk_completed, st)
  | o :: rest =>
      match fuel with
      | O => (walk_unfinished, st)
      | S fuel =>
          let st1 := set_invoker (set_visit_stack rest (invoker st)) st in
          if visited (marker st1) o then visit_loop fuel op st1
          else
            let '(r, st2) := visit op o st1 in
            if r then visit_loop fuel op st2 else (walk_aborted, st2)
      end
  end.

(** The body of [doit], between the constructors and the destructors. *)
Definition walk (fuel : nat) (op : VM_HeapWalkOperation) (st : heap_walk)
  : walk_end * heap_walk :=
  let '(r, iv) :=
    if decide (_initial_object op = NULL) then
      and_then (collect_simple_roots op (marker st))
               (collect_stack_roots op (marker st)) (invoker st)
    else (true, push (_initial_object op) (invoker st)) in
  if r then
    if _following_object_refs op
    then visit_loop fuel op (set_invoker iv st)
    else (walk_completed, set_invoker iv st)
  else (walk_aborted, set_invoker iv st).

(** [VM_HeapWalkOperation::doit], from the mark words, the cache and the
    invoker as they are when the operation starts. The marker and the
    cache mark are constructed, the walk runs, and on every path the
    destructors run: the one of the cache mark, then the one of the
    marker. *)
Definition doit (fuel : nat) (op : VM_HeapWalkOperation) (marks : oop -> Z)
    (c : FieldMapCache) (iv : CallbackInvoker) : walk_end * heap_walk :=
  let st0 :=
    {| marker := ObjectMarker_init marks;
       cache := ClassFieldMapCacheMark_new c;
       invoker := iv |} in
  let '(e, st1) := walk fuel op st0 in
  (e, {| marker := ObjectMarker_done (marker st1);
         cache := ClassFieldMapCacheMark_delete (cache st1);
         invoker := invoker st1 |}).

Unset Implicit Arguments.
End Walker.
End Walker.

(** ** Iteration over all objects of the heap *)

(** [jvmtiHeapObjectFilter] (jvmti.h). *)
Inductive jvmtiHeapObjectFilter :=
| JVMTI_HEAP_OBJECT_TAGGED | JVMTI_HEAP_OBJECT_UNTAGGED
| JVMTI_HEAP_OBJECT_EITHER.

#[global] Instance jvmtiHeapObjectFilter_eq_dec : EqDecision jvmtiHeapObjectFilter.
Proof. solve_decision. Defined.

Module HeapIterate.
Import Walker.
Section HeapIterate.
Context `{!Collaborators} `{!HeapModel}.

(** [object_iterate] of the heap or of a space, with a closure whose
    state is [S]. *)
Definition object_iterate {S : Type} (objects : list oop)
    (do_object : oop -> S -> S) (blk : S) : S :=
  foldl (fun blk o => do_object o blk) blk objects.

(** [VM_HeapIterateOperation::doit]: the closure sees the heap, then the
    two shared spaces when sharing is enabled; the field maps may be
    cached meanwhile. *)
Definition doit {S : Type}
    (do_object : oop -> S * FieldMapCache -> S * FieldMapCache)
    (blk : S) (c : FieldMapCache) : S * FieldMapCache :=
  let st0 := (blk, ClassFieldMapCacheMark_new c) in
  let st1 := object_iterate heap_objects do_object st0 in
  let st2 :=
    if UseSharedSpaces
    then object_iterate rw_space_objects do_object
           (object_iterate ro_space_objects do_object st1)
    else st1 in
  (st2.1, ClassFieldMapCacheMark_delete st2.2).

End HeapIterate.
End HeapIterate.

(** *** IterateOverHeap *)

Module IterateOverHeap.
Import Hashmap TagMap Walker.
Section IterateOverHeap.
Context `{!Collaborators} `{!HeapModel}.
Set Implicit Arguments.

Variable A : Type.
Variable malloc_ok : nat -> bool.

Definition jvmtiHeapObjectCallback : Type :=
  jlong -> jlong -> jlong -> A -> jvmtiIterationControl * jlong * A.

(** The record of a call of the callback: the object, and the class tag,
    the size and the tag that were passed. *)
Record heap_object_call := mkCall {
  call_object : oop;
  call_class_tag : jlong;
  call_size : jlong;
  call_tag : jlong
}.

(** The closure, with the agent's data, the number of tables allocated so
    far and the calls made, the latest first. *)
Record IterateOverHeapObjectClosure := mkClosure {
  _tag_map : JvmtiTagMap;
  _klass : option oop;
  _object_filter : jvmtiHeapObjectFilter;
  _heap_object_callback : jvmtiHeapObjectCallback;
  _user_data : A;
  _iteration_aborted : bool;
  mallocs : nat;
  calls : list heap_object_call
}.

Definition IterateOverHeapObjectClosure_new (tag_map : JvmtiTagMap)
    (klass : option oop) (object_filter : jvmtiHeapObjectFilter)
    (heap_object_callback : jvmtiHeapObjectCallback) (user_data : A)
  : IterateOverHeapObjectClosure :=
  {| _tag_map := tag_map;
     _klass := klass;
     _object_filter := object_filter;
     _heap_object_callback := heap_object_callback;
     _user_data := user_data;
     _iteration_aborted := false;
     mallocs := 0;
     calls := [] |}.

(** The callback has run. *)
Definition called (c : heap_object_call) (a : A) (aborted : bool)
    (blk : IterateOverHeapObjectClosure) : IterateOverHeapObjectClosure :=
  {| _tag_map := _tag_map blk;
     _klass := _klass blk;
     _object_filter := _object_filter blk;
     _heap_object_callback := _heap_object_callback blk;
     _user_data := a;
     _iteration_aborted := aborted;
     mallocs := mallocs blk;
     calls := c :: calls blk |}.

(** The wrapper is destroyed. *)
Definition committed (tm : JvmtiTagMap) (blk : IterateOverHeapObjectClosure)
  : IterateOverHeapObjectClosure :=
  {| _tag_map := tm;
     _klass := _klass blk;
     _object_filter := _object_filter blk;
     _heap_object_callback := _heap_object_callback blk;
     _user_data := _user_data blk;
     _iteration_aborted := _iteration_aborted blk;
     mallocs := S (mallocs blk);
     calls := calls blk |}.

(** [IterateOverHeapObjectClosure::do_object]. Once the wrapper is
    constructed, every return runs its destructor. *)
Definition do_object (o : oop) (blk : IterateOverHeapObjectClosure)
  : IterateOverHeapObjectClosure :=
  if _iteration_aborted blk then blk
  else if negb (visible_oop o) then blk
  else if match _klass blk with
          | Some k => negb (is_a o k)
          | None => false
          end then blk
  else
    let wrapper := CallbackWrapper_new (_tag_map blk) o in
    let '(obj_tag, blk1) :=
      if (if decide (_obj_tag wrapper <> 0)
          then bool_decide (_object_filter blk = JVMTI_HEAP_OBJECT_UNTAGGED)
          else bool_decide (_object_filter blk = JVMTI_HEAP_OBJECT_TAGGED))
      then (_obj_tag wrapper, blk)
      else
        let '(control, tag, a) :=
          _heap_object_callback blk (_klass_tag wrapper) (_obj_size wrapper)
            (_obj_tag wrapper) (_user_data blk) in
        (tag,
         called (mkCall o (_klass_tag wrapper) (_obj_size wrapper)
                   (_obj_tag wrapper))
                a (bool_decide (control = JVMTI_ITERATION_ABORT)) blk) in
    committed
      (CallbackWrapper_delete (malloc_ok (mallocs blk1))
         (write_obj_tag obj_tag wrapper) (_tag_map blk1))
      blk1.

(** [JvmtiTagMap::iterate_over_heap], on the tag map [tm]. *)
Definition iterate_over_heap (object_filter : jvmtiHeapObjectFilter)
    (klass : option oop) (heap_object_callback : jvmtiHeapObjectCallback)
    (user_data : A) (tm : JvmtiTagMap) (c : FieldMapCache)
  : IterateOverHeapObjectClosure * FieldMapCache :=
  HeapIterate.doit (fun o st => (do_object o st.1, st.2))
    (IterateOverHeapObjectClosure_new tm klass object_filter
       heap_object_callback user_data)
    c.

Unset Implicit Arguments.
End IterateOverHeap.
End IterateOverHeap.

(** *** IterateThroughHeap *)

Module IterateThroughHeap.
Import Hashmap TagMap Walker.
Section IterateThroughHeap.
Context `{!Collaborators} `{!HeapModel}.
Set Implicit Arguments.

Variable A : Type.
Variable malloc_ok : nat -> bool.

Definition jvmtiHeapIterationCallback : Type :=
  jlong -> jlong -> jlong -> Z -> A -> Z * jlong * A.

(** The callbacks of [jvmtiHeapCallbacks] that the iteration uses. *)
Record jvmtiHeapCallbacks := mkCallbacks {
  heap_iteration_callback : option jvmtiHeapIterationCallback;
  primitive_field_callback : option (jvmtiPrimitiveFieldCallback A);
  array_primitive_value_callback :
    option (jvmtiArrayPrimitiveValueCallback A);
  string_primitive_value_callback :
    option (jvmtiStringPrimitiveValueCallback A)
}.

(** The record of a call of a callback. *)
Inductive heap_callback_call :=
| heap_iteration_call (obj : oop) (class_tag size tag : jlong) (length : Z)
| primitive_field_call (ref_kind : jvmtiHeapReferenceKind) (index : Z)
    (obj : oop) (class_tag tag : jlong) (value value_type : Z)
| array_primitive_value_call (obj : oop) (class_tag size tag : jlong)
    (length elem_type : Z) (elements : list Z)
| string_primitive_value_call (obj : oop) (class_tag size tag : jlong)
    (value : list Z) (length : Z).

Record IterateThroughHeapObjectClosure := mkClosure {
  _tag_map : JvmtiTagMap;
  _klass : option oop;
  _heap_filter : Z;
  _callbacks : jvmtiHeapCallbacks;
  _user_data : A;
  _iteration_aborted : bool;
  mallocs : nat;
  calls : list heap_callback_call
}.

Definition IterateThroughHeapObjectClosure_new (tag_map : JvmtiTagMap)
    (klass : option oop) (heap_filter : Z)
    (heap_callbacks : jvmtiHeapCallbacks) (user_data : A)
  : IterateThroughHeapObjectClosure :=
  {| _tag_map := tag_map;
     _klass := klass;
     _heap_filter := heap_filter;
     _callbacks := heap_callbacks;
     _user_data := user_data;
     _iteration_aborted := false;
     mallocs := 0;
     calls := [] |}.

Definition called (c : heap_callback_call) (a : A)
    (blk : IterateThroughHeapObjectClosure) : IterateThroughHeapObjectClosure :=
  {| _tag_map := _tag_map blk;
     _klass := _klass blk;
     _heap_filter := _heap_filter blk;
     _callbacks := _callbacks blk;
     _user_data := a;
     _iteration_aborted := _iteration_aborted blk;
     mallocs := mallocs blk;
     calls := c :: calls blk |}.

Definition committed (tm : JvmtiTagMap) (blk : IterateThroughHeapObjectClosure)
  : IterateThroughHeapObjectClosure :=
  {| _tag_map := tm;
     _klass := _klass blk;
     _heap_filter := _heap_filter blk;
     _callbacks := _callbacks blk;
     _user_data := _user_data blk;
     _iteration_aborted := _iteration_aborted blk;
     mallocs := S (mallocs blk);
     calls := calls blk |}.

Definition check_flags_for_abort (flags : Z)
    (blk : IterateThroughHeapObjectClosure)
  : bool * IterateThroughHeapObjectClosure :=
  let is_abort := flag flags JVMTI_VISIT_ABORT in
  (is_abort,
   if is_abort then
     {| _tag_map := _tag_map blk;
        _klass := _klass blk;
        _heap_filter := _heap_filter blk;
        _callbacks := _callbacks blk;
        _user_data := _user_data blk;
        _iteration_aborted := true;
        mallocs := mallocs blk;
        calls := calls blk |}
   else blk).

(** The wrapper of the object and the closure, as the helpers below are
    handed them and leave them, with the flags they return. *)
Definition helper : Type :=
  CallbackWrapper -> IterateThroughHeapObjectClosure
  -> Z * CallbackWrapper * IterateThroughHeapObjectClosure.

Definition invoke_string_value_callback
    (cb : jvmtiStringPrimitiveValueCallback A) (str : oop) : helper :=
  fun wrapper blk =>
    let value := string_chars str in
    let s_len := Z.of_nat (length value) in
    let '(res, tag, a) :=
      cb (_klass_tag wrapper) (_obj_size wrapper) (_obj_tag wrapper) value
         s_len (_user_data blk) in
    (res, write_obj_tag tag wrapper,
     called (string_primitive_value_call str (_klass_tag wrapper)
               (_obj_size wrapper) (_obj_tag wrapper) value s_len) a blk).

Definition invoke_array_primitive_value_callback
    (cb : jvmtiArrayPrimitiveValueCallback A) (obj : oop) : helper :=
  fun wrapper blk =>
    let '(res, tag, a) :=
      cb (_klass_tag wrapper) (_obj_size wrapper) (_obj_tag wrapper)
         (array_length obj) (element_type obj) (array_elements obj)
         (_user_data blk) in
    (res, write_obj_tag tag wrapper,
     called (array_primitive_value_call obj (_klass_tag wrapper)
               (_obj_size wrapper) (_obj_tag wrapper) (array_length obj)
               (element_type obj) (array_elements obj)) a blk).

(** The loop of the two helpers for primitive fields: the fields of the
    map in order, read at their offset from [addr]; the loop ends with
    the flags of the first callback that asks to abort, else with 0. *)
Fixpoint primitive_fields (ref_kind : jvmtiHeapReferenceKind)
    (cb : jvmtiPrimitiveFieldCallback A) (obj addr : oop)
    (fields : list ClassFieldDescriptor) : helper :=
  fun wrapper blk =>
    match fields with
    | [] => (0, wrapper, blk)
    | field :: fields =>
        let type := field_type field in
        if negb (is_primitive_field_type type)
        then primitive_fields ref_kind cb obj addr fields wrapper blk
        else
          let value := primitive_field addr (field_offset field) type in
          let '(res, tag, a) :=
            cb ref_kind (info_index (field_index field)) (_klass_tag wrapper)
               (_obj_tag wrapper) value type (_user_data blk) in
          let wrapper1 := write_obj_tag tag wrapper in
          let blk1 :=
            called (primitive_field_call ref_kind (field_index field) obj
                      (_klass_tag wrapper) (_obj_tag wrapper) value type)
                   a blk in
          if flag res JVMTI_VISIT_ABORT then (res, wrapper1, blk1)
          else primitive_fields ref_kind cb obj addr fields wrapper1 blk1
    end.

Definition invoke_primitive_field_callback_for_static_fields (obj : oop)
    (cb : jvmtiPrimitiveFieldCallback A) : helper :=
  fun wrapper blk =>
    if java_lang_Class_is_primitive obj then (0, wrapper, blk)
    else
      let k := java_lang_Class_as_klassOop obj in
      if negb (klass_oop_is_instance k) then (0, wrapper, blk)
      else if negb (is_linked k) then (0, wrapper, blk)
      else
        primitive_fields JVMTI_HEAP_REFERENCE_STATIC_FIELD cb obj k
          (create_map_of_static_fields k) wrapper blk.

Definition invoke_primitive_field_callback_for_instance_fields (obj : oop)
    (cb : jvmtiPrimitiveFieldCallback A) (c : FieldMapCache)
  : CallbackWrapper -> IterateThroughHeapObjectClosure
    -> Z * CallbackWrapper * IterateThroughHeapObjectClosure * FieldMapCache :=
  fun wrapper blk =>
    let '(fields, c1) := get_map_of_instance_fields obj c in
    (primitive_fields JVMTI_HEAP_REFERENCE_FIELD cb obj obj fields wrapper
       blk, c1).

(** The part of [do_object] after the filters, up to the return: the
    callbacks in order, each one only if the ones before did not ask to
    abort. *)
Definition object_callbacks (obj : oop) (wrapper : CallbackWrapper)
    (blk : IterateThroughHeapObjectClosure) (c : FieldMapCache)
  : CallbackWrapper * IterateThroughHeapObjectClosure * FieldMapCache :=
  let is_array := is_array obj in
  let len := if is_array then array_length obj else -1 in
  let '(abort1, wrapper1, blk1) :=
    match heap_iteration_callback (_callbacks blk) with
    | Some cb =>
        let '(res, tag, a) :=
          cb (_klass_tag wrapper) (_obj_size wrapper) (_obj_tag wrapper) len
             (_user_data blk) in
        let '(is_abort, blk1) :=
          check_flags_for_abort res
            (called (heap_iteration_call obj (_klass_tag wrapper)
                       (_obj_size wrapper) (_obj_tag wrapper) len) a blk) in
        (is_abort, write_obj_tag tag wrapper, blk1)
    | None => (false, wrapper, blk)
    end in
  if abort1 then (wrapper1, blk1, c)
  else
    let '(abort2, wrapper2, blk2, c2) :=
      match primitive_field_callback (_callbacks blk1) with
      | Some cb =>
          if is_instance obj then
            let '(res, wrapper2, blk2, c2) :=
              if decide (klass obj = Class_klass) then
                (invoke_primitive_field_callback_for_static_fields obj cb
                   wrapper1 blk1, c)
              else
                invoke_primitive_field_callback_for_instance_fields obj cb c
                  wrapper1 blk1 in
            let '(is_abort, blk2) := check_flags_for_abort res blk2 in
            (is_abort, wrapper2, blk2, c2)
          else (false, wrapper1, blk1, c)
      | None => (false, wrapper1, blk1, c)
      end in
    if abort2 then (wrapper2, blk2, c2)
    else
      let '(abort3, wrapper3, blk3) :=
        match string_primitive_value_callback (_callbacks blk2) with
        | Some cb =>
            if negb is_array && bool_decide (klass obj = String_klass) then
              let '(res, wrapper3, blk3) :=
                invoke_string_value_callback cb obj wrapper2 blk2 in
              let '(is_abort, blk3) := check_flags_for_abort res blk3 in
              (is_abort, wrapper3, blk3)
            else (false, wrapper2, blk2)
        | None => (false, wrapper2, blk2)
        end in
      if abort3 then (wrapper3, blk3, c2)
      else
        match array_primitive_value_callback (_callbacks blk3) with
        | Some cb =>
            if is_array && is_typeArray obj then
              let '(res, wrapper4, blk4) :=
                invoke_array_primitive_value_callback cb obj wrapper3 blk3 in
              let '(_, blk4) := check_flags_for_abort res blk4 in
              (wrapper4, blk4, c2)
            else (wrapper3, blk3, c2)
        | None => (wrapper3, blk3, c2)
        end.

(** [IterateThroughHeapObjectClosure::do_object], with the cache of
    field maps. Once the wrapper is constructed, every return runs its
    destructor. *)
Definition do_object (obj : oop)
    (st : IterateThroughHeapObjectClosure * FieldMapCache)
  : IterateThroughHeapObjectClosure * FieldMapCache :=
  let '(blk, c) := st in
  if _iteration_aborted blk then st
  else if negb (visible_oop obj) then st
  else if is_filtered_by_klass_filter obj (_klass blk) then st
  else
    let wrapper := CallbackWrapper_new (_tag_map blk) obj in
    let '(wrapper1, blk1, c1) :=
      if is_filtered_by_heap_filter (_obj_tag wrapper) (_klass_tag wrapper)
           (_heap_filter blk)
      then (wrapper, blk, c)
      else object_callbacks obj wrapper blk c in
    (committed
       (CallbackWrapper_delete (malloc_ok (mallocs blk1)) wrapper1
          (_tag_map blk1))
       blk1,
     c1).

(** [JvmtiTagMap::iterate_through_heap], on the tag map [tm]. *)
Definition iterate_through_heap (heap_filter : Z) (klass : option oop)
    (callbacks : jvmtiHeapCallbacks) (user_data : A) (tm : JvmtiTagMap)
    (c : FieldMapCache)
  : IterateThroughHeapObjectClosure * FieldMapCache :=
  HeapIterate.doit do_object
    (IterateThroughHeapObjectClosure_new tm klass heap_filter callbacks
       user_data)
    c.

Unset Implicit Arguments.
End IterateThroughHeap.
End IterateThroughHeap.

(** * Properties *)

(** ** Permutations of concatenations *)

(** [perm_front a] brings the segment [a] to the front of the right-hand
    side; [solve_perm] settles [l ≡ₚ l'] when both are concatenations of
    the same segments. *)
Ltac perm_front a :=
  repeat match goal with
  | |- _ ≡ₚ a ++ _ => fail 1
  | |- _ ≡ₚ a => fail 1
  | |- _ ≡ₚ ?r =>
      match r with
      | context [?x ++ a ++ ?y] => rewrite (Permutation_app_swap_app x a y)
      | context [?x ++ a] => rewrite (Permutation_app_comm x a)
      end
  end.

Ltac solve_perm :=
  rewrite <- ?(assoc_L (++)), ?app_nil_r;
  repeat match goal with
  | |- ?a ++ _ ≡ₚ _ => perm_front a; apply Permutation_app_head
  | |- ?a ≡ₚ _ => reflexivity
  end.

(** ** Chains and bucket tables *)

Module HashmapFacts.
Import Hashmap.
Section HashmapFacts.
Context `{!Collaborators}.

(** No two entries for one object, no zero tag: what the store promises
    about its contents. *)
Definition well_formed (es : chain) : Prop :=
  NoDup (_object <$> es) /\ forall e, e ∈ es -> _tag e <> 0.

(** Every entry sits in the bucket its object hashes to. *)
Definition placed (size : Z) (table : list chain) : Prop :=
  forall i c e, table !! i = Some c -> e ∈ c -> hash (_object e) size = Z.of_nat i.

(** The representation invariant of the hashmap. *)
Record wf (h : JvmtiTagHashmap) : Prop := mk_wf {
  wf_size_pos : 0 < _size h;
  wf_length : length (_table h) = Z.to_nat (_size h);
  wf_placed : placed (_size h) (_table h);
  wf_contents : well_formed (entries h);
  wf_count : _entry_count h = Z.of_nat (length (entries h));
  wf_index : 0 <= _size_index h /\ sizes_at (_size_index h) = _size h
}.

Lemma hash_range key size : 0 < size -> 0 <= hash key size < size.
Proof. intros Hs. unfold hash. apply Z.mod_pos_bound. exact Hs. Qed.

Lemma bucket_lookup (table : list chain) pos c :
  0 <= pos -> table !! Z.to_nat pos = Some c -> bucket table pos = c.
Proof. intros _ Hl. unfold bucket. by rewrite Hl. Qed.

Lemma lookup_bucket (table : list chain) pos :
  0 <= pos < Z.of_nat (length table) ->
  table !! Z.to_nat pos = Some (bucket table pos).
Proof.
  intros Hr. unfold bucket.
  destruct (lookup_lt_is_Some_2 table (Z.to_nat pos)) as [c Hc]; [lia|].
  by rewrite Hc.
Qed.

Lemma concat_insert_perm (table : list chain) i c c' :
  table !! i = Some c ->
  c ++ concat (<[i:=c']> table) ≡ₚ c' ++ concat table.
Proof.
  revert i. induction table as [|b table IH]; intros [|i] Hl; simplify_eq/=.
  - apply Permutation_app_swap_app.
  - rewrite Permutation_app_swap_app, (IH i Hl).
    apply Permutation_app_swap_app.
Qed.

Lemma set_bucket_perm table pos c' :
  0 <= pos < Z.of_nat (length table) ->
  bucket table pos ++ concat (set_bucket table pos c') ≡ₚ c' ++ concat table.
Proof.
  intros Hr. apply concat_insert_perm. by apply lookup_bucket.
Qed.

Lemma length_set_bucket table pos c :
  length (set_bucket table pos c) = length table.
Proof. apply length_insert. Qed.

Lemma link_front_eq entry pos table :
  link_front entry pos table = set_bucket table pos (entry :: bucket table pos).
Proof. unfold link_front. by destruct (bucket table pos). Qed.

Lemma length_link_front entry pos table :
  length (link_front entry pos table) = length table.
Proof. rewrite link_front_eq. apply length_set_bucket. Qed.

Lemma link_front_perm entry pos table :
  0 <= pos < Z.of_nat (length table) ->
  concat (link_front entry pos table) ≡ₚ entry :: concat table.
Proof.
  intros Hr. rewrite link_front_eq.
  apply (Permutation_app_inv_l (bucket table pos)).
  rewrite set_bucket_perm by done. simpl.
  apply Permutation_middle.
Qed.

Lemma placed_set_bucket size table pos c :
  0 <= pos ->
  placed size table ->
  (forall e, e ∈ c -> hash (_object e) size = pos) ->
  placed size (set_bucket table pos c).
Proof.
  intros Hp Hpl Hc i c0 e Hl He. unfold set_bucket in Hl.
  destruct (decide (i = Z.to_nat pos)) as [->|Hne].
  - destruct (decide (Z.to_nat pos < length table)%nat) as [Hlt|Hge].
    + rewrite list_lookup_insert_eq in Hl by done. simplify_eq.
      rewrite (Hc e He). lia.
    + rewrite list_insert_ge in Hl by lia. by eapply Hpl.
  - rewrite list_lookup_insert_ne in Hl by done. by eapply Hpl.
Qed.

Lemma placed_bucket size (table : list chain) pos e :
  0 <= pos -> placed size table ->
  e ∈ bucket table pos -> hash (_object e) size = pos.
Proof.
  intros Hp Hpl He. unfold bucket in He.
  destruct (table !! Z.to_nat pos) as [c|] eqn:E; simpl in He.
  - rewrite (Hpl _ _ _ E He). lia.
  - by apply elem_of_nil in He.
Qed.

Lemma placed_link_front size table entry :
  0 < size -> placed size table ->
  placed size (link_front entry (hash (_object entry) size) table).
Proof.
  intros Hs Hpl. rewrite link_front_eq.
  pose proof (hash_range (_object entry) size Hs) as Hr.
  apply placed_set_bucket; [lia|done|].
  intros e [->|He]%elem_of_cons; [done|].
  apply placed_bucket with table; [lia|done..].
Qed.

Lemma placed_replicate size n : placed size (replicate n []).
Proof.
  intros i c e Hl He. apply lookup_replicate in Hl as [-> _].
  by apply elem_of_nil in He.
Qed.

Lemma concat_replicate_nil (n : nat) : concat (replicate n ([] : chain)) = [].
Proof. induction n; simpl; auto. Qed.

(** *** Chain walks *)

Lemma chain_find_Some key c e :
  chain_find key c = Some e -> e ∈ c /\ _object e = key.
Proof.
  induction c as [|x c IH]; simpl; [done|].
  case_decide.
  - intros [= ->]. split; [left|done].
  - intros [He Hk]%IH. split; [by right|done].
Qed.

Lemma chain_find_None key c :
  chain_find key c = None <-> forall e, e ∈ c -> _object e <> key.
Proof.
  induction c as [|x c IH]; simpl.
  - split; [|done]. intros _ e He. by apply elem_of_nil in He.
  - case_decide as Hx.
    + split; [done|]. intros Hall. exfalso. apply (Hall x); [left|done].
    + rewrite IH. split.
      * intros Hall e [->|He]%elem_of_cons; auto.
      * intros Hall e He. apply Hall. by right.
Qed.

Lemma chain_find_is_Some key c e :
  e ∈ c -> _object e = key -> is_Some (chain_find key c).
Proof.
  intros He Hk. destruct (chain_find key c) eqn:E; [eauto|].
  exfalso. by apply (proj1 (chain_find_None key c) E e).
Qed.


(** *** Membership in the table *)

Lemma elem_of_concat (table : list chain) e :
  e ∈ concat table <-> exists i c, table !! i = Some c /\ e ∈ c.
Proof.
  induction table as [|b table IH]; simpl.
  - split; [by intros ?%elem_of_nil|]. by intros (i & c & ? & _).
  - rewrite elem_of_app, IH. split.
    + intros [He|(i & c & Hl & He)]; [by exists 0%nat, b|by exists (S i), c].
    + intros ([|i] & c & Hl & He); simplify_eq/=; [by left|right; eauto].
Qed.

Lemma elem_of_bucket_entries h pos e :
  e ∈ bucket (_table h) pos -> e ∈ entries h.
Proof.
  unfold bucket, entries. intros He. apply elem_of_concat.
  destruct (_table h !! Z.to_nat pos) as [c|] eqn:E; simpl in He.
  - eauto.
  - by apply elem_of_nil in He.
Qed.

Lemma nodup_object_inj (es : chain) e e' :
  NoDup (_object <$> es) -> e ∈ es -> e' ∈ es ->
  _object e = _object e' -> e = e'.
Proof.
  induction es as [|x es IH]; simpl; [by intros _ ?%elem_of_nil|].
  intros [Hx Hnd]%NoDup_cons [->|He]%elem_of_cons [->|He']%elem_of_cons Ho;
    auto.
  - exfalso. apply Hx. rewrite Ho. by apply list_elem_of_fmap_2.
  - exfalso. apply Hx. rewrite <- Ho. by apply list_elem_of_fmap_2.
Qed.

(** [find] returns the entry of the object, wherever it is chained. *)
Lemma find_spec h key e :
  wf h -> find h key = Some e <-> e ∈ entries h /\ _object e = key.
Proof.
  intros [Hs Hlen Hpl [Hnd _] _ _]. unfold find.
  pose proof (hash_range key (_size h) Hs) as Hr.
  split.
  - intros [He Hk]%chain_find_Some. split; [|done].
    by eapply elem_of_bucket_entries.
  - intros [He Hk].
    apply elem_of_concat in He as Hin. destruct Hin as (i & c & Hl & Hc).
    pose proof (Hpl _ _ _ Hl Hc) as Hh. rewrite Hk in Hh.
    assert (bucket (_table h) (hash key (_size h)) = c) as ->.
    { unfold bucket. rewrite Hh, Nat2Z.id. by rewrite Hl. }
    destruct (chain_find_is_Some key c e Hc Hk) as [e' He'].
    rewrite He'. f_equal.
    apply chain_find_Some in He' as [Hc' Hk'].
    apply (nodup_object_inj (entries h)); [done| |done|congruence].
    apply elem_of_concat. eauto.
Qed.

Lemma find_None h key :
  wf h -> find h key = None <-> forall e, e ∈ entries h -> _object e <> key.
Proof.
  intros Hwf. split.
  - intros Hn e He Hk.
    assert (find h key = Some e) by (by apply find_spec). congruence.
  - intros Hall. destruct (find h key) as [e|] eqn:E; [|done].
    apply find_spec in E; [|done]. destruct E as [He Hk].
    by destruct (Hall e He).
Qed.

(** Two well-formed hashmaps with the same entries for an object answer
    [find] alike. *)
Lemma find_ext h h' key :
  wf h -> wf h' ->
  (forall e, _object e = key -> e ∈ entries h' <-> e ∈ entries h) ->
  find h' key = find h key.
Proof.
  intros Hwf Hwf' Hiff.
  destruct (find h key) as [e|] eqn:E.
  - apply find_spec in E; [|done]. destruct E as [He Hk].
    apply find_spec; [done|]. split; [by apply Hiff|done].
  - apply find_None; [done|]. intros e He Hk.
    pose proof (proj1 (find_None h key Hwf) E) as Hn.
    apply (Hn e); [|done]. by apply Hiff.
Qed.


(** *** Rehashing *)

Lemma length_rehash_chain ns (t : list chain) c :
  length (rehash_chain ns t c) = length t.
Proof.
  unfold rehash_chain. revert t. induction c as [|e c IH]; intros t; simpl.
  - done.
  - by rewrite IH, length_link_front.
Qed.

Lemma rehash_chain_perm ns (t : list chain) c :
  0 < ns -> length t = Z.to_nat ns ->
  concat (rehash_chain ns t c) ≡ₚ c ++ concat t.
Proof.
  intros Hns. unfold rehash_chain. revert t.
  induction c as [|e c IH]; intros t Hlen; simpl; [done|].
  pose proof (hash_range (_object e) ns Hns).
  rewrite IH by (by rewrite length_link_front).
  rewrite link_front_perm by lia. apply Permutation_sym, Permutation_middle.
Qed.

Lemma rehash_chain_placed ns (t : list chain) c :
  0 < ns -> placed ns t -> placed ns (rehash_chain ns t c).
Proof.
  intros Hns. unfold rehash_chain. revert t.
  induction c as [|e c IH]; intros t Hpl; simpl; [done|].
  apply IH. by apply placed_link_front.
Qed.

Lemma length_rehash_table ns (t : list chain) (old : list chain) :
  length (foldl (rehash_chain ns) t old) = length t.
Proof.
  revert t. induction old as [|c old IH]; intros t; simpl; [done|].
  by rewrite IH, length_rehash_chain.
Qed.

Lemma rehash_table_perm ns (t old : list chain) :
  0 < ns -> length t = Z.to_nat ns ->
  concat (foldl (rehash_chain ns) t old) ≡ₚ concat old ++ concat t.
Proof.
  intros Hns. revert t. induction old as [|c old IH]; intros t Hlen; simpl.
  - done.
  - rewrite IH by (by rewrite length_rehash_chain).
    rewrite rehash_chain_perm by done.
    rewrite <- (assoc_L (++)). apply Permutation_app_swap_app.
Qed.

Lemma rehash_table_placed ns (t old : list chain) :
  0 < ns -> placed ns t -> placed ns (foldl (rehash_chain ns) t old).
Proof.
  intros Hns. revert t. induction old as [|c old IH]; intros t Hpl; simpl.
  - done.
  - apply IH. by apply rehash_chain_placed.
Qed.

Lemma sizes_at_nonneg i : 0 <= i -> (sizes_at i <? 0) = false -> 0 < sizes_at i.
Proof.
  intros Hi. unfold sizes_at.
  destruct (_sizes !! Z.to_nat i) as [n|] eqn:E; [|done].
  apply list_elem_of_lookup_2 in E. unfold _sizes in E.
  repeat (apply elem_of_cons in E as [->|E]; [done|]).
  by apply elem_of_nil in E.
Qed.

Lemma well_formed_perm (es es' : chain) :
  es ≡ₚ es' -> well_formed es -> well_formed es'.
Proof.
  intros Hp [Hnd Ht]. split.
  - by rewrite <- Hp.
  - intros e He. apply Ht. by rewrite Hp.
Qed.

(** Resizing keeps the entries, whatever [os::malloc] answers. *)
Lemma resize_entries ok h : wf h -> entries (resize ok h) ≡ₚ entries h.
Proof.
  intros [Hs Hlen Hpl Hwf Hc [Hi0 Hi]]. unfold resize.
  destruct (sizes_at (_size_index h + 1) <? 0) eqn:E; [done|].
  destruct ok; simpl; [|done].
  apply sizes_at_nonneg in E; [|lia].
  unfold entries; simpl.
  rewrite rehash_table_perm; [|done|by rewrite length_replicate].
  by rewrite concat_replicate_nil, app_nil_r.
Qed.

Lemma resize_wf ok h : wf h -> wf (resize ok h).
Proof.
  intros Hwf. pose proof (resize_entries ok h Hwf) as Hp.
  destruct Hwf as [Hs Hlen Hpl Hwf Hc [Hi0 Hi]]. revert Hp. unfold resize.
  destruct (sizes_at (_size_index h + 1) <? 0) eqn:E; [by split|].
  destruct ok; simpl; [|by split].
  apply sizes_at_nonneg in E; [|lia]. intros Hp.
  split; simpl.
  - done.
  - by rewrite length_rehash_table, length_replicate.
  - apply rehash_table_placed; [done|]. apply placed_replicate.
  - by apply (well_formed_perm (entries h)).
  - rewrite Hc. f_equal. by rewrite Hp.
  - split; [lia|done].
Qed.

Lemma resize_size_fields ok h :
  _entry_count (resize ok h) = _entry_count h.
Proof.
  unfold resize. destruct (_ <? 0); [done|]. by destruct ok.
Qed.


(** *** add *)

(** The hashmap [add] builds before it looks at the threshold. *)
Definition add_linked key entry h : JvmtiTagHashmap :=
  set_entry_count (_entry_count h + 1)
    (set_table (link_front entry (hash key (_size h)) (_table h)) h).

Lemma add_unfold ok key entry h :
  add ok key entry h =
    if (_resize_threshold h <? _entry_count h + 1) && _resizing_enabled h
    then resize ok (add_linked key entry h)
    else add_linked key entry h.
Proof. done. Qed.

Lemma add_linked_entries key entry h :
  wf h -> entries (add_linked key entry h) ≡ₚ entry :: entries h.
Proof.
  intros [Hs Hlen _ _ _ _]. unfold entries; simpl.
  pose proof (hash_range key (_size h) Hs).
  apply link_front_perm. lia.
Qed.

Lemma add_linked_wf key entry h :
  wf h -> _object entry = key -> _tag entry <> 0 -> find h key = None ->
  wf (add_linked key entry h).
Proof.
  intros Hwf Hk Ht Hf. pose proof (add_linked_entries key entry h Hwf) as Hp.
  pose proof (proj1 (find_None h key Hwf) Hf) as Hfresh.
  destruct Hwf as [Hs Hlen Hpl [Hnd Htags] Hc Hi].
  split; simpl.
  - done.
  - by rewrite length_link_front.
  - rewrite <- Hk. by apply placed_link_front.
  - apply (well_formed_perm (entry :: entries h)); [done|]. split.
    + simpl. apply NoDup_cons. split; [|done].
      intros (e & He & Hin)%list_elem_of_fmap. apply (Hfresh e Hin). congruence.
    + intros e [->|He]%elem_of_cons; auto.
  - change (concat _) with (entries (add_linked key entry h)).
    rewrite Hp. simpl. lia.
  - done.
Qed.

Lemma add_entries ok key entry h :
  wf h -> _object entry = key -> _tag entry <> 0 -> find h key = None ->
  entries (add ok key entry h) ≡ₚ entry :: entries h.
Proof.
  intros Hwf Hk Ht Hf. rewrite add_unfold.
  destruct (_ && _).
  - rewrite resize_entries by (by apply add_linked_wf).
    by apply add_linked_entries.
  - by apply add_linked_entries.
Qed.

Lemma add_wf ok key entry h :
  wf h -> _object entry = key -> _tag entry <> 0 -> find h key = None ->
  wf (add ok key entry h).
Proof.
  intros Hwf Hk Ht Hf. rewrite add_unfold.
  destruct (_ && _); [apply resize_wf|]; by apply add_linked_wf.
Qed.

(** *** remove *)

Lemma chain_remove_find key c :
  fst (chain_remove key c) = chain_find key c.
Proof.
  induction c as [|x c IH]; simpl; [done|].
  destruct (chain_remove key c) as [r c'] eqn:E. simpl in IH.
  repeat case_decide; simpl; congruence.
Qed.

Lemma chain_remove_perm key c e c' :
  chain_remove key c = (Some e, c') -> c ≡ₚ e :: c'.
Proof.
  revert c'. induction c as [|x c IH]; intros c'; simpl; [done|].
  destruct (chain_remove key c) as [r c0] eqn:E.
  case_decide; [by intros [= <- <-]|]. intros [= -> <-].
  rewrite (IH c0) by done. apply perm_swap.
Qed.

Lemma chain_remove_None key c c' :
  chain_remove key c = (None, c') -> c' = c.
Proof.
  revert c'. induction c as [|x c IH]; intros c'; simpl; [congruence|].
  destruct (chain_remove key c) as [r c0] eqn:E.
  case_decide; [done|]. intros [= -> <-]. by rewrite (IH c0).
Qed.

Lemma remove_None key h : find h key = None -> remove key h = (None, h).
Proof.
  unfold find, remove. rewrite <- chain_remove_find.
  destruct (chain_remove _ _) as [[e|] c]; simpl; [done|auto].
Qed.

Lemma remove_Some key h e :
  wf h -> find h key = Some e ->
  exists h', remove key h = (Some e, h') /\ entries h ≡ₚ e :: entries h' /\
             _entry_count h' = _entry_count h - 1 /\
             _size h' = _size h /\ _size_index h' = _size_index h /\
             _resizing_enabled h' = _resizing_enabled h /\
             _resize_threshold h' = _resize_threshold h /\
             length (_table h') = length (_table h) /\
             placed (_size h) (_table h').
Proof.
  intros [Hs Hlen Hpl _ _ _]. unfold find, remove.
  rewrite <- chain_remove_find.
  pose proof (hash_range key (_size h) Hs) as Hr.
  destruct (chain_remove _ _) as [[e'|] c] eqn:E; simpl; [|done].
  intros [= ->]. eexists. split; [done|]. simpl.
  pose proof (chain_remove_perm _ _ _ _ E) as Hp.
  repeat split.
  - unfold entries; simpl.
    apply (Permutation_app_inv_l c).
    rewrite <- (set_bucket_perm (_table h) (hash key (_size h)) c) by lia.
    rewrite Hp. simpl. apply Permutation_middle.
  - apply length_set_bucket.
  - apply placed_set_bucket; [lia|done|].
    intros x Hx. apply placed_bucket with (_table h); [lia|done|].
    rewrite Hp. by right.
Qed.

Lemma well_formed_cons_inv e (es : chain) :
  well_formed (e :: es) -> well_formed es /\ forall x, x ∈ es -> _object x <> _object e.
Proof.
  intros [[Hx Hnd]%NoDup_cons Ht]. repeat split.
  - done.
  - intros x Hin. apply Ht. by right.
  - intros x Hin Heq. apply Hx. rewrite <- Heq. by apply list_elem_of_fmap_2.
Qed.

Lemma remove_wf key h e h' :
  wf h -> remove key h = (Some e, h') ->
  wf h' /\ entries h ≡ₚ e :: entries h' /\ _object e = key.
Proof.
  intros Hwf Hr.
  assert (find h key = Some e) as Hf.
  { unfold find. rewrite <- chain_remove_find. revert Hr. unfold remove.
    destruct (chain_remove _ _) as [[x|] c]; simpl; congruence. }
  destruct (remove_Some key h e Hwf Hf)
    as (h'' & Hr' & Hp & Hc & Hsz & Hix & _ & _ & Hl & Hpl).
  rewrite Hr in Hr'. injection Hr' as <-.
  apply find_spec in Hf; [|done]. destruct Hf as [_ Hk].
  destruct Hwf as [Hs Hlen _ Hcont Hcnt Hi].
  apply (well_formed_perm _ _ Hp) in Hcont.
  apply well_formed_cons_inv in Hcont as [Hcont _].
  repeat split; try done.
  - by rewrite Hsz.
  - by rewrite Hl, Hsz.
  - by rewrite Hsz.
  - apply Hcont.
  - apply Hcont.
  - rewrite Hc, Hcnt, Hp. simpl. lia.
  - rewrite Hix. apply Hi.
  - rewrite Hix, Hsz. apply Hi.
Qed.


(** *** entry->set_tag *)

(** The tag of the entry of [key] replaced, every other entry as it is. *)
Definition retag (key : oop) (tag : jlong) (e : JvmtiTagHashmapEntry)
  : JvmtiTagHashmapEntry :=
  if decide (_object e = key) then mkEntry (_object e) tag else e.

Lemma retag_object key tag e : _object (retag key tag e) = _object e.
Proof. unfold retag. by case_decide. Qed.

Lemma retag_other key tag (c : chain) :
  (forall e, e ∈ c -> _object e <> key) -> retag key tag <$> c = c.
Proof.
  induction c as [|x c IH]; intros Hall; csimpl; [done|].
  rewrite IH by (intros e He; apply Hall; by right).
  unfold retag at 1. rewrite decide_False; [done|]. apply Hall. by left.
Qed.

Lemma chain_set_tag_fmap key tag (c : chain) :
  NoDup (_object <$> c) -> chain_set_tag key tag c = retag key tag <$> c.
Proof.
  induction c as [|x c IH]; csimpl; [done|].
  intros [Hx Hnd]%NoDup_cons. unfold retag at 1. case_decide as Hk.
  - f_equal. symmetry. apply retag_other.
    intros e He Heq. apply Hx. rewrite Hk, <- Heq.
    by apply list_elem_of_fmap_2.
  - f_equal. by apply IH.
Qed.

Lemma concat_fmap_fmap (f : JvmtiTagHashmapEntry -> JvmtiTagHashmapEntry)
    (t : list chain) :
  concat ((fun c : chain => f <$> c) <$> t) = f <$> concat t.
Proof.
  induction t as [|c t IH]; csimpl; [done|]. by rewrite fmap_app, IH.
Qed.

Lemma bucket_nodup (t : list chain) i c :
  NoDup (_object <$> concat t) -> t !! i = Some c -> NoDup (_object <$> c).
Proof.
  intros Hnd Hl.
  pose proof (concat_insert_perm t i c [] Hl) as Hp. simpl in Hp.
  rewrite <- Hp, fmap_app in Hnd. by apply NoDup_app in Hnd as [? _].
Qed.

(** The update is in place: the table keeps its shape, and only the entry
    of [key] changes. *)
Lemma entry_set_tag_table key tag h :
  wf h ->
  _table (entry_set_tag key tag h) =
    (fun c : chain => retag key tag <$> c) <$> _table h.
Proof.
  intros [Hs Hlen Hpl [Hnd _] _ _]. unfold entry_set_tag; simpl.
  pose proof (hash_range key (_size h) Hs) as Hr.
  apply list_eq. intros i. unfold set_bucket.
  rewrite list_lookup_fmap.
  destruct (decide (i = Z.to_nat (hash key (_size h)))) as [->|Hne].
  - rewrite list_lookup_insert_eq by lia.
    rewrite (lookup_bucket (_table h)) by lia. simpl. f_equal.
    apply chain_set_tag_fmap. eapply bucket_nodup; [done|].
    apply lookup_bucket. lia.
  - rewrite list_lookup_insert_ne by done.
    destruct (_table h !! i) as [c|] eqn:E; simpl; [|done]. f_equal.
    symmetry. apply retag_other. intros e He Hk.
    pose proof (Hpl _ _ _ E He) as Hh. rewrite Hk in Hh. lia.
Qed.

Lemma entry_set_tag_entries key tag h :
  wf h -> entries (entry_set_tag key tag h) = retag key tag <$> entries h.
Proof.
  intros Hwf. unfold entries. rewrite entry_set_tag_table by done.
  apply concat_fmap_fmap.
Qed.

Lemma entry_set_tag_wf key tag h :
  wf h -> tag <> 0 -> wf (entry_set_tag key tag h).
Proof.
  intros Hwf Ht.
  pose proof (entry_set_tag_entries key tag h Hwf) as He.
  pose proof (entry_set_tag_table key tag h Hwf) as Htb.
  destruct Hwf as [Hs Hlen Hpl [Hnd Htags] Hc Hi].
  split.
  - done.
  - rewrite Htb, length_fmap. done.
  - rewrite Htb. intros i c e Hl Hin. change (_size _) with (_size h).
    rewrite list_lookup_fmap in Hl.
    destruct (_table h !! i) as [c0|] eqn:E; simplify_eq/=.
    apply list_elem_of_fmap in Hin as (e0 & -> & Hin0).
    rewrite retag_object. by eapply Hpl.
  - rewrite He. split.
    + rewrite <- list_fmap_compose.
      erewrite list_fmap_ext; [exact Hnd|].
      intros i e _. simpl. apply retag_object.
    + intros e (e0 & -> & Hin0)%list_elem_of_fmap.
      unfold retag. case_decide; simpl; auto.
  - rewrite He, length_fmap. exact Hc.
  - done.
Qed.


(** *** What [find] answers after each update *)

Lemma init_entries i : entries (init i) = [].
Proof. unfold entries, init; cbn [_table]. apply concat_replicate_nil. Qed.

Lemma init_wf : wf (init 0).
Proof.
  split; rewrite ?init_entries; unfold init;
    cbn [_size _table _size_index _entry_count].
  - done.
  - by rewrite length_replicate.
  - apply placed_replicate.
  - split; [constructor|by intros e ?%elem_of_nil].
  - done.
  - done.
Qed.

Lemma init_find key : find (init 0) key = None.
Proof.
  apply find_None; [apply init_wf|]. rewrite init_entries.
  by intros e ?%elem_of_nil.
Qed.

Lemma find_add ok key tag h key' :
  wf h -> tag <> 0 -> find h key = None ->
  find (add ok key (mkEntry key tag) h) key' =
    if decide (key' = key) then Some (mkEntry key tag) else find h key'.
Proof.
  intros Hwf Ht Hf.
  pose proof (add_wf ok key (mkEntry key tag) h Hwf eq_refl Ht Hf) as Hwf'.
  pose proof (add_entries ok key (mkEntry key tag) h Hwf eq_refl Ht Hf) as Hp.
  case_decide as Hk.
  - subst key'. apply find_spec; [done|]. split; [|done]. rewrite Hp. by left.
  - apply find_ext; [done..|]. intros e He. rewrite Hp, elem_of_cons.
    split; [|by right]. intros [->|Hin]; [|done]. simpl in He. congruence.
Qed.

Lemma find_remove key h e key' :
  wf h -> find h key = Some e ->
  find (snd (remove key h)) key' =
    if decide (key' = key) then None else find h key'.
Proof.
  intros Hwf Hf.
  destruct (remove_Some key h e Hwf Hf) as (h' & Hr & _).
  rewrite Hr. simpl.
  destruct (remove_wf key h e h' Hwf Hr) as (Hwf' & Hp & Hk).
  pose proof (wf_contents h Hwf) as Hcont.
  apply (well_formed_perm _ _ Hp) in Hcont.
  apply well_formed_cons_inv in Hcont as [_ Hfresh].
  case_decide as Hk'.
  - subst key'. apply find_None; [done|]. intros x Hx. rewrite <- Hk. auto.
  - apply find_ext; [done..|]. intros x Hx. rewrite Hp, elem_of_cons.
    split; [by right|]. intros [->|Hin]; [|done]. congruence.
Qed.

Lemma find_entry_set_tag key tag h e key' :
  wf h -> tag <> 0 -> find h key = Some e ->
  find (entry_set_tag key tag h) key' =
    if decide (key' = key) then Some (mkEntry key tag) else find h key'.
Proof.
  intros Hwf Ht Hf.
  pose proof (entry_set_tag_wf key tag h Hwf Ht) as Hwf'.
  pose proof (entry_set_tag_entries key tag h Hwf) as He.
  apply find_spec in Hf; [|done]. destruct Hf as [Hin Hk].
  case_decide as Hk'.
  - subst key'. apply find_spec; [done|]. split; [|done].
    rewrite He. apply list_elem_of_fmap. exists e. split; [|done].
    unfold retag. rewrite decide_True by done. by rewrite Hk.
  - apply find_ext; [done..|]. intros x Hx. rewrite He, list_elem_of_fmap.
    split.
    + intros (y & -> & Hy). rewrite retag_object in Hx.
      unfold retag. rewrite decide_False by congruence. done.
    + intros Hxin. exists x. split; [|done].
      unfold retag. rewrite decide_False by congruence. done.
Qed.

End HashmapFacts.
End HashmapFacts.

(** ** The tag map: set_tag, get_tag and the callback wrappers *)

Module TagMapFacts.
Import Hashmap TagMap HashmapFacts.
Section TagMapFacts.
Context `{!Collaborators}.

(** A sequence of [set_tag] calls: for each call the answer of
    [os::malloc] should the table grow, the object and the tag. *)
Definition run_set_tags (calls : list (bool * oop * jlong))
    (tm : JvmtiTagMap) : JvmtiTagMap :=
  foldl (fun tm '(ok, o, t) => set_tag ok o t tm) tm calls.

(** The calls of a sequence that tag the object [o]. *)
Definition calls_for (o : oop) (calls : list (bool * oop * jlong))
  : list (bool * oop * jlong) :=
  filter (fun c => c.1.2 = o) calls.

(** The calls of a sequence that tag an object with the tagging identity
    of [o]: [o] itself and, for a class, its mirror and its klassOop
    alike. *)
Definition calls_for_identity (o : oop) (calls : list (bool * oop * jlong))
  : list (bool * oop * jlong) :=
  filter (fun c => klassOop_if_java_lang_Class c.1.2
                   = klassOop_if_java_lang_Class o) calls.

Lemma create_entry_fst ref tag tm : fst (create_entry ref tag tm) = mkEntry ref tag.
Proof. unfold create_entry. by destruct (_free_entries tm). Qed.

Lemma create_entry_hashmap ref tag tm :
  _hashmap (snd (create_entry ref tag tm)) = _hashmap tm.
Proof. unfold create_entry. by destruct (_free_entries tm). Qed.

Lemma destroy_entry_hashmap e tm : _hashmap (destroy_entry e tm) = _hashmap tm.
Proof. unfold destroy_entry. by destruct (_ <=? _). Qed.

Lemma tag_for_hashmap tm tm' k :
  find (_hashmap tm') k = find (_hashmap tm) k -> tag_for tm' k = tag_for tm k.
Proof. unfold tag_for. by intros ->. Qed.

(** The hashmap after the insertion that [set_tag] and the wrappers do
    for an untagged object. *)
Lemma insert_hashmap ok k t tm :
  _hashmap (let '(entry, tm1) := create_entry k t tm in
            set_hashmap (add ok k entry (_hashmap tm1)) tm1)
  = add ok k (mkEntry k t) (_hashmap tm).
Proof.
  pose proof (create_entry_fst k t tm) as H1.
  pose proof (create_entry_hashmap k t tm) as H2.
  destruct (create_entry k t tm) as [entry tm1]. simpl in *.
  subst entry. by rewrite H2.
Qed.

(** What [find] answers for [k'] once the object [k] has the tag [t]. *)
Definition find_after (k : oop) (t : jlong) (h : JvmtiTagHashmap) (k' : oop)
  : option JvmtiTagHashmapEntry :=
  if decide (k' = k) then (if decide (t = 0) then None else Some (mkEntry k t))
  else find h k'.

Lemma find_tagged h k e :
  wf h -> find h k = Some e -> e = mkEntry k (_tag e) /\ _tag e <> 0.
Proof.
  intros Hwf Hf. apply find_spec in Hf; [|done]. destruct Hf as [Hin Hk].
  split; [destruct e; simpl in *; by subst|].
  by apply (wf_contents _ Hwf).
Qed.

(** [post_callback_tag_update] with the entry that [find] returns for the
    object: the hashmap stays well formed, the object gets the tag of
    the slot, and no other object is touched. *)
Lemma post_callback_tag_update_spec ok k t tm :
  wf (_hashmap tm) ->
  let tm' := post_callback_tag_update ok k (find (_hashmap tm) k) t tm in
  wf (_hashmap tm') /\
  forall k', find (_hashmap tm') k' = find_after k t (_hashmap tm) k'.
Proof.
  intros Hwf. unfold post_callback_tag_update, find_after.
  destruct (find (_hashmap tm) k) as [e|] eqn:Hf.
  - destruct (find_tagged _ k e Hwf Hf) as [He Hne].
    destruct (decide (t = 0)) as [Ht|Ht].
    + rewrite destroy_entry_hashmap. simpl.
      destruct (remove_Some k _ e Hwf Hf) as (h' & Hr & _).
      split.
      * rewrite Hr. simpl. by eapply remove_wf.
      * intros k'. by rewrite (find_remove k _ e k' Hwf Hf).
    + case_decide as Hne'; simpl.
      * split; [by apply entry_set_tag_wf|].
        intros k'. by rewrite (find_entry_set_tag k t _ e k' Hwf Ht Hf).
      * split; [done|]. intros k'. case_decide as Hk'; [|done].
        subst k'. rewrite Hf, He. f_equal. f_equal.
        by destruct (decide (t = _tag e)).
  - destruct (decide (t = 0)) as [Ht|Ht].
    + rewrite decide_False by (by intros ?). split; [done|].
      intros k'. case_decide; by subst.
    + rewrite decide_True by done.
      rewrite insert_hashmap. split; [by apply add_wf|].
      intros k'. by rewrite (find_add ok k t _ k' Hwf Ht Hf).
Qed.

Lemma set_tag_spec ok o t tm :
  wf (_hashmap tm) ->
  wf (_hashmap (set_tag ok o t tm)) /\
  forall k', find (_hashmap (set_tag ok o t tm)) k' =
    find_after (klassOop_if_java_lang_Class o) t (_hashmap tm) k'.
Proof.
  intros Hwf. unfold set_tag, find_after.
  set (k := klassOop_if_java_lang_Class o).
  destruct (find (_hashmap tm) k) as [e|] eqn:Hf.
  - destruct (decide (t = 0)) as [Ht|Ht].
    + rewrite destroy_entry_hashmap. simpl.
      destruct (remove_Some k _ e Hwf Hf) as (h' & Hr & _).
      split.
      * rewrite Hr. simpl. by eapply remove_wf.
      * intros k'. by rewrite (find_remove k _ e k' Hwf Hf).
    + simpl. split; [by apply entry_set_tag_wf|].
      intros k'. by rewrite (find_entry_set_tag k t _ e k' Hwf Ht Hf).
  - destruct (decide (t = 0)) as [Ht|Ht].
    + rewrite decide_False by (by intros ?). split; [done|].
      intros k'. case_decide; by subst.
    + rewrite decide_True by done.
      rewrite insert_hashmap. split; [by apply add_wf|].
      intros k'. by rewrite (find_add ok k t _ k' Hwf Ht Hf).
Qed.

Lemma tag_for_find_after k t tm tm' k' :
  find (_hashmap tm') k' = find_after k t (_hashmap tm) k' ->
  tag_for tm' k' = if decide (k' = k) then t else tag_for tm k'.
Proof.
  unfold tag_for, find_after. intros ->.
  case_decide; [|done]. by case_decide.
Qed.

Lemma run_set_tags_wf calls tm :
  wf (_hashmap tm) -> wf (_hashmap (run_set_tags calls tm)).
Proof.
  unfold run_set_tags. revert tm.
  induction calls as [|[[ok o] t] calls IH]; intros tm Hwf; simpl; [done|].
  apply IH. by apply set_tag_spec.
Qed.

Lemma run_set_tags_snoc calls ok o t tm :
  run_set_tags (calls ++ [(ok, o, t)]) tm = set_tag ok o t (run_set_tags calls tm).
Proof. unfold run_set_tags. by rewrite foldl_app. Qed.

(** From any well-formed store: the tag of an object is the tag of the
    last call made for its tagging identity, or what it was before. *)
Lemma get_tag_run_set_tags calls tm o :
  wf (_hashmap tm) ->
  get_tag (run_set_tags calls tm) o =
    match last (calls_for_identity o calls) with
    | Some c => c.2
    | None => get_tag tm o
    end.
Proof.
  intros Hwf. induction calls as [|[[ok o'] t] calls IH] using rev_ind;
    [done|].
  rewrite run_set_tags_snoc. unfold get_tag, calls_for_identity.
  rewrite (tag_for_find_after _ _ _ _ _
    (proj2 (set_tag_spec ok o' t _ (run_set_tags_wf calls tm Hwf)) _)).
  rewrite filter_app, filter_cons, filter_nil. simpl.
  case_decide as Hk.
  - rewrite decide_True by done. by rewrite last_snoc.
  - rewrite decide_False by (intros Hk'; by rewrite Hk' in Hk).
    rewrite app_nil_r. apply IH.
Qed.

(** When no object of the sequence shares the tagging identity of [o],
    the calls for the identity of [o] are the calls for [o]. *)
Lemma calls_for_identity_object calls o :
  (forall c, c ∈ calls ->
     klassOop_if_java_lang_Class c.1.2 = klassOop_if_java_lang_Class o ->
     c.1.2 = o) ->
  calls_for_identity o calls = calls_for o calls.
Proof.
  intros Hinj. unfold calls_for_identity, calls_for.
  induction calls as [|c calls IH]; [done|].
  rewrite !filter_cons.
  assert (Hrest : forall c', c' ∈ calls ->
            klassOop_if_java_lang_Class c'.1.2
            = klassOop_if_java_lang_Class o -> c'.1.2 = o).
  { intros c' Hc'. apply Hinj. by right. }
  rewrite (IH Hrest).
  destruct (decide (klassOop_if_java_lang_Class c.1.2
                    = klassOop_if_java_lang_Class o)) as [Hk|Hk].
  - rewrite decide_True; [done|]. apply Hinj; [by left|done].
  - rewrite decide_False; [done|]. intros Ho. apply Hk. by rewrite Ho.
Qed.

(** C1: after any finite sequence of [set_tag] calls on a new tag map,
    [get_tag(o)] is the tag of the most recent call [set_tag(o', t)] for
    an object [o'] with the tagging identity of [o] (so [t] when that tag
    is not 0, and 0 when it is), and it is 0 when no such call was made.
    A class mirror and its klassOop have one tagging identity; when no
    object of the sequence shares the identity of [o], the calls are the
    ones made for [o] itself. *)
Theorem get_tag_most_recent_set_tag calls o :
  get_tag (run_set_tags calls new_tag_map) o =
    match last (calls_for_identity o calls) with
    | Some c => c.2
    | None => 0
    end
  /\ ((forall c, c ∈ calls ->
         klassOop_if_java_lang_Class c.1.2 = klassOop_if_java_lang_Class o ->
         c.1.2 = o) ->
      calls_for_identity o calls = calls_for o calls).
Proof.
  split; [|apply calls_for_identity_object].
  rewrite get_tag_run_set_tags; [|apply init_wf].
  destruct (last _); [done|].
  unfold get_tag, tag_for, new_tag_map; cbn [_hashmap].
  by rewrite init_find.
Qed.

End TagMapFacts.
End TagMapFacts.

(** ** The collector's pass over the table *)

Module WeakOopsFacts.
Import Hashmap TagMap HashmapFacts TagMapFacts.
Section WeakOopsFacts.
Context `{!Collaborators}.
Variable is_alive : oop -> bool.
Variable f : oop -> oop.
Variable post_object_free : bool.

(** The entry as the pass leaves it when its referent is alive. *)
Definition moved (e : JvmtiTagHashmapEntry) : JvmtiTagHashmapEntry :=
  mkEntry (f (_object e)) (_tag e).

Definition alive (e : JvmtiTagHashmapEntry) : Prop :=
  is_alive (_object e) = true.

Definition survivors (es : chain) : chain := moved <$> filter alive es.

Definition dead_tags (es : chain) : list jlong :=
  _tag <$> filter (fun e => ~ alive e) es.

(** The rule of the scan, for an entry found in bucket [pos]. *)
Definition action_of (size pos : Z) (e : JvmtiTagHashmapEntry) : scan_action :=
  if is_alive (_object e) then
    let new_pos := hash (f (_object e)) size in
    if decide (new_pos < pos) then MovedNow new_pos
    else if decide (pos < new_pos) then Delayed new_pos
    else Stays
  else Freed.

Definition visits_of (size pos : Z) (c : chain) : list scan_event :=
  (fun e => Visit pos e (action_of size pos e)) <$> c.

Definition prepend (size : Z) (t : list chain) (e : JvmtiTagHashmapEntry)
  : list chain :=
  let pos := hash (_object e) size in
  set_bucket t pos (e :: bucket t pos).

Abbreviation scan_chain := (scan_chain is_alive f post_object_free).
Abbreviation scan_bucket := (scan_bucket is_alive f post_object_free).
Abbreviation scan_all := (scan_all is_alive f post_object_free).

Lemma survivors_cons e es :
  survivors (e :: es) =
    if is_alive (_object e) then moved e :: survivors es else survivors es.
Proof.
  unfold survivors. rewrite filter_cons. unfold alive at 1.
  destruct (decide (is_alive (_object e) = true)) as [Ha|Ha].
  - by rewrite Ha.
  - apply not_true_is_false in Ha. by rewrite Ha.
Qed.

Lemma dead_tags_cons e es :
  dead_tags (e :: es) =
    if is_alive (_object e) then dead_tags es else _tag e :: dead_tags es.
Proof.
  unfold dead_tags. rewrite filter_cons. unfold alive at 1.
  destruct (decide (~ is_alive (_object e) = true)) as [Ha|Ha].
  - apply not_true_is_false in Ha. by rewrite Ha.
  - apply dec_stable in Ha. by rewrite Ha.
Qed.

Lemma survivors_app es es' : survivors (es ++ es') = survivors es ++ survivors es'.
Proof. unfold survivors. by rewrite filter_app, fmap_app. Qed.

Lemma dead_tags_app es es' : dead_tags (es ++ es') = dead_tags es ++ dead_tags es'.
Proof. unfold dead_tags. by rewrite filter_app, fmap_app. Qed.

Lemma length_survivors_dead es :
  (length (survivors es) + length (dead_tags es) = length es)%nat.
Proof.
  induction es as [|e es IH]; [done|].
  rewrite survivors_cons, dead_tags_cons.
  destruct (is_alive (_object e)); simpl; lia.
Qed.

(** *** The inner loop *)

(** The three ways a live entry goes, and the state the rest of the
    chain is scanned in. *)
Ltac scan_cases e size pos st IH :=
  destruct (decide (hash (f (_object e)) size <> pos)) as [Hne|Heq];
  [ destruct (decide (hash (f (_object e)) size < pos)) as [Hlt|Hge]
  | apply dec_stable in Heq;
    specialize (IH (scan_log (Visit pos e Stays) st));
    destruct (TagMap.scan_chain _ _ _ _ _ _ _) as [kept st1];
    simpl in IH |- * ];
  repeat case_decide; try lia.

Lemma scan_chain_kept size pos c st :
  (scan_chain size pos c st).1 =
    filter (fun e => hash (_object e) size = pos) (survivors c).
Proof.
  revert st. induction c as [|e c IH]; intros st; [done|].
  rewrite survivors_cons. simpl.
  destruct (is_alive (_object e)); simpl; [|apply IH].
  rewrite filter_cons. simpl.
  scan_cases e size pos st IH; try apply IH. by rewrite IH.
Qed.

Lemma scan_chain_log size pos c st :
  sc_log (scan_chain size pos c st).2 = sc_log st ++ visits_of size pos c.
Proof.
  revert st. induction c as [|e c IH]; intros st.
  { simpl. by rewrite app_nil_r. }
  unfold visits_of. rewrite fmap_cons. fold (visits_of size pos c).
  unfold action_of at 1. simpl.
  destruct (is_alive (_object e)); simpl.
  - scan_cases e size pos st IH; rewrite IH; simpl;
      by rewrite <- (assoc_L (++)).
  - rewrite IH. simpl. by rewrite <- (assoc_L (++)).
Qed.

Lemma scan_chain_posted size pos c st :
  sc_posted (scan_chain size pos c st).2 =
    sc_posted st ++ (if post_object_free then dead_tags c else []).
Proof.
  revert st. induction c as [|e c IH]; intros st.
  { simpl. destruct post_object_free; by rewrite app_nil_r. }
  rewrite dead_tags_cons. simpl.
  destruct (is_alive (_object e)); simpl.
  - scan_cases e size pos st IH; by rewrite IH.
  - rewrite IH. simpl. destruct post_object_free; [|done].
    by rewrite <- (assoc_L (++)).
Qed.

Lemma scan_chain_delayed size pos c st :
  sc_delayed_add (scan_chain size pos c st).2 =
    reverse (filter (fun e => pos < hash (_object e) size) (survivors c))
      ++ sc_delayed_add st.
Proof.
  revert st. induction c as [|e c IH]; intros st; [done|].
  rewrite survivors_cons. simpl.
  destruct (is_alive (_object e)); simpl; [|by rewrite IH].
  rewrite filter_cons. simpl.
  scan_cases e size pos st IH; rewrite IH; simpl; [done| |done].
  by rewrite reverse_cons, <- (assoc_L (++)).
Qed.

Lemma scan_chain_table size pos c st :
  sc_table (scan_chain size pos c st).2 =
    foldl (prepend size) (sc_table st)
      (filter (fun e => hash (_object e) size < pos) (survivors c)).
Proof.
  revert st. induction c as [|e c IH]; intros st; [done|].
  rewrite survivors_cons. simpl.
  destruct (is_alive (_object e)); simpl.
  - rewrite filter_cons. simpl.
    scan_cases e size pos st IH; by rewrite IH.
  - rewrite IH. unfold sc_table, scan_free; simpl.
    by rewrite destroy_entry_hashmap.
Qed.


(** The fields of the hashmap other than the table. *)
Definition same_settings (h h' : JvmtiTagHashmap) : Prop :=
  _size h' = _size h /\ _size_index h' = _size_index h /\
  _resize_threshold h' = _resize_threshold h /\
  _resizing_enabled h' = _resizing_enabled h.

Lemma same_settings_refl h : same_settings h h.
Proof. by repeat split. Qed.

Lemma same_settings_trans h1 h2 h3 :
  same_settings h1 h2 -> same_settings h2 h3 -> same_settings h1 h3.
Proof. unfold same_settings. intros (?&?&?&?) (?&?&?&?). repeat split; congruence. Qed.

Lemma scan_chain_settings size pos c st :
  same_settings (_hashmap (sc_tag_map st))
    (_hashmap (sc_tag_map (scan_chain size pos c st).2)).
Proof.
  revert st. induction c as [|e c IH]; intros st; [apply same_settings_refl|].
  simpl. destruct (is_alive (_object e)); simpl.
  - scan_cases e size pos st IH;
      (eapply same_settings_trans; [|apply IH]); by repeat split.
  - eapply same_settings_trans; [|apply IH].
    unfold scan_free; simpl. rewrite destroy_entry_hashmap. by repeat split.
Qed.

Lemma scan_chain_count size pos c st :
  _entry_count (_hashmap (sc_tag_map (scan_chain size pos c st).2)) =
    _entry_count (_hashmap (sc_tag_map st)) - Z.of_nat (length (dead_tags c)).
Proof.
  revert st. induction c as [|e c IH]; intros st; [simpl; lia|].
  rewrite dead_tags_cons. simpl.
  destruct (is_alive (_object e)); simpl.
  - scan_cases e size pos st IH; by rewrite IH.
  - rewrite IH. unfold scan_free; simpl. rewrite destroy_entry_hashmap.
    simpl. lia.
Qed.

(** *** Linking entries into the buckets they hash to *)

Lemma length_prepend size (t : list chain) es :
  length (foldl (prepend size) t es) = length t.
Proof.
  revert t. induction es as [|e es IH]; intros t; simpl; [done|].
  rewrite IH. apply length_set_bucket.
Qed.

Lemma prepend_lookup_ge size pos (t : list chain) es i :
  (forall e, e ∈ es -> 0 <= hash (_object e) size < pos) ->
  pos <= Z.of_nat i ->
  foldl (prepend size) t es !! i = t !! i.
Proof.
  revert t. induction es as [|e es IH]; intros t Hall Hi; simpl; [done|].
  rewrite IH; [|intros x Hx; apply Hall; by right|done].
  unfold prepend, set_bucket. apply list_lookup_insert_ne.
  pose proof (Hall e (ltac:(by left))). lia.
Qed.

Lemma prepend_perm size (t : list chain) es :
  (forall e, e ∈ es -> 0 <= hash (_object e) size < Z.of_nat (length t)) ->
  concat (foldl (prepend size) t es) ≡ₚ es ++ concat t.
Proof.
  revert t. induction es as [|e es IH]; intros t Hall; simpl; [done|].
  pose proof (Hall e (ltac:(by left))) as He.
  rewrite IH.
  - unfold prepend.
    apply (Permutation_app_inv_l (bucket t (hash (_object e) size))).
    rewrite (Permutation_app_swap_app _ es).
    rewrite set_bucket_perm by done. simpl.
    rewrite <- !Permutation_middle. constructor.
    apply Permutation_app_swap_app.
  - intros x Hx. unfold prepend. rewrite length_set_bucket.
    apply Hall. by right.
Qed.

(** The buckets before [p] hold entries that hash to them. *)
Definition placed_below (size : Z) (p : nat) (t : list chain) : Prop :=
  forall i c e, (i < p)%nat -> t !! i = Some c -> e ∈ c ->
    hash (_object e) size = Z.of_nat i.

Lemma placed_below_set_bucket size p (t : list chain) pos c :
  0 <= pos ->
  placed_below size p t ->
  (forall e, e ∈ c -> hash (_object e) size = pos) ->
  placed_below size p (set_bucket t pos c).
Proof.
  intros Hp Hpl Hc i c0 e Hi Hl He. unfold set_bucket in Hl.
  destruct (decide (i = Z.to_nat pos)) as [->|Hne].
  - destruct (decide (Z.to_nat pos < length t)%nat) as [Hlt|Hge].
    + rewrite list_lookup_insert_eq in Hl by done. simplify_eq.
      rewrite (Hc e He). lia.
    + rewrite list_insert_ge in Hl by lia. by eapply Hpl.
  - rewrite list_lookup_insert_ne in Hl by done. by eapply Hpl.
Qed.

Lemma placed_below_bucket size p (t : list chain) pos e :
  0 <= pos < Z.of_nat p -> placed_below size p t ->
  e ∈ bucket t pos -> hash (_object e) size = pos.
Proof.
  intros Hp Hpl He. unfold bucket in He.
  destruct (t !! Z.to_nat pos) as [c|] eqn:E; simpl in He.
  - assert (Z.to_nat pos < p)%nat as Hlt by lia.
    rewrite (Hpl _ _ _ Hlt E He). lia.
  - by apply elem_of_nil in He.
Qed.

Lemma placed_below_prepend size p (t : list chain) es :
  (forall e, e ∈ es -> 0 <= hash (_object e) size < Z.of_nat p) ->
  placed_below size p t ->
  placed_below size p (foldl (prepend size) t es).
Proof.
  revert t. induction es as [|e es IH]; intros t Hall Hpl; simpl; [done|].
  pose proof (Hall e (ltac:(by left))) as He.
  apply IH; [intros x Hx; apply Hall; by right|].
  unfold prepend. apply placed_below_set_bucket; [lia|done|].
  intros x [->|Hx]%elem_of_cons; [done|].
  by apply placed_below_bucket with p t.
Qed.

Lemma placed_below_all size (t : list chain) :
  placed_below size (length t) t -> placed size t.
Proof.
  intros Hpl i c e Hl He. eapply Hpl; [|done..].
  by apply lookup_lt_Some in Hl.
Qed.

Lemma placed_placed_below size p (t : list chain) :
  placed size t -> placed_below size p t.
Proof. intros Hpl i c e _. apply Hpl. Qed.

Lemma three_way_perm pos size (es : chain) :
  filter (fun e => hash (_object e) size = pos) es ++
  filter (fun e => hash (_object e) size < pos) es ++
  reverse (filter (fun e => pos < hash (_object e) size) es) ≡ₚ es.
Proof.
  rewrite reverse_Permutation.
  induction es as [|e es IH]; [done|].
  rewrite !filter_cons.
  destruct (Z.lt_total (hash (_object e) size) pos) as [Hlt|[Heq|Hgt]].
  - rewrite decide_False, decide_True, decide_False by lia.
    simpl. rewrite <- Permutation_middle. by constructor.
  - rewrite decide_True, decide_False, decide_False by lia.
    simpl. by constructor.
  - rewrite decide_False, decide_False, decide_True by lia.
    rewrite <- 2!Permutation_middle. by constructor.
Qed.


(** *** The outer loop *)

(** The visits of a whole scan: bucket after bucket in increasing index
    order, each chain from its head. *)
Definition all_visits (size : Z) (T : list chain) : list scan_event :=
  concat (imap (fun i c => visits_of size (Z.of_nat i) c) T).

(** The entries a scan puts aside: alive, and hashing to a bucket after
    the one they are found in. *)
Definition delayed_entries (size : Z) (T : list chain) : chain :=
  concat (imap (fun i c =>
    filter (fun e => Z.of_nat i < hash (_object e) size) (survivors c)) T).

(** The state once the buckets before [p] have been scanned, for a pass
    that started on the table [T] of the hashmap [h0]. *)
Record scan_inv (T : list chain) (h0 : JvmtiTagHashmap) (p : nat)
    (st : scan_state) : Prop := mk_scan_inv {
  inv_len : length (sc_table st) = length T;
  inv_rest : forall i, (p <= i)%nat -> sc_table st !! i = T !! i;
  inv_placed : placed_below (_size h0) p (sc_table st);
  inv_pool :
    concat (sc_table st) ++ sc_delayed_add st ≡ₚ
      survivors (concat (take p T)) ++ concat (drop p T);
  inv_delayed :
    sc_delayed_add st ≡ₚ delayed_entries (_size h0) (take p T);
  inv_log : sc_log st = all_visits (_size h0) (take p T);
  inv_posted :
    sc_posted st =
      if post_object_free then dead_tags (concat (take p T)) else [];
  inv_count :
    _entry_count (_hashmap (sc_tag_map st)) =
      _entry_count h0 - Z.of_nat (length (dead_tags (concat (take p T))));
  inv_settings : same_settings h0 (_hashmap (sc_tag_map st))
}.

Lemma scan_inv_start tm :
  scan_inv (_table (_hashmap tm)) (_hashmap tm) 0
    {| sc_tag_map := tm; sc_delayed_add := []; sc_posted := []; sc_log := [] |}.
Proof.
  split; simpl.
  - done.
  - done.
  - intros i c e Hi. lia.
  - by rewrite app_nil_r, drop_0.
  - done.
  - done.
  - by destruct post_object_free.
  - lia.
  - apply same_settings_refl.
Qed.

Lemma scan_inv_step T h0 p st :
  0 < _size h0 -> length T = Z.to_nat (_size h0) -> (p < length T)%nat ->
  scan_inv T h0 p st ->
  scan_inv T h0 (S p) (scan_bucket (_size h0) st (Z.of_nat p)).
Proof.
  intros Hs HlenT Hp [Hlen Hrest Hpl Hpool Hdel Hlog Hposted Hcount Hset].
  destruct (lookup_lt_is_Some_2 T p Hp) as [c Hc].
  assert (bucket (sc_table st) (Z.of_nat p) = c) as Hb.
  { unfold bucket. by rewrite Nat2Z.id, Hrest, Hc. }
  unfold TagMap.scan_bucket. rewrite Hb.
  pose proof (scan_chain_kept (_size h0) (Z.of_nat p) c st) as Hkept.
  pose proof (scan_chain_log (_size h0) (Z.of_nat p) c st) as Hlog1.
  pose proof (scan_chain_posted (_size h0) (Z.of_nat p) c st) as Hposted1.
  pose proof (scan_chain_delayed (_size h0) (Z.of_nat p) c st) as Hdel1.
  pose proof (scan_chain_table (_size h0) (Z.of_nat p) c st) as Htab1.
  pose proof (scan_chain_settings (_size h0) (Z.of_nat p) c st) as Hset1.
  pose proof (scan_chain_count (_size h0) (Z.of_nat p) c st) as Hcount1.
  destruct (TagMap.scan_chain _ _ _ _ _ _ _) as [kept st1]. simpl in *.
  assert (forall e,
    e ∈ filter (fun e => hash (_object e) (_size h0) < Z.of_nat p) (survivors c) ->
    0 <= hash (_object e) (_size h0) < Z.of_nat p) as Hlow.
  { intros e [Hlt _]%list_elem_of_filter.
    pose proof (hash_range (_object e) (_size h0) Hs). lia. }
  assert (length (sc_table st1) = length T) as Hlen1.
  { by rewrite Htab1, length_prepend. }
  rewrite (drop_S T c p Hc) in Hpool. simpl in Hpool.
  assert (bucket (sc_table st1) (Z.of_nat p) = c) as Hb1.
  { unfold bucket. rewrite Nat2Z.id, Htab1.
    rewrite (prepend_lookup_ge _ (Z.of_nat p)); [|done|lia].
    by rewrite Hrest, Hc. }
  split; rewrite ?(take_S_r T p c Hc), ?concat_app; simpl;
    rewrite ?app_nil_r.
  - unfold sc_table at 1; simpl. by rewrite length_set_bucket.
  - intros i Hi. unfold sc_table at 1; simpl. unfold set_bucket.
    rewrite list_lookup_insert_ne by lia.
    rewrite Htab1. rewrite (prepend_lookup_ge _ (Z.of_nat p)); [|done|lia].
    apply Hrest. lia.
  - intros i c0 e Hi Hl He. unfold sc_table at 1 in Hl; simpl in Hl.
    unfold set_bucket in Hl. rewrite Nat2Z.id in Hl.
    destruct (decide (i = p)) as [->|Hne].
    + rewrite list_lookup_insert_eq in Hl by lia. simplify_eq.
      by apply list_elem_of_filter in He as [? _].
    + rewrite list_lookup_insert_ne in Hl by done.
      rewrite Htab1 in Hl.
      apply (placed_below_prepend (_size h0) p (sc_table st) _ Hlow Hpl i c0);
        [lia|done..].
  - unfold sc_table at 1; simpl.
    apply (Permutation_app_inv_l c).
    rewrite (assoc_L (++)). rewrite <- Hb1 at 1.
    rewrite set_bucket_perm by lia.
    rewrite Htab1, prepend_perm, Hdel1, Hkept.
    2:{ intros e He. specialize (Hlow e He). lia. }
    rewrite survivors_app.
    set (K := filter _ (survivors c)). set (L := filter _ (survivors c)).
    set (R := reverse _).
    transitivity ((K ++ L ++ R) ++ concat (sc_table st) ++ sc_delayed_add st);
      [solve_perm|].
    subst K L R. rewrite three_way_perm, Hpool. solve_perm.
  - rewrite Hdel1, Hdel, reverse_Permutation. unfold delayed_entries.
    rewrite imap_app, concat_app. simpl.
    rewrite length_take_le by lia. rewrite Nat.add_0_r, app_nil_r.
    apply Permutation_app_comm.
  - rewrite Hlog1, Hlog. unfold all_visits.
    rewrite imap_app, concat_app. simpl.
    rewrite length_take_le by lia. rewrite Nat.add_0_r.
    by rewrite app_nil_r.
  - rewrite Hposted1, Hposted, dead_tags_app.
    by destruct post_object_free.
  - rewrite Hcount1, Hcount, dead_tags_app, length_app. lia.
  - eapply same_settings_trans; [exact Hset|].
    eapply same_settings_trans; [exact Hset1|]. by repeat split.
Qed.


Lemma scan_inv_prefix tm p :
  0 < _size (_hashmap tm) ->
  length (_table (_hashmap tm)) = Z.to_nat (_size (_hashmap tm)) ->
  (p <= length (_table (_hashmap tm)))%nat ->
  scan_inv (_table (_hashmap tm)) (_hashmap tm) p
    (foldl (scan_bucket (_size (_hashmap tm)))
       {| sc_tag_map := tm; sc_delayed_add := []; sc_posted := [];
          sc_log := [] |}
       (seqZ 0 (Z.of_nat p))).
Proof.
  intros Hs Hlen. induction p as [|p IH]; intros Hp.
  - apply scan_inv_start.
  - rewrite seqZ_S, foldl_app. simpl.
    apply scan_inv_step; [done|done|lia|]. apply IH. lia.
Qed.

(** The state when the scan of the buckets is over. *)
Lemma scan_all_inv tm :
  0 < _size (_hashmap tm) ->
  length (_table (_hashmap tm)) = Z.to_nat (_size (_hashmap tm)) ->
  scan_inv (_table (_hashmap tm)) (_hashmap tm)
    (length (_table (_hashmap tm))) (scan_all tm).
Proof.
  intros Hs Hlen. unfold TagMap.scan_all.
  replace (_size (_hashmap tm)) with (Z.of_nat (length (_table (_hashmap tm))))
    at 2 by lia.
  by apply scan_inv_prefix.
Qed.

(** *** The final loop *)

Definition readds_of (size : Z) (d : chain) : list scan_event :=
  (fun e => Readd e (hash (_object e) size)) <$> d.

Lemma readd_delayed_table size d st :
  sc_table (readd_delayed size d st) = foldl (prepend size) (sc_table st) d.
Proof. revert st. induction d as [|e d IH]; intros st; simpl; [done|]. by rewrite IH. Qed.

Lemma readd_delayed_log size d st :
  sc_log (readd_delayed size d st) = sc_log st ++ readds_of size d.
Proof.
  revert st. induction d as [|e d IH]; intros st; simpl.
  - by rewrite app_nil_r.
  - rewrite IH. simpl. by rewrite <- (assoc_L (++)).
Qed.

Lemma readd_delayed_posted size d st :
  sc_posted (readd_delayed size d st) = sc_posted st.
Proof. revert st. induction d as [|e d IH]; intros st; simpl; [done|]. by rewrite IH. Qed.

Lemma readd_delayed_delayed size d st :
  sc_delayed_add (readd_delayed size d st) = sc_delayed_add st.
Proof. revert st. induction d as [|e d IH]; intros st; simpl; [done|]. by rewrite IH. Qed.

Lemma readd_delayed_settings size d st :
  same_settings (_hashmap (sc_tag_map st))
    (_hashmap (sc_tag_map (readd_delayed size d st))) /\
  _entry_count (_hashmap (sc_tag_map (readd_delayed size d st))) =
    _entry_count (_hashmap (sc_tag_map st)).
Proof.
  revert st. induction d as [|e d IH]; intros st; simpl.
  - split; [apply same_settings_refl|done].
  - destruct (IH (scan_log (Readd e (hash (_object e) size))
       (sc_set_table (set_bucket (sc_table st) (hash (_object e) size)
          (e :: bucket (sc_table st) (hash (_object e) size))) st)))
      as [Hs Hc].
    split; [|by rewrite Hc].
    eapply same_settings_trans; [|exact Hs]. by repeat split.
Qed.


(** *** The whole pass *)

(** What the pass needs of the hashmap it is run on: a table of [_size]
    buckets and a count that is the number of entries. *)
Definition shaped (h : JvmtiTagHashmap) : Prop :=
  0 < _size h /\ length (_table h) = Z.to_nat (_size h) /\
  _entry_count h = Z.of_nat (length (entries h)).

Lemma wf_shaped h : wf h -> shaped h.
Proof. intros [? ? _ _ ? _]. by repeat split. Qed.

Lemma concat_nil_lookup (T : list chain) i c :
  concat T = [] -> T !! i = Some c -> c = [].
Proof.
  intros Hnil Hl. destruct c as [|e c]; [done|].
  assert (e ∈ concat T) as Hin.
  { apply elem_of_concat. exists i, (e :: c). split; [done|by left]. }
  rewrite Hnil in Hin. by apply elem_of_nil in Hin.
Qed.

Lemma concat_imap_nil {B} (g : nat -> chain -> list B) (T : list chain) :
  concat T = [] -> (forall i, g i [] = []) -> concat (imap g T) = [].
Proof.
  revert g. induction T as [|c T IH]; intros g Hnil Hg; simpl; [done|].
  simpl in Hnil. apply app_eq_nil in Hnil as [-> HT].
  rewrite Hg. simpl. apply IH; [done|]. intros i. apply Hg.
Qed.

Lemma all_visits_nil size T : concat T = [] -> all_visits size T = [].
Proof. intros Hnil. by apply concat_imap_nil. Qed.

Lemma delayed_entries_nil size T : concat T = [] -> delayed_entries size T = [].
Proof. intros Hnil. by apply concat_imap_nil. Qed.

(** What one pass does, for any liveness and relocation answers. *)
Lemma do_weak_oops_state_spec tm :
  shaped (_hashmap tm) ->
  let h := _hashmap tm in
  let st := do_weak_oops_state is_alive f post_object_free tm in
  let h' := _hashmap (sc_tag_map st) in
  entries h' ≡ₚ survivors (entries h) /\
  placed (_size h) (_table h') /\
  length (_table h') = length (_table h) /\
  sc_posted st =
    (if post_object_free then dead_tags (entries h) else []) /\
  (exists D, D ≡ₚ delayed_entries (_size h) (_table h) /\
     sc_log st = all_visits (_size h) (_table h) ++ readds_of (_size h) D) /\
  _entry_count h' = _entry_count h - Z.of_nat (length (dead_tags (entries h))) /\
  _size h' = _size h /\ _size_index h' = _size_index h /\
  _resize_threshold h' = _resize_threshold h /\
  _resizing_enabled h' = true.
Proof.
  intros (Hs & Hlen & Hcount). simpl.
  unfold do_weak_oops_state. cbn [_hashmap set_hashmap _entry_count
    set_resizing_enabled _size].
  destruct (_entry_count (_hashmap tm) =? 0) eqn:E; cbn [sc_tag_map
    sc_posted sc_log _hashmap set_hashmap].
  - apply Z.eqb_eq in E.
    assert (entries (_hashmap tm) = []) as Hnil.
    { apply length_zero_iff_nil. lia. }
    unfold entries in *. cbn [_table set_resizing_enabled
      _entry_count _size _size_index _resize_threshold _resizing_enabled].
    rewrite Hnil. repeat split; try done.
    + intros i c e Hl He. rewrite (concat_nil_lookup _ i c Hnil Hl) in He.
      by apply elem_of_nil in He.
    + by destruct post_object_free.
    + exists []. rewrite all_visits_nil, delayed_entries_nil by done.
      by split.
    + simpl. lia.
  - set (tm1 := set_hashmap (set_resizing_enabled true (_hashmap tm)) tm).
    pose proof (scan_all_inv tm1 Hs Hlen)
      as [Hlen1 _ Hpl Hpool Hdel Hlog Hposted Hcnt Hset].
    cbn [tm1 _hashmap set_hashmap _table set_resizing_enabled _size
      _entry_count] in *.
    rewrite firstn_all, drop_all, app_nil_r in *.
    set (st := scan_all tm1) in *.
    set (st0 := {| sc_tag_map := sc_tag_map st; sc_delayed_add := [];
                   sc_posted := sc_posted st; sc_log := sc_log st |}).
    assert (forall e, 0 <= hash (_object e) (_size (_hashmap tm))
              < Z.of_nat (length (_table (_hashmap tm)))) as Hrange.
    { intros e. pose proof (hash_range (_object e) _ Hs). lia. }
    assert (sc_table (readd_delayed (_size (_hashmap tm)) (sc_delayed_add st) st0)
            = foldl (prepend (_size (_hashmap tm))) (sc_table st) (sc_delayed_add st))
      as Htab by (by rewrite readd_delayed_table).
    unfold sc_table at 1 in Htab.
    destruct (readd_delayed_settings (_size (_hashmap tm)) (sc_delayed_add st) st0)
      as [(Hsz & Hix & Hth & Hre) Hc2].
    destruct Hset as (Hsz1 & Hix1 & Hth1 & Hre1).
    cbn [st0 sc_tag_map] in *.
    repeat split.
    + unfold entries at 1. rewrite Htab, prepend_perm.
      * rewrite <- Hpool. apply Permutation_app_comm.
      * intros e _. rewrite Hlen1. apply Hrange.
    + rewrite Htab. apply placed_below_all.
      rewrite length_prepend, Hlen1.
      apply placed_below_prepend; [intros e _; apply Hrange|done].
    + by rewrite Htab, length_prepend.
    + by rewrite readd_delayed_posted.
    + exists (sc_delayed_add st). split; [done|].
      by rewrite readd_delayed_log, <- Hlog.
    + by rewrite Hc2, Hcnt.
    + by rewrite Hsz, Hsz1.
    + by rewrite Hix, Hix1.
    + by rewrite Hth, Hth1.
    + by rewrite Hre, Hre1.
Qed.


(** The collector moves two live objects to two addresses. *)
Definition moves_apart (es : chain) : Prop :=
  forall e e', e ∈ es -> e' ∈ es -> alive e -> alive e' ->
    f (_object e) = f (_object e') -> _object e = _object e'.

Lemma survivors_well_formed es :
  well_formed es -> moves_apart es -> well_formed (survivors es).
Proof.
  intros [Hnd Htags] Hinj. unfold survivors. split.
  - rewrite <- list_fmap_compose.
    apply NoDup_fmap_2_strong.
    + intros e e' [Ha He]%list_elem_of_filter [Ha' He']%list_elem_of_filter Heq.
      simpl in Heq. apply (nodup_object_inj es); auto.
    + apply NoDup_filter. by apply NoDup_fmap_1 in Hnd.
  - intros e (e0 & -> & [_ He0]%list_elem_of_filter)%list_elem_of_fmap.
    simpl. auto.
Qed.

Lemma do_weak_oops_wf tm :
  wf (_hashmap tm) -> moves_apart (entries (_hashmap tm)) ->
  wf (_hashmap (do_weak_oops is_alive f post_object_free tm).1).
Proof.
  intros Hwf Hinj.
  destruct (do_weak_oops_state_spec tm (wf_shaped _ Hwf))
    as (Hp & Hpl & Hlen & _ & _ & Hcnt & Hsz & Hix & _ & _).
  destruct Hwf as [Hs Hl _ Hcont Hc Hi].
  unfold do_weak_oops; simpl. split.
  - by rewrite Hsz.
  - by rewrite Hlen, Hsz.
  - by rewrite Hsz.
  - apply (well_formed_perm (survivors (entries (_hashmap tm)))); [done|].
    by apply survivors_well_formed.
  - rewrite Hcnt, Hc, Hp.
    pose proof (length_survivors_dead (entries (_hashmap tm))). lia.
  - by rewrite Hix, Hsz.
Qed.

(** The pass turns resizing back on, whatever the table holds. *)
Lemma scan_bucket_settings size st pos :
  same_settings (_hashmap (sc_tag_map st))
    (_hashmap (sc_tag_map (scan_bucket size st pos))).
Proof.
  unfold TagMap.scan_bucket.
  pose proof (scan_chain_settings size pos (bucket (sc_table st) pos) st) as Hs.
  destruct (TagMap.scan_chain _ _ _ _ _ _ _) as [kept st1]. simpl in *.
  eapply same_settings_trans; [exact Hs|]. by repeat split.
Qed.

Lemma scan_buckets_settings size st ps :
  same_settings (_hashmap (sc_tag_map st))
    (_hashmap (sc_tag_map (foldl (scan_bucket size) st ps))).
Proof.
  revert st. induction ps as [|pos ps IH]; intros st; simpl.
  - apply same_settings_refl.
  - eapply same_settings_trans; [|apply IH]. apply scan_bucket_settings.
Qed.

Lemma do_weak_oops_enables tm :
  _resizing_enabled (_hashmap (do_weak_oops is_alive f post_object_free tm).1)
    = true.
Proof.
  unfold do_weak_oops, do_weak_oops_state; simpl.
  destruct (_ =? 0); [done|].
  match goal with |- context [readd_delayed ?s ?d ?st0] =>
    destruct (readd_delayed_settings s d st0) as [(_ & _ & _ & Hre) _] end.
  rewrite Hre. simpl.
  unfold TagMap.scan_all.
  match goal with |- context [foldl ?g ?st0 ?ps] =>
    destruct (scan_buckets_settings (_size (_hashmap tm)) st0 ps)
      as (_ & _ & _ & Hre2) end.
  exact Hre2.
Qed.

End WeakOopsFacts.
End WeakOopsFacts.

(** ** The wrappers' commits and the growth of the table *)

Module StoreFacts.
Import Hashmap TagMap HashmapFacts TagMapFacts WeakOopsFacts.
Section StoreFacts.
Context `{!Collaborators}.

(** *** The two-object wrapper *)

Lemma CallbackWrapper_new_entry tm o :
  _entry (CallbackWrapper_new tm o) = find (_hashmap tm) (_o (CallbackWrapper_new tm o)).
Proof. done. Qed.

Lemma CallbackWrapper_delete_spec ok tm o t :
  wf (_hashmap tm) ->
  let w := CallbackWrapper_new tm o in
  let tm' := CallbackWrapper_delete ok (write_obj_tag t w) tm in
  wf (_hashmap tm') /\
  forall k', find (_hashmap tm') k' = find_after (_o w) t (_hashmap tm) k'.
Proof. intros Hwf. by apply post_callback_tag_update_spec. Qed.

(** The commit of a two-object wrapper, when the referrer and the object
    have two tagging identities or are one object. *)
Lemma TwoOopCallbackWrapper_delete_wf ok1 ok2 tm referrer o t_o t_r :
  wf (_hashmap tm) ->
  (referrer <> o ->
   klassOop_if_java_lang_Class referrer <> klassOop_if_java_lang_Class o) ->
  wf (_hashmap (TwoOopCallbackWrapper_delete ok1 ok2
        (write_tags t_o t_r (TwoOopCallbackWrapper_new tm referrer o)) tm)).
Proof.
  intros Hwf Hkeys. unfold TwoOopCallbackWrapper_delete, TwoOopCallbackWrapper_new.
  destruct (decide (referrer = o)) as [->|Hne]; simpl.
  - by apply post_callback_tag_update_spec.
  - specialize (Hkeys Hne).
    set (r := klassOop_if_java_lang_Class referrer) in *.
    set (k := klassOop_if_java_lang_Class o) in *.
    destruct (post_callback_tag_update_spec ok1 r t_r tm Hwf) as [Hwf1 Hf1].
    assert (find (_hashmap (post_callback_tag_update ok1 r (find (_hashmap tm) r)
              t_r tm)) k = find (_hashmap tm) k) as Heq.
    { rewrite Hf1. unfold find_after. by rewrite decide_False by done. }
    unfold CallbackWrapper_delete; simpl. fold k r.
    rewrite <- Heq. by apply post_callback_tag_update_spec.
Qed.


(** *** Reachable stores *)

(** One operation on the store: [set_tag], the commit of a wrapper around
    a callback that left [t] in the tag slot, or a pass of the collector.
    The walker reports objects, never class descriptors: two different
    objects it hands to a two-object wrapper have two tagging identities.
    The collector moves two live objects to two addresses. *)
Inductive store_step : JvmtiTagMap -> JvmtiTagMap -> Prop :=
| step_set_tag ok o t tm :
    store_step tm (set_tag ok o t tm)
| step_CallbackWrapper ok o t tm :
    store_step tm
      (CallbackWrapper_delete ok (write_obj_tag t (CallbackWrapper_new tm o)) tm)
| step_TwoOopCallbackWrapper ok1 ok2 referrer o t_o t_r tm :
    (referrer <> o ->
     klassOop_if_java_lang_Class referrer <> klassOop_if_java_lang_Class o) ->
    store_step tm
      (TwoOopCallbackWrapper_delete ok1 ok2
         (write_tags t_o t_r (TwoOopCallbackWrapper_new tm referrer o)) tm)
| step_do_weak_oops is_alive f post_object_free tm :
    moves_apart is_alive f (entries (_hashmap tm)) ->
    store_step tm (do_weak_oops is_alive f post_object_free tm).1.

Definition reachable (tm : JvmtiTagMap) : Prop := rtc store_step new_tag_map tm.

Lemma store_step_wf tm tm' : store_step tm tm' -> wf (_hashmap tm) -> wf (_hashmap tm').
Proof.
  intros Hstep Hwf. destruct Hstep.
  - by apply set_tag_spec.
  - by apply CallbackWrapper_delete_spec.
  - by apply TwoOopCallbackWrapper_delete_wf.
  - by apply do_weak_oops_wf.
Qed.

Lemma reachable_wf tm : reachable tm -> wf (_hashmap tm).
Proof.
  unfold reachable. intros Hr.
  assert (wf (_hashmap new_tag_map)) as Hinit by apply init_wf.
  induction Hr as [|tm0 tm1 tm2 Hstep _ IH]; [done|].
  apply IH. by eapply store_step_wf.
Qed.

(** [set_tag] with a tag that is not 0 on an object that has a tag: the
    table keeps its shape and its count, the entry of the object gets the
    tag. *)
Lemma set_tag_in_place ok o t tm :
  wf (_hashmap tm) ->
  tag_for tm (klassOop_if_java_lang_Class o) <> 0 -> t <> 0 ->
  _table (_hashmap (set_tag ok o t tm)) =
    (fun c : chain => retag (klassOop_if_java_lang_Class o) t <$> c)
      <$> _table (_hashmap tm) /\
  _entry_count (_hashmap (set_tag ok o t tm)) = _entry_count (_hashmap tm).
Proof.
  intros Hwf Htagged Ht. unfold set_tag, tag_for in *.
  destruct (find _ _) as [e|]; [|done].
  rewrite decide_False by done. simpl. split; [|done].
  by apply entry_set_tag_table.
Qed.

(** X27: every store reached from a new tag map by [set_tag] calls, by
    commits of one-object wrappers, by commits of two-object wrappers whose
    referrer and object are one object or have two tagging identities, and
    by passes of the collector that move the live tagged objects to
    distinct addresses, is well formed: no two entries are for one object
    and no entry has the tag 0; and [set_tag] with a tag that is not 0 on
    an object that is tagged changes the tag of its entry where it is,
    adding no entry. *)
Theorem reachable_store_well_formed tm :
  reachable tm ->
  well_formed (entries (_hashmap tm)) /\
  forall ok o t,
    get_tag tm o <> 0 -> t <> 0 ->
    _table (_hashmap (set_tag ok o t tm)) =
      (fun c : chain => retag (klassOop_if_java_lang_Class o) t <$> c)
        <$> _table (_hashmap tm) /\
    _entry_count (_hashmap (set_tag ok o t tm)) = _entry_count (_hashmap tm).
Proof.
  intros Hr. pose proof (reachable_wf tm Hr) as Hwf. split.
  - apply Hwf.
  - intros ok o t Htagged Ht. by apply set_tag_in_place.
Qed.

(** *** The commit of a callback wrapper *)

Lemma destroy_entry_free_entries e tm :
  _free_entries (destroy_entry e tm) =
    if decide (_free_entries_count tm < max_free_entries)
    then e :: _free_entries tm else _free_entries tm.
Proof.
  unfold destroy_entry. destruct (Z.leb_spec max_free_entries (_free_entries_count tm)).
  - by rewrite decide_False by lia.
  - by rewrite decide_True by lia.
Qed.

(** C4: when the scope of a [CallbackWrapper] ends, the tag slot is
    committed to the store. A slot that went from 0 to another value gives
    the object a new entry (taken from the free list when it has one); a
    slot that went from a value other than 0 to 0 unlinks the entry of the
    object and hands it to [destroy_entry], which puts it on the free list
    unless the list is full; a slot that went from a value other than 0 to
    another one changes the tag of the entry where it is; an unchanged slot
    leaves the store as it is. *)
Theorem CallbackWrapper_commit ok tm o t :
  wf (_hashmap tm) ->
  let w := CallbackWrapper_new tm o in
  let tm' := CallbackWrapper_delete ok (write_obj_tag t w) tm in
  (_obj_tag w = 0 -> t <> 0 ->
     find (_hashmap tm) (_o w) = None /\
     find (_hashmap tm') (_o w) = Some (mkEntry (_o w) t) /\
     entries (_hashmap tm') ≡ₚ mkEntry (_o w) t :: entries (_hashmap tm) /\
     _free_entries tm' = tail (_free_entries tm)) /\
  (_obj_tag w <> 0 -> t = 0 ->
     exists e,
       find (_hashmap tm) (_o w) = Some e /\
       find (_hashmap tm') (_o w) = None /\
       entries (_hashmap tm) ≡ₚ e :: entries (_hashmap tm') /\
       _free_entries tm' =
         if decide (_free_entries_count tm < max_free_entries)
         then e :: _free_entries tm else _free_entries tm) /\
  (_obj_tag w <> 0 -> t <> 0 -> t <> _obj_tag w ->
     _table (_hashmap tm') =
       (fun c : chain => retag (_o w) t <$> c) <$> _table (_hashmap tm) /\
     _entry_count (_hashmap tm') = _entry_count (_hashmap tm) /\
     _free_entries tm' = _free_entries tm) /\
  (t = _obj_tag w -> tm' = tm).
Proof.
  intros Hwf w tm'.
  destruct (CallbackWrapper_delete_spec ok tm o t Hwf) as [Hwf' Hfind].
  fold w tm' in Hwf', Hfind.
  pose proof (Hfind (_o w)) as Hk. unfold find_after in Hk.
  rewrite decide_True in Hk by done.
  subst tm'. unfold CallbackWrapper_delete, post_callback_tag_update in *.
  cbn [write_obj_tag _o _entry _obj_tag] in *.
  subst w. unfold CallbackWrapper_new in *. cbn [_o _entry _obj_tag] in *.
  set (k := klassOop_if_java_lang_Class o) in *.
  destruct (find (_hashmap tm) k) as [e|] eqn:Hf.
  - destruct (find_tagged _ k e Hwf Hf) as [He Hne].
    split; [|split; [|split]].
    + intros Hz. by destruct Hne.
    + intros _ Ht. exists e. rewrite decide_True by done.
      rewrite !decide_True in Hk by done.
      split; [done|]. split; [done|].
      split; [|by rewrite destroy_entry_free_entries].
      rewrite destroy_entry_hashmap. simpl.
      destruct (remove_Some k _ e Hwf Hf) as (h' & Hr & Hp & _).
      by rewrite Hr.
    + intros _ Ht Hne'. rewrite decide_False by done.
      rewrite decide_True by done. simpl.
      split; [|done]. by apply entry_set_tag_table.
    + intros ->. rewrite decide_False by done.
      by rewrite decide_False by (by intros ?).
  - split; [|split; [|split]]; try done.
    + intros _ Ht. rewrite decide_True by done.
      rewrite decide_True in Hk by done.
      rewrite decide_False in Hk by done.
      split; [done|]. split; [done|]. split.
      * rewrite insert_hashmap. apply add_entries; simpl; auto.
      * unfold create_entry. by destruct (_free_entries tm) eqn:E; simpl; rewrite ?E.
    + intros ->. by rewrite decide_False by (by intros ?).
Qed.


(** *** One pass of the collector *)

(** The entries a log says were visited, in the order of the visits. *)
Definition visited (log : list scan_event) : chain :=
  omap (fun ev => match ev with Visit _ e _ => Some e | Readd _ _ => None end) log.

(** The entries a log says were re-added by the final loop. *)
Definition readded (log : list scan_event) : chain :=
  omap (fun ev => match ev with Readd e _ => Some e | Visit _ _ _ => None end) log.

Lemma visited_visits_of is_alive f size pos c :
  visited (visits_of is_alive f size pos c) = c.
Proof.
  unfold visited, visits_of. induction c as [|e c IH]; [done|].
  csimpl. by rewrite IH.
Qed.

Lemma readded_visits_of is_alive f size pos c :
  readded (visits_of is_alive f size pos c) = [].
Proof.
  unfold readded, visits_of. induction c as [|e c IH]; [done|].
  csimpl. by rewrite IH.
Qed.

Lemma visited_app log log' : visited (log ++ log') = visited log ++ visited log'.
Proof. apply omap_app. Qed.

Lemma readded_app log log' : readded (log ++ log') = readded log ++ readded log'.
Proof. apply omap_app. Qed.

Lemma visited_concat_imap (F : nat -> chain -> list scan_event) (T : list chain) :
  (forall i c, visited (F i c) = c) -> visited (concat (imap F T)) = concat T.
Proof.
  revert F. induction T as [|c T IH]; intros F HF; [done|].
  simpl. rewrite visited_app, HF. f_equal. apply IH. intros i c'. apply HF.
Qed.

Lemma readded_concat_imap (F : nat -> chain -> list scan_event) (T : list chain) :
  (forall i c, readded (F i c) = []) -> readded (concat (imap F T)) = [].
Proof.
  revert F. induction T as [|c T IH]; intros F HF; [done|].
  simpl. rewrite readded_app, HF. apply IH. intros i c'. apply HF.
Qed.

Lemma visited_all_visits is_alive f size T :
  visited (all_visits is_alive f size T) = concat T.
Proof.
  apply visited_concat_imap. intros i c. apply visited_visits_of.
Qed.

Lemma readded_all_visits is_alive f size T :
  readded (all_visits is_alive f size T) = [].
Proof.
  apply readded_concat_imap. intros i c. apply readded_visits_of.
Qed.

Lemma visited_readds_of size D : visited (readds_of size D) = [].
Proof.
  unfold visited, readds_of. induction D as [|e D IH]; [done|].
  csimpl. by rewrite IH.
Qed.

Lemma readded_readds_of size D : readded (readds_of size D) = D.
Proof.
  unfold readded, readds_of. induction D as [|e D IH]; [done|].
  csimpl. by rewrite IH.
Qed.

(** C3, with the event posted only when the environment has it enabled:
    one pass over a table removes the entries whose referent is dead and
    no other, keeps the others under the address the collector gives, and
    posts the tag of each removed entry when OBJECT_FREE is enabled (none
    when it is not). The buckets are scanned in increasing index order and
    every entry of the table is visited once: an entry whose new bucket is
    before the one being scanned is linked into it at that visit, an entry
    whose new bucket is after it is put aside and linked in once the scan
    is over, and every surviving entry ends in the bucket of its
    address. *)
Theorem do_weak_oops_pass is_alive f post_object_free tm :
  shaped (_hashmap tm) ->
  let h := _hashmap tm in
  let st := do_weak_oops_state is_alive f post_object_free tm in
  let h' := _hashmap (sc_tag_map st) in
  entries h' ≡ₚ survivors is_alive f (entries h) /\
  placed (_size h) (_table h') /\
  _entry_count h' = Z.of_nat (length (entries h')) /\
  sc_posted st =
    (if post_object_free then dead_tags is_alive (entries h) else []) /\
  visited (sc_log st) = entries h /\
  readded (sc_log st) ≡ₚ delayed_entries is_alive f (_size h) (_table h) /\
  sc_log st =
    (all_visits is_alive f (_size h) (_table h)
       ++ readds_of (_size h) (readded (sc_log st))) /\
  (let sc := scan_all is_alive f post_object_free
               (set_hashmap (set_resizing_enabled true h) tm) in
   sc_delayed_add sc ≡ₚ delayed_entries is_alive f (_size h) (_table h) /\
   concat (sc_table sc) ++ sc_delayed_add sc ≡ₚ survivors is_alive f (entries h)).
Proof.
  intros Hsh.
  destruct (do_weak_oops_state_spec is_alive f post_object_free tm Hsh)
    as (Hp & Hpl & _ & Hposted & (D & HD & Hlog) & Hcnt & _).
  assert (let sc := scan_all is_alive f post_object_free
              (set_hashmap (set_resizing_enabled true (_hashmap tm)) tm) in
    sc_delayed_add sc ≡ₚ
      delayed_entries is_alive f (_size (_hashmap tm)) (_table (_hashmap tm)) /\
    concat (sc_table sc) ++ sc_delayed_add sc ≡ₚ
      survivors is_alive f (entries (_hashmap tm))) as Hscan.
  { destruct Hsh as (Hs & Hlen & _).
    pose proof (scan_all_inv is_alive f post_object_free
      (set_hashmap (set_resizing_enabled true (_hashmap tm)) tm) Hs Hlen)
      as [_ _ _ Hpool Hdel _ _ _ _].
    cbn [_hashmap set_hashmap _table set_resizing_enabled _size] in *.
    rewrite firstn_all, drop_all, app_nil_r in *. by split. }
  simpl.
  assert (readded (sc_log (do_weak_oops_state is_alive f post_object_free tm)) = D)
    as HD'.
  { by rewrite Hlog, readded_app, readded_all_visits, readded_readds_of. }
  repeat split; try done.
  - destruct Hsh as (_ & _ & Hc). rewrite Hcnt, Hc, Hp.
    pose proof (length_survivors_dead is_alive f (entries (_hashmap tm))). lia.
  - by rewrite Hlog, visited_app, visited_all_visits, visited_readds_of,
      app_nil_r.
  - by rewrite HD'.
  - by rewrite HD'.
  - apply Hscan.
  - apply Hscan.
Qed.


(** *** Growth of the table *)

Lemma add_over_threshold ok key entry h :
  _resizing_enabled h = true -> _resize_threshold h < _entry_count h + 1 ->
  add ok key entry h = resize ok (add_linked key entry h).
Proof.
  intros He Ht. rewrite add_unfold, He.
  by rewrite (proj2 (Z.ltb_lt _ _) Ht).
Qed.

Lemma add_keeps_disabled ok key entry h :
  _resizing_enabled h = false -> _resizing_enabled (add ok key entry h) = false.
Proof. intros He. rewrite add_unfold, He, andb_false_r. done. Qed.

Lemma remove_resizing_enabled key h :
  _resizing_enabled (remove key h).2 = _resizing_enabled h.
Proof.
  unfold remove. destruct (chain_remove _ _) as [[e|] c]; done.
Qed.

Lemma post_callback_tag_update_keeps_disabled ok k entry t tm :
  _resizing_enabled (_hashmap tm) = false ->
  _resizing_enabled (_hashmap (post_callback_tag_update ok k entry t tm)) = false.
Proof.
  intros He. unfold post_callback_tag_update.
  destruct entry as [e|]; repeat case_decide; try done.
  - by rewrite destroy_entry_hashmap; simpl; rewrite remove_resizing_enabled.
  - rewrite insert_hashmap. by apply add_keeps_disabled.
Qed.

Lemma set_tag_keeps_disabled ok o t tm :
  _resizing_enabled (_hashmap tm) = false ->
  _resizing_enabled (_hashmap (set_tag ok o t tm)) = false.
Proof.
  intros He. unfold set_tag.
  destruct (find _ _) as [e|]; repeat case_decide; try done.
  - by rewrite destroy_entry_hashmap; simpl; rewrite remove_resizing_enabled.
  - rewrite insert_hashmap. by apply add_keeps_disabled.
Qed.

Lemma TwoOopCallbackWrapper_delete_keeps_disabled ok1 ok2 w tm :
  _resizing_enabled (_hashmap tm) = false ->
  _resizing_enabled (_hashmap (TwoOopCallbackWrapper_delete ok1 ok2 w tm)) = false.
Proof.
  intros He. unfold TwoOopCallbackWrapper_delete, CallbackWrapper_delete.
  apply post_callback_tag_update_keeps_disabled.
  destruct (negb _); [|done]. by apply post_callback_tag_update_keeps_disabled.
Qed.

(** C5, for a table that is not at the last size of [_sizes]: an insertion
    that takes the count over the threshold while resizing is enabled
    moves the table to the next size when the allocation succeeds; when it
    fails the entry is still inserted, in the table as it was, and resizing
    is disabled. Disabled, it stays so through [set_tag] and the commits of
    the wrappers, and every pass of the collector enables it again. *)
Theorem resize_policy ok key tag h :
  wf h -> find h key = None -> tag <> 0 ->
  _resizing_enabled h = true ->
  _resize_threshold h < _entry_count h + 1 ->
  0 <= sizes_at (_size_index h + 1) ->
  let h' := add ok key (mkEntry key tag) h in
  (find h' key = Some (mkEntry key tag) /\
   entries h' ≡ₚ mkEntry key tag :: entries h) /\
  (ok = true ->
     _size h' = sizes_at (_size_index h + 1) /\
     _size_index h' = _size_index h + 1 /\
     _resizing_enabled h' = true) /\
  (ok = false ->
     _size h' = _size h /\
     _table h' = link_front (mkEntry key tag) (hash key (_size h)) (_table h) /\
     _resizing_enabled h' = false) /\
  (forall tm ok' o t,
     _resizing_enabled (_hashmap tm) = false ->
     _resizing_enabled (_hashmap (set_tag ok' o t tm)) = false /\
     _resizing_enabled (_hashmap
       (CallbackWrapper_delete ok' (write_obj_tag t (CallbackWrapper_new tm o)) tm))
       = false) /\
  (forall tm ok1 ok2 w,
     _resizing_enabled (_hashmap tm) = false ->
     _resizing_enabled (_hashmap (TwoOopCallbackWrapper_delete ok1 ok2 w tm))
       = false) /\
  (forall tm is_alive f post_object_free,
     _resizing_enabled
       (_hashmap (do_weak_oops is_alive f post_object_free tm).1) = true).
Proof.
  intros Hwf Hf Ht He Hth Hnext h'.
  split; [|split; [|split; [|split; [|split]]]].
  - split.
    + subst h'. rewrite find_add by done. by rewrite decide_True.
    + by apply add_entries.
  - intros ->. subst h'. rewrite add_over_threshold by done.
    unfold resize. cbn [add_linked _size_index set_entry_count set_table].
    rewrite (proj2 (Z.ltb_ge _ _) Hnext). by simpl.
  - intros ->. subst h'. rewrite add_over_threshold by done.
    unfold resize. cbn [add_linked _size_index set_entry_count set_table].
    rewrite (proj2 (Z.ltb_ge _ _) Hnext). by simpl.
  - intros tm ok' o t Hd. split.
    + by apply set_tag_keeps_disabled.
    + by apply post_callback_tag_update_keeps_disabled.
  - intros tm ok1 ok2 w Hd. by apply TwoOopCallbackWrapper_delete_keeps_disabled.
  - intros tm is_alive f post. apply do_weak_oops_enables.
Qed.

(** At the last size there is no next one: the table stays as large as it
    is, and resizing stays enabled. *)
Lemma add_at_last_size ok key entry h :
  sizes_at (_size_index h + 1) < 0 ->
  _size (add ok key entry h) = _size h /\
  _resizing_enabled (add ok key entry h) = _resizing_enabled h.
Proof.
  intros Hlast. rewrite add_unfold. destruct (_ && _); [|done].
  unfold resize. cbn [add_linked _size_index set_entry_count set_table].
  by rewrite (proj2 (Z.ltb_lt _ _) Hlast).
Qed.

(** *** A table with many entries *)

(** [n] entries, for the objects at the addresses [2^32], [2 * 2^32], ...,
    which all hash to bucket 0. *)
Definition crowded_chain (n : Z) : chain :=
  (fun i => mkEntry (2 ^ 32 * i) 1) <$> seqZ 1 n.

Definition crowded (size size_index n : Z) : JvmtiTagHashmap :=
  {| _size := size;
     _size_index := size_index;
     _entry_count := n;
     _resize_threshold := load_threshold size;
     _resizing_enabled := true;
     _table := <[0%nat := crowded_chain n]> (replicate (Z.to_nat size) []) |}.

Lemma hash_high_address i size : hash (2 ^ 32 * i) size = 0.
Proof.
  unfold hash. rewrite Z.mul_comm, Z_mod_mult, Z.shiftr_0_l. apply Zmod_0_l.
Qed.

Lemma crowded_entries size size_index n :
  0 < size -> entries (crowded size size_index n) ≡ₚ crowded_chain n.
Proof.
  intros Hs. unfold entries, crowded; cbn [_table].
  pose proof (concat_insert_perm (replicate (Z.to_nat size) []) 0 []
    (crowded_chain n)) as Hp.
  rewrite concat_replicate_nil, app_nil_r in Hp. apply Hp.
  apply lookup_replicate. split; [done|lia].
Qed.

Lemma crowded_wf size size_index n :
  0 < size -> 0 <= size_index -> sizes_at size_index = size -> 0 <= n ->
  wf (crowded size size_index n).
Proof.
  intros Hs Hi Hsz Hn.
  pose proof (crowded_entries size size_index n Hs) as Hp.
  split.
  - done.
  - unfold crowded; cbn [_table _size]. by rewrite length_insert, length_replicate.
  - unfold crowded; cbn [_table _size]. intros i c e Hl He.
    destruct i as [|i].
    + rewrite list_lookup_insert_eq in Hl by (rewrite length_replicate; lia).
      simplify_eq. unfold crowded_chain in He.
      apply list_elem_of_fmap in He as (j & -> & _). apply hash_high_address.
    + rewrite list_lookup_insert_ne in Hl by done.
      apply lookup_replicate in Hl as [-> _]. by apply elem_of_nil in He.
  - apply (well_formed_perm (crowded_chain n)); [done|]. split.
    + unfold crowded_chain. rewrite <- list_fmap_compose.
      apply NoDup_fmap_2; [|apply NoDup_seqZ].
      intros x y Hxy. simpl in Hxy. lia.
    + intros e (j & -> & _)%list_elem_of_fmap. done.
  - rewrite Hp. unfold crowded_chain, crowded; cbn [_entry_count].
    rewrite length_fmap, length_seqZ. lia.
  - done.
Qed.

Lemma crowded_find size size_index n key :
  0 < size -> 0 <= size_index -> sizes_at size_index = size -> 0 <= n ->
  0 < key < 2 ^ 32 ->
  find (crowded size size_index n) key = None.
Proof.
  intros Hs Hi Hsz Hn Hk. apply find_None; [by apply crowded_wf|].
  intros e He. rewrite crowded_entries in He by done.
  apply list_elem_of_fmap in He as (j & -> & Hj).
  apply elem_of_seqZ in Hj. simpl. lia.
Qed.

End StoreFacts.
End StoreFacts.

(** ** Looking objects up by tag *)

Module CollectorFacts.
Import Hashmap TagMap Collector HashmapFacts.
Section CollectorFacts.
Context `{!Collaborators} `{!JvmtiEnv}.

(** The object a result stands for: the mirror, for a class descriptor. *)
Definition reported (e : JvmtiTagHashmapEntry) : oop :=
  if is_klass (_object e) then java_mirror (_object e) else _object e.

(** How many elements of the request are the tag [t]. *)
Definition occurrences (t : jlong) (tags : list jlong) : nat :=
  length (filter (fun t' => t' = t) tags).

Lemma do_entry_tags_fold entry c ts :
  _tags (foldl (do_entry_tag entry) c ts) = _tags c /\
  _object_results (foldl (do_entry_tag entry) c ts) =
    _object_results c ++ replicate (occurrences (_tag entry) ts) (reported entry) /\
  _tag_results (foldl (do_entry_tag entry) c ts) =
    _tag_results c ++ replicate (occurrences (_tag entry) ts) (to_uint64 (_tag entry)).
Proof.
  revert c. induction ts as [|t ts IH]; intros c; simpl.
  - by rewrite !app_nil_r.
  - destruct (IH (do_entry_tag entry c t)) as (H1 & H2 & H3).
    rewrite H1, H2, H3. unfold occurrences. rewrite filter_cons.
    unfold do_entry_tag. case_decide; simpl.
    + by rewrite <- !(assoc_L (++)).
    + done.
Qed.

Lemma do_entry_spec c entry :
  _tags (do_entry c entry) = _tags c /\
  _object_results (do_entry c entry) =
    _object_results c ++
      replicate (occurrences (_tag entry) (_tags c)) (reported entry) /\
  _tag_results (do_entry c entry) =
    _tag_results c ++
      replicate (occurrences (_tag entry) (_tags c)) (to_uint64 (_tag entry)).
Proof. apply do_entry_tags_fold. Qed.








(** The failure of the second allocation: [result] returns the error
    after [Deallocate] was given the address of the caller's variable,
    and not the block of the first allocation, which is allocated and
    filled then. *)
Lemma result_second_allocation_fails a count_ptr p q c m :
  p <> NULL -> q <> NULL ->
  result (Some a) None count_ptr p q c m
  = (JVMTI_ERROR_OUT_OF_MEMORY,
     Deallocate p
       {| blocks := <[a := _object_results c]> (blocks m);
          cells := <[p := a]> (cells m) |}).
Proof.
  intros Hp Hq. unfold result, Allocate, store_all.
  repeat case_decide; try done. simpl.
  by rewrite lookup_insert_eq, insert_insert_eq.
Qed.

End CollectorFacts.
End CollectorFacts.

(** ** Laws of the table, the store and the collector of tagged objects *)

Module TableLaws.
Import Hashmap TagMap Collector.
Import HashmapFacts TagMapFacts WeakOopsFacts StoreFacts CollectorFacts.

Section TableLaws.
Context `{!Collaborators}.

Lemma entries_perm_find h h' key :
  wf h -> wf h' -> entries h' ≡ₚ entries h -> find h' key = find h key.
Proof.
  intros Hw Hw' Hp. apply find_ext; [done..|].
  intros e _. by rewrite Hp.
Qed.

(** X1: an entry added under a key that the table does not hold is the
    one found under that key afterwards, the other keys are found as
    before and the count grows by one, whether the insertion makes the
    table grow, fails to, or does not try. *)
Theorem add_then_find ok key tag h :
  wf h -> tag <> 0 -> find h key = None ->
  let h' := add ok key (mkEntry key tag) h in
  wf h'
  /\ (forall key', find h' key' =
        if decide (key' = key) then Some (mkEntry key tag) else find h key')
  /\ _entry_count h' = _entry_count h + 1.
Proof.
  intros Hw Ht Hf. cbn zeta.
  assert (Hw' : wf (add ok key (mkEntry key tag) h)) by (by apply add_wf).
  split; [done|split; [intros key'; by apply find_add|]].
  rewrite (wf_count _ Hw'), (wf_count _ Hw).
  rewrite (add_entries ok key (mkEntry key tag) h) by done. cbn. lia.
Qed.

(** X2: [remove] returns the entry that [find] finds under the key, or
    nothing and the table as it is when the key is not there; after it the
    key is not found, the other keys are found as before, and the count
    is one less if an entry was removed. *)
Theorem remove_then_find key h :
  wf h ->
  (remove key h).1 = find h key
  /\ wf (remove key h).2
  /\ (forall key', find (remove key h).2 key' =
        if decide (key' = key) then None else find h key')
  /\ _entry_count (remove key h).2 =
     _entry_count h - (match find h key with Some _ => 1 | None => 0 end)
  /\ (find h key = None -> (remove key h).2 = h).
Proof.
  intros Hw. destruct (find h key) as [e|] eqn:Hf.
  - destruct (remove_Some key h e Hw Hf) as (h' & E & _ & Hc & _).
    pose proof (find_remove key h e) as Hr.
    destruct (remove_wf key h e h' Hw E) as (Hw' & _ & _).
    rewrite E in Hr |- *. cbn [fst snd] in *.
    split; [done|]. split; [done|]. split; [|by split].
    intros key'. by apply Hr.
  - rewrite (remove_None key h Hf). cbn [fst snd].
    split; [done|]. split; [done|]. split; [|split; [lia|done]].
    intros key'. destruct (decide (key' = key)) as [->|]; done.
Qed.

(** X3: a resize, whether it moves the entries to the next size, gives
    up because there is no larger size, or fails to allocate, leaves
    every key found as before and the count as it was; it only grows the
    table when the allocation succeeds and a larger size exists. *)
Theorem resize_keeps_lookups ok h :
  wf h ->
  let h' := resize ok h in
  wf h'
  /\ (forall key, find h' key = find h key)
  /\ _entry_count h' = _entry_count h
  /\ (_size h' = _size h
      \/ (ok = true /\ 0 <= sizes_at (_size_index h + 1)
          /\ _size h' = sizes_at (_size_index h + 1))).
Proof.
  intros Hw. cbn zeta.
  assert (Hw' : wf (resize ok h)) by (by apply resize_wf).
  split; [done|]. split.
  - intros key. apply entries_perm_find; [done..|]. by apply resize_entries.
  - split; [apply resize_size_fields|].
    unfold resize. destruct (sizes_at (_size_index h + 1) <? 0) eqn:E;
      [by left|].
    destruct ok; cbn; [right|by left]. apply Z.ltb_ge in E. done.
Qed.

(** X4: in every store that the operations can reach the table has
    [_size] buckets, [_size] is the entry of [_sizes] at [_size_index],
    every entry is in the bucket that the hash of its object selects, and
    [_entry_count] is the number of entries. *)
Theorem reachable_table_layout tm :
  reachable tm ->
  let h := _hashmap tm in
  0 < _size h
  /\ length (_table h) = Z.to_nat (_size h)
  /\ sizes_at (_size_index h) = _size h
  /\ (forall i c e, _table h !! i = Some c -> e ∈ c ->
        hash (_object e) (_size h) = Z.of_nat i)
  /\ _entry_count h = Z.of_nat (length (entries h)).
Proof.
  intros Hr. destruct (reachable_wf tm Hr) as [H1 H2 H3 _ H5 [_ H6]].
  cbn zeta. split; [done|]. split; [done|]. split; [done|].
  split; [exact H3|done].
Qed.

(** X5: [is_empty] answers true exactly when no object has a tag. *)
Theorem is_empty_iff_untagged tm :
  reachable tm ->
  is_empty tm = true <-> forall o, tag_for tm o = 0.
Proof.
  intros Hr. pose proof (reachable_wf tm Hr) as Hw.
  unfold is_empty. rewrite Z.eqb_eq, (wf_count _ Hw). split.
  - intros Hc o. unfold tag_for.
    destruct (find (_hashmap tm) o) as [e|] eqn:Hf; [|done].
    apply (find_spec _ _ _ Hw) in Hf as [Hin _].
    destruct (entries (_hashmap tm)); [by apply elem_of_nil in Hin|].
    cbn in Hc. lia.
  - intros Ht. destruct (entries (_hashmap tm)) as [|e es] eqn:E; [done|].
    exfalso. assert (Hin : e ∈ entries (_hashmap tm)) by (rewrite E; left).
    assert (Hf : find (_hashmap tm) (_object e) = Some e)
      by (by apply (find_spec _ _ _ Hw)).
    specialize (Ht (_object e)). unfold tag_for in Ht. rewrite Hf in Ht.
    destruct (wf_contents _ Hw) as [_ Hz]. by apply (Hz e).
Qed.

(** ** The free list *)

(** The count of the free list is its length, and does not pass the
    bound. *)
Definition free_list_ok (tm : JvmtiTagMap) : Prop :=
  _free_entries_count tm = Z.of_nat (length (_free_entries tm))
  /\ _free_entries_count tm <= Z.max 0 max_free_entries.

Lemma free_list_ok_ext tm tm' :
  _free_entries tm' = _free_entries tm ->
  _free_entries_count tm' = _free_entries_count tm ->
  free_list_ok tm -> free_list_ok tm'.
Proof. unfold free_list_ok. by intros -> ->. Qed.

Lemma create_entry_free_list ref tag tm :
  free_list_ok tm -> free_list_ok (create_entry ref tag tm).2.
Proof.
  intros [Hc Hb]. unfold create_entry.
  destruct (_free_entries tm) as [|e next] eqn:E.
  - cbn [snd]. split; [by rewrite E|done].
  - split; cbn in *; lia.
Qed.

Lemma destroy_entry_free_list entry tm :
  free_list_ok tm -> free_list_ok (destroy_entry entry tm).
Proof.
  intros [Hc Hb]. unfold destroy_entry.
  destruct (max_free_entries <=? _free_entries_count tm) eqn:E; [done|].
  apply Z.leb_gt in E. split; cbn; lia.
Qed.

Lemma post_callback_tag_update_free_list ok o entry obj_tag tm :
  free_list_ok tm ->
  free_list_ok (post_callback_tag_update ok o entry obj_tag tm).
Proof.
  intros Hf. unfold post_callback_tag_update.
  destruct entry as [e|].
  - destruct (decide (obj_tag = 0)).
    + apply destroy_entry_free_list. by eapply free_list_ok_ext.
    + destruct (decide (obj_tag <> _tag e)); [|done].
      by eapply free_list_ok_ext.
  - destruct (decide (obj_tag <> 0)); [|done].
    pose proof (create_entry_free_list o obj_tag tm Hf) as Hc.
    destruct (create_entry o obj_tag tm) as [entry tm1].
    by eapply free_list_ok_ext.
Qed.

Lemma set_tag_free_list ok o tag tm :
  free_list_ok tm -> free_list_ok (set_tag ok o tag tm).
Proof.
  intros Hf. unfold set_tag.
  destruct (find _ _) as [e|].
  - destruct (decide (tag = 0)).
    + apply destroy_entry_free_list. by eapply free_list_ok_ext.
    + by eapply free_list_ok_ext.
  - destruct (decide (tag <> 0)); [|done].
    pose proof (create_entry_free_list (klassOop_if_java_lang_Class o) tag tm
                  Hf) as Hc.
    destruct (create_entry _ tag tm) as [entry tm1].
    by eapply free_list_ok_ext.
Qed.

Section pass.
Variable is_alive : oop -> bool.
Variable f : oop -> oop.
Variable post_object_free : bool.

Lemma scan_chain_free_list size pos c st :
  free_list_ok (sc_tag_map st) ->
  free_list_ok
    (sc_tag_map (scan_chain is_alive f post_object_free size pos c st).2).
Proof.
  revert st. induction c as [|entry next IH]; intros st Hf; [done|].
  cbn [scan_chain].
  destruct (negb (is_alive (_object entry))).
  - apply IH. cbn. apply destroy_entry_free_list. by eapply free_list_ok_ext.
  - cbn zeta. destruct (decide _) as [Hne|Heq].
    + destruct (decide _); apply IH; by eapply free_list_ok_ext.
    + specialize (IH (scan_log (Visit pos entry Stays) st) Hf).
      by destruct (scan_chain _ _ _ _ _ next _) as [kept st1].
Qed.

Lemma scan_bucket_free_list size st pos :
  free_list_ok (sc_tag_map st) ->
  free_list_ok
    (sc_tag_map (scan_bucket is_alive f post_object_free size st pos)).
Proof.
  intros Hf. unfold scan_bucket.
  pose proof (scan_chain_free_list size pos (bucket (sc_table st) pos) st Hf)
    as Hc.
  destruct (scan_chain _ _ _ _ _ _ _) as [kept st1].
  by eapply free_list_ok_ext.
Qed.

Lemma readd_delayed_free_list size delayed st :
  free_list_ok (sc_tag_map st) ->
  free_list_ok (sc_tag_map (readd_delayed size delayed st)).
Proof.
  revert st. induction delayed as [|entry next IH]; intros st Hf; [done|].
  cbn [readd_delayed]. apply IH. by eapply free_list_ok_ext.
Qed.

Lemma do_weak_oops_free_list tm :
  free_list_ok tm ->
  free_list_ok (do_weak_oops is_alive f post_object_free tm).1.
Proof.
  intros Hf. unfold do_weak_oops, do_weak_oops_state. cbn [fst].
  set (tm1 := set_hashmap _ tm).
  assert (H1 : free_list_ok tm1) by (by eapply free_list_ok_ext).
  destruct (_entry_count (_hashmap tm1) =? 0); [done|].
  apply readd_delayed_free_list. cbn [sc_tag_map].
  unfold scan_all.
  assert (G : forall l st, free_list_ok (sc_tag_map st) ->
    free_list_ok
      (sc_tag_map
         (foldl (scan_bucket is_alive f post_object_free
                   (_size (_hashmap tm1))) st l))).
  { induction l as [|pos l IH]; intros st Hst; [done|].
    cbn. apply IH. by apply scan_bucket_free_list. }
  by apply G.
Qed.
End pass.

Lemma store_step_free_list tm tm' :
  store_step tm tm' -> free_list_ok tm -> free_list_ok tm'.
Proof.
  intros Hs Hf.
  destruct Hs as [ok o t tm|ok o t tm|ok1 ok2 referrer o t_o t_r tm Hne
                 |is_alive f post tm Hm].
  - by apply set_tag_free_list.
  - by apply post_callback_tag_update_free_list.
  - unfold TwoOopCallbackWrapper_delete.
    apply post_callback_tag_update_free_list.
    destruct (negb _); [|done].
    by apply post_callback_tag_update_free_list.
  - by apply do_weak_oops_free_list.
Qed.

(** X6: in every store that the operations can reach, the count of the
    free list of entries is the length of the list and is at most
    [max_free_entries]. *)
Theorem free_list_bounded tm :
  reachable tm ->
  _free_entries_count tm = Z.of_nat (length (_free_entries tm))
  /\ _free_entries_count tm <= Z.max 0 max_free_entries.
Proof.
  intros Hr.
  assert (H0 : free_list_ok new_tag_map) by (split; cbn; lia).
  unfold reachable in Hr.
  induction Hr as [|tm0 tm1 tm2 Hstep _ IH]; [done|].
  apply IH. by eapply store_step_free_list.
Qed.

(** ** Tags across a pass of the collector *)

Lemma tag_for_nonzero tm o :
  wf (_hashmap tm) -> tag_for tm o <> 0 ->
  exists e, find (_hashmap tm) o = Some e /\ e ∈ entries (_hashmap tm)
            /\ _object e = o /\ _tag e = tag_for tm o.
Proof.
  intros Hw Ht. unfold tag_for in *.
  destruct (find (_hashmap tm) o) as [e|] eqn:Hf; [|done].
  exists e. apply (find_spec _ _ _ Hw) in Hf as Hs. by destruct Hs.
Qed.

(** X7: after a pass of the collector a tagged object that is alive has
    its tag at the address it was moved to, and every tag that the store
    holds afterwards is the tag of a live object at its new address. *)
Theorem tags_follow_moved_objects is_alive f post_object_free tm :
  wf (_hashmap tm) ->
  moves_apart is_alive f (entries (_hashmap tm)) ->
  let tm' := (do_weak_oops is_alive f post_object_free tm).1 in
  (forall o, tag_for tm o <> 0 -> is_alive o = true ->
     tag_for tm' (f o) = tag_for tm o)
  /\ (forall o', tag_for tm' o' <> 0 ->
        exists o, is_alive o = true /\ f o = o'
                  /\ tag_for tm o = tag_for tm' o').
Proof.
  intros Hw Hm. cbn zeta.
  pose proof (do_weak_oops_wf is_alive f post_object_free tm Hw Hm) as Hw'.
  destruct (do_weak_oops_state_spec is_alive f post_object_free tm
              (wf_shaped _ Hw)) as (Hp & _).
  cbn zeta in Hp.
  change (sc_tag_map (do_weak_oops_state is_alive f post_object_free tm))
    with (do_weak_oops is_alive f post_object_free tm).1 in Hp.
  set (tm' := (do_weak_oops is_alive f post_object_free tm).1) in *.
  split.
  - intros o Ht Ha.
    destruct (tag_for_nonzero tm o Hw Ht) as (e & _ & Hin & Ho & Htag).
    assert (Hs : moved f e ∈ entries (_hashmap tm')).
    { rewrite Hp. unfold survivors. apply list_elem_of_fmap. exists e.
      split; [done|]. apply list_elem_of_filter. split; [|done].
      unfold alive. by rewrite Ho. }
    assert (Hf : find (_hashmap tm') (f o) = Some (moved f e)).
    { apply (find_spec _ _ _ Hw'). split; [done|]. cbn. by rewrite Ho. }
    unfold tag_for at 1. rewrite Hf. cbn. done.
  - intros o' Ht.
    destruct (tag_for_nonzero tm' o' Hw' Ht) as (e' & _ & Hin & Ho & Htag).
    rewrite Hp in Hin. unfold survivors in Hin.
    apply list_elem_of_fmap in Hin as (e & -> & Hin).
    apply list_elem_of_filter in Hin as [Ha Hin].
    exists (_object e). split; [done|]. split; [done|].
    assert (Hf : find (_hashmap tm) (_object e) = Some e)
      by (by apply (find_spec _ _ _ Hw)).
    unfold tag_for at 1. rewrite Hf. by rewrite <- Htag.
Qed.

(** X8: a pass of the collector that finds every tagged object alive and
    where it was leaves every tag as it is and posts no event. *)
Theorem pass_without_deaths_or_moves is_alive f post_object_free tm :
  wf (_hashmap tm) ->
  (forall e, e ∈ entries (_hashmap tm) ->
     is_alive (_object e) = true /\ f (_object e) = _object e) ->
  let r := do_weak_oops is_alive f post_object_free tm in
  (forall o, tag_for r.1 o = tag_for tm o) /\ r.2 = [].
Proof.
  intros Hw Hs. cbn zeta.
  assert (Hm : moves_apart is_alive f (entries (_hashmap tm))).
  { intros e e' He He' _ _ Hf.
    destruct (Hs e He) as [_ E1]. destruct (Hs e' He') as [_ E2]. congruence. }
  pose proof (do_weak_oops_wf is_alive f post_object_free tm Hw Hm) as Hw'.
  destruct (do_weak_oops_state_spec is_alive f post_object_free tm
              (wf_shaped _ Hw)) as (Hp & _ & _ & Hposted & _).
  cbn zeta in Hp, Hposted.
  assert (Hsurv : forall es,
            (forall e, e ∈ es ->
               is_alive (_object e) = true /\ f (_object e) = _object e) ->
            survivors is_alive f es = es /\ dead_tags is_alive es = []).
  { induction es as [|e es IH]; intros Hes; [done|].
    rewrite survivors_cons, dead_tags_cons.
    destruct (Hes e) as [Ha E]; [left|]. rewrite Ha.
    destruct IH as [IH1 IH2]; [intros e' He'; apply Hes; by right|].
    rewrite IH1, IH2. split; [|done]. unfold moved. rewrite E.
    by destruct e. }
  destruct (Hsurv _ Hs) as [Hsv Hdead].
  split.
  - intros o. unfold tag_for.
    change (do_weak_oops is_alive f post_object_free tm).1
      with (sc_tag_map (do_weak_oops_state is_alive f post_object_free tm)).
    rewrite (entries_perm_find (_hashmap tm)); [done|done| |].
    + exact Hw'.
    + by rewrite Hp, Hsv.
  - change (do_weak_oops is_alive f post_object_free tm).2
      with (sc_posted (do_weak_oops_state is_alive f post_object_free tm)).
    rewrite Hposted, Hdead. by destruct post_object_free.
Qed.

(** X9: the class tag that a callback is given for an object that is not
    a class mirror is the tag that was set on the mirror of the object's
    class. *)
Theorem class_tag_is_tag_of_class_mirror ok tm o t :
  wf (_hashmap tm) ->
  klassOop_if_java_lang_Class o = o ->
  klassOop_if_java_lang_Class (java_mirror (klass o)) = klass o ->
  _klass_tag (CallbackWrapper_new (set_tag ok (java_mirror (klass o)) t tm) o)
  = t.
Proof.
  intros Hw Ho Hk. unfold CallbackWrapper_new. cbn [_klass_tag].
  rewrite Ho, decide_True by done.
  destruct (set_tag_spec ok (java_mirror (klass o)) t tm Hw) as [_ Hf].
  rewrite (tag_for_find_after _ _ _ _ _ (Hf (klass o))).
  by rewrite Hk, decide_True.
Qed.
(** ** The results of get_objects_with_tags *)

Section results.
Context `{!JvmtiEnv}.

(** The pairs of results: entry after entry, as many copies of the object
    and the tag as the request holds the tag of the entry. *)
Definition result_pairs (tags : list jlong) (es : chain) : list (oop * jlong) :=
  flat_map (fun e => replicate (occurrences (_tag e) tags)
                       (reported e, _tag e)) es.

Lemma to_jlong_to_uint64 t :
  - 2 ^ 63 <= t < 2 ^ 63 -> to_jlong (to_uint64 t) = t.
Proof.
  intros Ht. unfold to_jlong, to_uint64.
  destruct (decide (0 <= t)) as [Hp|Hn].
  - rewrite Z.mod_small by lia. destruct (t <? 2 ^ 63) eqn:E; [done|].
    apply Z.ltb_ge in E. lia.
  - replace (t mod 2 ^ 64) with (t + 2 ^ 64).
    + destruct (t + 2 ^ 64 <? 2 ^ 63) eqn:E; [|lia].
      apply Z.ltb_lt in E. lia.
    + symmetry. rewrite <- (Z.mod_add t 1 (2 ^ 64)) by lia.
      apply Z.mod_small. lia.
Qed.

Lemma fmap_replicate_pair {X Y Z'} (g : X * Y -> Z') n x y :
  g <$> replicate n (x, y) = replicate n (g (x, y)).
Proof. induction n as [|n IH]; [done|]. cbn. by rewrite <- IH. Qed.

Lemma collector_chain c (es : chain) :
  _tags (foldl do_entry c es) = _tags c
  /\ _object_results (foldl do_entry c es) =
     _object_results c ++ (fst <$> result_pairs (_tags c) es)
  /\ _tag_results (foldl do_entry c es) =
     _tag_results c ++ (to_uint64 <$> (snd <$> result_pairs (_tags c) es)).
Proof.
  revert c. induction es as [|e es IH]; intros c; cbn.
  - by rewrite !app_nil_r.
  - destruct (IH (do_entry c e)) as (H1 & H2 & H3).
    destruct (do_entry_spec c e) as (H4 & H5 & H6).
    rewrite H1, H2, H3, H4, H5, H6.
    rewrite !fmap_app, !fmap_replicate_pair. cbn.
    rewrite <- !(assoc_L (++)). split; [done|]. split; [done|].
    do 2 f_equal. by rewrite fmap_replicate.
Qed.

Lemma result_pairs_app tags es es' :
  result_pairs tags (es ++ es') = result_pairs tags es ++ result_pairs tags es'.
Proof. unfold result_pairs. by rewrite flat_map_app. Qed.

Lemma collector_table h c :
  _object_results (entry_iterate h c) =
    _object_results c ++ (fst <$> result_pairs (_tags c) (entries h))
  /\ _tag_results (entry_iterate h c) =
     _tag_results c ++ (to_uint64 <$> (snd <$> result_pairs (_tags c) (entries h))).
Proof.
  unfold entry_iterate, entries. generalize (_table h) as T. intros T.
  assert (G : forall c,
    _tags (foldl (fun c chain => foldl do_entry c chain) c T) = _tags c
    /\ _object_results (foldl (fun c chain => foldl do_entry c chain) c T) =
       _object_results c ++ (fst <$> result_pairs (_tags c) (concat T))
    /\ _tag_results (foldl (fun c chain => foldl do_entry c chain) c T) =
       _tag_results c
       ++ (to_uint64 <$> (snd <$> result_pairs (_tags c) (concat T)))).
  { induction T as [|b T IH]; intros c'.
    - cbn. by rewrite !app_nil_r.
    - change (concat (b :: T)) with (b ++ concat T). cbn [foldl].
      destruct (IH (foldl do_entry c' b)) as (H1 & H2 & H3).
      destruct (collector_chain c' b) as (H4 & H5 & H6).
      rewrite H1, H2, H3, H4, H5, H6, result_pairs_app, !fmap_app.
      by rewrite <- !(assoc_L (++)). }
  destruct (G c) as (_ & G2 & G3). by split.
Qed.

(** X10: when both buffers are asked for and allocated,
    [get_objects_with_tags] returns no error, the object buffer and the
    tag buffer hold, index by index, the object and the tag of an entry
    once for every element of the request that is the tag of the entry,
    the tags exactly as they were set, and the count is the number of
    these pairs. *)
Theorem get_objects_with_tags_results (a1 a2 : Z) tm tags
    (count_ptr p q : Z) m :
  p <> NULL -> q <> NULL -> NoDup [count_ptr; p; q] -> a1 <> a2 ->
  (forall e, e ∈ entries (_hashmap tm) -> - 2 ^ 63 <= _tag e < 2 ^ 63) ->
  let pairs := result_pairs tags (entries (_hashmap tm)) in
  let r := get_objects_with_tags (Some a1) (Some a2) tm tags count_ptr p q m in
  r.1 = JVMTI_ERROR_NONE
  /\ cells r.2 !! count_ptr = Some (Z.of_nat (length pairs))
  /\ cells r.2 !! p = Some a1
  /\ cells r.2 !! q = Some a2
  /\ blocks r.2 !! a1 = Some (fst <$> pairs)
  /\ blocks r.2 !! a2 = Some (snd <$> pairs)
  /\ Forall (fun pr => pr.2 ∈ tags) pairs.
Proof.
  intros Hp Hq Hnd Ha Hrange. cbn zeta.
  apply NoDup_cons in Hnd as [Hc Hnd]. apply NoDup_cons in Hnd as [Hpq _].
  apply not_elem_of_cons in Hc as [Hcp Hc]. apply not_elem_of_cons in Hc as [Hcq _].
  apply not_elem_of_cons in Hpq as [Hpq _].
  unfold get_objects_with_tags.
  destruct (collector_table (_hashmap tm) (new_collector tags)) as [Ho Ht].
  cbn in Ho, Ht.
  set (c := entry_iterate (_hashmap tm) (new_collector tags)) in *.
  set (pairs := result_pairs tags (entries (_hashmap tm))) in *.
  assert (Htags : to_jlong <$> _tag_results c = snd <$> pairs).
  { rewrite Ht. rewrite <- list_fmap_compose.
    apply list_eq_Forall2, Forall2_fmap_l, Forall_Forall2_diag.
    apply Forall_forall. intros t Hin. cbn.
    apply list_elem_of_fmap in Hin as ([o t'] & -> & Hin). cbn.
    apply to_jlong_to_uint64.
    unfold pairs, result_pairs in Hin.
    apply list_elem_of_In, in_flat_map in Hin as (e & He & Hin).
    apply list_elem_of_In in He. apply list_elem_of_In in Hin.
    apply elem_of_replicate in Hin as [E _]. inversion E; subst.
    by apply Hrange. }
  unfold result, Allocate, store_all, store_cell.
  rewrite !decide_True by done. simpl.
  rewrite (lookup_insert_eq (cells m) p). simpl.
  rewrite (lookup_insert_eq _ q). simpl.
  rewrite Htags, Ho.
  split; [done|]. split; [|split; [|split; [|split; [|split]]]].
  - rewrite lookup_insert_eq. by rewrite length_fmap.
  - rewrite lookup_insert_ne by done. rewrite lookup_insert_ne by done.
    by rewrite lookup_insert_eq.
  - rewrite lookup_insert_ne by done. by rewrite lookup_insert_eq.
  - rewrite lookup_insert_ne by done. rewrite lookup_insert_ne by done.
    by rewrite lookup_insert_eq.
  - by rewrite lookup_insert_eq.
  - apply Forall_forall. intros [o t] Hin. cbn.
    unfold pairs, result_pairs in Hin.
    apply list_elem_of_In, in_flat_map in Hin as (e & He & Hin).
    apply list_elem_of_In in Hin.
    apply elem_of_replicate in Hin as [E Hn]. inversion E; subst.
    unfold occurrences in Hn.
    destruct (filter (fun t' => t' = _tag e) tags) as [|t ts] eqn:Ef; [done|].
    assert (Hin : t ∈ filter (fun t' => t' = _tag e) tags)
      by (rewrite Ef; left).
    apply list_elem_of_filter in Hin as [-> Hin]. done.
Qed.
(** X11: when the allocation of the object buffer fails,
    [get_objects_with_tags] returns the error and leaves the memory as it
    is; when the allocation of the tag buffer fails after the object
    buffer was allocated and filled, it returns the error and stores no
    count, and what it hands to [Deallocate] is the address of the
    caller's variable, which holds the address of the object buffer then,
    and not the object buffer: the memory is what [Deallocate] makes of
    that address. *)
Theorem get_objects_with_tags_allocation_failure (a : Z) alloc2 tm tags
    (count_ptr p q : Z) m :
  p <> NULL -> q <> NULL ->
  let objects := fst <$> result_pairs tags (entries (_hashmap tm)) in
  get_objects_with_tags None alloc2 tm tags count_ptr p q m
  = (JVMTI_ERROR_OUT_OF_MEMORY, m)
  /\ get_objects_with_tags (Some a) None tm tags count_ptr p q m
     = (JVMTI_ERROR_OUT_OF_MEMORY,
        Deallocate p
          {| blocks := <[a:=objects]> (blocks m);
             cells := <[p:=a]> (cells m) |}).
Proof.
  intros Hp Hq. cbn zeta. unfold get_objects_with_tags.
  destruct (collector_table (_hashmap tm) (new_collector tags)) as [Ho _].
  cbn in Ho.
  set (c := entry_iterate (_hashmap tm) (new_collector tags)) in *.
  split.
  - unfold result, Allocate. by rewrite decide_True by done.
  - rewrite result_second_allocation_fails by done. by rewrite Ho.
Qed.

End results.
End TableLaws.
End TableLaws.

(** ** The heap walker *)


Module WalkerFacts.
Import HashmapFacts StoreFacts.
Import Hashmap TagMap Walker.

Section WalkerFacts.
Context `{!Collaborators} `{!HeapModel}.
Variable A : Type.
Variable malloc_ok : nat -> bool.

(** ** The marker *)

(** The objects whose headers [done] looks at. *)
Definition iterated_objects : list oop :=
  heap_objects ++ (if UseSharedSpaces then rw_space_objects else []).

(** What the walker relies on from [BiasedLocking]: the marks preserved
    are the ones objects have then, and the restore gives an object the
    mark it has or one that was preserved for it. *)
Definition BiasedLocking_contract : Prop :=
  (forall marks o m, (o, m) ∈ BiasedLocking_preserve_marks marks -> m = marks o)
  /\ (forall saved marks o,
        BiasedLocking_restore_marks saved marks o = marks o
        \/ (o, BiasedLocking_restore_marks saved marks o) ∈ saved).

(** The header an observer finds after the walk, against the one before:
    the same word, or the initial word in place of one that needed no
    saving. *)
Definition observably_identical (o : oop) (before after : Z) : Prop :=
  after = before
  \/ (must_be_preserved o before = false /\ after = init_mark_of o).

(** The marker during a walk that started from [marks0]. *)
Record marker_inv (marks0 : oop -> Z) (mk : ObjectMarker) : Prop := {
  inv_marks : forall o,
    mark_of mk o = marks0 o
    \/ (mark_of mk o = marked_prototype
        /\ (must_be_preserved o (marks0 o) = true -> o ∈ _saved_oop_stack mk));
  inv_saved : forall i o,
    _saved_oop_stack mk !! i = Some o ->
    _saved_mark_stack mk !! i = Some (marks0 o);
  inv_length : length (_saved_oop_stack mk) = length (_saved_mark_stack mk);
  inv_biased :
    biased_marks mk =
    if UseBiasedLocking then BiasedLocking_preserve_marks marks0 else []
}.

Lemma ObjectMarker_init_inv marks0 : marker_inv marks0 (ObjectMarker_init marks0).
Proof.
  split; cbn; [by left | by intros i o | done | done].
Qed.

Lemma mark_inv marks0 mk o :
  is_marked marked_prototype = true ->
  marker_inv marks0 mk -> visited mk o = false ->
  marker_inv marks0 (mark o mk).
Proof.
  intros Hp [Hm Hs Hl Hb] Hv. unfold visited in Hv.
  assert (Ho : mark_of mk o = marks0 o).
  { destruct (Hm o) as [E|[E _]]; [done|]. rewrite E in Hv. congruence. }
  unfold mark. rewrite Ho.
  destruct (must_be_preserved o (marks0 o)) eqn:Hpres; split; cbn.
  - intros x. destruct (decide (x = o)) as [->|Hx].
    + right. rewrite fn_lookup_insert. split; [done|]. intros _.
      apply elem_of_app. right. by apply list_elem_of_singleton.
    + rewrite fn_lookup_insert_ne by done.
      destruct (Hm x) as [E|[E1 E2]]; [by left|right]. split; [done|].
      intros Hx'. apply elem_of_app. left. by apply E2.
  - intros i x Hi. apply lookup_app_Some in Hi as [Hi|[Hi1 Hi2]].
    + apply lookup_app_l_Some. by apply Hs.
    + apply list_lookup_singleton_Some in Hi2 as [Hi2 <-].
      rewrite lookup_app_r by lia.
      replace (i - length (_saved_mark_stack mk))%nat with 0%nat by lia.
      done.
  - rewrite !length_app. cbn. lia.
  - done.
  - intros x. destruct (decide (x = o)) as [->|Hx].
    + right. rewrite fn_lookup_insert. split; [done|]. congruence.
    + rewrite fn_lookup_insert_ne by done. apply Hm.
  - done.
  - done.
  - done.
Qed.

Lemma object_iterate_spec l marks o :
  object_iterate l marks o =
  if bool_decide (o ∈ l /\ o <> NULL) && is_marked (marks o)
  then init_mark_of o else marks o.
Proof.
  revert marks. induction l as [|x l IH]; intros marks.
  - cbn. rewrite bool_decide_eq_false_2; [done|].
    intros [Hin _]. by apply elem_of_nil in Hin.
  - change (object_iterate (x :: l) marks)
      with (object_iterate l (RestoreMarksClosure_do_object marks x)).
    rewrite IH. unfold RestoreMarksClosure_do_object.
    destruct (decide (x <> NULL)) as [Hx|Hx];
      [destruct (is_marked (marks x)) eqn:Hmx|].
    + destruct (decide (o = x)) as [->|Hox].
      * rewrite fn_lookup_insert.
        rewrite (bool_decide_eq_true_2 (x ∈ x :: l /\ x <> NULL))
          by (split; [left|done]).
        rewrite Hmx. cbn. by destruct (_ && _).
      * rewrite fn_lookup_insert_ne by done.
        rewrite (bool_decide_ext (o ∈ x :: l /\ o <> NULL) (o ∈ l /\ o <> NULL));
          [done|].
        rewrite elem_of_cons. intuition congruence.
    + destruct (decide (o = x)) as [->|Hox].
      * rewrite Hmx, !andb_false_r. done.
      * rewrite (bool_decide_ext (o ∈ x :: l /\ o <> NULL) (o ∈ l /\ o <> NULL));
          [done|].
        rewrite elem_of_cons. intuition congruence.
    + destruct (decide (o = x)) as [->|Hox].
      * rewrite !bool_decide_eq_false_2 by (intros [_ ?]; done). done.
      * rewrite (bool_decide_ext (o ∈ x :: l /\ o <> NULL) (o ∈ l /\ o <> NULL));
          [done|].
        rewrite elem_of_cons. intuition congruence.
Qed.

Lemma restore_saved_spec marks0 oops saved marks o :
  (forall i x, oops !! i = Some x -> saved !! i = Some (marks0 x)) ->
  restore_saved oops saved marks o =
  if decide (o ∈ oops) then marks0 o else marks o.
Proof.
  intros Hs. unfold restore_saved.
  assert (G : forall n, (n <= length oops)%nat ->
    foldl (fun marks i =>
             match oops !! i, saved !! i with
             | Some o, Some m => <[o:=m]> marks
             | _, _ => marks
             end) marks (seq 0 n) o =
    if decide (o ∈ take n oops) then marks0 o else marks o).
  { induction n as [|n IH]; intros Hn.
    - cbn. rewrite decide_False; [done|]. rewrite take_0. apply not_elem_of_nil.
    - rewrite seq_S, foldl_app. cbn.
      destruct (lookup_lt_is_Some_2 oops n ltac:(lia)) as [x Hx].
      rewrite Hx, (Hs _ _ Hx).
      rewrite (take_S_r _ _ _ Hx).
      destruct (decide (o = x)) as [->|Hox].
      + rewrite fn_lookup_insert. rewrite decide_True; [done|].
        apply elem_of_app. right. by apply list_elem_of_singleton.
      + rewrite fn_lookup_insert_ne by done. rewrite IH by lia.
        apply decide_ext. rewrite elem_of_app, list_elem_of_singleton.
        intuition congruence. }
  rewrite G by done. by rewrite firstn_all.
Qed.

Lemma elem_of_iterated_objects o :
  o ∈ iterated_objects <->
  o ∈ heap_objects \/ (UseSharedSpaces = true /\ o ∈ rw_space_objects).
Proof.
  unfold iterated_objects. rewrite elem_of_app.
  destruct UseSharedSpaces; [intuition|].
  split; [intros [?|Hn]; [by left|by apply elem_of_nil in Hn]|].
  intros [?|[? _]]; [by left|done].
Qed.

(** The two iterations of [done] over the heap. *)
Lemma iterations_spec marks o :
  let marks2 :=
    let marks1 := object_iterate heap_objects marks in
    if UseSharedSpaces then object_iterate rw_space_objects marks1
    else marks1 in
  (is_marked (marks o) = false -> marks2 o = marks o)
  /\ (is_marked (marks o) = true -> o ∈ iterated_objects -> o <> NULL ->
      marks2 o = init_mark_of o).
Proof.
  cbn zeta. split.
  - intros Hm.
    assert (E : object_iterate heap_objects marks o = marks o).
    { rewrite object_iterate_spec, Hm. by rewrite andb_false_r. }
    destruct UseSharedSpaces; [|done].
    rewrite object_iterate_spec, E, Hm. by rewrite andb_false_r.
  - intros Hm Hin Hn. apply elem_of_iterated_objects in Hin.
    pose proof (object_iterate_spec heap_objects marks o) as E.
    rewrite Hm, andb_true_r in E.
    destruct UseSharedSpaces.
    + rewrite object_iterate_spec.
      destruct (decide (o ∈ heap_objects)) as [Hh|Hh].
      * rewrite bool_decide_eq_true_2 in E by done. rewrite E.
        by destruct (_ && _).
      * rewrite bool_decide_eq_false_2 in E by (intros [? _]; done).
        rewrite E, Hm, andb_true_r.
        rewrite bool_decide_eq_true_2; [done|]. intuition.
    + rewrite E. rewrite bool_decide_eq_true_2; [done|].
      intuition congruence.
Qed.

Lemma ObjectMarker_done_spec marks0 mk o :
  is_marked marked_prototype = true ->
  (forall o, is_marked (init_mark_of o) = false) ->
  (forall o, o ∈ iterated_objects -> is_marked (marks0 o) = false) ->
  BiasedLocking_contract ->
  marker_inv marks0 mk ->
  o ∈ iterated_objects -> o <> NULL ->
  is_marked (mark_of (ObjectMarker_done mk) o) = false
  /\ observably_identical o (marks0 o) (mark_of (ObjectMarker_done mk) o).
Proof.
  intros Hp Hi Hu [Hb1 Hb2] [Hm Hs Hl Hb] Hin Hn.
  unfold ObjectMarker_done. cbn [mark_of].
  destruct (iterations_spec (mark_of mk) o) as [I1 I2]. cbn zeta in I1, I2.
  set (marks2 := if UseSharedSpaces then _ else _) in *.
  set (marks3 := restore_saved _ _ marks2).
  assert (E3 : marks3 o = if decide (o ∈ _saved_oop_stack mk)
                          then marks0 o else marks2 o).
  { apply restore_saved_spec. exact Hs. }
  assert (G3 : observably_identical o (marks0 o) (marks3 o)).
  { rewrite E3. destruct (decide (o ∈ _saved_oop_stack mk)) as [Hsv|Hsv];
      [by left|].
    destruct (Hm o) as [E|[E1 E2]].
    - left. rewrite I1; [done|]. rewrite E. by apply Hu.
    - right. split.
      + destruct (must_be_preserved o (marks0 o)); [|done].
        by destruct Hsv; apply E2.
      + apply I2; [|done..]. by rewrite E1. }
  assert (G : observably_identical o (marks0 o)
                (if UseBiasedLocking
                 then BiasedLocking_restore_marks (biased_marks mk) marks3 o
                 else marks3 o)).
  { destruct UseBiasedLocking; [|done].
    destruct (Hb2 (biased_marks mk) marks3 o) as [E|E]; [by rewrite E|].
    rewrite Hb in E |- *. apply Hb1 in E. by left. }
  assert (G' : observably_identical o (marks0 o)
                 ((if UseBiasedLocking
                   then BiasedLocking_restore_marks (biased_marks mk) marks3
                   else marks3) o)) by (by destruct UseBiasedLocking).
  split; [|done].
  destruct G' as [->|[_ ->]]; [by apply Hu|apply Hi].
Qed.

(** Reporting the references of an object leaves the marker as it is. *)
Lemma visit_marked_marker op o (st : heap_walk A) :
  marker (visit_marked malloc_ok op o st).2 = marker st.
Proof.
  unfold visit_marked.
  repeat match goal with
         | |- context [if ?b then _ else _] => destruct b
         | |- context [let '(_, _) := ?e in _] => destruct e as [[? ?] ?]
         | |- context [let '(_, _) := ?e in _] => destruct e as [? ?]
         end; done.
Qed.

Lemma visit_marker op o (st : heap_walk A) :
  marker (visit malloc_ok op o st).2 = mark o (marker st).
Proof. unfold visit. by rewrite visit_marked_marker. Qed.

Lemma visit_loop_marker_inv marks0 fuel op (st : heap_walk A) :
  is_marked marked_prototype = true ->
  marker_inv marks0 (marker st) ->
  marker_inv marks0 (marker (visit_loop malloc_ok fuel op st).2).
Proof.
  intros Hp. revert st. induction fuel as [|fuel IH]; intros st Hinv; cbn.
  - by destruct (_visit_stack _).
  - destruct (_visit_stack (invoker st)) as [|o rest]; [done|].
    cbn [marker set_invoker].
    destruct (visited (marker st) o) eqn:Hv; [by apply IH|].
    destruct (visit malloc_ok op o _) as [r st2] eqn:Ev.
    assert (Hinv2 : marker_inv marks0 (marker st2)).
    { change st2 with (r, st2).2. rewrite <- Ev, visit_marker.
      by apply mark_inv. }
    destruct r; [by apply IH|done].
Qed.

Lemma walk_marker_inv marks0 fuel op (st : heap_walk A) :
  is_marked marked_prototype = true ->
  marker_inv marks0 (marker st) ->
  marker_inv marks0 (marker (walk malloc_ok fuel op st).2).
Proof.
  intros Hp Hinv. unfold walk.
  destruct (if decide (_initial_object op = NULL) then _ else _) as [r iv].
  destruct r; [|done].
  destruct (_following_object_refs op); [|done].
  by apply visit_loop_marker_inv.
Qed.

(** ** The cache of field maps *)

(** A class that holds a cached map is on the class list. *)
Definition cache_inv (c : FieldMapCache) : Prop :=
  forall k, jvmti_cached_class_field_map c k <> None ->
            k ∈ default [] (_class_list c).

Lemma get_map_of_instance_fields_inv obj c :
  cache_inv c -> cache_inv (get_map_of_instance_fields obj c).2.
Proof.
  intros Hc. unfold get_map_of_instance_fields.
  destruct (jvmti_cached_class_field_map c (klass obj)) eqn:E; [done|].
  intros k. cbn. intros Hk. apply elem_of_app.
  destruct (decide (k = klass obj)) as [->|Hne].
  - right. by apply list_elem_of_singleton.
  - left. rewrite fn_lookup_insert_ne in Hk by done. by apply Hc.
Qed.

Lemma clear_maps_spec (l : list oop)
    (maps : oop -> option (list ClassFieldDescriptor)) k :
  foldl (fun maps ik => <[ik:=None]> maps) maps l k =
  if decide (k ∈ l) then None else maps k.
Proof.
  revert maps. induction l as [|x l IH]; intros maps; cbn.
  - rewrite decide_False; [done|]. apply not_elem_of_nil.
  - rewrite IH. destruct (decide (k ∈ l)) as [Hl|Hl].
    + rewrite decide_True; [done|]. by right.
    + destruct (decide (k = x)) as [->|Hne].
      * rewrite fn_lookup_insert. rewrite decide_True; [done|]. by left.
      * rewrite fn_lookup_insert_ne by done. rewrite decide_False; [done|].
        rewrite elem_of_cons. intuition.
Qed.

Lemma ClassFieldMapCacheMark_delete_spec c :
  let c' := ClassFieldMapCacheMark_delete c in
  cached_field_map_count c' = 0
  /\ _class_list c' = None
  /\ _is_active c' = false
  /\ (cache_inv c -> forall k, jvmti_cached_class_field_map c' k = None).
Proof.
  unfold ClassFieldMapCacheMark_delete, clear_cache, cached_field_map_count.
  cbn zeta. destruct (_class_list c) as [l|] eqn:El; cbn; rewrite ?El.
  - do 3 (split; [done|]). intros Hc k. rewrite clear_maps_spec.
    destruct (decide (k ∈ l)) as [Hl|Hl]; [done|].
    destruct (jvmti_cached_class_field_map c k) eqn:E; [|done].
    destruct Hl. specialize (Hc k). rewrite El, E in Hc. by apply Hc.
  - do 3 (split; [done|]). intros Hc k.
    destruct (jvmti_cached_class_field_map c k) eqn:E; [|done].
    specialize (Hc k). rewrite El, E in Hc.
    exfalso. eapply not_elem_of_nil. by apply Hc.
Qed.

Lemma iterate_over_object_cache_inv op mk o c (iv : CallbackInvoker A) :
  cache_inv c ->
  cache_inv (iterate_over_object malloc_ok op mk o c iv).1.2.
Proof.
  intros Hc. unfold iterate_over_object.
  destruct (report_reference _ _ _ _ _ _ _ _) as [[] iv1]; [|done].
  pose proof (get_map_of_instance_fields_inv o c Hc) as Hc1.
  destruct (get_map_of_instance_fields o c) as [field_map c1].
  by destruct (iterate_over_fields _ _ _ _ _ _) as [r2 iv2].
Qed.

Lemma visit_marked_cache_inv op o (st : heap_walk A) :
  cache_inv (cache st) ->
  cache_inv (cache (visit_marked malloc_ok op o st).2).
Proof.
  intros Hc. unfold visit_marked.
  pose proof (iterate_over_object_cache_inv op (marker st) o (cache st)
                (invoker st) Hc) as Ho.
  destruct (iterate_over_object _ _ _ _ _ _) as [[r c] iv].
  repeat match goal with
         | |- context [if ?b then _ else _] => destruct b
         | |- context [let '(_, _) := ?e in _] => destruct e as [? ?]
         end; done.
Qed.

Lemma visit_loop_cache_inv fuel op (st : heap_walk A) :
  cache_inv (cache st) ->
  cache_inv (cache (visit_loop malloc_ok fuel op st).2).
Proof.
  revert st. induction fuel as [|fuel IH]; intros st Hinv; cbn.
  - by destruct (_visit_stack _).
  - destruct (_visit_stack (invoker st)) as [|o rest]; [done|].
    cbn [marker set_invoker].
    destruct (visited (marker st) o) eqn:Hv; [by apply IH|].
    pose proof (visit_marked_cache_inv op o
      {| marker := mark o (marker st); cache := cache st;
         invoker := set_visit_stack rest (invoker st) |} Hinv) as Hc.
    unfold visit. cbn [marker cache invoker set_invoker].
    destruct (visit_marked _ _ _ _) as [r st2].
    destruct r; [by apply IH|done].
Qed.

Lemma walk_cache_inv fuel op (st : heap_walk A) :
  cache_inv (cache st) ->
  cache_inv (cache (walk malloc_ok fuel op st).2).
Proof.
  intros Hinv. unfold walk.
  destruct (if decide (_initial_object op = NULL) then _ else _) as [r iv].
  destruct r; [|done].
  destruct (_following_object_refs op); [|done].
  by apply visit_loop_cache_inv.
Qed.

(** X12: after [doit], however the walk ended and wherever its loop was
    left, no object of the heap is marked, every header that had to be
    preserved is the one the object had before the walk and every other
    header is that one or the initial one; the stacks of saved headers
    are freed, the count of cached field maps is zero and no class keeps
    a cached map. *)
Theorem doit_restores_headers_and_cache fuel op marks c
    (iv : CallbackInvoker A) :
  is_marked marked_prototype = true ->
  (forall o, is_marked (init_mark_of o) = false) ->
  (forall o, o ∈ iterated_objects -> is_marked (marks o) = false) ->
  BiasedLocking_contract ->
  let st := (doit malloc_ok fuel op marks c iv).2 in
  (forall o, o ∈ iterated_objects -> o <> NULL ->
     is_marked (mark_of (marker st) o) = false
     /\ observably_identical o (marks o) (mark_of (marker st) o)
     /\ (must_be_preserved o (marks o) = true ->
         mark_of (marker st) o = marks o))
  /\ _saved_oop_stack (marker st) = []
  /\ _saved_mark_stack (marker st) = []
  /\ cached_field_map_count (cache st) = 0
  /\ _is_active (cache st) = false
  /\ (cache_inv c -> forall k, jvmti_cached_class_field_map (cache st) k = None).
Proof.
  intros Hp Hi Hu Hb. unfold doit.
  set (st0 := {| marker := ObjectMarker_init marks;
                 cache := ClassFieldMapCacheMark_new c; invoker := iv |}).
  pose proof (walk_marker_inv marks fuel op st0 Hp
                (ObjectMarker_init_inv marks)) as Hm.
  pose proof (walk_cache_inv fuel op st0) as Hc.
  destruct (walk malloc_ok fuel op st0) as [e st1]. cbn [snd] in *.
  cbn [marker cache].
  destruct (ClassFieldMapCacheMark_delete_spec (cache st1))
    as (C1 & _ & C3 & C4).
  split; [|by repeat split; [..|intros Hc0; apply C4, Hc]].
  intros o Hin Hn.
  destruct (ObjectMarker_done_spec marks (marker st1) o Hp Hi Hu Hb Hm Hin Hn)
    as [D1 D2].
  split; [done|split; [done|]].
  intros Hpres. destruct D2 as [->|[D2 _]]; [done|congruence].
Qed.

(** ** The referrer cache of the basic walk *)

(** What the object reference callback leaves in the tag slot of the
    referree when it is called for this reference. *)
Definition written_tag (cb : jvmtiObjectReferenceCallback A)
    (ref_kind : jvmtiObjectReferenceKind) (referrer referree : oop)
    (index : Z) (iv : CallbackInvoker A) : jlong :=
  let wrapper := CallbackWrapper_new (_tag_map iv) referree in
  (cb ref_kind (_klass_tag wrapper) (_obj_size wrapper) (_obj_tag wrapper)
      (basic_referrer_tag referrer iv) index (_user_data iv)).1.2.

Lemma invoke_basic_object_reference_callback_spec mk context cb ref_kind
    referrer referree index (iv : CallbackInvoker A) :
  object_ref_callback context = Some cb ->
  let wrapper := CallbackWrapper_new (_tag_map iv) referree in
  let iv' := (invoke_basic_object_reference_callback malloc_ok mk context
                ref_kind referrer referree index iv).2 in
  _last_referrer iv' = referrer
  /\ _last_referrer_tag iv' =
     (if decide (referrer = referree)
      then written_tag cb ref_kind referrer referree index iv
      else basic_referrer_tag referrer iv)
  /\ calls iv' =
     object_ref_call ref_kind referree (_klass_tag wrapper)
       (_obj_size wrapper) (_obj_tag wrapper)
       (basic_referrer_tag referrer iv) index :: calls iv.
Proof.
  intros Hcb. cbn zeta.
  unfold invoke_basic_object_reference_callback, written_tag.
  rewrite Hcb. unfold with_CallbackWrapper.
  destruct (cb _ _ _ _ _ _ _) as [[control tag] a]. cbn [fst snd].
  unfold check_for_visit.
  destruct (decide (control = JVMTI_ITERATION_CONTINUE));
    [destruct (visited mk referree)|]; cbn; done.
Qed.

(** X13: in a basic walk, once the object reference callback has returned
    for a reference from [referrer], the referrer cache holds [referrer]
    with, for a reference to itself, the tag that the callback left in the
    tag slot, and otherwise the referrer tag that was passed to the
    callback; the next report of a reference from the same referrer
    passes the cached tag to the callback. *)
Theorem basic_walk_caches_referrer_tag mk mk' context cb ref_kind ref_kind'
    referrer referree referree' index index' (iv : CallbackInvoker A) :
  object_ref_callback context = Some cb ->
  let iv1 := (invoke_basic_object_reference_callback malloc_ok mk context
                ref_kind referrer referree index iv).2 in
  let iv2 := (invoke_basic_object_reference_callback malloc_ok mk' context
                ref_kind' referrer referree' index' iv1).2 in
  let cached :=
    if decide (referrer = referree)
    then written_tag cb ref_kind referrer referree index iv
    else basic_referrer_tag referrer iv in
  _last_referrer iv1 = referrer
  /\ _last_referrer_tag iv1 = cached
  /\ exists class_tag size tag,
       calls iv2 =
       object_ref_call ref_kind' referree' class_tag size tag cached index'
       :: calls iv1.
Proof.
  intros Hcb. cbn zeta.
  destruct (invoke_basic_object_reference_callback_spec mk context cb ref_kind
              referrer referree index iv Hcb) as (E1 & E2 & _).
  cbn zeta in E1, E2.
  set (iv1 := (invoke_basic_object_reference_callback malloc_ok mk context
                 ref_kind referrer referree index iv).2) in *.
  destruct (invoke_basic_object_reference_callback_spec mk' context cb
              ref_kind' referrer referree' index' iv1 Hcb) as (_ & _ & E3).
  cbn zeta in E3.
  split; [done|split; [done|]].
  eexists _, _, _. rewrite E3. f_equal. f_equal.
  unfold basic_referrer_tag. rewrite E1, decide_True by done. exact E2.
Qed.

(** ** What a report does to the visit stack, to the calls and to the store *)

(** The object a call of a callback is about, and the tag and the class
    tag that the callback was given for it. *)
Definition call_object (c : callback_call) : oop :=
  match c with
  | heap_root_call _ obj _ _ _ => obj
  | stack_ref_call _ obj _ _ _ _ _ _ _ => obj
  | object_ref_call _ referree _ _ _ _ _ => referree
  | heap_reference_call _ _ obj _ _ _ _ _ _ => obj
  | primitive_field_call _ _ obj _ _ _ _ => obj
  | array_primitive_value_call obj _ _ _ _ _ _ => obj
  | string_primitive_value_call obj _ _ _ _ _ => obj
  end.

Definition call_tag (c : callback_call) : jlong :=
  match c with
  | heap_root_call _ _ _ _ tag => tag
  | stack_ref_call _ _ _ _ tag _ _ _ _ => tag
  | object_ref_call _ _ _ _ tag _ _ => tag
  | heap_reference_call _ _ _ _ _ _ tag _ _ => tag
  | primitive_field_call _ _ _ _ tag _ _ => tag
  | array_primitive_value_call _ _ _ tag _ _ _ => tag
  | string_primitive_value_call _ _ _ tag _ _ => tag
  end.

Definition call_class_tag (c : callback_call) : jlong :=
  match c with
  | heap_root_call _ _ class_tag _ _ => class_tag
  | stack_ref_call _ _ class_tag _ _ _ _ _ _ => class_tag
  | object_ref_call _ _ class_tag _ _ _ _ => class_tag
  | heap_reference_call _ _ _ class_tag _ _ _ _ _ => class_tag
  | primitive_field_call _ _ _ class_tag _ _ _ => class_tag
  | array_primitive_value_call _ class_tag _ _ _ _ _ => class_tag
  | string_primitive_value_call _ class_tag _ _ _ _ => class_tag
  end.

(** The call is permitted by the filters of the walk: the object passes
    the class filter, if there is one, and the tags it was reported with
    pass the heap filter. *)
Definition permitted (ctx : HeapWalkContext A) (c : callback_call) : Prop :=
  match ctx with
  | basic _ => True
  | advanced context =>
      is_filtered_by_klass_filter (call_object c) (klass_filter context)
      = false
      /\ is_filtered_by_heap_filter (call_tag c) (call_class_tag c)
           (heap_filter context) = false
  end.

(** The calls made in a walk under [ctx] about [obj]. *)
Definition about (ctx : HeapWalkContext A) (obj : oop) (c : callback_call)
  : Prop :=
  call_object c = obj /\ permitted ctx c.

(** What the destructor of the wrapper of a report does to the store:
    nothing when there was no wrapper, or the commit of a wrapper of
    [obj], or the one of a wrapper of [referrer] and [obj]. *)
Inductive store_change (referrer obj : oop) (tm : JvmtiTagMap)
  : JvmtiTagMap -> Prop :=
| store_kept : store_change referrer obj tm tm
| store_committed ok t :
    store_change referrer obj tm
      (CallbackWrapper_delete ok (write_obj_tag t (CallbackWrapper_new tm obj))
         tm)
| store_committed_two ok1 ok2 t_o t_r :
    store_change referrer obj tm
      (TwoOopCallbackWrapper_delete ok1 ok2
         (write_tags t_o t_r (TwoOopCallbackWrapper_new tm referrer obj)) tm).

(** What the code of a report does between the constructor and the
    destructor of its wrapper: it pushes [obj] or nothing, makes one call
    that satisfies [P] or none, and leaves the store alone. *)
Definition inner (P : callback_call -> Prop) (obj : oop)
    (iv iv' : CallbackInvoker A) : Prop :=
  (_visit_stack iv' = _visit_stack iv
   \/ _visit_stack iv' = obj :: _visit_stack iv)
  /\ (calls iv' = calls iv \/ exists c, calls iv' = c :: calls iv /\ P c)
  /\ _tag_map iv' = _tag_map iv.

(** A report about [obj]: the same, and the store is changed as the
    wrapper commits. *)
Definition effect (P : callback_call -> Prop) (referrer obj : oop)
    (iv iv' : CallbackInvoker A) : Prop :=
  (_visit_stack iv' = _visit_stack iv
   \/ _visit_stack iv' = obj :: _visit_stack iv)
  /\ (calls iv' = calls iv \/ exists c, calls iv' = c :: calls iv /\ P c)
  /\ store_change referrer obj (_tag_map iv) (_tag_map iv').

Lemma inner_refl P obj iv : inner P obj iv iv.
Proof. split; [by left|split; [by left|done]]. Qed.

Lemma inner_effect P referrer obj iv iv' :
  inner P obj iv iv' -> effect P referrer obj iv iv'.
Proof.
  intros (Hs & Hc & Ht). split; [done|split; [done|]]. rewrite Ht. constructor.
Qed.

Lemma effect_refl P referrer obj iv : effect P referrer obj iv iv.
Proof. apply inner_effect, inner_refl. Qed.

Lemma check_for_visit_inner P mk obj iv :
  inner P obj iv (check_for_visit mk obj iv).2.
Proof.
  unfold check_for_visit. cbn.
  destruct (visited mk obj); [apply inner_refl|].
  split; [by right|split; [by left|done]].
Qed.

Lemma check_for_visit_effect P mk referrer obj iv :
  effect P referrer obj iv (check_for_visit mk obj iv).2.
Proof. apply inner_effect, check_for_visit_inner. Qed.

Lemma after_advanced_callback_inner P mk res obj iv :
  inner P obj iv (after_advanced_callback mk res obj iv).2
  /\ calls (after_advanced_callback mk res obj iv).2 = calls iv.
Proof.
  unfold after_advanced_callback, check_for_visit.
  destruct (flag res JVMTI_VISIT_ABORT); [split; [apply inner_refl|done]|].
  destruct (flag res JVMTI_VISIT_OBJECTS); [|split; [apply inner_refl|done]].
  cbn. destruct (visited mk obj); [split; [apply inner_refl|done]|].
  split; [|done]. split; [by right|split; [by left|done]].
Qed.

(** The wrapper around the code of a report. *)
Lemma with_CallbackWrapper_effect P referrer obj body iv :
  inner P obj iv (body (CallbackWrapper_new (_tag_map iv) obj) iv).2 ->
  effect P referrer obj iv (with_CallbackWrapper malloc_ok obj body iv).2.
Proof.
  unfold with_CallbackWrapper.
  destruct (body _ iv) as [[r t] iv1]. cbn. intros (Hs & Hc & Ht).
  split; [done|split; [done|]]. rewrite Ht. apply store_committed.
Qed.

Lemma with_TwoOopCallbackWrapper_effect P referrer obj body iv :
  inner P obj iv
    (body (TwoOopCallbackWrapper_new (_tag_map iv) referrer obj) iv).2 ->
  effect P referrer obj iv
    (with_TwoOopCallbackWrapper malloc_ok referrer obj body iv).2.
Proof.
  unfold with_TwoOopCallbackWrapper.
  destruct (body _ iv) as [[[r t] t'] iv1]. cbn. intros (Hs & Hc & Ht).
  split; [done|split; [done|]]. rewrite Ht. apply store_committed_two.
Qed.

Lemma invoke_basic_heap_root_callback_effect mk context root_kind obj iv :
  effect (about (basic context) obj) obj obj iv
    (invoke_basic_heap_root_callback malloc_ok mk context root_kind obj iv).2.
Proof.
  unfold invoke_basic_heap_root_callback.
  destruct (heap_root_callback context) as [cb|];
    [|apply check_for_visit_effect].
  apply with_CallbackWrapper_effect.
  destruct (cb _ _ _ _ _) as [[control tag] a].
  destruct (_ && _); cbn;
    (split; [auto|split; [right; eexists; split; [done|done]|done]]).
Qed.

Lemma invoke_basic_stack_ref_callback_effect mk context root_kind thread_tag
    depth method slot obj iv :
  effect (about (basic context) obj) obj obj iv
    (invoke_basic_stack_ref_callback malloc_ok mk context root_kind thread_tag
       depth method slot obj iv).2.
Proof.
  unfold invoke_basic_stack_ref_callback.
  destruct (stack_ref_callback context) as [cb|];
    [|apply check_for_visit_effect].
  apply with_CallbackWrapper_effect.
  destruct (cb _ _ _ _ _ _ _ _ _) as [[control tag] a].
  destruct (_ && _); cbn;
    (split; [auto|split; [right; eexists; split; [done|done]|done]]).
Qed.

Lemma invoke_basic_object_reference_callback_effect mk context ref_kind
    referrer referree index iv :
  effect (about (basic context) referree) referrer referree iv
    (invoke_basic_object_reference_callback malloc_ok mk context ref_kind
       referrer referree index iv).2.
Proof.
  unfold invoke_basic_object_reference_callback.
  destruct (object_ref_callback context) as [cb|]; [|apply effect_refl].
  apply with_CallbackWrapper_effect.
  destruct (cb _ _ _ _ _ _ _) as [[control tag] a].
  unfold check_for_visit.
  destruct (decide _); [destruct (visited mk referree)|]; cbn;
    (split; [auto|split; [right; eexists; split; [done|done]|done]]).
Qed.

(** The code of the advanced reports, once the heap filter let the
    object through and the callback was called. *)
Lemma advanced_call_inner (P : callback_call -> Prop) mk res obj c a iv :
  P c ->
  inner P obj iv (after_advanced_callback mk res obj (called c a iv)).2.
Proof.
  intros Hc.
  destruct (after_advanced_callback_inner P mk res obj (called c a iv))
    as [(Hs & _ & Ht) Hcalls].
  split; [done|split; [|done]]. right. by exists c.
Qed.

Lemma invoke_advanced_heap_root_callback_effect mk context ref_kind obj iv :
  effect (about (advanced context) obj) obj obj iv
    (invoke_advanced_heap_root_callback malloc_ok mk context ref_kind obj iv).2.
Proof.
  unfold invoke_advanced_heap_root_callback.
  destruct (heap_reference_callback context) as [cb|];
    [|apply check_for_visit_effect].
  destruct (is_filtered_by_klass_filter obj (klass_filter context)) eqn:Hk;
    [apply check_for_visit_effect|].
  apply with_CallbackWrapper_effect.
  destruct (is_filtered_by_heap_filter _ _ _) eqn:Hh.
  - pose proof (check_for_visit_inner (about (advanced context) obj) mk obj iv)
      as He.
    by destruct (check_for_visit mk obj iv) as [r iv1].
  - destruct (cb _ _ _ _ _ _ _ _ _) as [[[res tag] rtag] a].
    match goal with
    | |- context [after_advanced_callback mk res obj (called ?c a iv)] =>
        pose proof (advanced_call_inner (about (advanced context) obj) mk res
                      obj c a iv) as He;
        destruct (after_advanced_callback mk res obj (called c a iv))
          as [r iv2]
    end.
    apply He. by split.
Qed.

Lemma invoke_advanced_stack_ref_callback_effect mk context ref_kind thread_tag
    tid depth method bci slot obj iv :
  effect (about (advanced context) obj) obj obj iv
    (invoke_advanced_stack_ref_callback malloc_ok mk context ref_kind
       thread_tag tid depth method bci slot obj iv).2.
Proof.
  unfold invoke_advanced_stack_ref_callback.
  destruct (heap_reference_callback context) as [cb|];
    [|apply check_for_visit_effect].
  destruct (is_filtered_by_klass_filter obj (klass_filter context)) eqn:Hk;
    [apply check_for_visit_effect|].
  apply with_CallbackWrapper_effect.
  destruct (is_filtered_by_heap_filter _ _ _) eqn:Hh.
  - pose proof (check_for_visit_inner (about (advanced context) obj) mk obj iv)
      as He.
    by destruct (check_for_visit mk obj iv) as [r iv1].
  - destruct (cb _ _ _ _ _ _ _ _ _) as [[[res tag] rtag] a].
    match goal with
    | |- context [after_advanced_callback mk res obj (called ?c a iv)] =>
        pose proof (advanced_call_inner (about (advanced context) obj) mk res
                      obj c a iv) as He;
        destruct (after_advanced_callback mk res obj (called c a iv))
          as [r iv2]
    end.
    apply He. by split.
Qed.

Lemma base_TwoOopCallbackWrapper_new tm referrer obj :
  base (TwoOopCallbackWrapper_new tm referrer obj) = CallbackWrapper_new tm obj.
Proof. unfold TwoOopCallbackWrapper_new. by destruct (decide _). Qed.

Lemma invoke_advanced_object_reference_callback_effect mk context ref_kind
    referrer obj index iv :
  effect (about (advanced context) obj) referrer obj iv
    (invoke_advanced_object_reference_callback malloc_ok mk context ref_kind
       referrer obj index iv).2.
Proof.
  unfold invoke_advanced_object_reference_callback.
  destruct (heap_reference_callback context) as [cb|];
    [|apply check_for_visit_effect].
  destruct (is_filtered_by_klass_filter obj (klass_filter context)) eqn:Hk;
    [apply check_for_visit_effect|].
  apply with_TwoOopCallbackWrapper_effect.
  destruct (is_filtered_by_heap_filter _ _ _) eqn:Hh.
  - pose proof (check_for_visit_inner (about (advanced context) obj) mk obj iv)
      as He.
    by destruct (check_for_visit mk obj iv) as [r iv1].
  - destruct (cb _ _ _ _ _ _ _ _ _) as [[[res tag] rtag] a].
    match goal with
    | |- context [after_advanced_callback mk res obj (called ?c a iv)] =>
        pose proof (advanced_call_inner (about (advanced context) obj) mk res
                      obj c a iv) as He;
        destruct (after_advanced_callback mk res obj (called c a iv))
          as [r iv2]
    end.
    apply He. by split.
Qed.

Ltac primitive_effect :=
  match goal with
  | |- effect _ _ _ _ (match ?ctx with basic _ => _ | advanced _ => _ end _).2 =>
      destruct ctx; [apply effect_refl|]
  end;
  match goal with
  | |- context [match ?cb with Some _ => _ | None => _ end] =>
      destruct cb; [|apply effect_refl]
  end;
  match goal with
  | |- context [is_filtered_by_klass_filter ?o ?f] =>
      destruct (is_filtered_by_klass_filter o f) eqn:?; [apply effect_refl|]
  end;
  apply with_CallbackWrapper_effect;
  match goal with
  | |- context [is_filtered_by_heap_filter ?t ?k ?f] =>
      destruct (is_filtered_by_heap_filter t k f) eqn:?; [apply inner_refl|]
  end;
  match goal with
  | |- context [?f (_user_data ?i)] => destruct (f (_user_data i)) as [[? ?] ?]
  end;
  cbn; split; [by left|split; [right; eexists; split; [done|by split]|done]].

Lemma report_primitive_array_values_effect ctx obj iv :
  effect (about ctx obj) obj obj iv
    (report_primitive_array_values malloc_ok ctx obj iv).2.
Proof. unfold report_primitive_array_values. primitive_effect. Qed.

Lemma report_string_value_effect ctx str iv :
  effect (about ctx str) str str iv
    (report_string_value malloc_ok ctx str iv).2.
Proof. unfold report_string_value. primitive_effect. Qed.

Lemma report_primitive_field_effect ctx ref_kind obj index addr offset type iv :
  effect (about ctx obj) obj obj iv
    (report_primitive_field malloc_ok ctx ref_kind obj index addr offset type
       iv).2.
Proof. unfold report_primitive_field. primitive_effect. Qed.

Lemma report_simple_root_effect mk ctx kind obj iv :
  effect (about ctx obj) obj obj iv
    (report_simple_root malloc_ok mk ctx kind obj iv).2.
Proof.
  destruct ctx; [apply invoke_basic_heap_root_callback_effect|].
  apply invoke_advanced_heap_root_callback_effect.
Qed.

Lemma report_jni_local_root_effect mk ctx thread_tag tid depth m obj iv :
  effect (about ctx obj) obj obj iv
    (report_jni_local_root malloc_ok mk ctx thread_tag tid depth m obj iv).2.
Proof.
  destruct ctx; [apply invoke_basic_stack_ref_callback_effect|].
  apply invoke_advanced_stack_ref_callback_effect.
Qed.

Lemma report_stack_ref_root_effect mk ctx thread_tag tid depth method bci slot
    obj iv :
  effect (about ctx obj) obj obj iv
    (report_stack_ref_root malloc_ok mk ctx thread_tag tid depth method bci
       slot obj iv).2.
Proof.
  destruct ctx; [apply invoke_basic_stack_ref_callback_effect|].
  apply invoke_advanced_stack_ref_callback_effect.
Qed.

Lemma report_reference_effect mk ctx r referrer referree index iv :
  effect (about ctx referree) referrer referree iv
    (report_reference malloc_ok mk ctx r referrer referree index iv).2.
Proof.
  destruct ctx; [apply invoke_basic_object_reference_callback_effect|].
  apply invoke_advanced_object_reference_callback_effect.
Qed.

(** ** Relations that every report of a walk keeps *)

(** The objects that the walker reports or visits are among [ok]: the
    mirrors of classes; what a root, a field of an instance or the tagging
    identity of a visited object is when it is not a klassOop (the walker
    puts the mirror in its place when it is one); the value of a static
    field and the element of an array as they are (arrays of the system
    array class are skipped). *)
Record closed (ok : oop -> Prop) : Prop := {
  ok_mirror : forall k, ok (java_mirror k);
  ok_klassOop : forall o,
    ok o -> is_klass (klassOop_if_java_lang_Class o) = false ->
    ok (klassOop_if_java_lang_Class o);
  ok_obj_field : forall o offset,
    obj_field o offset <> NULL -> is_klass (obj_field o offset) = false ->
    ok (obj_field o offset);
  ok_static_field : forall k field,
    field ∈ create_map_of_static_fields k ->
    obj_field k (field_offset field) <> NULL ->
    ok (obj_field k (field_offset field));
  ok_obj_at : forall o index,
    klass o <> systemObjArrayKlassObj ->
    obj_at o index <> NULL -> ok (obj_at o index);
  ok_class_loader : forall k, class_loader k <> NULL -> ok (class_loader k);
  ok_protection_domain : forall k,
    protection_domain k <> NULL -> ok (protection_domain k);
  ok_signers : forall k, signers k <> NULL -> ok (signers k);
  ok_constants : forall k s, constant_string s ∈ constants k -> ok s;
  ok_roots : forall o,
    o ∈ jni_global_oops ++ system_dictionary_oops ++ monitor_oops
        ++ universe_oops ++ code_cache_oops ->
    o <> NULL -> is_klass o = false -> ok o;
  ok_threads : forall t, t ∈ java_threads ->
    threadObj t <> NULL -> ok (threadObj t);
  ok_stack_local : forall t depth method bci slot o,
    t ∈ java_threads -> stack_local depth method bci slot o ∈ stack_items t ->
    o <> NULL -> ok o;
  ok_jni_locals : forall t depth method handles o,
    t ∈ java_threads -> jni_locals depth method handles ∈ stack_items t ->
    o ∈ handles -> o <> NULL -> ok o
}.

Lemma closed_True : closed (fun _ => True).
Proof. by split. Qed.

Section preserved.
Variable R : CallbackInvoker A -> CallbackInvoker A -> Prop.
Variable ok : oop -> Prop.
Variable op : VM_HeapWalkOperation A.
Hypothesis R_refl : forall iv, R iv iv.
Hypothesis R_trans : forall iv1 iv2 iv3, R iv1 iv2 -> R iv2 iv3 -> R iv1 iv3.
Hypothesis R_effect : forall referrer obj iv iv',
  ok referrer -> ok obj ->
  effect (about (op_context op) obj) referrer obj iv iv' -> R iv iv'.
Hypothesis Hclosed : closed ok.

Definition preserves (s : step A) : Prop := forall iv, R iv (s iv).2.

Lemma preserves_skip : preserves (@skip A).
Proof. intros iv. apply R_refl. Qed.

Lemma preserves_and_then a b :
  preserves a -> preserves b -> preserves (and_then a b).
Proof.
  intros Ha Hb iv. unfold and_then. specialize (Ha iv).
  destruct (a iv) as [[] iv1]; [|done].
  eapply R_trans; [exact Ha|apply Hb].
Qed.

Lemma preserves_for_each {X} (l : list X) body :
  (forall x, x ∈ l -> preserves (body x)) -> preserves (for_each l body).
Proof.
  induction l as [|x l IH]; intros Hb; cbn; [apply preserves_skip|].
  apply preserves_and_then; [apply Hb; by left|].
  apply IH. intros y Hy. apply Hb. by right.
Qed.

Lemma preserves_unchecked a : preserves a -> preserves (unchecked a).
Proof. intros Ha iv. apply Ha. Qed.

Lemma preserves_if (b : bool) s1 s2 :
  preserves s1 -> preserves s2 -> preserves (if b then s1 else s2).
Proof. by destruct b. Qed.

Lemma preserves_decide {P} (d : {P} + {~ P}) s1 s2 :
  (P -> preserves s1) -> (~ P -> preserves s2) ->
  preserves (if d then s1 else s2).
Proof. destruct d; auto. Qed.

Lemma preserves_report_reference mk r referrer referree index :
  ok referrer -> ok referree ->
  preserves (report_reference malloc_ok mk (op_context op) r referrer
               referree index).
Proof.
  intros Hr Ho iv.
  eapply R_effect; [exact Hr|exact Ho|apply report_reference_effect].
Qed.

Lemma preserves_report_simple_root mk kind obj :
  ok obj ->
  preserves (report_simple_root malloc_ok mk (op_context op) kind obj).
Proof.
  intros Ho iv.
  eapply R_effect; [exact Ho|exact Ho|apply report_simple_root_effect].
Qed.

(** The closures keep the relation from the state they were given. *)
Lemma preserves_closure (f : bool * CallbackInvoker A -> oop
                             -> bool * CallbackInvoker A) roots :
  (forall blk o, o ∈ roots -> R blk.2 (f blk o).2) ->
  preserves (fun iv => foldl f (true, iv) roots).
Proof.
  intros Hf iv.
  assert (G : forall blk, R blk.2 (foldl f blk roots).2).
  { induction roots as [|o l IH]; intros blk; cbn; [apply R_refl|].
    eapply R_trans; [apply Hf; by left|].
    apply IH. intros blk' o' Ho'. apply Hf. by right. }
  apply (G (true, iv)).
Qed.

Lemma preserves_simple_roots mk kind roots :
  (forall o, o ∈ roots -> o <> NULL -> is_klass o = false -> ok o) ->
  preserves (simple_roots malloc_ok mk (op_context op) kind roots).
Proof.
  intros Hr. apply preserves_closure. intros blk o Ho.
  unfold SimpleRootsClosure_do_oop.
  destruct (negb blk.1); [apply R_refl|].
  destruct (bool_decide (o = NULL \/ o = deleted_handle)) eqn:Hn;
    [apply R_refl|].
  apply bool_decide_eq_false in Hn.
  destruct (is_klass o) eqn:Ek.
  - destruct (negb (visible_oop _)); [apply R_refl|].
    apply preserves_report_simple_root, (ok_mirror _ Hclosed).
  - assert (Hok : ok o) by (apply Hr; [done|intuition|done]).
    destruct (_ && _); (destruct (negb (visible_oop _)); [apply R_refl|]);
      by apply preserves_report_simple_root.
Qed.

Lemma preserves_jni_local_roots mk thread_tag tid depth method handles :
  (forall o, o ∈ handles -> o <> NULL -> ok o) ->
  preserves (jni_local_roots malloc_ok mk (op_context op) thread_tag tid depth
               method handles).
Proof.
  intros Hr. apply preserves_closure. intros blk o Ho.
  unfold JNILocalRootsClosure_do_oop.
  destruct (negb blk.1); [apply R_refl|].
  destruct (bool_decide (o = NULL \/ o = deleted_handle)) eqn:Hn;
    [apply R_refl|].
  apply bool_decide_eq_false in Hn.
  destruct (negb (visible_oop _)); [apply R_refl|].
  assert (Hok : ok o) by (apply Hr; [done|intuition]).
  eapply R_effect; [exact Hok|exact Hok|apply report_jni_local_root_effect].
Qed.

Lemma elem_of_roots o l :
  o ∈ l ->
  (l = jni_global_oops \/ l = system_dictionary_oops \/ l = monitor_oops
   \/ l = universe_oops \/ l = code_cache_oops) ->
  o ∈ jni_global_oops ++ system_dictionary_oops ++ monitor_oops
      ++ universe_oops ++ code_cache_oops.
Proof.
  intros Ho Hl. rewrite !elem_of_app.
  destruct Hl as [->|[->|[->|[->| ->]]]]; auto 10.
Qed.

Lemma preserves_collect_simple_roots mk :
  preserves (collect_simple_roots malloc_ok op mk).
Proof.
  unfold collect_simple_roots.
  repeat apply preserves_and_then; try apply preserves_unchecked;
    try (apply preserves_simple_roots; intros o Ho Hn Hk;
         apply (ok_roots _ Hclosed); [|done|done];
         eapply elem_of_roots; [exact Ho|auto 10]).
  apply preserves_for_each. intros t Ht.
  destruct (reported_thread t) eqn:Hrt; [|apply preserves_skip].
  apply preserves_report_simple_root. apply (ok_threads _ Hclosed); [done|].
  unfold reported_thread in Hrt.
  apply andb_true_iff in Hrt as [Hrt _]. apply andb_true_iff in Hrt as [Hrt _].
  by apply bool_decide_eq_true in Hrt.
Qed.

Lemma reported_thread_threadObj t :
  reported_thread t = true -> threadObj t <> NULL.
Proof.
  unfold reported_thread. intros Hrt.
  apply andb_true_iff in Hrt as [Hrt _]. apply andb_true_iff in Hrt as [Hrt _].
  by apply bool_decide_eq_true in Hrt.
Qed.

Lemma preserves_collect_stack_roots mk :
  preserves (collect_stack_roots malloc_ok op mk).
Proof.
  unfold collect_stack_roots. apply preserves_for_each. intros t Ht.
  destruct (reported_thread t) eqn:Hrt; [|apply preserves_skip].
  intros iv. unfold collect_stack_roots_of.
  apply preserves_for_each. intros item Hitem.
  destruct item as [depth method bci slot o|depth method handles].
  - apply preserves_decide; [intros _; apply preserves_skip|]. intros Ho iv'.
    assert (Hok : ok o) by (by eapply (ok_stack_local _ Hclosed)).
    eapply R_effect; [exact Hok|exact Hok|apply report_stack_ref_root_effect].
  - apply preserves_unchecked, preserves_jni_local_roots. intros o Ho Hn.
    by eapply (ok_jni_locals _ Hclosed).
Qed.

Lemma preserves_iterate_over_array mk o :
  ok o -> preserves (iterate_over_array malloc_ok op mk o).
Proof.
  intros Ho. unfold iterate_over_array.
  apply preserves_decide; [intros _; apply preserves_skip|intros Hsys].
  apply preserves_and_then;
    [apply preserves_report_reference; [done|apply (ok_mirror _ Hclosed)]|].
  apply preserves_for_each. intros index _.
  apply preserves_decide; [intros _; apply preserves_skip|intros Hn].
  apply preserves_report_reference; [done|by apply (ok_obj_at _ Hclosed)].
Qed.

Lemma preserves_report_primitive_field ref_kind obj index addr offset type :
  ok obj ->
  preserves (report_primitive_field malloc_ok (op_context op) ref_kind obj
               index addr offset type).
Proof.
  intros Ho iv. eapply R_effect; [exact Ho|exact Ho|].
  apply report_primitive_field_effect.
Qed.

Lemma preserves_iterate_over_type_array mk o :
  ok o -> preserves (iterate_over_type_array malloc_ok op mk o).
Proof.
  intros Ho. unfold iterate_over_type_array.
  apply preserves_and_then;
    [apply preserves_report_reference; [done|apply (ok_mirror _ Hclosed)]|].
  apply preserves_if; [|apply preserves_skip].
  intros iv. eapply R_effect; [exact Ho|exact Ho|].
  apply report_primitive_array_values_effect.
Qed.

Lemma preserves_iterate_over_class mk k :
  preserves (iterate_over_class malloc_ok op mk k).
Proof.
  unfold iterate_over_class.
  pose proof (ok_mirror _ Hclosed k) as Hm.
  apply preserves_if; [|apply preserves_skip].
  apply preserves_if; [apply preserves_skip|].
  repeat apply preserves_and_then.
  - apply preserves_if; [|apply preserves_skip].
    apply preserves_report_reference; [done|apply (ok_mirror _ Hclosed)].
  - apply preserves_decide; [intros Hn|intros _; apply preserves_skip].
    apply preserves_report_reference;
      [done|by apply (ok_class_loader _ Hclosed)].
  - apply preserves_decide; [intros Hn|intros _; apply preserves_skip].
    apply preserves_report_reference;
      [done|by apply (ok_protection_domain _ Hclosed)].
  - apply preserves_decide; [intros Hn|intros _; apply preserves_skip].
    apply preserves_report_reference; [done|by apply (ok_signers _ Hclosed)].
  - apply preserves_for_each. intros [i c] Hc.
    destruct c as [entry|resolved|]; [| |apply preserves_skip].
    + apply preserves_report_reference; [done|].
      apply (ok_constants _ Hclosed k).
      unfold pool_entries in Hc. apply (subseteq_drop 1) in Hc.
      apply list_elem_of_lookup in Hc as [j Hj].
      rewrite list_lookup_imap in Hj.
      destruct (constants k !! j) as [c|] eqn:Ej; [|done].
      cbn in Hj. apply list_elem_of_lookup. exists j. congruence.
    + apply preserves_report_reference; [done|apply (ok_mirror _ Hclosed)].
  - apply preserves_for_each. intros interface _.
    apply preserves_decide; [intros _; apply preserves_skip|intros _].
    apply preserves_report_reference; [done|apply (ok_mirror _ Hclosed)].
  - apply preserves_for_each. intros field Hfield.
    apply preserves_if.
    + apply preserves_decide; [intros Hn|intros _; apply preserves_skip].
      apply preserves_report_reference;
        [done|by apply (ok_static_field _ Hclosed)].
    + apply preserves_if; [|apply preserves_skip].
      by apply preserves_report_primitive_field.
Qed.

Lemma preserves_iterate_over_fields mk o field_map :
  ok o -> preserves (iterate_over_fields malloc_ok op mk o field_map).
Proof.
  intros Ho. unfold iterate_over_fields. apply preserves_and_then.
  - apply preserves_for_each. intros field _.
    apply preserves_if.
    + apply preserves_decide; [intros Hn|intros _; apply preserves_skip].
      apply preserves_report_reference; [done|].
      destruct (is_klass _) eqn:Ek;
        [apply (ok_mirror _ Hclosed)|by apply (ok_obj_field _ Hclosed)].
    + apply preserves_if; [|apply preserves_skip].
      by apply preserves_report_primitive_field.
  - apply preserves_if; [|apply preserves_skip].
    intros iv.
    eapply R_effect; [exact Ho|exact Ho|apply report_string_value_effect].
Qed.

Lemma iterate_over_object_preserves mk o c iv :
  ok o -> R iv (iterate_over_object malloc_ok op mk o c iv).2.
Proof.
  intros Ho. unfold iterate_over_object.
  pose proof (preserves_report_reference mk class_reference o
                (java_mirror (klass o)) (-1) Ho (ok_mirror _ Hclosed _) iv)
    as H1.
  destruct (report_reference _ _ _ _ _ _ _ _) as [[] iv1]; [|done].
  destruct (get_map_of_instance_fields o c) as [field_map c1].
  pose proof (preserves_iterate_over_fields mk o field_map Ho iv1) as H2.
  destruct (iterate_over_fields _ _ _ _ _ _) as [r2 iv2].
  eapply R_trans; [exact H1|exact H2].
Qed.

Lemma visit_marked_preserves o (st : heap_walk A) :
  ok o -> R (invoker st) (invoker (visit_marked malloc_ok op o st).2).
Proof.
  intros Ho. unfold visit_marked.
  assert (Harr : forall o', ok o' ->
    R (invoker st)
      (invoker
         (if is_objArray o'
          then let '(r, iv) :=
                 iterate_over_array malloc_ok op (marker st) o' (invoker st) in
               (r, set_invoker iv st)
          else if is_typeArray o'
               then let '(r, iv) :=
                      iterate_over_type_array malloc_ok op (marker st) o'
                        (invoker st) in
                    (r, set_invoker iv st)
               else (true, st)).2)).
  { intros o' Ho'. destruct (is_objArray o').
    - pose proof (preserves_iterate_over_array (marker st) o' Ho'
                    (invoker st)).
      by destruct (iterate_over_array _ _ _ _ _).
    - destruct (is_typeArray o'); [|apply R_refl].
      pose proof (preserves_iterate_over_type_array (marker st) o' Ho'
                    (invoker st)).
      by destruct (iterate_over_type_array _ _ _ _ _). }
  destruct (is_instance o); [|by apply Harr].
  destruct (decide (klass o = Class_klass)).
  - destruct (is_klass _) eqn:Ek;
      [|by apply Harr, (ok_klassOop _ Hclosed)].
    pose proof (preserves_iterate_over_class (marker st)
                  (klassOop_if_java_lang_Class o) (invoker st)).
    by destruct (iterate_over_class _ _ _ _ _).
  - pose proof (iterate_over_object_preserves (marker st) o (cache st)
                  (invoker st) Ho).
    by destruct (iterate_over_object _ _ _ _ _ _) as [[r c] iv].
Qed.

End preserved.

(** ** The filters of the advanced walk *)

(** The calls made from [iv] to [iv'] are permitted by the filters. *)
Definition calls_within (ctx : HeapWalkContext A) (iv iv' : CallbackInvoker A)
  : Prop :=
  exists new, calls iv' = new ++ calls iv /\ Forall (permitted ctx) new.

Lemma calls_within_refl ctx iv : calls_within ctx iv iv.
Proof. by exists []. Qed.

Lemma calls_within_trans ctx iv1 iv2 iv3 :
  calls_within ctx iv1 iv2 -> calls_within ctx iv2 iv3 ->
  calls_within ctx iv1 iv3.
Proof.
  intros (n1 & E1 & F1) (n2 & E2 & F2). exists (n2 ++ n1).
  split; [by rewrite E2, E1, app_assoc|by apply Forall_app].
Qed.

Lemma calls_within_effect ctx referrer obj iv iv' :
  True -> True ->
  effect (about ctx obj) referrer obj iv iv' -> calls_within ctx iv iv'.
Proof.
  intros _ _ (_ & [E|(c & E & _ & Hp)] & _); [by exists []|].
  exists [c]. split; [done|]. by apply Forall_singleton.
Qed.

Section any_walk.
Variable op : VM_HeapWalkOperation A.

Lemma visit_calls_within o (st : heap_walk A) :
  calls_within (op_context op) (invoker st)
    (invoker (visit malloc_ok op o st).2).
Proof.
  unfold visit.
  refine (visit_marked_preserves (calls_within (op_context op))
            (fun _ => True) op _ _ _ _ o
            {| marker := mark o (marker st); cache := cache st;
               invoker := invoker st |} _);
    [apply calls_within_refl|apply calls_within_trans
    |apply calls_within_effect|apply closed_True|done].
Qed.

Lemma visit_loop_calls_within fuel (st : heap_walk A) :
  calls_within (op_context op) (invoker st)
    (invoker (visit_loop malloc_ok fuel op st).2).
Proof.
  revert st. induction fuel as [|fuel IH]; intros st; cbn.
  - destruct (_visit_stack _); apply calls_within_refl.
  - destruct (_visit_stack (invoker st)) as [|o rest];
      [apply calls_within_refl|].
    set (st1 := set_invoker (set_visit_stack rest (invoker st)) st).
    assert (H1 : calls_within (op_context op) (invoker st) (invoker st1))
      by (by exists []).
    destruct (visited (marker st) o).
    + eapply calls_within_trans; [exact H1|apply IH].
    + pose proof (visit_calls_within o st1) as H2.
      destruct (visit malloc_ok op o st1) as [r st2].
      destruct r.
      * eapply calls_within_trans; [exact H1|].
        eapply calls_within_trans; [exact H2|apply IH].
      * eapply calls_within_trans; [exact H1|exact H2].
Qed.

Lemma walk_calls_within fuel (st : heap_walk A) :
  calls_within (op_context op) (invoker st)
    (invoker (walk malloc_ok fuel op st).2).
Proof.
  unfold walk.
  assert (H1 : calls_within (op_context op) (invoker st)
                 (if decide (_initial_object op = NULL)
                  then and_then (collect_simple_roots malloc_ok op (marker st))
                         (collect_stack_roots malloc_ok op (marker st))
                         (invoker st)
                  else (true, push (_initial_object op) (invoker st))).2).
  { destruct (decide _); [|by exists []].
    apply preserves_and_then; [apply calls_within_trans| |].
    - apply (preserves_collect_simple_roots (calls_within (op_context op))
               (fun _ => True) op);
        [apply calls_within_refl|apply calls_within_trans
        |apply calls_within_effect|apply closed_True].
    - apply (preserves_collect_stack_roots (calls_within (op_context op))
               (fun _ => True) op);
        [apply calls_within_refl|apply calls_within_trans
        |apply calls_within_effect|apply closed_True]. }
  destruct (if decide (_initial_object op = NULL) then _ else _) as [r iv].
  cbn [snd] in H1. destruct r; [|done].
  destruct (_following_object_refs op); [|done].
  eapply calls_within_trans; [exact H1|].
  apply (visit_loop_calls_within fuel (set_invoker iv st)).
Qed.

Lemma doit_calls_within fuel marks c iv :
  calls_within (op_context op) iv
    (invoker (doit malloc_ok fuel op marks c iv).2).
Proof.
  unfold doit.
  pose proof (walk_calls_within fuel
    {| marker := ObjectMarker_init marks;
       cache := ClassFieldMapCacheMark_new c; invoker := iv |}) as Hw.
  by destruct (walk _ _ _ _) as [e st1].
Qed.
End any_walk.

Lemma class_filtered_is_pushed mk context ref_kind referrer obj index
    (iv : CallbackInvoker A) :
  is_filtered_by_klass_filter obj (klass_filter context) = true ->
  invoke_advanced_object_reference_callback malloc_ok mk context ref_kind
    referrer obj index iv
  = (true, if visited mk obj then iv else push obj iv).
Proof.
  intros Hk. unfold invoke_advanced_object_reference_callback.
  rewrite Hk. by destruct (heap_reference_callback context).
Qed.

Lemma heap_filtered_is_pushed mk context ref_kind referrer obj index
    (iv : CallbackInvoker A) :
  (let wrapper := CallbackWrapper_new (_tag_map iv) obj in
   is_filtered_by_heap_filter (_obj_tag wrapper) (_klass_tag wrapper)
     (heap_filter context) = true) ->
  let r := invoke_advanced_object_reference_callback malloc_ok mk context
             ref_kind referrer obj index iv in
  r.1 = true
  /\ calls r.2 = calls iv
  /\ _user_data r.2 = _user_data iv
  /\ _visit_stack r.2 =
     if visited mk obj then _visit_stack iv else obj :: _visit_stack iv.
Proof.
  cbn zeta. intros Hf. unfold invoke_advanced_object_reference_callback.
  destruct (heap_reference_callback context) as [cb|];
    [|unfold check_for_visit; by destruct (visited mk obj)].
  destruct (is_filtered_by_klass_filter _ _);
    [unfold check_for_visit; by destruct (visited mk obj)|].
  unfold with_TwoOopCallbackWrapper.
  rewrite base_TwoOopCallbackWrapper_new, Hf.
  unfold check_for_visit. by destruct (visited mk obj).
Qed.

(** X14: in an advanced walk, a reference to an object that the class
    filter rejects is not reported: the callback is not called and the
    object is pushed on the visit stack unless it is visited already; a
    reference to an object that the heap filter rejects is not reported
    either and the object is pushed in the same way; and every call of a
    callback that the whole walk makes is about an object of the class of
    the class filter, if there is one, with a tag and a class tag that
    the heap filter lets through. *)
Theorem advanced_walk_filters context :
  (forall mk ref_kind referrer obj index (iv : CallbackInvoker A) C,
     klass_filter context = Some C -> klass obj <> C ->
     invoke_advanced_object_reference_callback malloc_ok mk context ref_kind
       referrer obj index iv
     = (true, if visited mk obj then iv else push obj iv))
  /\ (forall mk ref_kind referrer obj index (iv : CallbackInvoker A),
        (let wrapper := CallbackWrapper_new (_tag_map iv) obj in
         is_filtered_by_heap_filter (_obj_tag wrapper) (_klass_tag wrapper)
           (heap_filter context) = true) ->
        let r := invoke_advanced_object_reference_callback malloc_ok mk
                   context ref_kind referrer obj index iv in
        r.1 = true
        /\ calls r.2 = calls iv
        /\ _user_data r.2 = _user_data iv
        /\ _visit_stack r.2 =
           if visited mk obj then _visit_stack iv else obj :: _visit_stack iv)
  /\ (forall fuel initial_object marks c (iv : CallbackInvoker A),
        exists new,
          calls (invoker (doit malloc_ok fuel
                            (VM_HeapWalkOperation_advanced initial_object
                               context) marks c iv).2)
          = new ++ calls iv
          /\ Forall (fun c =>
               (forall C, klass_filter context = Some C ->
                          klass (call_object c) = C)
               /\ is_filtered_by_heap_filter (call_tag c) (call_class_tag c)
                    (heap_filter context) = false) new).
Proof.
  split; [|split].
  - intros mk ref_kind referrer obj index iv C Hk Hne.
    apply class_filtered_is_pushed. unfold is_filtered_by_klass_filter.
    rewrite Hk. by apply bool_decide_eq_true.
  - intros. by apply heap_filtered_is_pushed.
  - intros fuel initial_object marks c iv.
    destruct (doit_calls_within
                (VM_HeapWalkOperation_advanced initial_object context)
                fuel marks c iv) as (new & E & Hnew).
    exists new. split; [done|].
    eapply Forall_impl; [exact Hnew|]. intros call [Hk Hh]. split; [|done].
    intros C HC. unfold is_filtered_by_klass_filter in Hk. rewrite HC in Hk.
    apply bool_decide_eq_false in Hk.
    by destruct (decide (klass (call_object call) = C)).
Qed.

(** ** The store during a walk *)

Section store.
(** The objects that the walk reports, on which the key of the store
    tells objects apart: two of them with one tagging identity are one
    object. A mirror is among them, its klassOop is not. *)
Variable ok : oop -> Prop.
Variable op : VM_HeapWalkOperation A.
Hypothesis Hclosed : closed ok.
Hypothesis Hkeys : forall a b, ok a -> ok b ->
  klassOop_if_java_lang_Class a = klassOop_if_java_lang_Class b -> a = b.

Definition safe (iv : CallbackInvoker A) : Prop :=
  Forall ok (_visit_stack iv) /\ reachable (_tag_map iv).

Definition keeps_safe (iv iv' : CallbackInvoker A) : Prop :=
  safe iv -> safe iv'.

Lemma keeps_safe_refl iv : keeps_safe iv iv.
Proof. by intros ?. Qed.

Lemma keeps_safe_trans iv1 iv2 iv3 :
  keeps_safe iv1 iv2 -> keeps_safe iv2 iv3 -> keeps_safe iv1 iv3.
Proof. intros H1 H2 Hs. by apply H2, H1. Qed.

Lemma keeps_safe_effect referrer obj iv iv' :
  ok referrer -> ok obj ->
  effect (about (op_context op) obj) referrer obj iv iv' -> keeps_safe iv iv'.
Proof.
  intros Hr Ho (Hs & _ & Ht) [Hst Hre]. split.
  - destruct Hs as [->| ->]; [done|by apply Forall_cons].
  - destruct Ht as [|ok1 t|ok1 ok2 t_o t_r]; [done| |].
    + eapply rtc_r; [exact Hre|apply step_CallbackWrapper].
    + eapply rtc_r; [exact Hre|]. apply step_TwoOopCallbackWrapper.
      intros Hne Hk. apply Hne. by apply Hkeys.
Qed.

Lemma visit_keeps_safe o (st : heap_walk A) :
  ok o -> keeps_safe (invoker st) (invoker (visit malloc_ok op o st).2).
Proof.
  intros Ho. unfold visit.
  refine (visit_marked_preserves keeps_safe ok op _ _ _ _ o
            {| marker := mark o (marker st); cache := cache st;
               invoker := invoker st |} _);
    [apply keeps_safe_refl|apply keeps_safe_trans
    |apply keeps_safe_effect|apply Hclosed|done].
Qed.

Lemma visit_loop_keeps_safe fuel (st : heap_walk A) :
  keeps_safe (invoker st) (invoker (visit_loop malloc_ok fuel op st).2).
Proof.
  revert st. induction fuel as [|fuel IH]; intros st; cbn.
  - destruct (_visit_stack _); apply keeps_safe_refl.
  - destruct (_visit_stack (invoker st)) as [|o rest] eqn:E;
      [apply keeps_safe_refl|].
    set (st1 := set_invoker (set_visit_stack rest (invoker st)) st).
    intros [Hst Hre]. rewrite E in Hst. apply Forall_cons in Hst as [Ho Hrest].
    assert (H1 : safe (invoker st1)) by (by split).
    destruct (visited (marker st) o); [by apply IH|].
    pose proof (visit_keeps_safe o st1 Ho H1) as H2.
    destruct (visit malloc_ok op o st1) as [r st2].
    destruct r; [by apply IH|done].
Qed.

(** X15: a walk leaves the store one that the operations of the store
    can reach, and so well-formed, when the objects it reports have
    pairwise different tagging identities. A class mirror has the
    identity of its klassOop, so the condition is that no klassOop is
    reported as it is: roots and fields of instances are, the walker
    putting the mirror in their place; the values of static fields, the
    elements of arrays, the stack slots and the JNI handles must not be
    klassOops. *)
Theorem walk_keeps_store_reachable fuel marks c (iv : CallbackInvoker A) :
  (_initial_object op <> NULL -> ok (_initial_object op)) ->
  Forall ok (_visit_stack iv) ->
  reachable (_tag_map iv) ->
  let tm := _tag_map (invoker (doit malloc_ok fuel op marks c iv).2) in
  reachable tm
  /\ well_formed (entries (_hashmap tm)).
Proof.
  intros Hinit Hst Hre. cbn zeta.
  assert (G : reachable
                (_tag_map (invoker (doit malloc_ok fuel op marks c iv).2))).
  { unfold doit.
    set (st0 := {| marker := ObjectMarker_init marks;
                   cache := ClassFieldMapCacheMark_new c; invoker := iv |}).
    assert (Hw : keeps_safe (invoker st0)
                   (invoker (walk malloc_ok fuel op st0).2)).
    { unfold walk.
      assert (H1 : keeps_safe (invoker st0)
                 (if decide (_initial_object op = NULL)
                  then and_then
                         (collect_simple_roots malloc_ok op (marker st0))
                         (collect_stack_roots malloc_ok op (marker st0))
                         (invoker st0)
                  else (true, push (_initial_object op) (invoker st0))).2).
      { destruct (decide _) as [|Hn].
        - apply preserves_and_then; [apply keeps_safe_trans| |].
          + apply (preserves_collect_simple_roots keeps_safe ok op);
              [apply keeps_safe_refl|apply keeps_safe_trans
              |apply keeps_safe_effect|apply Hclosed].
          + apply (preserves_collect_stack_roots keeps_safe ok op);
              [apply keeps_safe_refl|apply keeps_safe_trans
              |apply keeps_safe_effect|apply Hclosed].
        - intros [Hs Hr]. split; [|done]. cbn.
          apply Forall_cons. split; [by apply Hinit|done]. }
      destruct (if decide (_initial_object op = NULL) then _ else _)
        as [r iv1].
      cbn [snd] in H1. destruct r; [|done].
      destruct (_following_object_refs op); [|done].
      eapply keeps_safe_trans; [exact H1|].
      apply (visit_loop_keeps_safe fuel (set_invoker iv1 st0)). }
    destruct (walk malloc_ok fuel op st0) as [e st1]. cbn [snd invoker] in *.
    by apply Hw. }
  split; [done|]. apply (wf_contents _ (reachable_wf _ G)).
Qed.
End store.

Lemma for_each_unchecked {X} (l : list X) (body : X -> step A) iv :
  (forall x, x ∈ l -> exists s, body x = unchecked s) ->
  (for_each l body iv).1 = true.
Proof.
  revert iv. induction l as [|x l IH]; intros iv Hl; [done|].
  cbn [for_each]. unfold and_then.
  destruct (Hl x) as [s Hs]; [left|]. rewrite Hs. unfold unchecked at 1.
  apply IH. intros y Hy. apply Hl. by right.
Qed.

(** X16: the walk over the stack of a thread does not stop when a
    callback asks to, if the reference it was called for is a JNI local:
    a thread whose frames give JNI locals only is left with the answer
    to go on, whatever the callbacks returned. *)
Theorem jni_local_abort_does_not_stop_walk op mk (t : JavaThread)
    (iv : CallbackInvoker A) :
  (forall item, item ∈ stack_items t ->
     exists depth method handles, item = jni_locals depth method handles) ->
  (collect_stack_roots_of malloc_ok op mk t iv).1 = true.
Proof.
  intros Hitems. unfold collect_stack_roots_of.
  apply for_each_unchecked. intros item Hin.
  destruct (Hitems item Hin) as (depth & method & handles & ->).
  by eexists.
Qed.

(** X17: the field map made for the first instance of a class that is
    met is the one given for every later instance of the class, with the
    cache left as it is; the count of cached maps grows by one when a map
    is made. *)
Theorem field_map_cached_per_class obj obj' c :
  klass obj' = klass obj ->
  let r := get_map_of_instance_fields obj c in
  get_map_of_instance_fields obj' r.2 = r
  /\ cached_field_map_count r.2 =
     cached_field_map_count c
     + (match jvmti_cached_class_field_map c (klass obj) with
        | Some _ => 0
        | None => 1
        end).
Proof.
  intros Hk. cbn zeta. unfold get_map_of_instance_fields. rewrite Hk.
  destruct (jvmti_cached_class_field_map c (klass obj)) as [m|] eqn:E; cbn.
  - rewrite E. split; [done|lia].
  - rewrite fn_lookup_insert. split; [done|].
    unfold cached_field_map_count. cbn.
    destruct (_class_list c); cbn; rewrite ?length_app; cbn; lia.
Qed.

(** ** The loop over the visit stack ends *)

Section termination.
Variable univ : list oop.
Variable op : VM_HeapWalkOperation A.
Hypothesis Hproto : is_marked marked_prototype = true.
Hypothesis Hclosed : closed (fun o => o ∈ univ).

Definition stack_within (iv iv' : CallbackInvoker A) : Prop :=
  Forall (fun o => o ∈ univ) (_visit_stack iv) ->
  Forall (fun o => o ∈ univ) (_visit_stack iv').

Lemma stack_within_refl iv : stack_within iv iv.
Proof. by intros ?. Qed.

Lemma stack_within_trans iv1 iv2 iv3 :
  stack_within iv1 iv2 -> stack_within iv2 iv3 -> stack_within iv1 iv3.
Proof. intros H1 H2 Hs. by apply H2, H1. Qed.

Lemma stack_within_effect referrer obj iv iv' :
  referrer ∈ univ -> obj ∈ univ ->
  effect (about (op_context op) obj) referrer obj iv iv' ->
  stack_within iv iv'.
Proof.
  intros _ Ho [[E|E] _] Hs; rewrite E; [done|]. by apply Forall_cons.
Qed.

(** The objects of [univ] that are not marked. *)
Definition unmarked (mk : ObjectMarker) : list oop :=
  filter (fun o => is_marked (mark_of mk o) = false) univ.

Lemma filter_length_lt (P Q : oop -> Prop) `{!forall x, Decision (P x)}
    `{!forall x, Decision (Q x)} (l : list oop) o :
  (forall x, Q x -> P x) -> P o -> ~ Q o -> o ∈ l ->
  (length (filter Q l) < length (filter P l))%nat.
Proof.
  intros HQP HP HQ.
  assert (Hle : forall l, (length (filter Q l) <= length (filter P l))%nat).
  { clear l. induction l as [|x l IH]; [done|].
    rewrite !filter_cons. destruct (decide (Q x)) as [Hx|Hx].
    - rewrite decide_True by auto. cbn. lia.
    - destruct (decide (P x)); cbn; lia. }
  induction l as [|x l IH]; intros Hin; [by apply elem_of_nil in Hin|].
  rewrite !filter_cons. apply elem_of_cons in Hin as [<-|Hin].
  - destruct (decide (Q o)); [done|]. destruct (decide (P o)); [|done].
    cbn. specialize (Hle l). lia.
  - specialize (IH Hin). destruct (decide (Q x)) as [Hx|Hx].
    + rewrite decide_True by auto. cbn. lia.
    + destruct (decide (P x)); cbn; lia.
Qed.

Lemma mark_unmarked mk o :
  o ∈ univ -> visited mk o = false ->
  (length (unmarked (mark o mk)) < length (unmarked mk))%nat.
Proof.
  intros Ho Hv. unfold unmarked, visited in *.
  apply filter_length_lt with (o := o); [|done| |done].
  - intros x. unfold mark.
    destruct (must_be_preserved o (mark_of mk o)); cbn;
      (destruct (decide (x = o)) as [->|Hne];
       [rewrite fn_lookup_insert; congruence
       |by rewrite fn_lookup_insert_ne by done]).
  - unfold mark.
    destruct (must_be_preserved o (mark_of mk o)); cbn;
      rewrite fn_lookup_insert; congruence.
Qed.

Lemma visit_stack_within o (st : heap_walk A) :
  o ∈ univ ->
  stack_within (invoker st) (invoker (visit malloc_ok op o st).2).
Proof.
  intros Ho. unfold visit.
  refine (visit_marked_preserves stack_within (fun o => o ∈ univ) op _ _ _ _ o
            {| marker := mark o (marker st); cache := cache st;
               invoker := invoker st |} _);
    [apply stack_within_refl|apply stack_within_trans
    |apply stack_within_effect|apply Hclosed|done].
Qed.

(** With enough fuel the loop ends by itself, and more fuel changes
    nothing. *)
Definition ends (st : heap_walk A) : Prop :=
  exists n, forall fuel, (n <= fuel)%nat ->
    visit_loop malloc_ok fuel op st = visit_loop malloc_ok n op st
    /\ (visit_loop malloc_ok n op st).1 <> walk_unfinished.

Lemma visit_loop_ends (st : heap_walk A) :
  Forall (fun o => o ∈ univ) (_visit_stack (invoker st)) -> ends st.
Proof.
  remember (length (unmarked (marker st))) as u eqn:Eu.
  revert st Eu. induction u as [u IHu] using lt_wf_ind. intros st Eu.
  remember (length (_visit_stack (invoker st))) as s eqn:Es.
  revert st Eu Es. induction s as [|s IHs]; intros st Eu Es Hst.
  - destruct (_visit_stack (invoker st)) as [|o rest] eqn:E; [|done].
    exists 0%nat. intros fuel _. destruct fuel; cbn; rewrite E; done.
  - destruct (_visit_stack (invoker st)) as [|o rest] eqn:E; [done|].
    apply Forall_cons in Hst as [Ho Hrest].
    set (st1 := set_invoker (set_visit_stack rest (invoker st)) st).
    destruct (visited (marker st) o) eqn:Hv.
    + destruct (IHs st1) as [n Hn]; [done|cbn in *; lia|done|].
      exists (S n). intros fuel Hf. destruct fuel as [|fuel]; [lia|].
      cbn. rewrite E. cbn [marker set_invoker]. rewrite Hv.
      apply Hn. lia.
    + pose proof (visit_stack_within o st1 Ho Hrest) as Hs2.
      pose proof (visit_marker op o st1) as Hm2.
      pose proof (mark_unmarked (marker st) o Ho Hv) as Hlt.
      destruct (visit malloc_ok op o st1) as [r st2] eqn:Ev.
      cbn [snd] in Hs2, Hm2.
      destruct r.
      * destruct (IHu (length (unmarked (marker st2)))) with (st := st2)
          as [n Hn]; [rewrite Hm2; cbn; lia|done|done|].
        exists (S n). intros fuel Hf. destruct fuel as [|fuel]; [lia|].
        cbn. rewrite E. cbn [marker set_invoker]. rewrite Hv.
        fold st1. rewrite Ev. apply Hn. lia.
      * exists 1%nat. intros fuel Hf. destruct fuel as [|fuel]; [lia|].
        cbn. rewrite E. cbn [marker set_invoker]. rewrite Hv.
        fold st1. rewrite Ev. done.
Qed.

(** X18: a walk over a heap of finitely many objects ends: from some
    amount of fuel on, [doit] gives one and the same result, and its loop
    over the visit stack was run until the stack was empty or a callback
    stopped it. *)
Theorem doit_ends marks c (iv : CallbackInvoker A) :
  (_initial_object op <> NULL -> _initial_object op ∈ univ) ->
  Forall (fun o => o ∈ univ) (_visit_stack iv) ->
  exists n, forall fuel, (n <= fuel)%nat ->
    doit malloc_ok fuel op marks c iv = doit malloc_ok n op marks c iv
    /\ (doit malloc_ok n op marks c iv).1 <> walk_unfinished.
Proof.
  intros Hinit Hiv. unfold doit.
  set (st0 := {| marker := ObjectMarker_init marks;
                 cache := ClassFieldMapCacheMark_new c; invoker := iv |}).
  unfold walk.
  assert (H1 : stack_within (invoker st0)
                 (if decide (_initial_object op = NULL)
                  then and_then (collect_simple_roots malloc_ok op (marker st0))
                         (collect_stack_roots malloc_ok op (marker st0))
                         (invoker st0)
                  else (true, push (_initial_object op) (invoker st0))).2).
  { destruct (decide _) as [|Hn].
    - apply preserves_and_then; [apply stack_within_trans| |].
      + apply (preserves_collect_simple_roots stack_within
                 (fun o => o ∈ univ) op);
          [apply stack_within_refl|apply stack_within_trans
          |apply stack_within_effect|apply Hclosed].
      + apply (preserves_collect_stack_roots stack_within
                 (fun o => o ∈ univ) op);
          [apply stack_within_refl|apply stack_within_trans
          |apply stack_within_effect|apply Hclosed].
    - intros Hs. cbn. apply Forall_cons. split; [by apply Hinit|done]. }
  destruct (if decide (_initial_object op = NULL) then _ else _) as [r iv1].
  cbn [snd] in H1. specialize (H1 Hiv).
  destruct r; [|by exists 0%nat].
  destruct (_following_object_refs op); [|by exists 0%nat].
  destruct (visit_loop_ends (set_invoker iv1 st0) H1) as [n Hn].
  exists n. intros fuel Hf. destruct (Hn fuel Hf) as [E1 E2].
  rewrite E1. split; [done|].
  by destruct (visit_loop malloc_ok n op (set_invoker iv1 st0)).
Qed.
End termination.

(** ** The walk against its specification *)

(** C7: in an advanced walk with the class filter set to the class [C],
    no callback is called for an object whose class is not [C]: every
    call that the whole walk makes, the calls of the heap reference
    callback among them, is about an object of class [C]. A reference
    to an object that the class filter rejects, or that the heap filter
    rejects, is not reported and does not stop the walk, and the object
    is pushed on the visit stack all the same, unless it is visited
    already. *)
Theorem class_filter_reports_only_its_class context C :
  klass_filter context = Some C ->
  (forall fuel initial_object marks c (iv : CallbackInvoker A),
     exists new,
       calls (invoker (doit malloc_ok fuel
                         (VM_HeapWalkOperation_advanced initial_object
                            context) marks c iv).2)
       = new ++ calls iv
       /\ Forall (fun call => klass (call_object call) = C) new)
  /\ (forall mk ref_kind referrer obj index (iv : CallbackInvoker A),
        klass obj <> C
        \/ (let wrapper := CallbackWrapper_new (_tag_map iv) obj in
            is_filtered_by_heap_filter (_obj_tag wrapper)
              (_klass_tag wrapper) (heap_filter context) = true) ->
        let r := invoke_advanced_object_reference_callback malloc_ok mk
                   context ref_kind referrer obj index iv in
        r.1 = true
        /\ calls r.2 = calls iv
        /\ _user_data r.2 = _user_data iv
        /\ _visit_stack r.2 =
           if visited mk obj then _visit_stack iv else obj :: _visit_stack iv).
Proof.
  intros HC. split.
  - intros fuel initial_object marks c iv.
    destruct (doit_calls_within
                (VM_HeapWalkOperation_advanced initial_object context)
                fuel marks c iv) as (new & E & Hnew).
    exists new. split; [done|].
    eapply Forall_impl; [exact Hnew|]. intros call [Hk _].
    unfold is_filtered_by_klass_filter in Hk. rewrite HC in Hk.
    apply bool_decide_eq_false in Hk.
    by destruct (decide (klass (call_object call) = C)).
  - intros mk ref_kind referrer obj index iv [Hne|Hheap].
    + cbn zeta.
      rewrite (class_filtered_is_pushed mk context ref_kind referrer obj
                 index iv).
      * cbn [fst snd]. by destruct (visited mk obj).
      * unfold is_filtered_by_klass_filter. rewrite HC.
        by apply bool_decide_eq_true.
    + by apply heap_filtered_is_pushed.
Qed.


(** C9: in a basic walk, when the object reference callback has returned
    for a reference of [referrer] to itself, the referrer tag that is
    cached, and that the next report of a reference from [referrer]
    passes to the callback, is the tag the callback left in the tag slot,
    not the referrer tag read before the callback ran; when it has
    returned for a reference to another object, the cached tag is the
    referrer tag read before the callback ran. *)
Theorem self_reference_caches_written_tag mk mk' context cb ref_kind
    ref_kind' referrer referree referree' index index'
    (iv : CallbackInvoker A) :
  object_ref_callback context = Some cb ->
  let read_before := basic_referrer_tag referrer iv in
  let written := written_tag cb ref_kind referrer referree index iv in
  let iv1 := (invoke_basic_object_reference_callback malloc_ok mk context
                ref_kind referrer referree index iv).2 in
  let iv2 := (invoke_basic_object_reference_callback malloc_ok mk' context
                ref_kind' referrer referree' index' iv1).2 in
  (exists class_tag size tag,
     calls iv1
     = object_ref_call ref_kind referree class_tag size tag read_before index
       :: calls iv)
  /\ _last_referrer iv1 = referrer
  /\ (referrer = referree ->
      _last_referrer_tag iv1 = written
      /\ exists class_tag size tag,
           calls iv2
           = object_ref_call ref_kind' referree' class_tag size tag written
               index' :: calls iv1)
  /\ (referrer <> referree ->
      _last_referrer_tag iv1 = read_before
      /\ exists class_tag size tag,
           calls iv2
           = object_ref_call ref_kind' referree' class_tag size tag
               read_before index' :: calls iv1).
Proof.
  intros Hcb. cbn zeta.
  destruct (invoke_basic_object_reference_callback_spec mk context cb ref_kind
              referrer referree index iv Hcb) as (E1 & E2 & E0).
  cbn zeta in E1, E2, E0.
  set (iv1 := (invoke_basic_object_reference_callback malloc_ok mk context
                 ref_kind referrer referree index iv).2) in *.
  destruct (invoke_basic_object_reference_callback_spec mk' context cb
              ref_kind' referrer referree' index' iv1 Hcb) as (_ & _ & E3).
  cbn zeta in E3.
  assert (Hnext : basic_referrer_tag referrer iv1 = _last_referrer_tag iv1).
  { unfold basic_referrer_tag. by rewrite E1, decide_True. }
  split; [by eexists _, _, _|]. split; [done|]. split.
  - intros Hself. rewrite decide_True in E2 by done. split; [done|].
    eexists _, _, _. rewrite E3, Hnext, E2. done.
  - intros Hne. rewrite decide_False in E2 by done. split; [done|].
    eexists _, _, _. rewrite E3, Hnext, E2. done.
Qed.
End WalkerFacts.
End WalkerFacts.

(** ** Iteration over the heap *)

Module HeapIterateFacts.
Import Walker HeapIterate.
Section HeapIterateFacts.
Context `{!Collaborators} `{!HeapModel}.

(** The objects a heap iteration hands to its closure, in order. *)
Definition iterated_spaces : list oop :=
  heap_objects
  ++ (if UseSharedSpaces then ro_space_objects ++ rw_space_objects else []).

Lemma object_iterate_app {S : Type} l1 l2 (f : oop -> S -> S) s :
  object_iterate (l1 ++ l2) f s = object_iterate l2 f (object_iterate l1 f s).
Proof. unfold object_iterate. by rewrite foldl_app. Qed.

Lemma object_iterate_cons {S : Type} o l (f : oop -> S -> S) s :
  object_iterate (o :: l) f s = object_iterate l f (f o s).
Proof. done. Qed.

Lemma doit_iterated_spaces {S : Type} do_object (blk : S) c :
  doit do_object blk c
  = ((object_iterate iterated_spaces do_object
        (blk, ClassFieldMapCacheMark_new c)).1,
     ClassFieldMapCacheMark_delete
       (object_iterate iterated_spaces do_object
          (blk, ClassFieldMapCacheMark_new c)).2).
Proof.
  unfold doit, iterated_spaces.
  destruct UseSharedSpaces.
  - by rewrite !object_iterate_app.
  - by rewrite app_nil_r.
Qed.

(** A property of the closure that every [do_object] keeps holds at the
    end of the iteration. *)
Lemma object_iterate_keeps {S : Type} (P : S -> Prop) (f : oop -> S -> S) l s :
  (forall o s, o ∈ l -> P s -> P (f o s)) -> P s -> P (object_iterate l f s).
Proof.
  revert s. induction l as [|o l IH]; intros s Hf Hs; [done|].
  rewrite object_iterate_cons. apply IH.
  - intros o' s' Ho'. apply Hf. by right.
  - apply Hf; [by left|done].
Qed.

End HeapIterateFacts.
End HeapIterateFacts.

Module IterateOverHeapFacts.
Import HashmapFacts TagMapFacts StoreFacts HeapIterateFacts.
Import Hashmap TagMap HeapIterate IterateOverHeap.
Section IterateOverHeapFacts.
Context `{!Collaborators} `{!HeapModel}.

Variable A : Type.
Variable malloc_ok : nat -> bool.

(** The objects the closure is interested in, whatever their tags. *)
Definition selected (klass : option oop) (o : oop) : bool :=
  visible_oop o
  && match klass with Some k => is_a o k | None => true end.

Lemma over_heap_closure_only l (blk : IterateOverHeapObjectClosure A)
    (c : Walker.FieldMapCache) :
  object_iterate l (fun o st => (do_object malloc_ok o st.1, st.2)) (blk, c)
  = (object_iterate l (do_object malloc_ok) blk, c).
Proof.
  revert blk. induction l as [|o l IH]; intros blk; [done|].
  rewrite !object_iterate_cons. cbn. apply IH.
Qed.

Lemma iterate_over_heap_closure object_filter klass cb (user_data : A) tm c :
  (iterate_over_heap malloc_ok object_filter klass cb user_data tm c).1
  = object_iterate iterated_spaces (do_object malloc_ok)
      (IterateOverHeapObjectClosure_new tm klass object_filter cb user_data).
Proof.
  unfold iterate_over_heap. rewrite doit_iterated_spaces. cbn.
  by rewrite over_heap_closure_only.
Qed.

(** What [do_object] never changes. *)
Definition same_request (blk blk' : IterateOverHeapObjectClosure A) : Prop :=
  _klass blk' = _klass blk
  /\ _object_filter blk' = _object_filter blk
  /\ _heap_object_callback blk' = _heap_object_callback blk.

(** One [do_object]: nothing happens, or the wrapper of the object is
    committed with the tag [t] that the callback left, or with the tag of
    the object when the callback was not invoked. *)
Inductive over_heap_step (o : oop) (blk : IterateOverHeapObjectClosure A)
  : IterateOverHeapObjectClosure A -> Prop :=
| over_heap_skipped :
    (_iteration_aborted blk = true \/
     selected (_klass blk) o = false) ->
    over_heap_step o blk blk
| over_heap_filtered blk' :
    _iteration_aborted blk = false ->
    selected (_klass blk) o = true ->
    (if decide (_obj_tag (CallbackWrapper_new (_tag_map blk) o) <> 0)
     then _object_filter blk = JVMTI_HEAP_OBJECT_UNTAGGED
     else _object_filter blk = JVMTI_HEAP_OBJECT_TAGGED) ->
    _iteration_aborted blk' = false ->
    calls blk' = calls blk ->
    _user_data blk' = _user_data blk ->
    _tag_map blk'
    = CallbackWrapper_delete (malloc_ok (mallocs blk))
        (write_obj_tag (_obj_tag (CallbackWrapper_new (_tag_map blk) o))
           (CallbackWrapper_new (_tag_map blk) o))
        (_tag_map blk) ->
    over_heap_step o blk blk'
| over_heap_called blk' :
    let wrapper := CallbackWrapper_new (_tag_map blk) o in
    let result :=
      _heap_object_callback blk (_klass_tag wrapper) (_obj_size wrapper)
        (_obj_tag wrapper) (_user_data blk) in
    _iteration_aborted blk = false ->
    selected (_klass blk) o = true ->
    (if decide (_obj_tag wrapper <> 0)
     then _object_filter blk <> JVMTI_HEAP_OBJECT_UNTAGGED
     else _object_filter blk <> JVMTI_HEAP_OBJECT_TAGGED) ->
    _iteration_aborted blk'
    = bool_decide (result.1.1 = JVMTI_ITERATION_ABORT) ->
    calls blk'
    = mkCall o (_klass_tag wrapper) (_obj_size wrapper) (_obj_tag wrapper)
      :: calls blk ->
    _user_data blk' = result.2 ->
    _tag_map blk'
    = CallbackWrapper_delete (malloc_ok (mallocs blk))
        (write_obj_tag result.1.2 wrapper) (_tag_map blk) ->
    over_heap_step o blk blk'.

Lemma do_object_step o (blk : IterateOverHeapObjectClosure A) :
  same_request blk (do_object malloc_ok o blk)
  /\ over_heap_step o blk (do_object malloc_ok o blk).
Proof.
  unfold do_object, selected.
  destruct (_iteration_aborted blk) eqn:Ea;
    [split; [done|apply over_heap_skipped; by left]|].
  destruct (visible_oop o) eqn:Ev; cbn [negb andb];
    [|split; [done|apply over_heap_skipped; right; unfold selected;
                   by rewrite Ev]].
  destruct (match _klass blk with Some k => negb (is_a o k) | None => false end)
    eqn:Ek.
  { split; [done|]. apply over_heap_skipped. right. unfold selected.
    rewrite Ev. cbn.
    destruct (_klass blk); [|done]. by destruct (is_a o o0). }
  assert (Hs : selected (_klass blk) o = true).
  { unfold selected. rewrite Ev. cbn. destruct (_klass blk); [|done]. by destruct (is_a o o0). }
  set (wrapper := CallbackWrapper_new (_tag_map blk) o).
  destruct (decide (_obj_tag wrapper <> 0)) as [Ht|Ht].
  - destruct (bool_decide (_object_filter blk = JVMTI_HEAP_OBJECT_UNTAGGED))
      eqn:Ef.
    + apply bool_decide_eq_true in Ef. split; [done|].
      apply over_heap_filtered; try done. fold wrapper. by rewrite decide_True.
    + apply bool_decide_eq_false in Ef.
      destruct (_heap_object_callback blk _ _ _ _) as [[control tag] a] eqn:Ec.
      split; [done|].
      apply over_heap_called; fold wrapper; try done.
      * by rewrite decide_True.
      * by rewrite Ec.
      * by rewrite Ec.
      * by rewrite Ec.
  - destruct (bool_decide (_object_filter blk = JVMTI_HEAP_OBJECT_TAGGED))
      eqn:Ef.
    + apply bool_decide_eq_true in Ef. split; [done|].
      apply over_heap_filtered; try done. fold wrapper. by rewrite decide_False.
    + apply bool_decide_eq_false in Ef.
      destruct (_heap_object_callback blk _ _ _ _) as [[control tag] a] eqn:Ec.
      split; [done|].
      apply over_heap_called; fold wrapper; try done.
      * by rewrite decide_False.
      * by rewrite Ec.
      * by rewrite Ec.
      * by rewrite Ec.
Qed.

Lemma over_heap_step_aborted o (blk blk' : IterateOverHeapObjectClosure A) :
  over_heap_step o blk blk' ->
  _iteration_aborted blk = true -> blk' = blk.
Proof. intros Hs Ha. destruct Hs; congruence. Qed.

Lemma object_iterate_aborted l (blk : IterateOverHeapObjectClosure A) :
  _iteration_aborted blk = true ->
  object_iterate l (do_object malloc_ok) blk = blk.
Proof.
  intros Ha. induction l as [|o l IH]; [done|].
  rewrite object_iterate_cons.
  by rewrite (over_heap_step_aborted o blk _ (proj2 (do_object_step o blk)) Ha).
Qed.

Lemma over_heap_step_store o (blk blk' : IterateOverHeapObjectClosure A) :
  over_heap_step o blk blk' ->
  reachable (_tag_map blk) -> reachable (_tag_map blk').
Proof.
  intros Hs Hr. destruct Hs as [|blk' _ _ _ _ _ _ Ht|blk' w r _ _ _ _ _ _ Ht];
    [done| |]; rewrite Ht; (eapply rtc_r; [exact Hr|apply step_CallbackWrapper]).
Qed.

(** X19: the callback of [iterate_over_heap] is only invoked for objects
    of the heap that are visible, are instances of the class when one is
    given, and whose tag agrees with the object filter; it is given the
    size of the object. *)
Theorem iterate_over_heap_filters object_filter klass cb (user_data : A) tm c
    call :
  call ∈ calls (iterate_over_heap malloc_ok object_filter klass cb user_data
                  tm c).1 ->
  call_object call ∈ iterated_spaces
  /\ visible_oop (call_object call) = true
  /\ (forall k, klass = Some k -> is_a (call_object call) k = true)
  /\ (object_filter = JVMTI_HEAP_OBJECT_TAGGED -> call_tag call <> 0)
  /\ (object_filter = JVMTI_HEAP_OBJECT_UNTAGGED -> call_tag call = 0)
  /\ call_size call
     = obj_size_in_bytes (klassOop_if_java_lang_Class (call_object call)).
Proof.
  rewrite iterate_over_heap_closure.
  set (blk0 := IterateOverHeapObjectClosure_new tm klass object_filter cb
                 user_data).
  set (Q := fun call : heap_object_call =>
    call_object call ∈ iterated_spaces
    /\ visible_oop (call_object call) = true
    /\ (forall k, klass = Some k -> is_a (call_object call) k = true)
    /\ (object_filter = JVMTI_HEAP_OBJECT_TAGGED -> call_tag call <> 0)
    /\ (object_filter = JVMTI_HEAP_OBJECT_UNTAGGED -> call_tag call = 0)
    /\ call_size call
       = obj_size_in_bytes (klassOop_if_java_lang_Class (call_object call))).
  assert (G : same_request blk0
                (object_iterate iterated_spaces (do_object malloc_ok) blk0)
              /\ forall call,
                   call ∈ calls (object_iterate iterated_spaces
                                   (do_object malloc_ok) blk0) -> Q call).
  { apply (object_iterate_keeps
             (fun blk => same_request blk0 blk
                         /\ forall call, call ∈ calls blk -> Q call)).
    - intros o blk Ho [(Hk & Hf & Hcb) Hcalls].
      destruct (do_object_step o blk) as [(Hk' & Hf' & Hcb') Hstep].
      split; [split; [congruence|split; congruence]|].
      destruct Hstep as [|blk' _ _ _ _ Hc _ _|blk' w r _ Hsel Hflt _ Hc _ _];
        [done|by rewrite Hc|].
      rewrite Hc. intros call' [->|Hin]%elem_of_cons; [|by apply Hcalls].
      unfold selected in Hsel. apply andb_true_iff in Hsel as [Hv Hi].
      rewrite Hk in Hi. rewrite Hf in Hflt. cbn in Hi.
      split; [done|]. split; [done|]. split; [by intros k ->|].
      change (call_tag _) with (_obj_tag w).
      change (_object_filter blk0) with object_filter in Hflt.
      destruct (decide (_obj_tag w <> 0)) as [Ht|Ht].
      + split; [done|]. split; [congruence|done].
      + apply dec_stable in Ht. split; [congruence|]. split; [done|done].
    - split; [done|]. cbn. intros call' Hin. by apply elem_of_nil in Hin. }
  intros Hin. by apply G.
Qed.

Lemma over_heap_each_object klass cb l (blk : IterateOverHeapObjectClosure A) :
  (forall class_tag size tag a,
     (cb class_tag size tag a).1.1 <> JVMTI_ITERATION_ABORT) ->
  _klass blk = klass -> _object_filter blk = JVMTI_HEAP_OBJECT_EITHER ->
  _heap_object_callback blk = cb ->
  _iteration_aborted blk = false ->
  call_object <$> calls (object_iterate l (do_object malloc_ok) blk)
  = reverse (filter (fun o => selected klass o = true) l)
    ++ (call_object <$> calls blk).
Proof.
  intros Hcb. revert blk.
  induction l as [|o l IH]; intros blk Hk Hf Hc Ha; [done|].
  rewrite object_iterate_cons.
  destruct (do_object_step o blk) as [(Hk' & Hf' & Hc') Hstep].
  destruct Hstep as [[?|Hsel]|blk' _ _ Hflt _ _ _ _|blk' w r _ Hsel _ Ha' Hcs _ _].
  - congruence.
  - rewrite IH by done. rewrite filter_cons_False; [done|].
    rewrite <- Hk, Hsel. done.
  - rewrite Hf in Hflt. by destruct (decide _).
  - rewrite IH; [| congruence..|].
    + rewrite Hcs, filter_cons_True by (by rewrite <- Hk).
      rewrite reverse_cons, <- app_assoc. done.
    + rewrite Ha'. apply bool_decide_eq_false. subst r. rewrite Hc.
      apply Hcb.
Qed.

(** X20: when the callback never asks to abort and tagged and untagged
    objects are both wanted, [iterate_over_heap] invokes the callback once
    for every visible object of the heap that is an instance of the class,
    in the order of the heap. *)
Theorem iterate_over_heap_visits_each_object klass cb (user_data : A) tm c :
  (forall class_tag size tag a,
     (cb class_tag size tag a).1.1 <> JVMTI_ITERATION_ABORT) ->
  call_object
    <$> reverse (calls (iterate_over_heap malloc_ok JVMTI_HEAP_OBJECT_EITHER
                          klass cb user_data tm c).1)
  = filter (fun o => selected klass o = true) iterated_spaces.
Proof.
  intros Hcb. rewrite iterate_over_heap_closure.
  rewrite fmap_reverse.
  rewrite (over_heap_each_object klass cb) by done.
  cbn. by rewrite app_nil_r, reverse_involutive.
Qed.

(** X21: once the callback has asked to abort, [iterate_over_heap] does
    nothing more: the closure at the end, with its tag map, the agent's
    data and the calls made, is the one left by the objects seen up to
    then. *)
Theorem iterate_over_heap_stops_at_abort object_filter klass cb
    (user_data : A) tm c seen rest :
  iterated_spaces = seen ++ rest ->
  _iteration_aborted
    (object_iterate seen (do_object malloc_ok)
       (IterateOverHeapObjectClosure_new tm klass object_filter cb user_data))
  = true ->
  (iterate_over_heap malloc_ok object_filter klass cb user_data tm c).1
  = object_iterate seen (do_object malloc_ok)
      (IterateOverHeapObjectClosure_new tm klass object_filter cb user_data).
Proof.
  intros Hsp Ha. rewrite iterate_over_heap_closure, Hsp, object_iterate_app.
  by apply object_iterate_aborted.
Qed.

(** X22: [iterate_over_heap] leaves the store one that the operations of
    the store can reach, and so well-formed. *)
Theorem iterate_over_heap_keeps_store_reachable object_filter klass cb
    (user_data : A) tm c :
  reachable tm ->
  let tm' :=
    _tag_map (iterate_over_heap malloc_ok object_filter klass cb user_data
                tm c).1 in
  reachable tm' /\ well_formed (entries (_hashmap tm')).
Proof.
  intros Hr. cbn zeta. rewrite iterate_over_heap_closure.
  assert (G : reachable
                (_tag_map
                   (object_iterate iterated_spaces (do_object malloc_ok)
                      (IterateOverHeapObjectClosure_new tm klass object_filter
                         cb user_data)))).
  { apply (object_iterate_keeps (fun blk => reachable (_tag_map blk)));
      [|done].
    intros o blk _. apply (over_heap_step_store o).
    apply (proj2 (do_object_step o blk)). }
  split; [done|]. apply wf_contents. by apply reachable_wf.
Qed.

Lemma over_heap_tags klass cb t l (blk : IterateOverHeapObjectClosure A) :
  (forall class_tag size tag a,
     (cb class_tag size tag a).1.1 <> JVMTI_ITERATION_ABORT
     /\ (cb class_tag size tag a).1.2 = t) ->
  _klass blk = klass -> _object_filter blk = JVMTI_HEAP_OBJECT_EITHER ->
  _heap_object_callback blk = cb ->
  _iteration_aborted blk = false ->
  wf (_hashmap (_tag_map blk)) ->
  forall o,
    selected klass o = true ->
    o ∈ l \/ get_tag (_tag_map blk) o = t ->
    get_tag (_tag_map (object_iterate l (do_object malloc_ok) blk)) o = t.
Proof.
  intros Hcb. revert blk.
  induction l as [|o' l IH]; intros blk Hk Hf Hc Ha Hwf o Hsel Ho.
  { destruct Ho as [Ho|Ho]; [by apply elem_of_nil in Ho|done]. }
  rewrite object_iterate_cons.
  destruct (do_object_step o' blk) as [(Hk' & Hf' & Hc') Hstep].
  destruct Hstep as [[?|Hsel']|blk' _ _ Hflt _ _ _ _|blk' w r _ Hsel' _ Ha' _ _ Ht].
  - congruence.
  - apply IH; try done. destruct Ho as [[->|Ho]%elem_of_cons|Ho]; auto.
    congruence.
  - rewrite Hf in Hflt. by destruct (decide _).
  - destruct (CallbackWrapper_delete_spec (malloc_ok (mallocs blk))
                (_tag_map blk) o' r.1.2 Hwf) as [Hwf' Hfind].
    fold w in Hwf', Hfind. rewrite <- Ht in Hwf', Hfind.
    assert (Hr : r.1.1 <> JVMTI_ITERATION_ABORT /\ r.1.2 = t)
      by (subst r; rewrite Hc; apply Hcb).
    destruct Hr as [Hr1 Hr2].
    apply IH; try congruence.
    { rewrite Ha'. by apply bool_decide_eq_false. }
    unfold get_tag.
    rewrite (tag_for_find_after _ _ _ _ _ (Hfind _)).
    destruct (decide _) as [|Hne]; [by right|].
    destruct Ho as [[->|Ho]%elem_of_cons|Ho]; [done|by left|by right].
Qed.

(** X23: an agent that tags through [iterate_over_heap]: when the
    callback never asks to abort and always leaves the tag [t], then
    after the iteration every visible object of the heap that is an
    instance of the class has the tag [t] (none, when [t] is 0). *)
Theorem iterate_over_heap_tags_selected_objects klass cb (user_data : A) tm c
    t o :
  reachable tm ->
  (forall class_tag size tag a,
     (cb class_tag size tag a).1.1 <> JVMTI_ITERATION_ABORT
     /\ (cb class_tag size tag a).1.2 = t) ->
  o ∈ iterated_spaces ->
  selected klass o = true ->
  get_tag
    (_tag_map (iterate_over_heap malloc_ok JVMTI_HEAP_OBJECT_EITHER klass cb
                 user_data tm c).1) o
  = t.
Proof.
  intros Hr Hcb Ho Hsel. rewrite iterate_over_heap_closure.
  apply (over_heap_tags klass cb t); try done; [|by left].
  by apply reachable_wf.
Qed.

End IterateOverHeapFacts.
End IterateOverHeapFacts.

Module IterateThroughHeapFacts.
Import HashmapFacts TagMapFacts StoreFacts HeapIterateFacts.
Import Hashmap TagMap HeapIterate IterateThroughHeap.
Section IterateThroughHeapFacts.
Context `{!Collaborators} `{!HeapModel}.

Variable A : Type.
Variable malloc_ok : nat -> bool.

(** The object a call is about, and the class tag it was given. *)
Definition reported_object (c : heap_callback_call) : oop :=
  match c with
  | heap_iteration_call obj _ _ _ _ => obj
  | primitive_field_call _ _ obj _ _ _ _ => obj
  | array_primitive_value_call obj _ _ _ _ _ _ => obj
  | string_primitive_value_call obj _ _ _ _ _ => obj
  end.

Definition reported_class_tag (c : heap_callback_call) : jlong :=
  match c with
  | heap_iteration_call _ class_tag _ _ _ => class_tag
  | primitive_field_call _ _ _ class_tag _ _ _ => class_tag
  | array_primitive_value_call _ class_tag _ _ _ _ _ => class_tag
  | string_primitive_value_call _ class_tag _ _ _ _ => class_tag
  end.

Definition same_request (blk blk' : IterateThroughHeapObjectClosure A)
  : Prop :=
  _klass blk' = _klass blk
  /\ _heap_filter blk' = _heap_filter blk
  /\ _callbacks blk' = _callbacks blk.

(** The closure after some callbacks: the tag map is untouched, and the
    calls made satisfy [P]. *)
Definition extends (P : heap_callback_call -> Prop)
    (blk blk' : IterateThroughHeapObjectClosure A) : Prop :=
  same_request blk blk'
  /\ _tag_map blk' = _tag_map blk
  /\ mallocs blk' = mallocs blk
  /\ exists new, calls blk' = new ++ calls blk /\ Forall P new.

(** The wrapper after some callbacks: only the tag slot was written. *)
Definition same_slot (w w' : CallbackWrapper) : Prop :=
  exists t, w' = write_obj_tag t w.

Lemma same_slot_refl w : same_slot w w.
Proof. exists (_obj_tag w). by destruct w. Qed.

Lemma same_slot_trans w1 w2 w3 :
  same_slot w1 w2 -> same_slot w2 w3 -> same_slot w1 w3.
Proof. intros [t1 ->] [t2 ->]. by exists t2. Qed.

Lemma same_slot_write t w : same_slot w (write_obj_tag t w).
Proof. by exists t. Qed.

Lemma extends_refl P blk : extends P blk blk.
Proof. split; [done|]. do 2 (split; [done|]). by exists []. Qed.

Lemma extends_trans P blk1 blk2 blk3 :
  extends P blk1 blk2 -> extends P blk2 blk3 -> extends P blk1 blk3.
Proof.
  intros ((Hk & Hf & Hc) & Ht & Hm & new & Hn & HP)
         ((Hk' & Hf' & Hc') & Ht' & Hm' & new' & Hn' & HP').
  split; [split; [congruence|split; congruence]|].
  do 2 (split; [congruence|]).
  exists (new' ++ new). split; [by rewrite Hn', Hn, app_assoc|].
  by apply Forall_app.
Qed.

Lemma extends_impl (P Q : heap_callback_call -> Prop) blk blk' :
  (forall c, P c -> Q c) -> extends P blk blk' -> extends Q blk blk'.
Proof.
  intros HPQ (Hr & Ht & Hm & new & Hn & HP).
  split; [done|]. do 2 (split; [done|]). exists new. split; [done|].
  by eapply Forall_impl.
Qed.

Lemma extends_called P c a blk : P c -> extends P blk (called c a blk).
Proof.
  intros Hc. split; [done|]. do 2 (split; [done|]). exists [c].
  split; [done|]. by apply Forall_singleton.
Qed.

Lemma check_flags_for_abort_extends P flags blk :
  extends P blk (check_flags_for_abort flags blk).2.
Proof.
  unfold check_flags_for_abort. cbn.
  destruct (flag flags JVMTI_VISIT_ABORT); [|apply extends_refl].
  split; [done|]. do 2 (split; [done|]). by exists [].
Qed.

(** The calls that may be made for [obj] with the wrapper [w]: the
    callback of the object comes first, and is given the tag that the
    wrapper holds then. *)
Definition call_for (obj : oop) (w : CallbackWrapper)
    (c : heap_callback_call) : Prop :=
  reported_object c = obj
  /\ reported_class_tag c = _klass_tag w
  /\ match c with
     | heap_iteration_call _ _ size tag len =>
         tag = _obj_tag w /\ size = _obj_size w
         /\ len = (if is_array obj then array_length obj else -1)
     | primitive_field_call ref_kind _ _ _ _ _ value_type =>
         is_instance obj = true
         /\ Walker.is_primitive_field_type value_type = true
         /\ ref_kind = (if decide (klass obj = Class_klass)
                        then JVMTI_HEAP_REFERENCE_STATIC_FIELD
                        else JVMTI_HEAP_REFERENCE_FIELD)
     | array_primitive_value_call _ _ _ _ _ _ _ =>
         is_array obj = true /\ is_typeArray obj = true
     | string_primitive_value_call _ _ _ _ _ _ =>
         is_array obj = false /\ klass obj = String_klass
     end.

Definition later_call (c : heap_callback_call) : Prop :=
  match c with heap_iteration_call _ _ _ _ _ => False | _ => True end.

Lemma call_for_same_slot obj w w' c :
  same_slot w w' -> later_call c -> call_for obj w' c -> call_for obj w c.
Proof.
  intros [t ->] Hk (Ho & Hc & Hkind). split; [done|]. split; [done|].
  by destruct c.
Qed.

Lemma primitive_fields_spec ref_kind cb obj addr fields w blk :
  is_instance obj = true ->
  ref_kind = (if decide (klass obj = Class_klass)
              then JVMTI_HEAP_REFERENCE_STATIC_FIELD
              else JVMTI_HEAP_REFERENCE_FIELD) ->
  same_slot w (primitive_fields ref_kind cb obj addr fields w blk).1.2
  /\ extends
       (fun c => later_call c /\ call_for obj w c)
       blk (primitive_fields (A:=A) ref_kind cb obj addr fields w blk).2.
Proof.
  intros Hi Hk. revert w blk.
  induction fields as [|field fields IH]; intros w blk; cbn.
  { split; [apply same_slot_refl|apply extends_refl]. }
  destruct (Walker.is_primitive_field_type (field_type field)) eqn:Ep; cbn;
    [|apply IH].
  destruct (cb _ _ _ _ _ _ _) as [[res tag] a].
  set (c := primitive_field_call _ _ _ _ _ _ _).
  assert (Hc : extends (fun c => later_call c /\ call_for obj w c)
                 blk (called c a blk)).
  { apply extends_called. split; [done|]. split; [done|]. split; [done|].
    cbn. by rewrite Hi, Ep. }
  destruct (flag res JVMTI_VISIT_ABORT); cbn;
    [split; [apply same_slot_write|exact Hc]|].
  destruct (IH (write_obj_tag tag w) (called c a blk)) as [Hs He].
  split; [eapply same_slot_trans; [apply same_slot_write|exact Hs]|].
  eapply extends_trans; [exact Hc|].
  eapply extends_impl; [|exact He].
  intros c' [Hk' Hc']. split; [done|].
  apply (call_for_same_slot obj w (write_obj_tag tag w));
    [apply same_slot_write|done|done].
Qed.

Lemma later_calls_for obj w w' blk blk' :
  same_slot w w' ->
  extends (fun c => later_call c /\ call_for obj w' c) blk blk' ->
  extends (call_for obj w) blk blk'.
Proof.
  intros Hs. apply extends_impl. intros c [Hl Hc].
  by apply (call_for_same_slot obj w w').
Qed.

Lemma invoke_primitive_field_callback_for_static_fields_spec obj cb w blk :
  is_instance obj = true -> klass obj = Class_klass ->
  let r :=
    invoke_primitive_field_callback_for_static_fields (A:=A) obj cb w blk in
  same_slot w r.1.2
  /\ extends (fun c => later_call c /\ call_for obj w c) blk r.2.
Proof.
  intros Hi Hk. unfold invoke_primitive_field_callback_for_static_fields.
  cbn zeta.
  destruct (java_lang_Class_is_primitive obj);
    [split; [apply same_slot_refl|apply extends_refl]|].
  destruct (klass_oop_is_instance _); cbn [negb];
    [|split; [apply same_slot_refl|apply extends_refl]].
  destruct (is_linked _); cbn [negb];
    [|split; [apply same_slot_refl|apply extends_refl]].
  apply primitive_fields_spec; [done|]. by rewrite decide_True.
Qed.

Lemma invoke_primitive_field_callback_for_instance_fields_spec obj cb c w
    blk :
  is_instance obj = true -> klass obj <> Class_klass ->
  let r :=
    invoke_primitive_field_callback_for_instance_fields (A:=A) obj cb c w
      blk in
  same_slot w r.1.1.2
  /\ extends (fun c => later_call c /\ call_for obj w c) blk r.1.2
  /\ (WalkerFacts.cache_inv c -> WalkerFacts.cache_inv r.2).
Proof.
  intros Hi Hk. unfold invoke_primitive_field_callback_for_instance_fields.
  cbn zeta.
  pose proof (WalkerFacts.get_map_of_instance_fields_inv obj c) as Hc.
  destruct (Walker.get_map_of_instance_fields obj c) as [fields c1].
  destruct (primitive_fields_spec JVMTI_HEAP_REFERENCE_FIELD cb obj obj fields
              w blk Hi) as [Hs He]; [by rewrite decide_False|].
  cbn. destruct (primitive_fields _ _ _ _ _ _ _) as [[res w1] blk1].
  done.
Qed.

Lemma invoke_string_value_callback_spec cb str w blk :
  is_array str = false -> klass str = String_klass ->
  let r := invoke_string_value_callback (A:=A) cb str w blk in
  same_slot w r.1.2
  /\ extends (fun c => later_call c /\ call_for str w c) blk r.2.
Proof.
  intros Ha Hk. unfold invoke_string_value_callback. cbn zeta.
  destruct (cb _ _ _ _ _ _) as [[res tag] a]. cbn.
  split; [apply same_slot_write|]. by apply extends_called.
Qed.

Lemma invoke_array_primitive_value_callback_spec cb obj w blk :
  is_array obj = true -> is_typeArray obj = true ->
  let r := invoke_array_primitive_value_callback (A:=A) cb obj w blk in
  same_slot w r.1.2
  /\ extends (fun c => later_call c /\ call_for obj w c) blk r.2.
Proof.
  intros Ha Hk. unfold invoke_array_primitive_value_callback. cbn zeta.
  destruct (cb _ _ _ _ _ _ _) as [[res tag] a]. cbn.
  split; [apply same_slot_write|]. by apply extends_called.
Qed.

(** The outermost scrutinee of the goal gets a name. *)
Ltac stage name :=
  match goal with
  | |- context [match ?x with _ => _ end] => set (name := x)
  end.

Ltac after_flags P :=
  match goal with
  | |- context [check_flags_for_abort ?r ?b] =>
      let He := fresh "He" in
      pose proof (check_flags_for_abort_extends P r b) as He;
      destruct (check_flags_for_abort r b) as [? ?]; cbn in He |- *
  end.

(** The callbacks of one object: the tag slot of the wrapper is written,
    the cache keeps its invariant, and the calls are for the object. *)
Lemma object_callbacks_spec obj w blk (c : Walker.FieldMapCache) :
  let r := object_callbacks obj w blk c in
  same_slot w r.1.1
  /\ extends (call_for obj w) blk r.1.2
  /\ (WalkerFacts.cache_inv c -> WalkerFacts.cache_inv r.2).
Proof.
  unfold object_callbacks. cbn zeta.
  stage s1.
  assert (H1 : same_slot w s1.1.2 /\ extends (call_for obj w) blk s1.2).
  { subst s1. destruct (heap_iteration_callback _) as [cb|];
      [|split; [apply same_slot_refl|apply extends_refl]].
    destruct (cb _ _ _ _ _) as [[res tag] a].
    after_flags (call_for obj w).
    split; [apply same_slot_write|].
    eapply extends_trans; [|exact He]. by apply extends_called. }
  clearbody s1. destruct s1 as [[ab1 w1] blk1]. cbn in H1.
  destruct H1 as [Hs1 He1]. destruct ab1; [done|].
  stage s2.
  assert (H2 : same_slot w1 s2.1.1.2
               /\ extends (fun c => later_call c /\ call_for obj w1 c) blk1
                    s2.1.2
               /\ (WalkerFacts.cache_inv c -> WalkerFacts.cache_inv s2.2)).
  { subst s2. destruct (primitive_field_callback _) as [cb|];
      [|split; [apply same_slot_refl|split; [apply extends_refl|done]]].
    destruct (is_instance obj) eqn:Ei;
      [|split; [apply same_slot_refl|split; [apply extends_refl|done]]].
    destruct (decide (klass obj = Class_klass)) as [Ek|Ek].
    - destruct (invoke_primitive_field_callback_for_static_fields_spec obj cb
                  w1 blk1 Ei Ek) as [Hs He].
      destruct (invoke_primitive_field_callback_for_static_fields _ _ _ _)
        as [[res w2] blk2].
      after_flags (fun c => later_call c /\ call_for obj w1 c).
      split; [done|]. split; [|done]. by eapply extends_trans.
    - destruct (invoke_primitive_field_callback_for_instance_fields_spec obj
                  cb c w1 blk1 Ei Ek) as (Hs & He & Hc).
      destruct (invoke_primitive_field_callback_for_instance_fields _ _ _ _ _)
        as [[[res w2] blk2] c2].
      after_flags (fun c => later_call c /\ call_for obj w1 c).
      split; [done|]. split; [|done]. by eapply extends_trans. }
  clearbody s2. destruct s2 as [[[ab2 w2] blk2] c2]. cbn in H2.
  destruct H2 as (Hs2 & He2 & Hc2).
  assert (Hs2' : same_slot w w2) by (by eapply same_slot_trans).
  assert (He2' : extends (call_for obj w) blk blk2).
  { eapply extends_trans; [exact He1|].
    apply (later_calls_for obj w w1); [exact Hs1|exact He2]. }
  destruct ab2; [done|].
  stage s3.
  assert (H3 : same_slot w2 s3.1.2
               /\ extends (fun c => later_call c /\ call_for obj w2 c) blk2
                    s3.2).
  { subst s3. destruct (string_primitive_value_callback _) as [cb|];
      [|split; [apply same_slot_refl|apply extends_refl]].
    destruct (is_array obj) eqn:Ea; cbn [negb andb];
      [split; [apply same_slot_refl|apply extends_refl]|].
    destruct (bool_decide (klass obj = String_klass)) eqn:Ek;
      [|split; [apply same_slot_refl|apply extends_refl]].
    apply bool_decide_eq_true in Ek.
    destruct (invoke_string_value_callback_spec cb obj w2 blk2 Ea Ek)
      as [Hs He].
    destruct (invoke_string_value_callback _ _ _ _) as [[res w3] blk3].
    after_flags (fun c => later_call c /\ call_for obj w2 c).
    split; [done|]. by eapply extends_trans. }
  clearbody s3. destruct s3 as [[ab3 w3] blk3]. cbn in H3.
  destruct H3 as (Hs3 & He3).
  assert (Hs3' : same_slot w w3) by (by eapply same_slot_trans).
  assert (He3' : extends (call_for obj w) blk blk3).
  { eapply extends_trans; [exact He2'|].
    apply (later_calls_for obj w w2); [exact Hs2'|exact He3]. }
  destruct ab3; [done|].
  destruct (array_primitive_value_callback _) as [cb|]; [|done].
  destruct (is_array obj) eqn:Ea; cbn [andb]; [|done].
  destruct (is_typeArray obj) eqn:Et; [|done].
  destruct (invoke_array_primitive_value_callback_spec cb obj w3 blk3 Ea Et)
    as [Hs He].
  destruct (invoke_array_primitive_value_callback _ _ _ _) as [[res w4] blk4].
  after_flags (fun c => later_call c /\ call_for obj w3 c).
  split; [by eapply same_slot_trans|]. split; [|done].
  eapply extends_trans; [exact He3'|].
  apply (later_calls_for obj w w3); [exact Hs3'|].
  by eapply extends_trans.
Qed.

(** What [iterate_through_heap] may call a callback for: an object that
    is visible and passes the class filter, with a class tag that passes
    the heap filter; the callback of the object is given a tag that
    passes it too. *)
Definition permitted (klass_filter : option oop) (heap_filter : Z)
    (c : heap_callback_call) : Prop :=
  let obj := reported_object c in
  visible_oop obj = true
  /\ Walker.is_filtered_by_klass_filter obj klass_filter = false
  /\ (if decide (reported_class_tag c <> 0)
      then flag heap_filter JVMTI_HEAP_FILTER_CLASS_TAGGED
      else flag heap_filter JVMTI_HEAP_FILTER_CLASS_UNTAGGED) = false
  /\ match c with
     | heap_iteration_call _ class_tag size tag len =>
         Walker.is_filtered_by_heap_filter tag class_tag heap_filter = false
         /\ size = obj_size_in_bytes (klassOop_if_java_lang_Class obj)
         /\ len = (if is_array obj then array_length obj else -1)
     | primitive_field_call ref_kind _ _ _ _ _ value_type =>
         is_instance obj = true
         /\ Walker.is_primitive_field_type value_type = true
         /\ ref_kind = (if decide (klass obj = Class_klass)
                        then JVMTI_HEAP_REFERENCE_STATIC_FIELD
                        else JVMTI_HEAP_REFERENCE_FIELD)
     | array_primitive_value_call _ _ _ _ _ _ _ =>
         is_array obj = true /\ is_typeArray obj = true
     | string_primitive_value_call _ _ _ _ _ _ =>
         is_array obj = false /\ klass obj = String_klass
     end.

Lemma heap_filter_class_part tag class_tag heap_filter :
  Walker.is_filtered_by_heap_filter tag class_tag heap_filter = false ->
  (if decide (class_tag <> 0)
   then flag heap_filter JVMTI_HEAP_FILTER_CLASS_TAGGED
   else flag heap_filter JVMTI_HEAP_FILTER_CLASS_UNTAGGED) = false.
Proof.
  unfold Walker.is_filtered_by_heap_filter.
  by destruct (if decide (tag <> 0) then _ else _).
Qed.

Lemma call_for_permitted tm obj klass_filter heap_filter c :
  visible_oop obj = true ->
  Walker.is_filtered_by_klass_filter obj klass_filter = false ->
  Walker.is_filtered_by_heap_filter (_obj_tag (CallbackWrapper_new tm obj))
    (_klass_tag (CallbackWrapper_new tm obj)) heap_filter = false ->
  call_for obj (CallbackWrapper_new tm obj) c ->
  permitted klass_filter heap_filter c.
Proof.
  intros Hv Hk Hf (Ho & Hc & Hkind). unfold permitted. cbn zeta.
  rewrite Ho, Hc. split; [done|]. split; [done|].
  split; [by eapply heap_filter_class_part|].
  destruct c; cbn in Ho, Hc; subst; try done.
  destruct Hkind as (-> & -> & ->). done.
Qed.

(** One [do_object]. *)
Lemma through_do_object_spec obj blk (c : Walker.FieldMapCache) :
  let r := do_object malloc_ok obj (blk, c) in
  same_request blk r.1
  /\ (WalkerFacts.cache_inv c -> WalkerFacts.cache_inv r.2)
  /\ (reachable (_tag_map blk) -> reachable (_tag_map r.1))
  /\ exists new,
       calls r.1 = new ++ calls blk
       /\ Forall (fun c => reported_object c = obj
                           /\ permitted (_klass blk) (_heap_filter blk) c)
            new.
Proof.
  unfold do_object. cbn zeta.
  assert (Hsame : same_request blk blk /\
            (WalkerFacts.cache_inv c -> WalkerFacts.cache_inv c) /\
            (reachable (_tag_map blk) -> reachable (_tag_map blk)) /\
            exists new,
              calls blk = new ++ calls blk
              /\ Forall (fun c => reported_object c = obj
                           /\ permitted (_klass blk) (_heap_filter blk) c)
                   new).
  { split; [done|]. do 2 (split; [done|]). by exists []. }
  destruct (_iteration_aborted blk); [done|].
  destruct (visible_oop obj) eqn:Ev; cbn [negb]; [|done].
  destruct (Walker.is_filtered_by_klass_filter obj (_klass blk)) eqn:Ek;
    [done|].
  set (w := CallbackWrapper_new (_tag_map blk) obj).
  destruct (Walker.is_filtered_by_heap_filter _ _ _) eqn:Ef.
  - cbn. split; [done|]. split; [done|]. split.
    + intros Hr. eapply rtc_r; [exact Hr|].
      apply (step_CallbackWrapper _ obj (_obj_tag w)).
    + by exists [].
  - destruct (object_callbacks_spec obj w blk c)
      as ([t Hw] & (Hreq & Htm & Hm & new & Hn & Hnew) & Hc).
    destruct (object_callbacks obj w blk c) as [[w1 blk1] c1].
    cbn in Hw, Hreq, Htm, Hm, Hn, Hc |- *. subst w1.
    split; [done|]. split; [done|]. split.
    + intros Hr. rewrite Htm. eapply rtc_r; [exact Hr|].
      apply step_CallbackWrapper.
    + exists new. split; [done|]. eapply Forall_impl; [exact Hnew|].
      intros call Hcall. split; [apply Hcall|].
      by apply (call_for_permitted (_tag_map blk) obj).
Qed.

Lemma through_do_object_aborted obj blk (c : Walker.FieldMapCache) :
  _iteration_aborted blk = true ->
  do_object (A:=A) malloc_ok obj (blk, c) = (blk, c).
Proof. intros Ha. unfold do_object. by rewrite Ha. Qed.

Lemma through_object_iterate_aborted l blk (c : Walker.FieldMapCache) :
  _iteration_aborted blk = true ->
  object_iterate l (do_object (A:=A) malloc_ok) (blk, c) = (blk, c).
Proof.
  intros Ha. induction l as [|o l IH]; [done|].
  by rewrite object_iterate_cons, through_do_object_aborted.
Qed.

Definition through_heap_start (tm : JvmtiTagMap) (klass : option oop)
    (heap_filter : Z) (callbacks : jvmtiHeapCallbacks A) (user_data : A)
    (c : Walker.FieldMapCache)
  : IterateThroughHeapObjectClosure A * Walker.FieldMapCache :=
  (IterateThroughHeapObjectClosure_new tm klass heap_filter callbacks
     user_data,
   Walker.ClassFieldMapCacheMark_new c).

Lemma iterate_through_heap_closure heap_filter klass callbacks
    (user_data : A) tm c :
  (iterate_through_heap malloc_ok heap_filter klass callbacks user_data tm
     c).1
  = (object_iterate iterated_spaces (do_object malloc_ok)
       (through_heap_start tm klass heap_filter callbacks user_data c)).1.
Proof. unfold iterate_through_heap. by rewrite doit_iterated_spaces. Qed.

(** X24: the callbacks of [iterate_through_heap] are only invoked for
    objects of the heap that are visible and pass the class filter, with
    a class tag that passes the heap filter; the callback of an object is
    given a tag that passes the heap filter, the size of the object and
    its length if it is an array, -1 if not; the callback of primitive
    fields is invoked for primitive fields of instances, as static fields
    for a class; the one of strings for strings, the one of arrays for
    arrays of primitive values. *)
Theorem iterate_through_heap_filters heap_filter klass callbacks
    (user_data : A) tm c call :
  call ∈ calls (iterate_through_heap malloc_ok heap_filter klass callbacks
                  user_data tm c).1 ->
  reported_object call ∈ iterated_spaces
  /\ permitted klass heap_filter call.
Proof.
  rewrite iterate_through_heap_closure.
  set (st0 := through_heap_start tm klass heap_filter callbacks user_data c).
  assert (G : same_request st0.1
                (object_iterate iterated_spaces (do_object malloc_ok) st0).1
              /\ forall call,
                   call ∈ calls (object_iterate iterated_spaces
                                   (do_object malloc_ok) st0).1 ->
                   reported_object call ∈ iterated_spaces
                   /\ permitted klass heap_filter call).
  { apply (object_iterate_keeps
             (fun st => same_request st0.1 st.1
                        /\ forall call, call ∈ calls st.1 ->
                             reported_object call ∈ iterated_spaces
                             /\ permitted klass heap_filter call)).
    - intros o [blk c1] Ho [(Hk & Hf & Hcb) Hcalls].
      destruct (through_do_object_spec o blk c1)
        as ((Hk' & Hf' & Hcb') & _ & _ & new & Hn & Hnew).
      cbn [fst] in Hk, Hf, Hcb, Hcalls.
      split; [split; [etrans; [exact Hk'|exact Hk]
                     |split; [etrans; [exact Hf'|exact Hf]
                             |etrans; [exact Hcb'|exact Hcb]]]|].
      rewrite Hn. intros call' [Hin|Hin]%elem_of_app; [|by apply Hcalls].
      rewrite Forall_forall in Hnew. destruct (Hnew _ Hin) as [Hobj Hp].
      rewrite Hk, Hf in Hp. by rewrite Hobj.
    - split; [done|]. cbn. intros call' Hin. by apply elem_of_nil in Hin. }
  intros Hin. by apply G.
Qed.

(** X25: once a callback has asked to abort, [iterate_through_heap] does
    nothing more: the closure at the end, with its tag map, the agent's
    data and the calls made, is the one left by the objects seen up to
    then. *)
Theorem iterate_through_heap_stops_at_abort heap_filter klass callbacks
    (user_data : A) tm c seen rest :
  iterated_spaces = seen ++ rest ->
  _iteration_aborted
    (object_iterate seen (do_object malloc_ok)
       (through_heap_start tm klass heap_filter callbacks user_data c)).1
  = true ->
  (iterate_through_heap malloc_ok heap_filter klass callbacks user_data tm
     c).1
  = (object_iterate seen (do_object malloc_ok)
       (through_heap_start tm klass heap_filter callbacks user_data c)).1.
Proof.
  intros Hsp Ha. rewrite iterate_through_heap_closure, Hsp, object_iterate_app.
  destruct (object_iterate seen _ _) as [blk c1].
  by rewrite through_object_iterate_aborted.
Qed.

(** X26: [iterate_through_heap] leaves the store one that the operations
    of the store can reach, and so well-formed; the cache of field maps
    is inactive and empty when the iteration ends. *)
Theorem iterate_through_heap_keeps_store_and_cache heap_filter klass
    callbacks (user_data : A) tm c :
  reachable tm ->
  let r :=
    iterate_through_heap malloc_ok heap_filter klass callbacks user_data tm
      c in
  reachable (_tag_map r.1)
  /\ well_formed (entries (_hashmap (_tag_map r.1)))
  /\ Walker._is_active r.2 = false
  /\ Walker.cached_field_map_count r.2 = 0
  /\ (WalkerFacts.cache_inv c ->
      forall k, Walker.jvmti_cached_class_field_map r.2 k = None).
Proof.
  intros Hr. cbn zeta. unfold iterate_through_heap.
  rewrite doit_iterated_spaces. cbn [fst snd].
  set (st0 := (IterateThroughHeapObjectClosure_new tm klass heap_filter
                 callbacks user_data, Walker.ClassFieldMapCacheMark_new c)).
  assert (G : reachable
                (_tag_map
                   (object_iterate iterated_spaces (do_object malloc_ok)
                      st0).1)
              /\ (WalkerFacts.cache_inv c ->
                  WalkerFacts.cache_inv
                    (object_iterate iterated_spaces (do_object malloc_ok)
                       st0).2)).
  { apply (object_iterate_keeps
             (fun st => reachable (_tag_map st.1)
                        /\ (WalkerFacts.cache_inv c ->
                            WalkerFacts.cache_inv st.2))); [|done].
    intros o [blk c1] _ [Hre Hc].
    destruct (through_do_object_spec o blk c1) as (_ & Hc' & Hre' & _).
    split; [by apply Hre'|]. intros Hinv. apply Hc'. by apply Hc. }
  destruct G as [G1 G2].
  split; [done|]. split; [apply wf_contents; by apply reachable_wf|].
  destruct (WalkerFacts.ClassFieldMapCacheMark_delete_spec
              (object_iterate iterated_spaces (do_object malloc_ok) st0).2)
    as (H1 & _ & H3 & H4).
  split; [done|]. split; [done|]. intros Hc. apply H4. by apply G2.
Qed.

End IterateThroughHeapFacts.
End IterateThroughHeapFacts.

(** * Instances *)

Module Examples.
Import Hashmap TagMap Collector.
Import HashmapFacts TagMapFacts WeakOopsFacts StoreFacts CollectorFacts.

(** A 64-bit VM with the default load factor 4.0 and a free list of at
    most 4096 entries, and a heap without class mirrors. *)
Definition example_vm : Collaborators :=
  {| lp64 := true;
     load_threshold := fun size => 4 * size;
     max_free_entries := 4096;
     klass := fun _ => 1024;
     Class_klass := 2048;
     java_lang_Class_is_primitive := fun _ => false;
     java_lang_Class_as_klassOop := fun o => o;
     is_klass := fun _ => false;
     java_mirror := fun o => o;
     obj_size_in_bytes := fun _ => 16 |}.

#[local] Existing Instance example_vm.

(** The store with the object at address 8 tagged 5. *)
Definition one_tag : JvmtiTagMap := set_tag true 8 5 new_tag_map.

Lemma one_tag_reachable : reachable one_tag.
Proof. eapply rtc_l; [apply step_set_tag|apply rtc_refl]. Qed.

Lemma reachable_store_well_formed_witness :
  reachable one_tag /\
  entries (_hashmap one_tag) = [mkEntry 8 5] /\
  get_tag one_tag 8 <> 0 /\ 7 <> 0 /\
  well_formed (entries (_hashmap one_tag)) /\
  _table (_hashmap (set_tag true 8 7 one_tag)) =
    (fun c : chain => retag (klassOop_if_java_lang_Class 8) 7 <$> c)
      <$> _table (_hashmap one_tag) /\
  _entry_count (_hashmap (set_tag true 8 7 one_tag)) =
    _entry_count (_hashmap one_tag) /\
  entries (_hashmap (set_tag true 8 7 one_tag)) = [mkEntry 8 7].
Proof.
  assert (Htagged : get_tag one_tag 8 <> 0) by done.
  assert (H7 : 7 <> 0) by done.
  destruct (reachable_store_well_formed one_tag one_tag_reachable)
    as [Hwf Hin].
  destruct (Hin true 8 7 Htagged H7) as [Htable Hcount].
  split; [apply one_tag_reachable|]. split; [by vm_compute|].
  split; [exact Htagged|]. split; [exact H7|]. split; [exact Hwf|].
  split; [exact Htable|]. split; [exact Hcount|]. by vm_compute.
Defined.


Lemma one_tag_wf : wf (_hashmap one_tag).
Proof. apply reachable_wf, one_tag_reachable. Qed.

(** A collector that finds the object at 8 alive and moves it to 16. *)
Definition example_is_alive (o : oop) : bool := true.
Definition example_forward (o : oop) : oop := o + 8.

Lemma do_weak_oops_pass_witness :
  shaped (_hashmap one_tag) /\
  let h := _hashmap one_tag in
  let st := do_weak_oops_state example_is_alive example_forward true one_tag in
  let h' := _hashmap (sc_tag_map st) in
  entries h' ≡ₚ survivors example_is_alive example_forward (entries h) /\
  placed (_size h) (_table h') /\
  _entry_count h' = Z.of_nat (length (entries h')) /\
  sc_posted st = dead_tags example_is_alive (entries h) /\
  visited (sc_log st) = entries h /\
  readded (sc_log st) ≡ₚ
    delayed_entries example_is_alive example_forward (_size h) (_table h) /\
  sc_log st =
    (all_visits example_is_alive example_forward (_size h) (_table h)
       ++ readds_of (_size h) (readded (sc_log st))) /\
  (let sc := scan_all example_is_alive example_forward true
               (set_hashmap (set_resizing_enabled true h) one_tag) in
   sc_delayed_add sc ≡ₚ
     delayed_entries example_is_alive example_forward (_size h) (_table h) /\
   concat (sc_table sc) ++ sc_delayed_add sc ≡ₚ
     survivors example_is_alive example_forward (entries h)).
Proof.
  split; [apply wf_shaped, one_tag_wf|].
  apply (do_weak_oops_pass example_is_alive example_forward true one_tag).
  apply wf_shaped, one_tag_wf.
Defined.

(** With OBJECT_FREE disabled the pass removes the entry of a dead object
    and posts nothing. *)
Lemma do_weak_oops_posts_nothing_when_disabled :
  let st := do_weak_oops_state (fun _ => false) (fun o => o) false one_tag in
  entries (_hashmap one_tag) = [mkEntry 8 5] /\
  entries (_hashmap (sc_tag_map st)) = [] /\
  dead_tags (fun _ => false) (entries (_hashmap one_tag)) = [5] /\
  sc_posted st = [] /\
  sc_posted st <> dead_tags (fun _ => false) (entries (_hashmap one_tag)).
Proof. vm_compute. repeat split; discriminate. Qed.

Lemma CallbackWrapper_commit_witness :
  wf (_hashmap one_tag) /\
  let w := CallbackWrapper_new one_tag 8 in
  let tm' := CallbackWrapper_delete true (write_obj_tag 7 w) one_tag in
  _table (_hashmap tm') =
    (fun c : chain => retag (_o w) 7 <$> c) <$> _table (_hashmap one_tag) /\
  _entry_count (_hashmap tm') = _entry_count (_hashmap one_tag) /\
  _free_entries tm' = _free_entries one_tag.
Proof.
  split; [apply one_tag_wf|].
  apply (CallbackWrapper_commit true one_tag 8 7 one_tag_wf); vm_compute; discriminate.
Defined.

(** The default table, at its threshold of 4 * 4801 entries. *)
Definition at_threshold : JvmtiTagHashmap := crowded 4801 0 19204.

Lemma resize_policy_witness :
  wf at_threshold /\ find at_threshold 8 = None /\
  _resizing_enabled at_threshold = true /\
  _resize_threshold at_threshold < _entry_count at_threshold + 1 /\
  0 <= sizes_at (_size_index at_threshold + 1) /\
  _size (add true 8 (mkEntry 8 5) at_threshold) = 76831 /\
  _resizing_enabled (add false 8 (mkEntry 8 5) at_threshold) = false /\
  find (add false 8 (mkEntry 8 5) at_threshold) 8 = Some (mkEntry 8 5).
Proof.
  assert (wf at_threshold) as Hwf by (by apply crowded_wf).
  assert (find at_threshold 8 = None) as Hf by (by apply crowded_find).
  assert (_resize_threshold at_threshold < _entry_count at_threshold + 1) as Ht
    by (unfold at_threshold, crowded; simpl; lia).
  assert (0 <= sizes_at (_size_index at_threshold + 1)) as Hn by done.
  assert (5 <> 0) as H5 by done.
  destruct (resize_policy true 8 5 at_threshold Hwf Hf H5 eq_refl Ht Hn)
    as (_ & Hgrow & _).
  destruct (resize_policy false 8 5 at_threshold Hwf Hf H5 eq_refl Ht Hn)
    as ((Hfind & _) & _ & Hfail & _).
  destruct (Hgrow eq_refl) as (Hsize & _).
  destruct (Hfail eq_refl) as (_ & _ & Hoff).
  split; [exact Hwf|]. split; [exact Hf|]. split; [reflexivity|].
  split; [exact Ht|]. split; [exact Hn|]. split; [exact Hsize|].
  split; [exact Hoff|exact Hfind].
Defined.

(** The largest table, at its threshold: the insertion that takes the
    count over the threshold leaves the table at the size it has. *)
Definition at_last_size : JvmtiTagHashmap := crowded 78643219 10 314572876.

Lemma resize_policy_fails_at_last_size :
  wf at_last_size /\ find at_last_size 8 = None /\
  _resizing_enabled at_last_size = true /\
  _resize_threshold at_last_size < _entry_count at_last_size + 1 /\
  sizes_at (_size_index at_last_size + 1) = -1 /\
  _size (add true 8 (mkEntry 8 5) at_last_size) = _size at_last_size /\
  ~ (_size at_last_size < _size (add true 8 (mkEntry 8 5) at_last_size)).
Proof.
  assert (sizes_at (_size_index at_last_size + 1) = -1) as Hlast by done.
  assert (_size (add true 8 (mkEntry 8 5) at_last_size) = _size at_last_size)
    as Hsame.
  { apply add_at_last_size. rewrite Hlast. lia. }
  split; [by apply crowded_wf|].
  split; [by apply crowded_find|].
  split; [done|].
  split; [unfold at_last_size, crowded; cbn [_resize_threshold _entry_count
    load_threshold example_vm]; lia|].
  split; [done|]. split; [done|]. rewrite Hsame. lia.
Qed.


(** An environment for the examples: its [Deallocate] releases the block
    at the address it is given, if there is one. *)
Definition example_env : JvmtiEnv :=
  {| Deallocate := fun mem m =>
       {| blocks := delete mem (blocks m); cells := cells m |} |}.

#[local] Existing Instance example_env.

(** The variables of a caller of [get_objects_with_tags]: the count at
    1000, the two result pointers at 1008 and 1016; nothing allocated. *)
Definition caller_memory : memory :=
  {| blocks := ∅; cells := {[1000 := 0; 1008 := 0; 1016 := 0]} |}.

(** The tag 5 asked for three times: the object tagged 5 comes three
    times, and the count is 3. *)
Lemma get_objects_with_tags_three_times :
  let r := get_objects_with_tags (Some 2000) (Some 3000) one_tag [5; 5; 5]
             1000 1008 1016 caller_memory in
  r.1 = JVMTI_ERROR_NONE /\
  cells r.2 !! 1000 = Some 3 /\
  blocks r.2 !! 2000 = Some [8; 8; 8] /\
  blocks r.2 !! 3000 = Some [5; 5; 5].
Proof. vm_compute. done. Qed.

(** C6: the tag 5 asked for once, both results asked for, the first
    allocation giving the block at 2000 and the second one failing.
    [get_objects_with_tags] returns the error, and what it hands to
    [Deallocate] is 1008, the address of the caller's result variable, in
    a memory where the block at 2000 is allocated and filled and the
    variable holds its address: whatever [Deallocate] is, it is not asked
    to release the block. With a [Deallocate] that releases the block at
    the address it is given, as the one of the examples does, the block at
    2000 stays allocated after the call and the caller's variable still
    holds 2000. *)
Lemma get_objects_with_tags_keeps_object_buffer :
  (forall env : JvmtiEnv,
     @get_objects_with_tags _ env (Some 2000) None one_tag [5] 1000 1008 1016
       caller_memory
     = (JVMTI_ERROR_OUT_OF_MEMORY,
        @Deallocate env 1008
          {| blocks := {[2000 := [8]]};
             cells := <[1008 := 2000]> (cells caller_memory) |})) /\
  let r := get_objects_with_tags (Some 2000) None one_tag [5] 1000 1008 1016
             caller_memory in
  r.1 = JVMTI_ERROR_OUT_OF_MEMORY /\
  blocks caller_memory !! 2000 = None /\
  blocks r.2 !! 2000 = Some [8] /\
  cells r.2 !! 1008 = Some 2000 /\
  cells r.2 !! 1000 = Some 0.
Proof.
  split; [|vm_compute; done].
  intros env. unfold get_objects_with_tags.
  rewrite result_second_allocation_fails by done.
  reflexivity.
Qed.


(** ** The laws of the table, the store and the collector *)

Lemma add_then_find_witness :
  wf (_hashmap one_tag) /\ 7 <> 0 /\ find (_hashmap one_tag) 16 = None /\
  let h' := add true 16 (mkEntry 16 7) (_hashmap one_tag) in
  wf h' /\
  (forall key',
     find h' key'
     = if decide (key' = 16) then Some (mkEntry 16 7)
       else find (_hashmap one_tag) key') /\
  _entry_count h' = _entry_count (_hashmap one_tag) + 1.
Proof.
  split; [apply one_tag_wf|]. split; [done|]. split; [done|].
  apply (TableLaws.add_then_find true 16 7 (_hashmap one_tag) one_tag_wf);
    done.
Defined.

Lemma remove_then_find_witness :
  wf (_hashmap one_tag) /\
  (remove 8 (_hashmap one_tag)).1 = find (_hashmap one_tag) 8 /\
  wf (remove 8 (_hashmap one_tag)).2 /\
  (forall key',
     find (remove 8 (_hashmap one_tag)).2 key'
     = if decide (key' = 8) then None else find (_hashmap one_tag) key') /\
  _entry_count (remove 8 (_hashmap one_tag)).2
  = _entry_count (_hashmap one_tag)
    - match find (_hashmap one_tag) 8 with Some _ => 1 | None => 0 end /\
  (find (_hashmap one_tag) 8 = None ->
   (remove 8 (_hashmap one_tag)).2 = _hashmap one_tag).
Proof.
  split; [apply one_tag_wf|].
  apply (TableLaws.remove_then_find 8 (_hashmap one_tag) one_tag_wf).
Defined.

Lemma resize_keeps_lookups_witness :
  wf (_hashmap one_tag) /\
  let h' := resize true (_hashmap one_tag) in
  wf h' /\
  (forall key, find h' key = find (_hashmap one_tag) key) /\
  _entry_count h' = _entry_count (_hashmap one_tag) /\
  (_size h' = _size (_hashmap one_tag) \/
   true = true /\ 0 <= sizes_at (_size_index (_hashmap one_tag) + 1) /\
   _size h' = sizes_at (_size_index (_hashmap one_tag) + 1)).
Proof.
  split; [apply one_tag_wf|].
  apply (TableLaws.resize_keeps_lookups true (_hashmap one_tag) one_tag_wf).
Defined.

Lemma reachable_table_layout_witness :
  reachable one_tag /\
  let h := _hashmap one_tag in
  0 < _size h /\
  length (_table h) = Z.to_nat (_size h) /\
  sizes_at (_size_index h) = _size h /\
  (forall (i : nat) (c : chain) (e : JvmtiTagHashmapEntry),
     _table h !! i = Some c -> e ∈ c ->
     hash (_object e) (_size h) = Z.of_nat i) /\
  _entry_count h = Z.of_nat (length (entries h)).
Proof.
  split; [apply one_tag_reachable|].
  apply (TableLaws.reachable_table_layout one_tag one_tag_reachable).
Defined.

Lemma is_empty_iff_untagged_witness :
  reachable one_tag /\
  (is_empty one_tag = true <-> forall o, tag_for one_tag o = 0).
Proof.
  split; [apply one_tag_reachable|].
  apply (TableLaws.is_empty_iff_untagged one_tag one_tag_reachable).
Defined.

(** The store after the only tag was set and removed: the entry is on
    the free list. *)
Definition untagged_again : JvmtiTagMap := set_tag true 8 0 one_tag.

Lemma untagged_again_reachable : reachable untagged_again.
Proof. eapply rtc_r; [apply one_tag_reachable|apply step_set_tag]. Qed.

Lemma free_list_bounded_witness :
  reachable untagged_again /\
  _free_entries untagged_again = [mkEntry 8 5] /\
  _free_entries_count untagged_again
  = Z.of_nat (length (_free_entries untagged_again)) /\
  _free_entries_count untagged_again <= Z.max 0 max_free_entries.
Proof.
  split; [apply untagged_again_reachable|]. split; [done|].
  apply (TableLaws.free_list_bounded untagged_again untagged_again_reachable).
Defined.

Lemma example_moves_apart :
  moves_apart example_is_alive example_forward (entries (_hashmap one_tag)).
Proof.
  intros e e' _ _ _ _ Hf. unfold example_forward in Hf. lia.
Qed.

Lemma tags_follow_moved_objects_witness :
  wf (_hashmap one_tag) /\
  moves_apart example_is_alive example_forward (entries (_hashmap one_tag)) /\
  let tm' := (do_weak_oops example_is_alive example_forward true one_tag).1 in
  (forall o,
     tag_for one_tag o <> 0 -> example_is_alive o = true ->
     tag_for tm' (example_forward o) = tag_for one_tag o) /\
  (forall o',
     tag_for tm' o' <> 0 ->
     exists o, example_is_alive o = true /\ example_forward o = o'
               /\ tag_for one_tag o = tag_for tm' o').
Proof.
  split; [apply one_tag_wf|]. split; [apply example_moves_apart|].
  apply (TableLaws.tags_follow_moved_objects example_is_alive example_forward
           true one_tag one_tag_wf example_moves_apart).
Defined.

Lemma pass_without_deaths_or_moves_witness :
  wf (_hashmap one_tag) /\
  (forall e, e ∈ entries (_hashmap one_tag) ->
     example_is_alive (_object e) = true /\ (fun o : oop => o) (_object e) = _object e) /\
  let r := do_weak_oops example_is_alive (fun o => o) true one_tag in
  (forall o, tag_for r.1 o = tag_for one_tag o) /\ r.2 = [].
Proof.
  split; [apply one_tag_wf|]. split; [done|].
  apply (TableLaws.pass_without_deaths_or_moves example_is_alive (fun o => o)
           true one_tag one_tag_wf).
  done.
Defined.

Lemma class_tag_is_tag_of_class_mirror_witness :
  wf (_hashmap one_tag) /\
  klassOop_if_java_lang_Class 16 = 16 /\
  klassOop_if_java_lang_Class (java_mirror (klass 16)) = klass 16 /\
  _klass_tag
    (CallbackWrapper_new (set_tag true (java_mirror (klass 16)) 9 one_tag) 16)
  = 9.
Proof.
  split; [apply one_tag_wf|]. split; [done|]. split; [done|].
  apply (TableLaws.class_tag_is_tag_of_class_mirror true one_tag 16 9
           one_tag_wf); done.
Defined.

Lemma one_tag_in_range e :
  e ∈ entries (_hashmap one_tag) -> - 2 ^ 63 <= _tag e < 2 ^ 63.
Proof.
  intros He.
  assert (Hentries : entries (_hashmap one_tag) = [mkEntry 8 5])
    by (by vm_compute).
  rewrite Hentries in He. apply list_elem_of_singleton in He as ->. cbn. lia.
Qed.

Lemma get_objects_with_tags_results_witness :
  1008 <> NULL /\ 1016 <> NULL /\ NoDup [1000; 1008; 1016] /\ 2000 <> 3000 /\
  (forall e, e ∈ entries (_hashmap one_tag) -> - 2 ^ 63 <= _tag e < 2 ^ 63) /\
  let pairs := TableLaws.result_pairs [5; 7] (entries (_hashmap one_tag)) in
  let r := get_objects_with_tags (Some 2000) (Some 3000) one_tag [5; 7] 1000
             1008 1016 caller_memory in
  r.1 = JVMTI_ERROR_NONE /\
  cells r.2 !! 1000 = Some (Z.of_nat (length pairs)) /\
  cells r.2 !! 1008 = Some 2000 /\
  cells r.2 !! 1016 = Some 3000 /\
  blocks r.2 !! 2000 = Some pairs.*1 /\
  blocks r.2 !! 3000 = Some pairs.*2 /\
  Forall (fun pr : oop * jlong => pr.2 ∈ [5; 7]) pairs.
Proof.
  assert (Hnd : NoDup [1000; 1008; 1016]).
  { repeat (apply NoDup_cons; split;
              [rewrite ?elem_of_cons, ?elem_of_nil; intuition lia|]).
    apply NoDup_nil_2. }
  split; [done|]. split; [done|]. split; [exact Hnd|]. split; [done|].
  split; [apply one_tag_in_range|].
  apply (TableLaws.get_objects_with_tags_results 2000 3000 one_tag [5; 7] 1000
           1008 1016 caller_memory); [done|done|exact Hnd|done|].
  apply one_tag_in_range.
Defined.

Lemma get_objects_with_tags_allocation_failure_witness :
  1008 <> NULL /\ 1016 <> NULL /\
  let objects :=
    (TableLaws.result_pairs [5] (entries (_hashmap one_tag))).*1 in
  objects = [8] /\
  get_objects_with_tags None (Some 3000) one_tag [5] 1000 1008 1016
    caller_memory
  = (JVMTI_ERROR_OUT_OF_MEMORY, caller_memory) /\
  get_objects_with_tags (Some 2000) None one_tag [5] 1000 1008 1016
    caller_memory
  = (JVMTI_ERROR_OUT_OF_MEMORY,
     Deallocate 1008
       {| blocks := <[2000:=objects]> (blocks caller_memory);
          cells := <[1008:=2000]> (cells caller_memory) |}).
Proof.
  split; [done|]. split; [done|]. cbn zeta. split; [by vm_compute|].
  apply (TableLaws.get_objects_with_tags_allocation_failure 2000 (Some 3000)
           one_tag [5] 1000 1008 1016 caller_memory); done.
Defined.

End Examples.

(** ** A heap of three objects *)

Module WalkExamples.
Import Hashmap TagMap Walker.
Import HashmapFacts TagMapFacts StoreFacts WalkerFacts.

(** A 64-bit VM whose classes all have the mirror at 24; no object is a
    class mirror. *)
Definition walker_vm : Collaborators :=
  {| lp64 := true;
     load_threshold := fun size => 4 * size;
     max_free_entries := 4096;
     klass := fun _ => 1024;
     Class_klass := 2048;
     java_lang_Class_is_primitive := fun _ => false;
     java_lang_Class_as_klassOop := fun o => o;
     is_klass := fun _ => false;
     java_mirror := fun _ => 24;
     obj_size_in_bytes := fun _ => 16 |}.

#[local] Existing Instance walker_vm.

(** A thread, the object at 16, in a native frame with the JNI local
    handle of the object at 8. *)
Definition example_thread : JavaThread :=
  {| threadObj := 16;
     is_exiting := false;
     is_hidden_from_external_view := false;
     stack_items := [jni_locals 0 0 [8]] |}.

(** The objects at 8, 16 and 24, all instances with one reference field
    at offset 0 and one field of type int (73) at offset 8; the field of
    the object at 8 refers to the object at 16; the object at 8 is a JNI
    global. An object is marked when its mark word is 3. *)
Definition example_heap : HeapModel :=
  {| is_instance := fun _ => true;
     is_objArray := fun _ => false;
     is_typeArray := fun _ => false;
     is_array := fun _ => false;
     array_length := fun _ => 0;
     is_a := fun _ _ => true;
     visible_oop := fun _ => true;
     deleted_handle := 4;
     is_marked := fun m => m =? 3;
     must_be_preserved := fun _ m => negb (m =? 1);
     marked_prototype := 3;
     init_mark_of := fun _ => 1;
     UseBiasedLocking := false;
     UseSharedSpaces := false;
     heap_objects := [8; 16; 24];
     ro_space_objects := [];
     rw_space_objects := [];
     BiasedLocking_preserve_marks := fun _ => [];
     BiasedLocking_restore_marks := fun _ marks => marks;
     jni_global_oops := [8];
     system_dictionary_oops := [];
     monitor_oops := [];
     java_threads := [example_thread];
     universe_oops := [];
     code_cache_oops := [];
     thread_id := fun _ => 1;
     klass_oop_is_instance := fun _ => true;
     is_linked := fun _ => true;
     java_super := fun _ => 0;
     Object_klass := 1024;
     class_loader := fun _ => 0;
     protection_domain := fun _ => 0;
     signers := fun _ => 0;
     constants := fun _ => [];
     local_interfaces := fun _ => [];
     create_map_of_static_fields := fun _ => [];
     create_map_of_instance_fields := fun _ => [mkField 0 76 0; mkField 1 73 8];
     obj_field := fun o _ => if o =? 8 then 16 else 0;
     primitive_field := fun _ _ _ => 42;
     String_klass := 4096;
     string_chars := fun _ => [];
     systemObjArrayKlassObj := 0;
     obj_at := fun _ _ => 0;
     element_type := fun _ => 0;
     array_elements := fun _ => [] |}.

#[local] Existing Instance example_heap.

Definition example_univ : list oop := [8; 16; 24].

Lemma example_univ_closed : closed (fun o => o ∈ example_univ).
Proof.
  unfold example_univ. split; cbn.
  - intros _. rewrite !elem_of_cons. auto.
  - intros o Ho _. unfold klassOop_if_java_lang_Class. cbn.
    by rewrite decide_False.
  - intros o _. destruct (o =? 8); [|done]. intros _ _.
    rewrite !elem_of_cons. auto.
  - intros k field Hf. by apply elem_of_nil in Hf.
  - done.
  - done.
  - done.
  - done.
  - intros k s Hs. by apply elem_of_nil in Hs.
  - intros o Ho _ _. apply list_elem_of_singleton in Ho as ->.
    rewrite !elem_of_cons. auto.
  - intros t Ht _. apply list_elem_of_singleton in Ht as ->. cbn.
    rewrite !elem_of_cons. auto.
  - intros t depth method bci slot o Ht Hi.
    apply list_elem_of_singleton in Ht as ->.
    by apply list_elem_of_singleton in Hi.
  - intros t depth method handles o Ht Hi Ho _.
    apply list_elem_of_singleton in Ht as ->.
    apply list_elem_of_singleton in Hi. injection Hi as -> -> ->.
    apply list_elem_of_singleton in Ho as ->. rewrite !elem_of_cons. auto.
Qed.

Lemma example_BiasedLocking : BiasedLocking_contract.
Proof.
  split.
  - intros marks o m Hin. by apply elem_of_nil in Hin.
  - intros saved marks o. by left.
Qed.

(** The store with the object at 8 tagged 5. *)
Definition tagged_store : JvmtiTagMap := set_tag true 8 5 new_tag_map.

Lemma tagged_store_reachable : reachable tagged_store.
Proof. eapply rtc_l; [apply step_set_tag|apply rtc_refl]. Qed.

(** An agent that counts the calls of its callbacks. A basic walk whose
    object reference callback tags the object 7 and goes on. *)
Definition example_object_ref_callback : jvmtiObjectReferenceCallback nat :=
  fun _ _ _ _ _ _ a => (JVMTI_ITERATION_CONTINUE, 7, S a).

(** A stack reference callback that asks to abort. *)
Definition example_stack_ref_callback : jvmtiStackReferenceCallback nat :=
  fun _ _ _ tag _ _ _ _ a => (JVMTI_ITERATION_ABORT, tag, S a).

Definition example_basic : BasicHeapWalkContext nat :=
  {| heap_root_callback := None;
     stack_ref_callback := Some example_stack_ref_callback;
     object_ref_callback := Some example_object_ref_callback |}.

Definition example_op : VM_HeapWalkOperation nat :=
  VM_HeapWalkOperation_basic 8 example_basic.

Definition example_marks : oop -> Z := fun _ => 1.

Definition empty_cache : FieldMapCache :=
  {| _class_list := None;
     jvmti_cached_class_field_map := fun _ => None;
     _is_active := false |}.

Definition example_invoker : CallbackInvoker nat :=
  CallbackInvoker_initialize tagged_store 0%nat.

Lemma doit_restores_headers_and_cache_witness :
  is_marked marked_prototype = true /\
  (forall o, is_marked (init_mark_of o) = false) /\
  (forall o, o ∈ iterated_objects -> is_marked (example_marks o) = false) /\
  BiasedLocking_contract /\
  let st :=
    (doit (fun _ => true) 10 example_op example_marks empty_cache
       example_invoker).2 in
  (forall o,
     o ∈ iterated_objects -> o <> NULL ->
     is_marked (mark_of (marker st) o) = false
     /\ observably_identical o (example_marks o) (mark_of (marker st) o)
     /\ (must_be_preserved o (example_marks o) = true ->
         mark_of (marker st) o = example_marks o))
  /\ _saved_oop_stack (marker st) = []
  /\ _saved_mark_stack (marker st) = []
  /\ cached_field_map_count (cache st) = 0
  /\ _is_active (cache st) = false
  /\ (cache_inv empty_cache ->
      forall k, jvmti_cached_class_field_map (cache st) k = None).
Proof.
  split; [done|]. split; [done|]. split; [done|].
  split; [apply example_BiasedLocking|].
  apply (doit_restores_headers_and_cache nat (fun _ => true) 10 example_op
           example_marks empty_cache example_invoker);
    [done|done|done|apply example_BiasedLocking].
Defined.

Lemma basic_walk_caches_referrer_tag_witness :
  object_ref_callback example_basic = Some example_object_ref_callback /\
  let mk := ObjectMarker_init example_marks in
  let iv1 :=
    (invoke_basic_object_reference_callback (fun _ => true) mk example_basic
       JVMTI_REFERENCE_FIELD 8 16 0 example_invoker).2 in
  let iv2 :=
    (invoke_basic_object_reference_callback (fun _ => true) mk example_basic
       JVMTI_REFERENCE_CLASS 8 24 (-1) iv1).2 in
  let cached :=
    if decide (8 = 16)
    then written_tag nat example_object_ref_callback JVMTI_REFERENCE_FIELD 8
           16 0 example_invoker
    else basic_referrer_tag 8 example_invoker in
  _last_referrer iv1 = 8
  /\ _last_referrer_tag iv1 = cached
  /\ exists class_tag size tag,
       calls iv2
       = object_ref_call JVMTI_REFERENCE_CLASS 24 class_tag size tag cached
           (-1)
         :: calls iv1.
Proof.
  split; [done|].
  apply (basic_walk_caches_referrer_tag nat (fun _ => true)
           (ObjectMarker_init example_marks) (ObjectMarker_init example_marks)
           example_basic example_object_ref_callback JVMTI_REFERENCE_FIELD
           JVMTI_REFERENCE_CLASS 8 16 24 0 (-1) example_invoker).
  done.
Defined.

Lemma example_thread_native item :
  item ∈ stack_items example_thread ->
  exists depth method handles, item = jni_locals depth method handles.
Proof.
  intros Hi. apply list_elem_of_singleton in Hi as ->. by eexists _, _, _.
Qed.

Lemma jni_local_abort_does_not_stop_walk_witness :
  (forall item,
     item ∈ stack_items example_thread ->
     exists depth method handles, item = jni_locals depth method handles) /\
  (jni_local_roots (fun _ => true) (ObjectMarker_init example_marks)
     (op_context example_op) 0 1 0 0 [8] example_invoker).1 = false /\
  (collect_stack_roots_of (fun _ => true) example_op
     (ObjectMarker_init example_marks) example_thread example_invoker).1
  = true.
Proof.
  split; [apply example_thread_native|]. split; [done|].
  apply (jni_local_abort_does_not_stop_walk nat (fun _ => true) example_op
           (ObjectMarker_init example_marks) example_thread example_invoker).
  apply example_thread_native.
Defined.

Lemma field_map_cached_per_class_witness :
  klass 16 = klass 8 /\
  let r := get_map_of_instance_fields 8 empty_cache in
  get_map_of_instance_fields 16 r.2 = r
  /\ cached_field_map_count r.2
     = cached_field_map_count empty_cache
       + match jvmti_cached_class_field_map empty_cache (klass 8) with
         | Some _ => 0
         | None => 1
         end.
Proof.
  split; [done|].
  apply (field_map_cached_per_class 8 16 empty_cache). done.
Defined.

Lemma doit_ends_witness :
  is_marked marked_prototype = true /\
  closed (fun o => o ∈ example_univ) /\
  (_initial_object example_op <> NULL ->
   _initial_object example_op ∈ example_univ) /\
  Forall (fun o => o ∈ example_univ) (_visit_stack example_invoker) /\
  exists n,
    forall fuel,
      (n <= fuel)%nat ->
      doit (fun _ => true) fuel example_op example_marks empty_cache
        example_invoker
      = doit (fun _ => true) n example_op example_marks empty_cache
          example_invoker
      /\ (doit (fun _ => true) n example_op example_marks empty_cache
            example_invoker).1 <> walk_unfinished.
Proof.
  assert (Hinit : _initial_object example_op <> NULL ->
                  _initial_object example_op ∈ example_univ).
  { intros _. cbn. unfold example_univ. rewrite !elem_of_cons. auto. }
  split; [done|]. split; [apply example_univ_closed|].
  split; [exact Hinit|]. split; [apply Forall_nil_2|].
  apply (doit_ends nat (fun _ => true) example_univ example_op);
    [done|apply example_univ_closed|exact Hinit|apply Forall_nil_2].
Defined.

Lemma self_reference_caches_written_tag_witness :
  object_ref_callback example_basic = Some example_object_ref_callback /\
  basic_referrer_tag 8 example_invoker = 5 /\
  written_tag nat example_object_ref_callback JVMTI_REFERENCE_FIELD 8 8 0
    example_invoker = 7 /\
  let mk := ObjectMarker_init example_marks in
  let read_before := basic_referrer_tag 8 example_invoker in
  let written :=
    written_tag nat example_object_ref_callback JVMTI_REFERENCE_FIELD 8 8 0
      example_invoker in
  let iv1 :=
    (invoke_basic_object_reference_callback (fun _ => true) mk example_basic
       JVMTI_REFERENCE_FIELD 8 8 0 example_invoker).2 in
  let iv2 :=
    (invoke_basic_object_reference_callback (fun _ => true) mk example_basic
       JVMTI_REFERENCE_FIELD 8 16 1 iv1).2 in
  (exists class_tag size tag,
     calls iv1
     = object_ref_call JVMTI_REFERENCE_FIELD 8 class_tag size tag read_before
         0 :: calls example_invoker)
  /\ _last_referrer iv1 = 8
  /\ (8 = 8 ->
      _last_referrer_tag iv1 = written
      /\ exists class_tag size tag,
           calls iv2
           = object_ref_call JVMTI_REFERENCE_FIELD 16 class_tag size tag
               written 1 :: calls iv1)
  /\ (8 <> 8 ->
      _last_referrer_tag iv1 = read_before
      /\ exists class_tag size tag,
           calls iv2
           = object_ref_call JVMTI_REFERENCE_FIELD 16 class_tag size tag
               read_before 1 :: calls iv1).
Proof.
  split; [done|]. split; [done|]. split; [done|].
  apply (self_reference_caches_written_tag nat (fun _ => true)
           (ObjectMarker_init example_marks) (ObjectMarker_init example_marks)
           example_basic example_object_ref_callback JVMTI_REFERENCE_FIELD
           JVMTI_REFERENCE_FIELD 8 8 16 0 1 example_invoker).
  done.
Defined.

(** *** Iterations over the heap *)

(** A callback that keeps the tag of the object, and one that tags every
    object 9; both go on. A callback that asks to abort. *)
Definition keep_tag_callback : IterateOverHeap.jvmtiHeapObjectCallback nat :=
  fun _ _ tag a => (JVMTI_ITERATION_CONTINUE, tag, S a).

Definition tag_9_callback : IterateOverHeap.jvmtiHeapObjectCallback nat :=
  fun _ _ _ a => (JVMTI_ITERATION_CONTINUE, 9, S a).

Definition abort_callback : IterateOverHeap.jvmtiHeapObjectCallback nat :=
  fun _ _ tag a => (JVMTI_ITERATION_ABORT, tag, S a).

Lemma iterate_over_heap_filters_witness :
  let call := IterateOverHeap.mkCall 8 0 16 5 in
  call ∈ IterateOverHeap.calls
           (IterateOverHeap.iterate_over_heap (fun _ => true)
              JVMTI_HEAP_OBJECT_TAGGED None keep_tag_callback 0%nat
              tagged_store empty_cache).1 /\
  IterateOverHeap.call_object call ∈ HeapIterateFacts.iterated_spaces
  /\ visible_oop (IterateOverHeap.call_object call) = true
  /\ (forall k, None = Some k ->
        is_a (IterateOverHeap.call_object call) k = true)
  /\ (JVMTI_HEAP_OBJECT_TAGGED = JVMTI_HEAP_OBJECT_TAGGED ->
      IterateOverHeap.call_tag call <> 0)
  /\ (JVMTI_HEAP_OBJECT_TAGGED = JVMTI_HEAP_OBJECT_UNTAGGED ->
      IterateOverHeap.call_tag call = 0)
  /\ IterateOverHeap.call_size call
     = obj_size_in_bytes
         (klassOop_if_java_lang_Class (IterateOverHeap.call_object call)).
Proof.
  cbn zeta.
  assert (Hin : IterateOverHeap.mkCall 8 0 16 5
                ∈ IterateOverHeap.calls
                    (IterateOverHeap.iterate_over_heap (fun _ => true)
                       JVMTI_HEAP_OBJECT_TAGGED None keep_tag_callback 0%nat
                       tagged_store empty_cache).1).
  { apply list_elem_of_singleton. reflexivity. }
  split; [exact Hin|].
  apply (IterateOverHeapFacts.iterate_over_heap_filters nat (fun _ => true)
           JVMTI_HEAP_OBJECT_TAGGED None keep_tag_callback 0%nat tagged_store
           empty_cache _ Hin).
Defined.

Lemma iterate_over_heap_visits_each_object_witness :
  (forall class_tag size tag a,
     (keep_tag_callback class_tag size tag a).1.1 <> JVMTI_ITERATION_ABORT) /\
  IterateOverHeap.call_object
    <$> reverse
          (IterateOverHeap.calls
             (IterateOverHeap.iterate_over_heap (fun _ => true)
                JVMTI_HEAP_OBJECT_EITHER None keep_tag_callback 0%nat
                tagged_store empty_cache).1)
  = filter (fun o => IterateOverHeapFacts.selected None o = true)
      HeapIterateFacts.iterated_spaces.
Proof.
  split; [done|].
  apply (IterateOverHeapFacts.iterate_over_heap_visits_each_object nat
           (fun _ => true) None keep_tag_callback 0%nat tagged_store
           empty_cache).
  done.
Defined.

Lemma iterate_over_heap_stops_at_abort_witness :
  HeapIterateFacts.iterated_spaces = [8] ++ [16; 24] /\
  IterateOverHeap._iteration_aborted
    (HeapIterate.object_iterate [8] (IterateOverHeap.do_object (fun _ => true))
       (IterateOverHeap.IterateOverHeapObjectClosure_new tagged_store None
          JVMTI_HEAP_OBJECT_EITHER abort_callback 0%nat))
  = true /\
  (IterateOverHeap.iterate_over_heap (fun _ => true) JVMTI_HEAP_OBJECT_EITHER
     None abort_callback 0%nat tagged_store empty_cache).1
  = HeapIterate.object_iterate [8] (IterateOverHeap.do_object (fun _ => true))
      (IterateOverHeap.IterateOverHeapObjectClosure_new tagged_store None
         JVMTI_HEAP_OBJECT_EITHER abort_callback 0%nat).
Proof.
  split; [done|]. split; [done|].
  apply (IterateOverHeapFacts.iterate_over_heap_stops_at_abort nat
           (fun _ => true) JVMTI_HEAP_OBJECT_EITHER None abort_callback 0%nat
           tagged_store empty_cache [8] [16; 24]); done.
Defined.

Lemma iterate_over_heap_keeps_store_reachable_witness :
  reachable tagged_store /\
  let tm' :=
    IterateOverHeap._tag_map
      (IterateOverHeap.iterate_over_heap (fun _ => true)
         JVMTI_HEAP_OBJECT_EITHER None tag_9_callback 0%nat tagged_store
         empty_cache).1 in
  reachable tm' /\ well_formed (entries (_hashmap tm')).
Proof.
  split; [apply tagged_store_reachable|].
  apply (IterateOverHeapFacts.iterate_over_heap_keeps_store_reachable nat
           (fun _ => true) JVMTI_HEAP_OBJECT_EITHER None tag_9_callback 0%nat
           tagged_store empty_cache tagged_store_reachable).
Defined.

Lemma iterate_over_heap_tags_selected_objects_witness :
  reachable tagged_store /\
  (forall class_tag size tag a,
     (tag_9_callback class_tag size tag a).1.1 <> JVMTI_ITERATION_ABORT
     /\ (tag_9_callback class_tag size tag a).1.2 = 9) /\
  16 ∈ HeapIterateFacts.iterated_spaces /\
  IterateOverHeapFacts.selected None 16 = true /\
  get_tag
    (IterateOverHeap._tag_map
       (IterateOverHeap.iterate_over_heap (fun _ => true)
          JVMTI_HEAP_OBJECT_EITHER None tag_9_callback 0%nat tagged_store
          empty_cache).1) 16
  = 9.
Proof.
  assert (Hin : 16 ∈ HeapIterateFacts.iterated_spaces).
  { unfold HeapIterateFacts.iterated_spaces. cbn. rewrite !elem_of_cons.
    auto. }
  split; [apply tagged_store_reachable|]. split; [done|].
  split; [exact Hin|]. split; [done|].
  apply (IterateOverHeapFacts.iterate_over_heap_tags_selected_objects nat
           (fun _ => true) None tag_9_callback 0%nat tagged_store empty_cache
           9 16 tagged_store_reachable); done.
Defined.

(** The callbacks of an iteration through the heap: the one of the
    objects keeps the tag, the one of primitive fields tags the object
    9. The same with a callback of the objects that asks to abort. *)
Definition example_callbacks : IterateThroughHeap.jvmtiHeapCallbacks nat :=
  {| IterateThroughHeap.heap_iteration_callback :=
       Some (fun _ _ tag _ a => (0, tag, S a));
     IterateThroughHeap.primitive_field_callback :=
       Some (fun _ _ _ _ _ _ a => (0, 9, S a));
     IterateThroughHeap.array_primitive_value_callback := None;
     IterateThroughHeap.string_primitive_value_callback := None |}.

Definition aborting_callbacks : IterateThroughHeap.jvmtiHeapCallbacks nat :=
  {| IterateThroughHeap.heap_iteration_callback :=
       Some (fun _ _ tag _ a => (JVMTI_VISIT_ABORT, tag, S a));
     IterateThroughHeap.primitive_field_callback :=
       Some (fun _ _ _ _ _ _ a => (0, 9, S a));
     IterateThroughHeap.array_primitive_value_callback := None;
     IterateThroughHeap.string_primitive_value_callback := None |}.

Lemma iterate_through_heap_filters_witness :
  let call :=
    IterateThroughHeap.primitive_field_call JVMTI_HEAP_REFERENCE_FIELD 1 8 0 5
      42 73 in
  call ∈ IterateThroughHeap.calls
           (IterateThroughHeap.iterate_through_heap (fun _ => true)
              JVMTI_HEAP_FILTER_UNTAGGED None example_callbacks 0%nat
              tagged_store empty_cache).1 /\
  IterateThroughHeapFacts.reported_object call
  ∈ HeapIterateFacts.iterated_spaces
  /\ IterateThroughHeapFacts.permitted None JVMTI_HEAP_FILTER_UNTAGGED call.
Proof.
  cbn zeta.
  assert (Hin : IterateThroughHeap.primitive_field_call
                  JVMTI_HEAP_REFERENCE_FIELD 1 8 0 5 42 73
                ∈ IterateThroughHeap.calls
                    (IterateThroughHeap.iterate_through_heap (fun _ => true)
                       JVMTI_HEAP_FILTER_UNTAGGED None example_callbacks
                       0%nat tagged_store empty_cache).1).
  { apply list_elem_of_here. }
  split; [exact Hin|].
  apply (IterateThroughHeapFacts.iterate_through_heap_filters nat
           (fun _ => true) JVMTI_HEAP_FILTER_UNTAGGED None example_callbacks
           0%nat tagged_store empty_cache _ Hin).
Defined.

Lemma iterate_through_heap_stops_at_abort_witness :
  HeapIterateFacts.iterated_spaces = [8] ++ [16; 24] /\
  IterateThroughHeap._iteration_aborted
    (HeapIterate.object_iterate [8]
       (IterateThroughHeap.do_object (fun _ => true))
       (IterateThroughHeapFacts.through_heap_start nat tagged_store None 0
          aborting_callbacks 0%nat empty_cache)).1
  = true /\
  (IterateThroughHeap.iterate_through_heap (fun _ => true) 0 None
     aborting_callbacks 0%nat tagged_store empty_cache).1
  = (HeapIterate.object_iterate [8]
       (IterateThroughHeap.do_object (fun _ => true))
       (IterateThroughHeapFacts.through_heap_start nat tagged_store None 0
          aborting_callbacks 0%nat empty_cache)).1.
Proof.
  split; [done|]. split; [done|].
  apply (IterateThroughHeapFacts.iterate_through_heap_stops_at_abort nat
           (fun _ => true) 0 None aborting_callbacks 0%nat tagged_store
           empty_cache [8] [16; 24]); done.
Defined.

Lemma iterate_through_heap_keeps_store_and_cache_witness :
  reachable tagged_store /\
  let r :=
    IterateThroughHeap.iterate_through_heap (fun _ => true) 0 None
      example_callbacks 0%nat tagged_store empty_cache in
  reachable (IterateThroughHeap._tag_map r.1)
  /\ well_formed (entries (_hashmap (IterateThroughHeap._tag_map r.1)))
  /\ _is_active r.2 = false
  /\ cached_field_map_count r.2 = 0
  /\ (cache_inv empty_cache ->
      forall k, jvmti_cached_class_field_map r.2 k = None).
Proof.
  split; [apply tagged_store_reachable|].
  apply (IterateThroughHeapFacts.iterate_through_heap_keeps_store_and_cache
           nat (fun _ => true) 0 None example_callbacks 0%nat tagged_store
           empty_cache tagged_store_reachable).
Defined.

End WalkExamples.

(** ** A class and its mirror *)

Module MirrorExamples.
Import Hashmap TagMap Walker.
Import HashmapFacts TagMapFacts StoreFacts WalkerFacts.

(** A 64-bit VM with the class at 32 (a klassOop) and its mirror at 24,
    the class [java.lang.Class] at 2048 and its mirror at 40; the two
    mirrors are instances of the class at 2048, the two klassOops have the
    klass at 64, and every other object is an instance of the class at
    32. *)
Definition mirror_vm : Collaborators :=
  {| lp64 := true;
     load_threshold := fun size => 4 * size;
     max_free_entries := 4096;
     klass := fun o =>
       if bool_decide (o = 24 \/ o = 40) then 2048
       else if bool_decide (o = 32 \/ o = 2048) then 64 else 32;
     Class_klass := 2048;
     java_lang_Class_is_primitive := fun _ => false;
     java_lang_Class_as_klassOop := fun o => if o =? 24 then 32 else 2048;
     is_klass := fun o => bool_decide (o = 32 \/ o = 2048);
     java_mirror := fun k => if k =? 32 then 24 else 40;
     obj_size_in_bytes := fun _ => 16 |}.

#[local] Existing Instance mirror_vm.

(** [set_tag] on the mirror, then on the klassOop: the second call is not
    a call for the mirror, and it sets the tag that [get_tag] returns for
    the mirror. *)
Lemma set_tag_of_klassOop_retags_mirror :
  let calls := [(true, 24, 5); (true, 32, 7)] in
  klassOop_if_java_lang_Class 24 = 32 /\
  klassOop_if_java_lang_Class 32 = 32 /\
  last (calls_for 24 calls) = Some (true, 24, 5) /\
  get_tag (run_set_tags calls new_tag_map) 24 = 7 /\
  get_tag (run_set_tags calls new_tag_map) 24
  <> match last (calls_for 24 calls) with Some c => c.2 | None => 0 end /\
  get_tag (run_set_tags [(true, 24, 5)] new_tag_map) 32 = 5 /\
  calls_for 32 [(true, 24, 5)] = [].
Proof. vm_compute. repeat split; discriminate. Qed.

Lemma get_tag_most_recent_set_tag_witness :
  let calls := [(true, 8, 5); (true, 24, 6); (true, 32, 7); (true, 8, 9)] in
  (forall c, c ∈ calls ->
     klassOop_if_java_lang_Class c.1.2 = klassOop_if_java_lang_Class 8 ->
     c.1.2 = 8) /\
  calls_for_identity 8 calls = calls_for 8 calls /\
  get_tag (run_set_tags calls new_tag_map) 8
  = match last (calls_for_identity 8 calls) with
    | Some c => c.2
    | None => 0
    end /\
  get_tag (run_set_tags calls new_tag_map) 8 = 9 /\
  calls_for_identity 24 calls = [(true, 24, 6); (true, 32, 7)] /\
  get_tag (run_set_tags calls new_tag_map) 24 = 7.
Proof.
  cbn zeta.
  assert (H8 : forall c : bool * oop * jlong,
             c ∈ [(true, 8, 5); (true, 24, 6); (true, 32, 7); (true, 8, 9)] ->
             klassOop_if_java_lang_Class c.1.2
             = klassOop_if_java_lang_Class 8 ->
             c.1.2 = 8).
  { intros c. rewrite !elem_of_cons, elem_of_nil.
    intros [->|[->|[->|[->|[]]]]]; vm_compute; congruence. }
  destruct (get_tag_most_recent_set_tag
              [(true, 8, 5); (true, 24, 6); (true, 32, 7); (true, 8, 9)] 8)
    as [Hget Hcalls].
  split; [exact H8|]. split; [exact (Hcalls H8)|]. split; [exact Hget|].
  split; [reflexivity|]. split; reflexivity.
Defined.

(** The objects at 8 and 16, instances of the class at 32 with one
    reference field at offset 8, and the two mirrors. The field of the
    object at 8 refers to the object at 16. The class at 32 has one static
    reference field at offset 0, which holds [static_value]. An object is
    marked when its mark word is 3. *)
Definition mirror_heap (static_value : oop) : HeapModel :=
  {| is_instance := fun o => negb (is_klass o);
     is_objArray := fun _ => false;
     is_typeArray := fun _ => false;
     is_array := fun _ => false;
     array_length := fun _ => 0;
     is_a := fun _ _ => true;
     visible_oop := fun _ => true;
     deleted_handle := 4;
     is_marked := fun m => m =? 3;
     must_be_preserved := fun _ m => negb (m =? 1);
     marked_prototype := 3;
     init_mark_of := fun _ => 1;
     UseBiasedLocking := false;
     UseSharedSpaces := false;
     heap_objects := [8; 16; 24; 40];
     ro_space_objects := [];
     rw_space_objects := [];
     BiasedLocking_preserve_marks := fun _ => [];
     BiasedLocking_restore_marks := fun _ marks => marks;
     jni_global_oops := [];
     system_dictionary_oops := [];
     monitor_oops := [];
     java_threads := [];
     universe_oops := [];
     code_cache_oops := [];
     thread_id := fun _ => 1;
     klass_oop_is_instance := fun _ => true;
     is_linked := fun _ => true;
     java_super := fun _ => 0;
     Object_klass := 1024;
     class_loader := fun _ => 0;
     protection_domain := fun _ => 0;
     signers := fun _ => 0;
     constants := fun _ => [];
     local_interfaces := fun _ => [];
     create_map_of_static_fields :=
       fun k => if k =? 32 then [mkField 0 76 0] else [];
     create_map_of_instance_fields := fun _ => [mkField 0 76 8];
     obj_field := fun o offset =>
       if (o =? 32) && (offset =? 0) then static_value
       else if (o =? 8) && (offset =? 8) then 16 else 0;
     primitive_field := fun _ _ _ => 42;
     String_klass := 4096;
     string_chars := fun _ => [];
     systemObjArrayKlassObj := 0;
     obj_at := fun _ _ => 0;
     element_type := fun _ => 0;
     array_elements := fun _ => [] |}.

(** An advanced walk from the mirror at 24 whose heap reference callback
    tags the object 5 and the referrer 7, and asks to visit the object. *)
Definition tagging_callback : jvmtiHeapReferenceCallback nat :=
  fun _ _ _ _ _ _ _ _ a => (JVMTI_VISIT_OBJECTS, 5, 7, S a).

Definition tagging_context : AdvancedHeapWalkContext nat :=
  {| heap_filter := 0;
     klass_filter := None;
     heap_reference_callback := Some tagging_callback;
     primitive_field_callback := None;
     array_primitive_value_callback := None;
     string_primitive_value_callback := None |}.

Definition mirror_marks : oop -> Z := fun _ => 1.

Definition no_cache : FieldMapCache :=
  {| _class_list := None;
     jvmti_cached_class_field_map := fun _ => None;
     _is_active := false |}.

Definition new_invoker : CallbackInvoker nat :=
  CallbackInvoker_initialize new_tag_map 0%nat.

(** The heap whose static field holds the object at 16. *)
Definition object_static_heap : HeapModel := mirror_heap 16.

(** The heap whose static field holds the klassOop of its own class, as
    [sun.misc.Unsafe.staticFieldBase] hands it out. *)
Definition klassOop_static_heap : HeapModel := mirror_heap 32.

Definition mirror_univ : list oop := [8; 16; 24; 40].

Lemma mirror_keys_apart (a b : oop) :
  a ∈ mirror_univ -> b ∈ mirror_univ ->
  klassOop_if_java_lang_Class a = klassOop_if_java_lang_Class b -> a = b.
Proof.
  unfold mirror_univ. rewrite !elem_of_cons, !elem_of_nil.
  intros Ha Hb.
  destruct Ha as [->|[->|[->|[->|[]]]]];
    destruct Hb as [->|[->|[->|[->|[]]]]]; vm_compute; congruence.
Qed.

Section static_field_of_object.
#[local] Existing Instance object_static_heap.

Lemma mirror_univ_closed : closed (fun o => o ∈ mirror_univ).
Proof.
  unfold mirror_univ. split; cbn.
  - intros k. destruct (k =? 32); rewrite !elem_of_cons; auto.
  - intros o. rewrite !elem_of_cons, !elem_of_nil.
    intros [->|[->|[->|[->|[]]]]] Hk; try (by vm_compute in Hk);
      [by left|by right; left].
  - intros o offset.
    destruct ((o =? 32) && (offset =? 0));
      [|destruct ((o =? 8) && (offset =? 8)); [|done]];
      intros _ _; rewrite !elem_of_cons; auto.
  - intros k field. destruct (k =? 32) eqn:Ek.
    + intros Hf. apply list_elem_of_singleton in Hf as ->.
      apply Z.eqb_eq in Ek as ->. intros _. cbn.
      rewrite !elem_of_cons. auto.
    + intros Hf. by apply elem_of_nil in Hf.
  - done.
  - done.
  - done.
  - done.
  - intros k s Hs. by apply elem_of_nil in Hs.
  - intros o Ho. by apply elem_of_nil in Ho.
  - intros t Ht. by apply elem_of_nil in Ht.
  - intros t depth method bci slot o Ht. by apply elem_of_nil in Ht.
  - intros t depth method handles o Ht. by apply elem_of_nil in Ht.
Qed.

Lemma walk_keeps_store_reachable_witness :
  closed (fun o => o ∈ mirror_univ) /\
  (forall a b,
     a ∈ mirror_univ -> b ∈ mirror_univ ->
     klassOop_if_java_lang_Class a = klassOop_if_java_lang_Class b -> a = b) /\
  (_initial_object (VM_HeapWalkOperation_advanced 24 tagging_context) <> NULL ->
   _initial_object (VM_HeapWalkOperation_advanced 24 tagging_context)
   ∈ mirror_univ) /\
  Forall (fun o => o ∈ mirror_univ) (_visit_stack new_invoker) /\
  reachable (_tag_map new_invoker) /\
  klassOop_if_java_lang_Class 24 = 32 /\
  java_mirror 32 = 24 /\
  let tm :=
    _tag_map
      (invoker (doit (fun _ => true) 10
                  (VM_HeapWalkOperation_advanced 24 tagging_context)
                  mirror_marks no_cache new_invoker).2) in
  entries (_hashmap tm) = [mkEntry 16 7; mkEntry 32 5] /\
  reachable tm /\ well_formed (entries (_hashmap tm)).
Proof.
  assert (Hinit : _initial_object
                    (VM_HeapWalkOperation_advanced 24 tagging_context)
                  <> NULL ->
                  _initial_object
                    (VM_HeapWalkOperation_advanced 24 tagging_context)
                  ∈ mirror_univ).
  { intros _. cbn. unfold mirror_univ. rewrite !elem_of_cons. auto. }
  split; [apply mirror_univ_closed|]. split; [apply mirror_keys_apart|].
  split; [exact Hinit|]. split; [apply Forall_nil_2|].
  split; [apply rtc_refl|]. split; [reflexivity|]. split; [reflexivity|].
  split; [reflexivity|].
  apply (walk_keeps_store_reachable nat (fun _ => true)
           (fun o => o ∈ mirror_univ)
           (VM_HeapWalkOperation_advanced 24 tagging_context)
           mirror_univ_closed mirror_keys_apart 10 mirror_marks no_cache
           new_invoker Hinit); [apply Forall_nil_2|apply rtc_refl].
Defined.

(** The same walk under the class filter of the class at 32, from the
    object at 8: the reference to the mirror at 24, an instance of the
    class at 2048, is not reported, and the walk goes through the mirror
    to the static field of its class. *)
Definition filtering_context : AdvancedHeapWalkContext nat :=
  {| heap_filter := 0;
     klass_filter := Some 32;
     heap_reference_callback := Some tagging_callback;
     primitive_field_callback := None;
     array_primitive_value_callback := None;
     string_primitive_value_callback := None |}.

Lemma class_filter_reports_only_its_class_witness :
  klass_filter filtering_context = Some 32 /\
  klass 24 = 2048 /\
  klass 16 = 32 /\
  calls (invoker (doit (fun _ => true) 10
                    (VM_HeapWalkOperation_advanced 8 filtering_context)
                    mirror_marks no_cache new_invoker).2)
  = [heap_reference_call JVMTI_HEAP_REFERENCE_STATIC_FIELD
       (Some (info_index 0)) 16 0 0 16 5 (Some 0) (-1);
     heap_reference_call JVMTI_HEAP_REFERENCE_FIELD
       (Some (info_index 0)) 16 0 0 16 0 (Some 0) (-1)] /\
  (let r := invoke_advanced_object_reference_callback (fun _ => true)
              (ObjectMarker_init mirror_marks) filtering_context
              JVMTI_HEAP_REFERENCE_CLASS 8 24 (-1) new_invoker in
   r.1 = true /\ calls r.2 = [] /\ _visit_stack r.2 = [24]) /\
  (forall fuel initial_object marks c (iv : CallbackInvoker nat),
     exists new,
       calls (invoker (doit (fun _ => true) fuel
                         (VM_HeapWalkOperation_advanced initial_object
                            filtering_context) marks c iv).2)
       = new ++ calls iv
       /\ Forall (fun call => klass (call_object call) = 32) new)
  /\ (forall mk ref_kind referrer obj index (iv : CallbackInvoker nat),
        klass obj <> 32
        \/ (let wrapper := CallbackWrapper_new (_tag_map iv) obj in
            is_filtered_by_heap_filter (_obj_tag wrapper)
              (_klass_tag wrapper) (heap_filter filtering_context) = true) ->
        let r := invoke_advanced_object_reference_callback (fun _ => true) mk
                   filtering_context ref_kind referrer obj index iv in
        r.1 = true
        /\ calls r.2 = calls iv
        /\ _user_data r.2 = _user_data iv
        /\ _visit_stack r.2 =
           if Walker.visited mk obj then _visit_stack iv
           else obj :: _visit_stack iv).
Proof.
  split; [reflexivity|]. split; [reflexivity|]. split; [reflexivity|].
  split; [reflexivity|]. split; [by vm_compute|].
  apply (class_filter_reports_only_its_class nat (fun _ => true)
           filtering_context 32).
  reflexivity.
Defined.







End static_field_of_object.

Section static_field_of_klassOop.
#[local] Existing Instance klassOop_static_heap.

(** C2: the walk that follows references from the mirror at 24, in the
    heap where the static field of the class at 32 holds the klassOop of
    the class, starts from the empty store and calls the callback once,
    for the static field, with the klassOop as the object and the mirror
    as the referrer. Both have the tagging identity 32 and neither is
    tagged; the callback tags the object 5 and the referrer 7; the walk
    ends with two entries for the object at 32, in a store that is not
    well formed. *)
Lemma walk_over_klassOop_static_field_adds_two_entries :
  let op := VM_HeapWalkOperation_advanced 24 tagging_context in
  let r := doit (fun _ => true) 10 op mirror_marks no_cache new_invoker in
  let tm := _tag_map (invoker r.2) in
  entries (_hashmap (_tag_map new_invoker)) = [] /\
  create_map_of_static_fields 32 = [mkField 0 76 0] /\
  obj_field 32 0 = 32 /\
  is_klass 32 = true /\
  klassOop_if_java_lang_Class 24 = 32 /\
  klassOop_if_java_lang_Class 32 = 32 /\
  r.1 = walk_completed /\
  calls (invoker r.2)
  = [heap_reference_call JVMTI_HEAP_REFERENCE_STATIC_FIELD
       (Some (info_index 0)) 32 0 0 16 0 (Some 0) (-1)] /\
  entries (_hashmap tm) = [mkEntry 32 5; mkEntry 32 7] /\
  _entry_count (_hashmap tm) = 2 /\
  ~ NoDup (_object <$> entries (_hashmap tm)) /\
  ~ well_formed (entries (_hashmap tm)).
Proof.
  cbn zeta.
  assert (He : entries
                 (_hashmap
                    (_tag_map
                       (invoker
                          (doit (fun _ => true) 10
                             (VM_HeapWalkOperation_advanced 24
                                tagging_context)
                             mirror_marks no_cache new_invoker).2)))
               = [mkEntry 32 5; mkEntry 32 7]) by reflexivity.
  assert (Hd : ~ NoDup (_object <$> [mkEntry 32 5; mkEntry 32 7])).
  { cbn. intros Hn. apply NoDup_cons in Hn as [Hn _]. apply Hn.
    apply list_elem_of_here. }
  rewrite He. repeat (split; [reflexivity|]).
  split; [exact Hd|]. intros [Hn _]. by apply Hd.
Qed.

End static_field_of_klassOop.

End MirrorExamples.
